(** * dudect: the online Welch t-test engine of [dudect/dudect.c]

    A shallow embedding of the measurement/statistics engine: the Welford
    accumulator ([t_push], [t_compute], [t_init]), the percentile calibrator
    ([cmp], [percentile], [prepare_percentiles]), the measurement loop
    ([measure]), the statistics updater ([update_statistics]), the classifier
    ([max_test], [report]) and the engine step ([dudect_main]).

    The C code computes on [double]; the embedding is written once over an
    interface of the double operations the code uses ([DoubleOps]) and read
    at two instances: IEEE binary64 (the kernel's primitive floats, which is
    what the compiled code runs on) and exact real arithmetic. *)

From Stdlib Require Import ZArith Zpower List Bool Lia Floats Reals Lra.
From Stdlib Require Uint63.
From Stdlib Require Import Permutation Sorted.
Import ListNotations.

Set Implicit Arguments.

(** ** The double operations used by the engine *)

Class DoubleOps (D : Type) : Type := {
  d_of_Z : Z -> D;               (* conversion of an integer: [(double) k] *)
  d_half : D;                    (* the literal [0.5] *)
  d_add : D -> D -> D;
  d_sub : D -> D -> D;
  d_mul : D -> D -> D;
  d_div : D -> D -> D;
  d_sqrt : D -> D;               (* [sqrt] of <math.h> *)
  d_fabs : D -> D;               (* [fabs] of <math.h> *)
  d_pow : D -> D -> D;           (* [pow] of <math.h> *)
  d_ltb : D -> D -> bool;        (* [a < b] *)
  d_to_size_t : D -> option Z    (* the cast [(size_t) x]; [None] where C
                                    leaves it undefined *)
}.

Declare Scope double_scope.
Delimit Scope double_scope with D.
Infix "+" := d_add : double_scope.
Infix "-" := d_sub : double_scope.
Infix "*" := d_mul : double_scope.
Infix "/" := d_div : double_scope.
Infix "<?" := d_ltb : double_scope.

(** *** IEEE binary64 *)

Module IEEE.

(** [(double) z]: round-to-nearest-even conversion of an integer. For an
    integer the primitive 63-bit integers hold, the kernel's conversion
    instruction computes it. *)
Definition of_Z (z : Z) : float :=
  if ((0 <=? z) && (z <? 9223372036854775808))%Z
  then PrimFloat.of_uint63 (Uint63.of_Z z)
  else SF2Prim (binary_normalize prec emax z 0 false).

(** [(size_t) x]: truncation; defined for values in [(-1, 2^64)]. *)
Definition to_size_t (x : float) : option Z :=
  match Prim2SF x with
  | S754_zero _ => Some 0%Z
  | S754_finite s m e =>
      let v := Z.shiftl (Zpos m) e in
      if s then (if (v =? 0)%Z then Some 0%Z else None)
      else if (v <? 2 ^ 64)%Z then Some v else None
  | _ => None
  end.

(** The instance takes the libm [pow] as an argument: it is the one double
    operation the kernel's floats do not provide. *)
Definition ops (pow : float -> float -> float) : DoubleOps float := {|
  d_of_Z := of_Z;
  d_half := 0.5%float;
  d_add := PrimFloat.add;
  d_sub := PrimFloat.sub;
  d_mul := PrimFloat.mul;
  d_div := PrimFloat.div;
  d_sqrt := PrimFloat.sqrt;
  d_fabs := PrimFloat.abs;
  d_pow := pow;
  d_ltb := PrimFloat.ltb;
  d_to_size_t := to_size_t
|}.

(** [pow] on the arguments where it is exact by repeated multiplication: a
    non-negative integral exponent below 2^10. Anywhere else the result is
    NaN, so that no evaluation below depends on an unmodelled value. *)
Definition pow_intexp (x y : float) : float :=
  match to_size_t y with
  | Some k =>
      if (PrimFloat.eqb (of_Z k) y && (k <? 1024)%Z)%bool
      then Nat.iter (Z.to_nat k) (PrimFloat.mul x) 1%float
      else PrimFloat.nan
  | None => PrimFloat.nan
  end.

End IEEE.

(** *** Exact real arithmetic *)

Module Exact.

Definition ltb (a b : R) : bool := if Rlt_dec a b then true else false.

Definition to_size_t (x : R) : option Z :=
  if Rlt_dec (-1) x then Some (Z.max 0 (Zfloor x)) else None.

Definition ops : DoubleOps R := {|
  d_of_Z := IZR;
  d_half := (/ 2)%R;
  d_add := Rplus;
  d_sub := Rminus;
  d_mul := Rmult;
  d_div := Rdiv;
  d_sqrt := sqrt;
  d_fabs := Rabs;
  d_pow := Rpower;
  d_ltb := ltb;
  d_to_size_t := to_size_t
|}.

End Exact.

(** ** The option monad of the assertions *)

Definition bind {A B : Type} (x : option A) (k : A -> option B) : option B :=
  match x with Some a => k a | None => None end.

Notation "x <- e ;; k" := (bind e (fun x => k))
  (at level 61, e at next level, right associativity).

(** ** The online Welch t-test accumulator *)

Section Accumulator.

Context {D : Type} {ops : DoubleOps D}.

(** [ttest_ctx_t]: the three arrays [double mean[2], m2[2], n[2]]. *)
Record ttest_ctx_t : Type := {
  mean : D * D;
  m2 : D * D;
  n : D * D
}.

(** [a[class]] and [a[class] = v] on a two-element array. *)
Definition sel (class : Z) (a : D * D) : D :=
  if (class =? 0)%Z then fst a else snd a.

Definition upd (class : Z) (v : D) (a : D * D) : D * D :=
  if (class =? 0)%Z then (v, snd a) else (fst a, v).

Definition t_init : ttest_ctx_t :=
  {| mean := (d_of_Z 0, d_of_Z 0);
     m2 := (d_of_Z 0, d_of_Z 0);
     n := (d_of_Z 0, d_of_Z 0) |}.

(** [t_push]: [None] is the failed [assert(class == 0 || class == 1)]. *)
Definition t_push (ctx : ttest_ctx_t) (x : D) (class : Z)
  : option ttest_ctx_t :=
  if ((class =? 0) || (class =? 1))%Z%bool then
    let n' := (sel class (n ctx) + d_of_Z 1)%D in
    let delta := (x - sel class (mean ctx))%D in
    let mean' := (sel class (mean ctx) + delta / n')%D in
    let m2' := (sel class (m2 ctx) + delta * (x - mean'))%D in
    Some {| mean := upd class mean' (mean ctx);
            m2 := upd class m2' (m2 ctx);
            n := upd class n' (n ctx) |}
  else None.

Definition t_compute (ctx : ttest_ctx_t) : D :=
  let var0 := (fst (m2 ctx) / (fst (n ctx) - d_of_Z 1))%D in
  let var1 := (snd (m2 ctx) / (snd (n ctx) - d_of_Z 1))%D in
  let num := (fst (mean ctx) - snd (mean ctx))%D in
  let den := d_sqrt (var0 / fst (n ctx) + var1 / snd (n ctx))%D in
  (num / den)%D.

End Accumulator.

Arguments ttest_ctx_t D : clear implicits.

(** ** The engine *)

(** [dudect_state_t]. *)
Inductive dudect_state_t : Type :=
  | DUDECT_LEAKAGE_FOUND
  | DUDECT_NO_LEAKAGE_EVIDENCE_YET
  | DUDECT_NOT_ENOUGHT_MEASUREMENTS.

(** Array write [l[i] = v]; an index past the end (undefined in C) leaves the
    list as it is. No context built by [dudect_init] reaches that case. *)
Fixpoint list_set {A : Type} (i : nat) (v : A) (l : list A) : list A :=
  match l, i with
  | [], _ => []
  | _ :: t, O => v :: t
  | h :: t, S j => h :: list_set j v t
  end.

(** A [for] loop over the indices [idx] whose body may hit an assertion. *)
Fixpoint for_each {S : Type} (body : S -> nat -> option S) (idx : list nat)
  (s : S) : option S :=
  match idx with
  | [] => Some s
  | i :: rest => s' <- body s i ;; for_each body rest s'
  end.

(** Two's-complement wrap-around of [int64_t] and of [int]: the low [w] bits
    of [z + 2^(w-1)], less [2^(w-1)]. The constants are 2^63 and 2^64 - 1,
    and 2^31 and 2^32 - 1. *)
Definition wrap64 (z : Z) : Z :=
  (Z.land (z + 9223372036854775808) 18446744073709551615
   - 9223372036854775808)%Z.
Definition wrap32 (z : Z) : Z :=
  (Z.land (z + 2147483648) 4294967295 - 2147483648)%Z.

(** [cmp]: the difference of two [int64_t], cast to [int]. *)
Definition cmp (a b : Z) : Z := wrap32 (wrap64 (a - b)).

(** What one call of [dudect_main] receives from outside the engine: the
    class labels written by the [prepare] callback and the successive
    readings of the cycle counter, one per trial. *)
Record batch : Type := {
  labels : list Z;
  cycles : list Z
}.

Section Engine.

Context {D : Type} {ops : DoubleOps D}.

(** The constants of [dudect.h]: the number of cropping thresholds and the
    enough-measurements threshold. [DUDECT_TESTS] is the raw test, one test
    per threshold and the second-order test. *)
Variable DUDECT_NUMBER_PERCENTILES : nat.
Variable DUDECT_ENOUGH_MEASUREMENTS : Z.
Definition DUDECT_TESTS : nat := 1 + DUDECT_NUMBER_PERCENTILES + 1.

(** The C library's [qsort], applied to a comparison function and the
    array's contents. *)
Variable qsort : (Z -> Z -> Z) -> list Z -> list Z.

Definition t_threshold_bananas : Z := 500.
Definition t_threshold_moderate : Z := 10.

(** [dudect_ctx_t], with [config->number_measurements] as the one field of
    the configuration the engine itself reads. *)
Record dudect_ctx_t : Type := {
  number_measurements : nat;
  ticks : list Z;
  exec_times : list Z;
  classes : list Z;
  ttest_ctxs : list (ttest_ctx_t D);
  percentiles : list Z
}.

Definition set_ttest_ctxs (ctx : dudect_ctx_t) (l : list (ttest_ctx_t D))
  : dudect_ctx_t :=
  {| number_measurements := number_measurements ctx;
     ticks := ticks ctx;
     exec_times := exec_times ctx;
     classes := classes ctx;
     ttest_ctxs := l;
     percentiles := percentiles ctx |}.

Definition ttest (ctx : dudect_ctx_t) (i : nat) : ttest_ctx_t D :=
  nth i (ttest_ctxs ctx) t_init.

(** [percentile]: sorts [a[0..size)] in place and reads one position;
    [None] is the failed [assert(array_position < size)]. Returns the value
    and the array as [qsort] left it. *)
Definition percentile (a : list Z) (which : D) (size : nat)
  : option (Z * list Z) :=
  let a' := qsort cmp (firstn size a) ++ skipn size a in
  array_position <- d_to_size_t (d_of_Z (Z.of_nat size) * which)%D ;;
  if (array_position <? Z.of_nat size)%Z
  then Some (nth (Z.to_nat array_position) a' 0%Z, a')
  else None.

(** The quantile of threshold [i]:
    [1 - pow(0.5, 10 * (double)(i + 1) / DUDECT_NUMBER_PERCENTILES)]. *)
Definition quantile (i : nat) : D :=
  (d_of_Z 1 -
   d_pow d_half
     (d_of_Z 10 * d_of_Z (Z.of_nat (i + 1))
      / d_of_Z (Z.of_nat DUDECT_NUMBER_PERCENTILES)))%D.

Definition prepare_percentiles (ctx : dudect_ctx_t) : option dudect_ctx_t :=
  for_each
    (fun c i =>
       r <- percentile (exec_times c) (quantile i) (number_measurements c) ;;
       Some {| number_measurements := number_measurements c;
               ticks := ticks c;
               exec_times := snd r;
               classes := classes c;
               ttest_ctxs := ttest_ctxs c;
               percentiles := list_set i (fst r) (percentiles c) |})
    (seq 0 DUDECT_NUMBER_PERCENTILES) ctx.

(** The [prepare] callback, as far as the engine sees it: it writes the
    [classes] array. *)
Definition prepare (ctx : dudect_ctx_t) (b : batch) : dudect_ctx_t :=
  {| number_measurements := number_measurements ctx;
     ticks := ticks ctx;
     exec_times := exec_times ctx;
     classes := map (fun i => nth i (labels b) 0%Z)
                    (seq 0 (number_measurements ctx));
     ttest_ctxs := ttest_ctxs ctx;
     percentiles := percentiles ctx |}.

(** [measure]: [ticks[i]] is the [i]-th counter reading; the first
    [number_measurements - 1] entries of [exec_times] become the successive
    differences and the last entry keeps its value. This is the function for
    [number_measurements >= 1]; with no measurement the bound of the second
    loop wraps around as a [size_t], which this definition does not follow. *)
Definition measure (ctx : dudect_ctx_t) (b : batch) : dudect_ctx_t :=
  let N := number_measurements ctx in
  let ticks' := map (fun i => nth i (cycles b) 0%Z) (seq 0 N) in
  {| number_measurements := N;
     ticks := ticks';
     exec_times :=
       map (fun i => wrap64 (nth (i + 1) ticks' 0 - nth i ticks' 0)%Z)
           (seq 0 (N - 1))
       ++ skipn (N - 1) (exec_times ctx);
     classes := classes ctx;
     ttest_ctxs := ttest_ctxs ctx;
     percentiles := percentiles ctx |}.

(** [t_push(ctx->ttest_ctxs[k], x, class)]. *)
Definition push_at (ctx : dudect_ctx_t) (k : nat) (x : D) (class : Z)
  : option dudect_ctx_t :=
  a <- t_push (ttest ctx k) x class ;;
  Some (set_ttest_ctxs ctx (list_set k a (ttest_ctxs ctx))).

(** The body of the loop of [update_statistics], for the index [i]. *)
Definition update_one (ctx : dudect_ctx_t) (i : nat) : option dudect_ctx_t :=
  let difference := nth i (exec_times ctx) 0%Z in
  let class := nth i (classes ctx) 0%Z in
  if (difference <? 0)%Z then Some ctx
  else
    ctx <- push_at ctx 0 (d_of_Z difference) class ;;
    ctx <- for_each
             (fun c crop_index =>
                if (difference <? nth crop_index (percentiles c) 0)%Z
                then push_at c (crop_index + 1) (d_of_Z difference) class
                else Some c)
             (seq 0 DUDECT_NUMBER_PERCENTILES) ctx ;;
    if (d_of_Z 10000 <? fst (n (ttest ctx 0)))%D then
      let centered :=
        (d_of_Z difference - sel class (mean (ttest ctx 0)))%D in
      push_at ctx (1 + DUDECT_NUMBER_PERCENTILES) (centered * centered)%D
              class
    else Some ctx.

(** [update_statistics]: the loop over the indices from 10 up to, and not
    including, [number_measurements - 1]. That bound is a [size_t]: with no
    measurement it wraps around to [SIZE_MAX], and the first iteration reads
    [exec_times[10]] and [classes[10]] past the end of buffers of no element.
    [None] is that fault or a failed assertion of [t_push]. *)
Definition update_statistics (ctx : dudect_ctx_t) : option dudect_ctx_t :=
  if (number_measurements ctx =? 0)%nat then None
  else for_each update_one (seq 10 (number_measurements ctx - 1 - 10)) ctx.

(** The enough-measurements gate of [max_test]. *)
Definition gate (a : ttest_ctx_t D) : bool :=
  (d_of_Z DUDECT_ENOUGH_MEASUREMENTS <? fst (n a))%D.

(** One iteration of the loop of [max_test]. The state is [ret], [max] and
    the accumulators [t_compute] has been called on so far. *)
Definition max_test_step (ctx : dudect_ctx_t)
  (st : nat * D * list (ttest_ctx_t D)) (i : nat)
  : nat * D * list (ttest_ctx_t D) :=
  let '(ret, max, calls) := st in
  if gate (ttest ctx i) then
    let x := d_fabs (t_compute (ttest ctx i)) in
    if (max <? x)%D then (i, x, calls ++ [ttest ctx i])
    else (ret, max, calls ++ [ttest ctx i])
  else st.

Definition max_test_loop (ctx : dudect_ctx_t)
  : nat * D * list (ttest_ctx_t D) :=
  fold_left (max_test_step ctx) (seq 0 DUDECT_TESTS) (0, d_of_Z 0, []).

Definition max_test_index (ctx : dudect_ctx_t) : nat :=
  fst (fst (max_test_loop ctx)).

Definition max_test (ctx : dudect_ctx_t) : ttest_ctx_t D :=
  ttest ctx (max_test_index ctx).

(** The numbers [report] prints. *)
Inductive printed : Type :=
| Not_enough (meas still_to_go : D)
| Statistics (meas max_t max_tau to_detect : D).

(** What [report] does: the state it returns, what it prints and the
    accumulators it has called [t_compute] on, in order. *)
Record report_t : Type := {
  state : dudect_state_t;
  output : printed;
  t_compute_calls : list (ttest_ctx_t D)
}.

Definition report (ctx : dudect_ctx_t) : report_t :=
  let t := max_test ctx in
  let calls := snd (max_test_loop ctx) ++ [t] in
  let max_t := d_fabs (t_compute t) in
  let number_traces_max_t := (fst (n t) + snd (n t))%D in
  let max_tau := (max_t / d_sqrt number_traces_max_t)%D in
  let meas := (number_traces_max_t / d_of_Z 1000000)%D in
  if (number_traces_max_t <? d_of_Z DUDECT_ENOUGH_MEASUREMENTS)%D then
    {| state := DUDECT_NOT_ENOUGHT_MEASUREMENTS;
       output := Not_enough meas
                   (d_of_Z DUDECT_ENOUGH_MEASUREMENTS - number_traces_max_t)%D;
       t_compute_calls := calls |}
  else
    let out :=
      Statistics meas max_t max_tau
                 (d_of_Z (5 * 5) / (max_tau * max_tau))%D in
    if (d_of_Z t_threshold_bananas <? max_t)%D then
      {| state := DUDECT_LEAKAGE_FOUND; output := out;
         t_compute_calls := calls |}
    else if (d_of_Z t_threshold_moderate <? max_t)%D then
      {| state := DUDECT_LEAKAGE_FOUND; output := out;
         t_compute_calls := calls |}
    else
      {| state := DUDECT_NO_LEAKAGE_EVIDENCE_YET; output := out;
         t_compute_calls := calls |}.

(** What one call of [dudect_main] does besides updating the context. *)
Record step_t : Type := {
  ret : dudect_state_t;
  calibrated : bool;                      (* took the [first_time] branch *)
  reported : option report_t              (* the call of [report], if any *)
}.

Definition dudect_main (ctx : dudect_ctx_t) (b : batch)
  : option (dudect_ctx_t * step_t) :=
  let ctx := prepare ctx b in
  let ctx := measure ctx b in
  let first_time :=
    (nth (DUDECT_NUMBER_PERCENTILES - 1) (percentiles ctx) 0 =? 0)%Z in
  if first_time then
    ctx <- prepare_percentiles ctx ;;
    Some (ctx, {| ret := DUDECT_NOT_ENOUGHT_MEASUREMENTS;
                  calibrated := true; reported := None |})
  else
    ctx <- update_statistics ctx ;;
    let r := report ctx in
    Some (ctx, {| ret := state r; calibrated := false;
                  reported := Some r |}).

(** [dudect_init]: every buffer zeroed by [calloc], every accumulator
    through [t_init]. *)
Definition dudect_init (N : nat) : dudect_ctx_t :=
  {| number_measurements := N;
     ticks := repeat 0%Z N;
     exec_times := repeat 0%Z N;
     classes := repeat 0%Z N;
     ttest_ctxs := repeat t_init DUDECT_TESTS;
     percentiles := repeat 0%Z DUDECT_NUMBER_PERCENTILES |}.

(** The context after the calls of [dudect_main] on the batches [bs], in
    order; [None] once an assertion has failed. *)
Fixpoint run (ctx : dudect_ctx_t) (bs : list batch) : option dudect_ctx_t :=
  match bs with
  | [] => Some ctx
  | b :: rest => r <- dudect_main ctx b ;; run (fst r) rest
  end.

End Engine.

Arguments dudect_ctx_t D : clear implicits.
Arguments report_t D : clear implicits.
Arguments step_t D : clear implicits.
Arguments printed D : clear implicits.

(** ** Runs of the accumulator and the two-pass statistics *)

Section Pushes.

Context {D : Type} {ops : DoubleOps D}.

(** A sequence of calls of [t_push], first push first. *)
Fixpoint t_push_all (ctx : ttest_ctx_t D) (pushes : list (D * Z))
  : option (ttest_ctx_t D) :=
  match pushes with
  | [] => Some ctx
  | (x, class) :: rest => ctx' <- t_push ctx x class ;; t_push_all ctx' rest
  end.

End Pushes.

(** The closed-form sample statistics of a list of reals, each computed from
    the whole list: the mean in one pass, the sum of squared deviations from
    that mean in a second one. *)
Module TwoPass.

Definition sum (xs : list R) : R := fold_right Rplus 0%R xs.

Definition count (xs : list R) : R := INR (length xs).

Definition sample_mean (xs : list R) : R := (sum xs / count xs)%R.

Definition squared_deviations (xs : list R) : R :=
  sum (map (fun x => ((x - sample_mean xs) * (x - sample_mean xs))%R) xs).

Definition sample_variance (xs : list R) : R :=
  (squared_deviations xs / (count xs - 1))%R.

(** The values pushed with class [b], in the order of the pushes. *)
Definition of_class (b : bool) (pushes : list (R * bool)) : list R :=
  map fst (filter (fun p => Bool.eqb (snd p) b) pushes).

(** The class label as [t_push] receives it. *)
Definition encode (pushes : list (R * bool)) : list (R * Z) :=
  map (fun p => (fst p, Z.b2z (snd p))) pushes.

End TwoPass.

(** ** Invariants used by the proofs *)

(** The number of binary digits of a positive integer. *)
Definition digits (p : positive) : Z := Zpos (digits2_pos p).

(** The canonical binary64 mantissa and exponent of a positive integer below
    2^53. *)
Definition cmant (v : positive) : positive :=
  Z.to_pos (Zpos v * 2 ^ (53 - digits v)).
Definition cexp (v : positive) : Z := (digits v - 53)%Z.

Section WelfordInvariant.

Import TwoPass.
Local Existing Instance Exact.ops.
Local Open Scope R_scope.

Definition sumsq (xs : list R) : R := sum (map (fun x => x * x) xs).

(** The accumulator holds, for each class, the count, the mean and the sum
    of squared deviations of the values pushed so far with that class. *)
Definition stats_ok (acc : ttest_ctx_t R) (p : list (R * bool)) : Prop :=
  forall b : bool,
    sel (Z.b2z b) (n acc) = count (of_class b p)
    /\ sel (Z.b2z b) (mean acc) = sample_mean (of_class b p)
    /\ sel (Z.b2z b) (m2 acc) = squared_deviations (of_class b p).

End WelfordInvariant.

(** ** What the statistics updater is specified against *)

Section UpdaterSpec.

Context {D : Type} {ops : DoubleOps D}.

(** The assertion of [t_push]. *)
Definition valid_class (class : Z) : bool := ((class =? 0) || (class =? 1))%Z.

(** The accumulator after a push whose assertion holds. *)
Definition pushed (a : ttest_ctx_t D) (x : D) (class : Z) : ttest_ctx_t D :=
  match t_push a x class with Some a' => a' | None => a end.

(** The deltas of the current batch that the updater retains, each with its
    class label, in index order: those at the indices 10 to
    [number_measurements - 2] that are not negative. With at most 11
    measurements there is none; with no measurement the updater does not
    reach them either (see [update_statistics]). *)
Definition retained_at (ctx : dudect_ctx_t D) (idx : list nat) : list (Z * Z) :=
  filter (fun p => (0 <=? fst p)%Z)
         (map (fun i => (nth i (exec_times ctx) 0%Z, nth i (classes ctx) 0%Z))
              idx).

Definition retained (ctx : dudect_ctx_t D) : list (Z * Z) :=
  retained_at ctx (seq 10 (number_measurements ctx - 1 - 10)).

(** The retained deltas strictly below a threshold. *)
Definition below (threshold : Z) (l : list (Z * Z)) : list (Z * Z) :=
  filter (fun p => (fst p <? threshold)%Z) l.

(** Deltas as the arguments of [t_push]. *)
Definition as_pushes (l : list (Z * Z)) : list (D * Z) :=
  map (fun p => (d_of_Z (fst p), snd p)) l.

(** Two contexts that differ at most in their accumulators. *)
Definition same_buffers (c1 c2 : dudect_ctx_t D) : Prop :=
  number_measurements c1 = number_measurements c2
  /\ ticks c1 = ticks c2
  /\ exec_times c1 = exec_times c2
  /\ classes c1 = classes c2
  /\ percentiles c1 = percentiles c2.

End UpdaterSpec.

(** ** Integer counts of the binary64 accumulators *)

Section Counts.

Variable pow : float -> float -> float.
Local Hint Extern 0 (DoubleOps _) =>
  exact (IEEE.ops pow) : typeclass_instances.

(** The two counts of an accumulator are the integers [k0] and [k1]. *)
Definition counts (a : ttest_ctx_t float) (k0 k1 : Z) : Prop :=
  n a = (IEEE.of_Z k0, IEEE.of_Z k1).

(** Every accumulator of the context holds integer counts, none above the
    counts of the raw accumulator, which total at most [B]. *)
Definition counts_ok (P : nat) (ctx : dudect_ctx_t float) (B : Z) : Prop :=
  length (ttest_ctxs ctx) = DUDECT_TESTS P
  /\ exists k0 k1 : Z,
       (0 <= k0 /\ 0 <= k1 /\ k0 + k1 <= B)%Z
       /\ counts (ttest ctx 0) k0 k1
       /\ forall i, i < DUDECT_TESTS P ->
            exists j0 j1 : Z,
              (0 <= j0 <= k0 /\ 0 <= j1 <= k1)%Z
              /\ counts (ttest ctx i) j0 j1.

End Counts.

(** ** What the classifier is specified against *)

Section ClassifierSpec.

Context {D : Type} {ops : DoubleOps D}.
Variable DUDECT_NUMBER_PERCENTILES : nat.
Variable DUDECT_ENOUGH_MEASUREMENTS : Z.
Variable qsort : (Z -> Z -> Z) -> list Z -> list Z.

(** The total count of an accumulator, over both classes. *)
Definition number_traces (a : ttest_ctx_t D) : D := (fst (n a) + snd (n a))%D.

(** The decision rule on the maximal [|t|]. *)
Definition verdict_of (max_t : D) : dudect_state_t :=
  if ((d_of_Z 500 <? max_t)%D || (d_of_Z 10 <? max_t)%D)%bool
  then DUDECT_LEAKAGE_FOUND
  else DUDECT_NO_LEAKAGE_EVIDENCE_YET.

(** [dudect_main] on the batch [b], called after the batches [bs] on a fresh
    context of [N] measurements, ends in [ctx'] and did [s], in the
    accumulating phase: it did not calibrate. *)
Definition accumulating_step (N : nat) (bs : list batch) (b : batch)
  (ctx' : dudect_ctx_t D) (s : step_t D) : Prop :=
  exists ctx,
    run DUDECT_NUMBER_PERCENTILES DUDECT_ENOUGH_MEASUREMENTS qsort
        (dudect_init DUDECT_NUMBER_PERCENTILES N) bs = Some ctx
    /\ dudect_main DUDECT_NUMBER_PERCENTILES DUDECT_ENOUGH_MEASUREMENTS qsort
                   ctx b = Some (ctx', s)
    /\ calibrated s = false.

(** The bounds assertion of [percentile] holds for each of the thresholds of
    a context of [N] measurements. The position depends on [N] and the
    threshold's index only, not on the timings. *)
Definition positions_ok (N : nat) : bool :=
  forallb
    (fun i =>
       match d_to_size_t
               (d_of_Z (Z.of_nat N) * quantile DUDECT_NUMBER_PERCENTILES i)%D
       with
       | Some array_position => (array_position <? Z.of_nat N)%Z
       | None => false
       end)
    (seq 0 DUDECT_NUMBER_PERCENTILES).

(** What a calibrating call of [dudect_main] does. *)
Definition calibration_step : step_t D :=
  {| ret := DUDECT_NOT_ENOUGHT_MEASUREMENTS;
     calibrated := true;
     reported := None |}.

End ClassifierSpec.

Unset Implicit Arguments.

(** ** A reference configuration and concrete batches *)

Module Reference.

(** Insertion sort by a comparison function, standing for [qsort]. *)
Fixpoint insert (c : Z -> Z -> Z) (x : Z) (l : list Z) : list Z :=
  match l with
  | [] => [x]
  | y :: t => if (c x y <=? 0)%Z then x :: l else y :: insert c x t
  end.

Definition qsort (c : Z -> Z -> Z) (l : list Z) : list Z :=
  fold_right (insert c) [] l.

(** Ten thresholds (the exponents of the quantile schedule are then the
    integers 1 to 10, where [pow] is exact) and the threshold of 10000
    measurements. *)
Definition NUMBER_PERCENTILES : nat := 10.
Definition ENOUGH_MEASUREMENTS : Z := 10000.

Definition ops : DoubleOps float := IEEE.ops IEEE.pow_intexp.

Definition init (N : nat) : dudect_ctx_t float :=
  @dudect_init float ops NUMBER_PERCENTILES N.

Definition main (ctx : dudect_ctx_t float) (b : batch)
  : option (dudect_ctx_t float * step_t float) :=
  @dudect_main float ops NUMBER_PERCENTILES ENOUGH_MEASUREMENTS qsort ctx b.

Definition runs (ctx : dudect_ctx_t float) (bs : list batch)
  : option (dudect_ctx_t float) :=
  @run float ops NUMBER_PERCENTILES ENOUGH_MEASUREMENTS qsort ctx bs.

(** The counter readings of a batch whose successive differences are
    [deltas], from the reading [start]. *)
Fixpoint readings (start : Z) (deltas : list Z) : list Z :=
  match deltas with
  | [] => [start]
  | d :: rest => start :: readings (start + d) rest
  end.

(** A batch given by one (label, delta) pair per trial. *)
Definition batch_of (trials : list (Z * Z)) : batch :=
  {| labels := map fst trials;
     cycles := readings 0 (map snd trials) |}.

(** [k] trials of one label and one delta. *)
Definition uniform (k : nat) (label delta : Z) : list (Z * Z) :=
  repeat (label, delta) k.

(** [k] trials alternating between class 0 at about 100 cycles and class 1
    at about 200 cycles. *)
Definition alternating (k : nat) : list (Z * Z) :=
  map (fun i =>
         let c := Z.of_nat (i mod 2) in
         (c, 100 + 100 * c + Z.of_nat ((i / 2) mod 2))%Z)
      (seq 0 k).

(** The result of a step or a run, or the context it started from when an
    assertion failed. *)
Definition after_runs (ctx : dudect_ctx_t float) (bs : list batch)
  : dudect_ctx_t float :=
  match runs ctx bs with Some c => c | None => ctx end.

Definition after_main (ctx : dudect_ctx_t float) (b : batch)
  : dudect_ctx_t float * step_t float :=
  match main ctx b with
  | Some r => r
  | None => (ctx, {| ret := DUDECT_NOT_ENOUGHT_MEASUREMENTS;
                     calibrated := false; reported := None |})
  end.

(** Equality test on [dudect_state_t]. *)
Definition is_state (a b : dudect_state_t) : bool :=
  match a, b with
  | DUDECT_LEAKAGE_FOUND, DUDECT_LEAKAGE_FOUND
  | DUDECT_NO_LEAKAGE_EVIDENCE_YET, DUDECT_NO_LEAKAGE_EVIDENCE_YET
  | DUDECT_NOT_ENOUGHT_MEASUREMENTS, DUDECT_NOT_ENOUGHT_MEASUREMENTS => true
  | _, _ => false
  end.

(** Equality tests on pairs of doubles and on accumulators, bit for bit. *)
Definition pair_eqb (p q : float * float) : bool :=
  PrimFloat.Leibniz.eqb (fst p) (fst q) && PrimFloat.Leibniz.eqb (snd p) (snd q).

Definition acc_eqb (a b : ttest_ctx_t float) : bool :=
  pair_eqb (mean a) (mean b) && pair_eqb (m2 a) (m2 b) && pair_eqb (n a) (n b).

(** Two lists of the same length related pointwise. *)
Fixpoint forallb2 {A : Type} (f : A -> A -> bool) (l1 l2 : list A) : bool :=
  match l1, l2 with
  | [], [] => true
  | x :: t1, y :: t2 => f x y && forallb2 f t1 t2
  | _, _ => false
  end.

(** Equality test on lists of integers. *)
Definition list_eqb (l1 l2 : list Z) : bool :=
  if list_eq_dec Z.eq_dec l1 l2 then true else false.

(** Batches of 12 and 15 trials: one and four retained deltas of class 0. *)
Definition warm : batch := batch_of (uniform 12 0 100).
Definition warm15 : batch := batch_of (uniform 15 0 100).

(** A batch of 15 trials whose deltas at the indices 10 to 13 are 100, then
    -7 on a trial labelled 5 (the counter went back), then 50 on a trial of
    class 1, then 100. *)
Definition with_negative : batch :=
  batch_of (uniform 10 0 100
            ++ [(0, 100); (5, -7); (1, 50); (0, 100); (0, 100)]%Z).

(** Batches of 61 trials, 50 of them retained: all of class 0, all of class
    1, all of class 0 but one, all negative but one of class 0, and one
    whose two classes differ by about 100 cycles. *)
Definition zeros : batch := batch_of (uniform 61 0 100).
Definition ones : batch := batch_of (uniform 61 1 100).
Definition zeros_but_one : batch :=
  batch_of (uniform 30 0 100 ++ [(1, 100)%Z] ++ uniform 30 0 100).
Definition one_zero : batch :=
  batch_of (uniform 10 0 100 ++ [(0, 100)%Z] ++ uniform 50 0 (-100)).
Definition mixed : batch := batch_of (alternating 61).

(** Batches of 3 trials: a counter that does not advance, one that does, and
    an operation that takes three billion cycles. *)
Definition still : batch := {| labels := [0; 1; 0]%Z; cycles := [5; 5; 5]%Z |}.
Definition moving : batch := {| labels := [0; 1; 0]%Z; cycles := [0; 7; 20]%Z |}.
Definition slow : batch :=
  {| labels := [0; 1; 0]%Z;
     cycles := [0; 3000000000; 6000000001]%Z |}.

End Reference.
(** ** The cycle counter, the driver and the strings of [measure.c] *)

(** [cpucycles], x86 branch: [rdtsc] leaves the two halves of the time-stamp
    counter in the [unsigned int]s [lo] and [hi]; the result is
    [((int64_t) lo) | (((int64_t) hi) << 32)], the shift wrapping around as
    the compiled code does. *)
Definition cpucycles (lo hi : Z) : Z :=
  Z.lor lo (wrap64 (Z.shiftl hi 32)).

(** The values of a buffer differ pairwise by less than 2^31: every
    difference [cmp] is called on fits an [int]. *)
Definition within_int (l : list Z) : Prop :=
  forall x y, In x l -> In y l -> (x - y < 2 ^ 31)%Z.

Section ClassView.

Context {D : Type} {ops : DoubleOps D}.

(** What an accumulator holds for one class:
    [(n[class], mean[class], m2[class])]. *)
Definition class_stats (class : Z) (a : ttest_ctx_t D) : D * D * D :=
  (sel class (n a), sel class (mean a), sel class (m2 a)).

(** The pushes of one class, in order. *)
Definition pushes_of (class : Z) (pushes : list (D * Z)) : list (D * Z) :=
  filter (fun p => (snd p =? class)%Z) pushes.

End ClassView.

(** The same measurements in another unit and from another origin: every
    value [x] becomes [k * x + c]. *)
Definition rescaled (k c : R) (pushes : list (R * bool)) : list (R * bool) :=
  map (fun p => ((k * fst p + c)%R, snd p)) pushes.

(** ** The driver of [measure.c] *)

(** How the loop
    [while (state == DUDECT_NOT_ENOUGHT_MEASUREMENTS) state = dudect_main(&ctx);]
    stands after the calls on the batches supplied: it has left with a
    verdict, an assertion has failed, or it is still going round. *)
Inductive outcome : Type :=
| Returned (verdict : dudect_state_t)
| Aborted
| Running.

Section Driver.

Context {D : Type} {ops : DoubleOps D}.
Variable DUDECT_NUMBER_PERCENTILES : nat.
Variable DUDECT_ENOUGH_MEASUREMENTS : Z.
Variable qsort : (Z -> Z -> Z) -> list Z -> list Z.

Fixpoint until_verdict (ctx : dudect_ctx_t D) (bs : list batch) : outcome :=
  match bs with
  | [] => Running
  | b :: rest =>
      match dudect_main DUDECT_NUMBER_PERCENTILES DUDECT_ENOUGH_MEASUREMENTS
                        qsort ctx b with
      | None => Aborted
      | Some (ctx', s) =>
          match ret s with
          | DUDECT_NOT_ENOUGHT_MEASUREMENTS => until_verdict ctx' rest
          | verdict => Returned verdict
          end
      end
  end.

End Driver.

(** A batch measured on a cycle counter that does not advance: the [N]
    readings are one value. *)
Definition idle (N : nat) (b : batch) : Prop :=
  forall i, i < N -> nth i (cycles b) 0%Z = nth 0 (cycles b) 0%Z.

(** A context of [N] measurements and [P] thresholds that has seen nothing
    but zero deltas: its buffer of deltas and its thresholds are all zero. *)
Definition blank {D : Type} (P N : nat) (ctx : dudect_ctx_t D) : Prop :=
  number_measurements ctx = N
  /\ exec_times ctx = repeat 0%Z N
  /\ percentiles ctx = repeat 0%Z P.

(** ** Strings of [measure.c] *)

(** [strlen] on the bytes of a buffer: the number of bytes before the first
    NUL. *)
Fixpoint strlen (s : list Z) : nat :=
  match s with
  | [] => 0
  | c :: rest => if (c =? 0)%Z then 0 else S (strlen rest)
  end.

(** [random_string(buf, len)]: [rand i] is the byte the [i]-th call of
    [randombytes] delivers. [None] where the C code writes outside [buf]:
    with [len = 0], where [len - 1] wraps around, and with [len] above the
    size of [buf]. *)
Definition random_string (rand : nat -> Z) (buf : list Z) (len : nat)
  : option (list Z) :=
  if (1 <=? len) && (len <=? length buf) then
    let buf :=
      fold_left (fun b i => list_set i (97 + rand i mod 26)%Z b)
                (seq 0 (len - 1)) buf in
    Some (list_set (len - 1) 0%Z buf)
  else None.

(** ** The queue of [queue.c]

    The queue is a circular doubly-linked list of [element_t], each holding a
    string, threaded through [struct list_head] nodes. The code works on
    pointers; the embedding is a memory of blocks and a monad of the code's
    effects on it. *)

Module Queue.

(** Addresses; [NULL] is 0. An [element_t] is identified with the address of
    its [list] member ([list_entry] goes from one to the other). *)
Definition addr : Type := nat.
Definition NULL : addr := 0.

(** The memory: the two pointers of the [struct list_head] at an address, the
    [value] pointer of the [element_t] at an address, the bytes of the [char]
    array at an address, which blocks are allocated, the first address never
    handed out yet, and how many more requests [malloc] grants before it
    returns [NULL] (the tests make it fail on purpose). *)
Record heap : Type := {
  next : addr -> addr;
  prev : addr -> addr;
  value : addr -> addr;
  chars : addr -> list Z;
  live : addr -> bool;
  brk : addr;
  budget : nat
}.

Definition store {A : Type} (f : addr -> A) (a : addr) (v : A) : addr -> A :=
  fun x => if x =? a then v else f x.

(** Code that reads and writes the memory; [None] is a fault: an access to
    memory that is not allocated (a [NULL] or dangling pointer, an index past
    the end of an array), or a loop that has not ended within its fuel. *)
Definition M (A : Type) : Type := heap -> option (A * heap).

Definition pure {A : Type} (a : A) : M A := fun h => Some (a, h).

Definition fault {A : Type} : M A := fun _ => None.

Definition and_then {A B : Type} (m : M A) (k : A -> M B) : M B :=
  fun h => match m h with
           | Some (a, h') => k a h'
           | None => None
           end.

Notation "'let*' x := m 'in' k" := (and_then m (fun x => k))
  (at level 10, x name, m at level 100, k at level 200).
Notation "m ;;; k" := (and_then m (fun _ => k))
  (at level 100, k at level 200, right associativity).

(** *** Loads and stores *)

Definition get_next (a : addr) : M addr :=
  fun h => if live h a then Some (next h a, h) else None.

Definition get_prev (a : addr) : M addr :=
  fun h => if live h a then Some (prev h a, h) else None.

Definition get_value (a : addr) : M addr :=
  fun h => if live h a then Some (value h a, h) else None.

Definition set_next (a v : addr) : M unit :=
  fun h => if live h a
           then Some (tt, {| next := store (next h) a v; prev := prev h;
                             value := value h; chars := chars h;
                             live := live h; brk := brk h;
                             budget := budget h |})
           else None.

Definition set_prev (a v : addr) : M unit :=
  fun h => if live h a
           then Some (tt, {| next := next h; prev := store (prev h) a v;
                             value := value h; chars := chars h;
                             live := live h; brk := brk h;
                             budget := budget h |})
           else None.

Definition set_value (a v : addr) : M unit :=
  fun h => if live h a
           then Some (tt, {| next := next h; prev := prev h;
                             value := store (value h) a v; chars := chars h;
                             live := live h; brk := brk h;
                             budget := budget h |})
           else None.

(** [a[i] = c] on a [char] array. *)
Definition set_char (a : addr) (i : nat) (c : Z) : M unit :=
  fun h => if live h a && (i <? length (chars h a))
           then Some (tt, {| next := next h; prev := prev h;
                             value := value h;
                             chars := store (chars h) a
                                        (list_set i c (chars h a));
                             live := live h; brk := brk h;
                             budget := budget h |})
           else None.

(** *** The allocator *)

(** [malloc(size)]: [NULL] once the budget is spent, else a block at an
    address never used before. Its bytes are unspecified in C; here they are
    zero, and the code writes every byte before it reads it. *)
Definition malloc (size : nat) : M addr :=
  fun h => match budget h with
           | O => Some (NULL, h)
           | S b =>
               Some (brk h,
                     {| next := next h; prev := prev h; value := value h;
                        chars := store (chars h) (brk h) (repeat 0%Z size);
                        live := store (live h) (brk h) true;
                        brk := S (brk h); budget := b |})
           end.

(** [free(p)]: nothing for [NULL]; a fault for a block that is not
    allocated. *)
Definition free (p : addr) : M unit :=
  fun h => if p =? NULL then Some (tt, h)
           else if live h p
           then Some (tt, {| next := next h; prev := prev h;
                             value := value h; chars := chars h;
                             live := store (live h) p false;
                             brk := brk h; budget := budget h |})
           else None.

Definition sizeof_list_head : nat := 16.
Definition sizeof_element_t : nat := 24.

(** *** The string functions of the C library *)

(** The characters of a buffer before its first NUL. *)
Definition c_str (buf : list Z) : list Z := firstn (strlen buf) buf.

(** A buffer that holds a NUL. *)
Definition terminated (buf : list Z) : bool := strlen buf <? length buf.

(** [strlen(s)]; a fault when the array at [s] holds no NUL. *)
Definition strlen_at (s : addr) : M nat :=
  fun h => if live h s && terminated (chars h s)
           then Some (strlen (chars h s), h) else None.

(** [strncpy(dst, src, n)]: the characters of [src] up to [n] of them, then
    NULs up to [n] bytes in all. A fault when [dst] has fewer than [n]
    bytes, when [src] is read past its end, or when the two are the same
    array. *)
Definition strncpy (dst src : addr) (n : nat) : M unit :=
  fun h =>
    if live h dst && live h src && negb (dst =? src)
       && (n <=? length (chars h dst))
       && (terminated (chars h src) || (n <=? length (chars h src)))
    then
      let copied := firstn n (c_str (chars h src) ++ repeat 0%Z n) in
      Some (tt, {| next := next h; prev := prev h; value := value h;
                   chars := store (chars h) dst
                              (copied ++ skipn n (chars h dst));
                   live := live h; brk := brk h; budget := budget h |})
    else None.

(** The sign of [strcmp] on two strings: the difference of the first two
    bytes that differ, the end of a string counting as 0. *)
Fixpoint compare_bytes (a b : list Z) : Z :=
  match a, b with
  | [], [] => 0
  | [], y :: _ => (0 - y)%Z
  | x :: _, [] => x
  | x :: a', y :: b' => if (x =? y)%Z then compare_bytes a' b' else (x - y)%Z
  end.

Definition strcmp (s1 s2 : addr) : M Z :=
  fun h => if live h s1 && live h s2
              && terminated (chars h s1) && terminated (chars h s2)
           then Some (compare_bytes (c_str (chars h s1)) (c_str (chars h s2)), h)
           else None.

(** *** [list.h] and [queue.h]

    The two headers are not among the sources. Their inline functions and
    macros have the bodies of the Linux-style list API that [queue.c] is
    written against, without list poisoning: [list_for_each (n, head)] is
    [for (n = head->next; n != head; n = n->next)], the [_safe] loops read
    the next node before the body runs, [list_entry] goes from a [list]
    member to its [element_t], [LIST_HEAD(name)] declares a head that points
    to itself, and an [element_t] is a [value] pointer with a [list]
    member. *)

Definition INIT_LIST_HEAD (head : addr) : M unit :=
  set_next head head ;;; set_prev head head.

Definition list_add (node head : addr) : M unit :=
  let* nxt := get_next head in
  set_prev nxt node ;;;
  set_next node nxt ;;;
  set_prev node head ;;;
  set_next head node.

Definition list_del (node : addr) : M unit :=
  let* nxt := get_next node in
  let* prv := get_prev node in
  set_prev nxt prv ;;;
  set_next prv nxt.

Definition list_empty (head : addr) : M bool :=
  let* nxt := get_next head in pure (nxt =? head).

Definition list_is_singular (head : addr) : M bool :=
  let* e := list_empty head in
  if e then pure false
  else let* p := get_prev head in
       let* nxt := get_next head in
       pure (p =? nxt).

Definition list_move (node head : addr) : M unit :=
  list_del node ;;; list_add node head.

(** [q_release_element] of [queue.h]: [free(e->value); free(e);]. *)
Definition q_release_element (e : addr) : M unit :=
  let* v := get_value e in
  free v ;;; free e.

(** *** [int] arithmetic *)

Definition INT_MAX : Z := 2147483647.

(** [n++] on an [int]: past [INT_MAX] the behaviour is undefined, a
    fault. *)
Definition increment (n : Z) : M Z :=
  fun h => if (n <? INT_MAX)%Z then Some ((n + 1)%Z, h) else None.

(** [int s_len = strlen(s)] with [s_len + 1] taken next: a length that does
    not fit an [int], or whose successor does not, is a fault. *)
Definition to_int (n : nat) : M nat :=
  fun h => if (Z.of_nat n <? INT_MAX)%Z then Some (n, h) else None.

(** *** [queue.c] *)

Definition q_new : M addr :=
  let* head := malloc sizeof_list_head in
  if head =? NULL then pure head
  else INIT_LIST_HEAD head ;;; pure head.

(** The loop [list_for_each_entry_safe (node, safe, head, list)] with the
    body [q_release_element(node)], from the current [node] and [safe]. *)
Fixpoint release_loop (fuel : nat) (head node safe : addr) : M unit :=
  if node =? head then pure tt
  else match fuel with
       | O => fault
       | S fuel =>
           q_release_element node ;;;
           let* safe' := get_next safe in
           release_loop fuel head safe safe'
       end.

Definition q_free (fuel : nat) (head : addr) : M unit :=
  if head =? NULL then pure tt
  else
    let* node := get_next head in
    let* safe := get_next node in
    release_loop fuel head node safe ;;;
    free head.

Definition q_insert_head (head s : addr) : M bool :=
  if (head =? NULL) || (s =? NULL) then pure false
  else
    let* element := malloc sizeof_element_t in
    if element =? NULL then pure false
    else
      let* n := strlen_at s in
      let* s_len := to_int n in
      let* v := malloc ((s_len + 1) * 1) in
      set_value element v ;;;
      if v =? NULL then free element ;;; pure false
      else
        strncpy v s (s_len + 1) ;;;
        list_add element head ;;;
        pure true.

Definition q_insert_tail (head s : addr) : M bool :=
  if (head =? NULL) || (s =? NULL) then pure false
  else let* tail := get_prev head in q_insert_head tail s.

Definition q_remove_head (head sp : addr) (bufsize : nat) : M addr :=
  if head =? NULL then pure NULL
  else
    let* e := list_empty head in
    if e then pure NULL
    else
      let* tmp := get_next head in
      (if negb (sp =? NULL) && (0 <? bufsize)
       then let* v := get_value tmp in
            strncpy sp v (bufsize - 1) ;;;
            set_char sp (bufsize - 1) 0%Z
       else pure tt) ;;;
      list_del tmp ;;;
      pure tmp.

Definition q_remove_tail (head sp : addr) (bufsize : nat) : M addr :=
  if head =? NULL then pure NULL
  else
    let* e := list_empty head in
    if e then pure NULL
    else
      let* tail := get_prev head in
      let* before := get_prev tail in
      q_remove_head before sp bufsize.

(** The loop [list_for_each (tmp, head) len++]. *)
Fixpoint size_loop (fuel : nat) (head tmp : addr) (len : Z) : M Z :=
  if tmp =? head then pure len
  else match fuel with
       | O => fault
       | S fuel =>
           let* len' := increment len in
           let* tmp' := get_next tmp in
           size_loop fuel head tmp' len'
       end.

Definition q_size (fuel : nat) (head : addr) : M Z :=
  if head =? NULL then pure 0%Z
  else let* tmp := get_next head in size_loop fuel head tmp 0%Z.

(** The loop of [q_delete_mid]:
    [while (fast != head && fast->next != head)]. *)
Fixpoint mid_loop (fuel : nat) (head slow fast : addr) : M addr :=
  if fast =? head then pure slow
  else
    let* ahead := get_next fast in
    if ahead =? head then pure slow
    else match fuel with
         | O => fault
         | S fuel =>
             let* slow' := get_next slow in
             let* f1 := get_next fast in
             let* fast' := get_next f1 in
             mid_loop fuel head slow' fast'
         end.

Definition q_delete_mid (fuel : nat) (head : addr) : M bool :=
  if head =? NULL then pure false
  else
    let* e := list_empty head in
    if e then pure false
    else
      let* first := get_next head in
      let* slow := mid_loop fuel head first first in
      list_del slow ;;;
      q_release_element slow ;;;
      pure true.

(** The loop of [q_delete_dup], with its local [dup_tail]. *)
Fixpoint dup_loop (fuel : nat) (head node safe dup_tail : addr) : M unit :=
  if node =? head then pure tt
  else match fuel with
       | O => fault
       | S fuel =>
           let* same :=
             (if safe =? head then pure false
              else let* v1 := get_value node in
                   let* v2 := get_value safe in
                   let* c := strcmp v1 v2 in
                   pure (c =? 0)%Z) in
           let* dup_tail' :=
             (if same
              then list_del node ;;; q_release_element node ;;; pure safe
              else (if negb (dup_tail =? NULL)
                    then list_del dup_tail ;;; q_release_element dup_tail
                    else pure tt) ;;;
                   pure NULL) in
           let* safe' := get_next safe in
           dup_loop fuel head safe safe' dup_tail'
       end.

Definition q_delete_dup (fuel : nat) (head : addr) : M bool :=
  if head =? NULL then pure false
  else
    let* e := list_empty head in
    if e then pure false
    else
      let* one := list_is_singular head in
      if one then pure false
      else
        let* node := get_next head in
        let* safe := get_next node in
        dup_loop fuel head node safe NULL ;;;
        pure true.

(** The loop of [q_swap]: [while (second != head && first != head)]. *)
Fixpoint swap_loop (fuel : nat) (head first second : addr) : M unit :=
  if negb (second =? head) && negb (first =? head) then
    match fuel with
    | O => fault
    | S fuel =>
        let* before := get_prev first in
        list_move second before ;;;
        let* first' := get_next first in
        let* second' := get_next first' in
        swap_loop fuel head first' second'
    end
  else pure tt.

Definition q_swap (fuel : nat) (head : addr) : M unit :=
  if head =? NULL then pure tt
  else
    let* e := list_empty head in
    if e then pure tt
    else
      let* one := list_is_singular head in
      if one then pure tt
      else
        let* first := get_next head in
        let* h1 := get_next head in
        let* second := get_next h1 in
        swap_loop fuel head first second.

(** The loop [list_for_each_safe (node, safe, head) list_move(node, head)]. *)
Fixpoint reverse_loop (fuel : nat) (head node safe : addr) : M unit :=
  if node =? head then pure tt
  else match fuel with
       | O => fault
       | S fuel =>
           list_move node head ;;;
           let* safe' := get_next safe in
           reverse_loop fuel head safe safe'
       end.

Definition q_reverse (fuel : nat) (head : addr) : M unit :=
  if head =? NULL then pure tt
  else
    let* e := list_empty head in
    if e then pure tt
    else
      let* one := list_is_singular head in
      if one then pure tt
      else
        let* node := get_next head in
        let* safe := get_next node in
        reverse_loop fuel head node safe.

(** A local [struct list_head] whose address is taken lives in memory
    while the function runs: it gets the first unused address, and its
    lifetime ends at the return. No allocation of the budget is used. *)
Definition enter_local : M addr :=
  fun h => Some (brk h,
                 {| next := next h; prev := prev h; value := value h;
                    chars := chars h;
                    live := store (live h) (brk h) true;
                    brk := S (brk h); budget := budget h |}).

Definition leave_local (a : addr) : M unit :=
  fun h => Some (tt, {| next := next h; prev := prev h; value := value h;
                        chars := chars h;
                        live := store (live h) a false;
                        brk := a; budget := budget h |}).

(** The loop of [merge]: [while (left && right)], then the link to what is
    left of one list. *)
Fixpoint merge_loop (fuel : nat) (left right list : addr) : M unit :=
  if negb (left =? NULL) && negb (right =? NULL) then
    match fuel with
    | O => fault
    | S fuel =>
        let* s1 := get_value left in
        let* s2 := get_value right in
        let* c := strcmp s1 s2 in
        if (c <=? 0)%Z then
          set_next list left ;;;
          let* left' := get_next left in
          let* list' := get_next list in
          merge_loop fuel left' right list'
        else
          set_next list right ;;;
          let* right' := get_next right in
          let* list' := get_next list in
          merge_loop fuel left right' list'
    end
  else set_next list (if negb (left =? NULL) then left else right).

Definition merge (fuel : nat) (left right : addr) : M addr :=
  let* dummy_head := enter_local in
  INIT_LIST_HEAD dummy_head ;;;
  merge_loop fuel left right dummy_head ;;;
  let* first := get_next dummy_head in
  leave_local dummy_head ;;;
  pure first.

(** The loop of [mergeSort]: [while (fast && fast->next)]. *)
Fixpoint halve_loop (fuel : nat) (slow fast : addr) : M addr :=
  if fast =? NULL then pure slow
  else
    let* ahead := get_next fast in
    if ahead =? NULL then pure slow
    else match fuel with
         | O => fault
         | S fuel =>
             let* slow' := get_next slow in
             let* f1 := get_next fast in
             let* fast' := get_next f1 in
             halve_loop fuel slow' fast'
         end.

(** [mergeSort]; the fuel bounds the depth of the recursion and the
    iterations of each loop. *)
Fixpoint mergeSort (fuel : nat) (head : addr) : M addr :=
  if head =? NULL then pure head
  else
    let* second := get_next head in
    if second =? NULL then pure head
    else match fuel with
         | O => fault
         | S fuel' =>
             let* fast := get_next head in
             let* slow := halve_loop fuel' head fast in
             let* right := get_next slow in
             set_next slow NULL ;;;
             let* head' := mergeSort fuel' head in
             let* right' := mergeSort fuel' right in
             merge fuel head' right'
         end.

(** The loop of [q_sort] that writes the [prev] links:
    [for (...; safe->next; node = safe, safe = node->next) safe->prev = node;]
    its result is the last [safe]. *)
Fixpoint relink_loop (fuel : nat) (node safe : addr) : M addr :=
  let* ahead := get_next safe in
  if ahead =? NULL then pure safe
  else match fuel with
       | O => fault
       | S fuel =>
           set_prev safe node ;;;
           let* safe' := get_next safe in
           relink_loop fuel safe safe'
       end.

(** The loop of [q_reverseK], a [list_for_each_safe], with its locals
    [reverse_head], [len] and [cnt]. The subtraction [len -= k] is done
    with [cnt == k], so with [1 <= k <= len]: it does not overflow. *)
Fixpoint reverseK_loop (fuel : nat) (head : addr) (k : Z)
  (node safe reverse_head : addr) (len cnt : Z) : M unit :=
  if node =? head then pure tt
  else match fuel with
       | O => fault
       | S fuel =>
           list_move node reverse_head ;;;
           let* cnt' := increment cnt in
           if (cnt' =? k)%Z then
             let len' := (len - k)%Z in
             if (len' <? k)%Z then pure tt
             else
               let* reverse_head' := get_prev safe in
               let* safe' := get_next safe in
               reverseK_loop fuel head k safe safe' reverse_head' len' 0%Z
           else
             let* safe' := get_next safe in
             reverseK_loop fuel head k safe safe' reverse_head len cnt'
       end.

Definition q_reverseK (fuel : nat) (head : addr) (k : Z) : M unit :=
  if head =? NULL then pure tt
  else
    let* e := list_empty head in
    if e then pure tt
    else
      let* one := list_is_singular head in
      if one then pure tt
      else if (k =? 1)%Z then pure tt
      else
        let* len := q_size fuel head in
        if (len <? k)%Z then pure tt
        else
          let* node := get_next head in
          let* safe := get_next node in
          reverseK_loop fuel head k node safe head len 0%Z.

(** The loop of [q_purge], from the back of the queue, with its locals
    [peak] and [cnt]. *)
Fixpoint purge_loop (fuel : nat) (head : addr) (descend : bool)
  (node safe peak : addr) (cnt : Z) : M Z :=
  if node =? head then pure cnt
  else match fuel with
       | O => fault
       | S fuel =>
           let* s1 := get_value peak in
           let* s2 := get_value node in
           let* c := strcmp s1 s2 in
           let* r :=
             (if (negb descend && (c <=? 0)%Z) || (descend && (0 <=? c)%Z)
              then list_del node ;;; q_release_element node ;;;
                   pure (peak, cnt)
              else let* cnt' := increment cnt in pure (node, cnt')) in
           let* safe' := get_prev safe in
           purge_loop fuel head descend safe safe' (fst r) (snd r)
       end.

Definition q_purge (fuel : nat) (head : addr) (descend : bool) : M Z :=
  if head =? NULL then pure 0%Z
  else
    let* e := list_empty head in
    if e then pure 0%Z
    else
      let* one := list_is_singular head in
      if one then pure 1%Z
      else
        let* peak := get_prev head in
        let* t := get_prev head in
        let* node := get_prev t in
        let* safe := get_prev node in
        purge_loop fuel head descend node safe peak 1%Z.

Definition q_sort (fuel : nat) (head : addr) (descend : bool) : M unit :=
  if head =? NULL then pure tt
  else
    let* e := list_empty head in
    if e then pure tt
    else
      let* one := list_is_singular head in
      if one then pure tt
      else
        let* data_head := get_next head in
        let* tail := get_prev head in
        set_next tail NULL ;;;
        let* sorted := mergeSort fuel data_head in
        set_next head sorted ;;;
        let* first := get_next head in
        let* safe := relink_loop fuel head first in
        set_next safe head ;;;
        set_prev head safe ;;;
        if descend then q_reverse fuel head else pure tt.

Definition q_ascend (fuel : nat) (head : addr) : M Z :=
  q_purge fuel head false.

Definition q_descend (fuel : nat) (head : addr) : M Z :=
  q_purge fuel head true.

(** [q_merge]: returns 0 and does nothing. *)
Definition q_merge (head : addr) (descend : bool) : M Z := pure 0%Z.

(** *** The operations measured by [measure.c]

    [priv] and, for the insertions, [size] are not used; [s] is the static
    buffer of the file. *)

Definition compute_insert_head (l s : addr) : M Z :=
  q_insert_head l s ;;; pure 0%Z.

Definition compute_insert_tail (l s : addr) : M Z :=
  q_insert_tail l s ;;; pure 0%Z.

Definition compute_remove_head (size : nat) (l s : addr) : M Z :=
  let* elem := q_remove_head l s size in
  q_release_element elem ;;;
  pure 0%Z.

Definition compute_remove_tail (size : nat) (l s : addr) : M Z :=
  let* elem := q_remove_tail l s size in
  q_release_element elem ;;;
  pure 0%Z.

(** *** What the code is specified against *)

(** [a] and [b] are neighbours: [a->next == b] and [b->prev == a]. *)
Definition wired (h : heap) (a b : addr) : Prop :=
  next h a = b /\ prev h b = a.

(** Each address of the list is wired to the one after it. *)
Fixpoint path (h : heap) (l : list addr) : Prop :=
  match l with
  | a :: (b :: _) as rest => wired h a b /\ path h rest
  | _ => True
  end.

(** The memory holds a queue at [head] whose elements are, in order, at the
    addresses [nodes]: the ring from [head] through [nodes] back to [head]
    is wired both ways; the head, the elements and their strings are
    distinct allocated blocks; every string ends in a NUL. The allocator's
    own invariant is part of it: [NULL] and the addresses from [brk] on are
    not allocated. *)
Record queue (h : heap) (head : addr) (nodes : list addr) : Prop := {
  heap_ok : live h NULL = false /\ 1 <= brk h
            /\ forall a, brk h <= a -> live h a = false;
  distinct : NoDup (head :: nodes ++ map (value h) nodes);
  linked : path h (head :: nodes ++ [head]);
  allocated : Forall (fun a => live h a = true)
                     (head :: nodes ++ map (value h) nodes);
  strings_end : Forall (fun a => terminated (chars h (value h a)) = true)
                       nodes
}.

(** Each group of [k] elements reversed, from the front; fewer than [k]
    elements at the end stay as they are. The fuel is a bound on the
    number of groups. *)
Fixpoint reverse_groups {A : Type} (fuel k : nat) (l : list A) : list A :=
  match fuel with
  | O => l
  | S fuel =>
      if length l <? k then l
      else rev (firstn k l) ++ reverse_groups fuel k (skipn k l)
  end.

(** A [NULL]-terminated chain of [next] links from [first] through the
    addresses [l]. *)
Fixpoint chain (h : heap) (first : addr) (l : list addr) : Prop :=
  match l with
  | [] => first = NULL
  | a :: rest => first = a /\ chain h (next h a) rest
  end.

(** The merge of two lists by the strings of their elements, the left one
    first among equals. *)
Fixpoint merge_lists {A : Type} (str : A -> list Z) (l1 l2 : list A) : list A :=
  match l1 with
  | [] => l2
  | a :: l1' =>
      (fix into (l2 : list A) : list A :=
         match l2 with
         | [] => l1
         | b :: l2' =>
             if (compare_bytes (str a) (str b) <=? 0)%Z
             then a :: merge_lists str l1' l2
             else b :: into l2'
         end) l2
  end.

(** Every two adjacent elements exchanged, from the front; an odd last
    one stays. *)
Fixpoint swap_pairs {A : Type} (l : list A) : list A :=
  match l with
  | a :: b :: rest => b :: a :: swap_pairs rest
  | _ => l
  end.

(** [q_purge] deletes an element when the nearest element kept behind it,
    the peak, compares at most (at least, when descending) as large. *)
Definition beaten (descend : bool) (peak s : list Z) : bool :=
  let c := compare_bytes peak s in
  (negb descend && (c <=? 0)%Z) || (descend && (0 <=? c)%Z).

(** What is kept of a list read from its back: the last element, and each
    one before it that the nearest kept element behind it does not beat. *)
Definition purge_step {A : Type} (str : A -> list Z) (descend : bool)
  (x : A) (kept : list A) : list A :=
  match kept with
  | [] => [x]
  | p :: _ => if beaten descend (str p) (str x) then kept else x :: kept
  end.

Definition purged {A : Type} (str : A -> list Z) (descend : bool)
  (l : list A) : list A :=
  fold_right (purge_step str descend) [] l.

(** [!strcmp(a, b)]. *)
Definition same_string (a b : list Z) : bool := (compare_bytes a b =? 0)%Z.

(** The elements whose string is that of neither neighbour; [before] is
    the element in front of the list, if any. *)
Fixpoint singles {A : Type} (str : A -> list Z) (before : option A)
  (l : list A) : list A :=
  match l with
  | [] => []
  | x :: rest =>
      let like_before :=
        match before with
        | Some b => same_string (str b) (str x)
        | None => false
        end in
      let like_after :=
        match rest with
        | y :: _ => same_string (str x) (str y)
        | [] => false
        end in
      if like_before || like_after then singles str (Some x) rest
      else x :: singles str (Some x) rest
  end.

(** The string of an element. *)
Definition string_at (h : heap) (a : addr) : list Z :=
  c_str (chars h (value h a)).

(** The strings of the elements, in order. *)
Definition contents (h : heap) (nodes : list addr) : list (list Z) :=
  map (fun a => c_str (chars h (value h a))) nodes.

(** *** Relations between memories, and what the proofs are stated with *)

(** Two memories that differ in their links only. *)
Definition relinked (h h' : heap) : Prop :=
  value h' = value h /\ chars h' = chars h /\ live h' = live h
  /\ brk h' = brk h /\ budget h' = budget h.

(** The copy of [q_remove_head] into [sp]. *)
Definition copy_out (sp v : addr) (bufsize : nat) : M unit :=
  strncpy sp v (bufsize - 1) ;;; set_char sp (bufsize - 1) 0%Z.

(** Where [q_remove_head] may copy the string: nowhere ([sp] is [NULL] or
    [bufsize] is 0), or into an array of at least [bufsize] bytes that is
    no block of the queue. *)
Definition receives (h : heap) (head : addr) (nodes : list addr)
  (sp : addr) (bufsize : nat) : Prop :=
  negb (sp =? NULL) && (0 <? bufsize) = true ->
  live h sp = true /\ bufsize <= length (chars h sp)
  /\ ~ In sp (head :: nodes ++ map (value h) nodes).

(** What the caller of [q_remove_head] and [q_remove_tail] gets: the element
    [x], unlinked but still allocated together with its string [str], and a
    copy of the string in [sp], cut to [bufsize - 1] characters, when [sp]
    is not [NULL] and [bufsize] not 0. *)
Definition handed_over (h h' : heap) (x : addr) (str : list Z)
  (sp : addr) (bufsize : nat) : Prop :=
  live h' x = true /\ live h' (value h' x) = true
  /\ x <> value h' x
  /\ c_str (chars h' (value h' x)) = str
  /\ (forall a, live h' a = live h a)
  /\ (negb (sp =? NULL) && (0 <? bufsize) = true ->
      c_str (chars h' sp) = firstn (bufsize - 1) str
      /\ terminated (chars h' sp) = true).

(** [h'] is [h] with the blocks [dead] freed and nothing else changed. *)
Definition released (h h' : heap) (dead : list addr) : Prop :=
  next h' = next h /\ prev h' = prev h /\ value h' = value h
  /\ chars h' = chars h /\ brk h' = brk h /\ budget h' = budget h
  /\ (forall a, In a dead -> live h' a = false)
  /\ (forall a, ~ In a dead -> live h' a = live h a).

(** From [h] to [h'] the blocks [dead] were freed: no other block was
    freed or allocated, and no string and no [value] field was written. *)
Definition dropped (h h' : heap) (dead : list addr) : Prop :=
  value h' = value h /\ chars h' = chars h
  /\ brk h' = brk h /\ budget h' = budget h
  /\ (forall a, In a dead -> live h' a = false)
  /\ (forall a, ~ In a dead -> live h' a = live h a).

Definition like_before {A : Type} (str : A -> list Z) (before : option A)
  (x : A) : bool :=
  match before with
  | Some b => same_string (str b) (str x)
  | None => false
  end.

(** The allocator's invariant. *)
Definition heap_sound (h : heap) : Prop :=
  live h NULL = false /\ 1 <= brk h
  /\ forall a, brk h <= a -> live h a = false.

(** An allocated element with an allocated string that ends in a NUL. *)
Definition cell (h : heap) (a : addr) : Prop :=
  live h a = true /\ live h (value h a) = true
  /\ terminated (chars h (value h a)) = true.

(** The same blocks with the same strings: only links differ. *)
Definition same_blocks (h h' : heap) : Prop :=
  (forall a, live h' a = live h a) /\ value h' = value h
  /\ chars h' = chars h /\ brk h' = brk h /\ budget h' = budget h.

(** One string compares at most as large as the other. *)
Definition at_most (a b : list Z) : Prop := (compare_bytes a b <= 0)%Z.

(** The memory [h] with the [prev] link of [a] set to [v]. *)
Definition with_prev (h : heap) (a v : addr) : heap :=
  {| next := next h; prev := store (prev h) a v; value := value h;
     chars := chars h; live := live h; brk := brk h; budget := budget h |}.

(** The elements met from [start] along the [next] links up to [head]. *)
Fixpoint trace (h : heap) (head start : addr) (l : list addr) : Prop :=
  match l with
  | [] => start = head
  | a :: rest => start = a /\ a <> head /\ trace h head (next h a) rest
  end.

(** Two memories that differ at most in the [prev] link of [z]. *)
Definition stale (z : addr) (hb hg : heap) : Prop :=
  next hb = next hg /\ (forall a, a <> z -> prev hb a = prev hg a)
  /\ value hb = value hg /\ chars hb = chars hg /\ live hb = live hg
  /\ brk hb = brk hg /\ budget hb = budget hg.

(** Two memories with the same links and blocks. *)
Definition alike (hb hg : heap) : Prop :=
  next hb = next hg /\ (forall a, prev hb a = prev hg a)
  /\ value hb = value hg /\ chars hb = chars hg /\ live hb = live hg
  /\ brk hb = brk hg /\ budget hb = budget hg.

(** What the loop makes of the elements [todo] still to visit when the
    group in hand holds [cur], already reversed. *)
Definition finish {A : Type} (k : nat) (cur todo : list A) : list A :=
  rev (firstn (k - length cur) todo) ++ cur
  ++ reverse_groups (length todo) k (skipn (k - length cur) todo).

(** What [q_reverseK] makes of a list. *)
Definition reversedK {A : Type} (k : Z) (l : list A) : list A :=
  if (k <=? 0)%Z then rev l
  else reverse_groups (length l) (Z.to_nat k) l.

End Queue.


(** * Integers in binary64

    The counts of an accumulator are doubles that hold integers. Below 2^53
    every integer is a double, and the additions and comparisons the engine
    makes on counts are exact. *)

Section ExactIntegers.

Local Open Scope Z_scope.

Lemma digits_pos p : 0 < digits p.
Proof. unfold digits. lia. Qed.

Lemma digits_bounds p : 2 ^ (digits p - 1) <= Zpos p < 2 ^ digits p.
Proof.
  unfold digits. induction p as [p IH|p IH|]; simpl digits2_pos.
  - rewrite Pos2Z.inj_succ.
    replace (Z.succ (Zpos (digits2_pos p)) - 1) with (Zpos (digits2_pos p) - 1 + 1) by lia.
    rewrite Z.pow_add_r, Z.pow_succ_r by lia. lia.
  - rewrite Pos2Z.inj_succ.
    replace (Z.succ (Zpos (digits2_pos p)) - 1) with (Zpos (digits2_pos p) - 1 + 1) by lia.
    rewrite Z.pow_add_r, Z.pow_succ_r by lia. lia.
  - simpl. lia.
Qed.

Lemma digits_unique p d : 2 ^ (d - 1) <= Zpos p < 2 ^ d -> digits p = d.
Proof.
  intros [Hlo Hhi]. pose proof (digits_bounds p) as [Blo Bhi].
  pose proof (digits_pos p).
  assert (0 < d).
  { destruct (Z_lt_le_dec 0 d); [assumption|].
    exfalso. destruct (Z.eq_dec d 0) as [->|]; [simpl in Hhi; lia|].
    rewrite Z.pow_neg_r in Hhi by lia. lia. }
  destruct (Z_lt_le_dec (digits p) d).
  - assert (2 ^ digits p <= 2 ^ (d - 1)) by (apply Z.pow_le_mono_r; lia). lia.
  - destruct (Z_lt_le_dec d (digits p)); [|lia].
    assert (2 ^ d <= 2 ^ (digits p - 1)) by (apply Z.pow_le_mono_r; lia). lia.
Qed.

Lemma digits_shift p k q :
  0 <= k -> Zpos q = Zpos p * 2 ^ k -> digits q = digits p + k.
Proof.
  intros Hk Hq. apply digits_unique. rewrite Hq.
  pose proof (digits_bounds p) as [Blo Bhi]. pose proof (digits_pos p).
  replace (digits p + k - 1) with (digits p - 1 + k) by lia.
  rewrite !Z.pow_add_r by lia.
  assert (0 < 2 ^ k) by (apply Z.pow_pos_nonneg; lia).
  split; [apply Z.mul_le_mono_nonneg_r | apply Z.mul_lt_mono_pos_r]; lia.
Qed.

Lemma iter_xO_value m d : Zpos (Pos.iter xO m d) = Zpos m * 2 ^ Zpos d.
Proof.
  change (Pos.iter xO m d) with (shift_pos d m).
  rewrite shift_pos_correct, Zpower_pos_nat, Zpower_nat_Z, positive_nat_Z. lia.
Qed.

Lemma iter_pos_nat (A : Type) (f : A -> A) p :
  forall x, SpecFloat.iter_pos f p x = Nat.iter (Pos.to_nat p) f x.
Proof.
  induction p as [p IH|p IH|]; intros x; simpl SpecFloat.iter_pos.
  - rewrite !IH, Pos2Nat.inj_xI.
    replace (S (2 * Pos.to_nat p))%nat with (Pos.to_nat p + (Pos.to_nat p + 1))%nat by lia.
    rewrite !Nat.iter_add. simpl. reflexivity.
  - rewrite !IH, Pos2Nat.inj_xO.
    replace (2 * Pos.to_nat p)%nat with (Pos.to_nat p + Pos.to_nat p)%nat by lia.
    rewrite Nat.iter_add. reflexivity.
  - reflexivity.
Qed.

Lemma shr_1_exact_nat k : forall m,
  Nat.iter k shr_1 {| shr_m := Zpos (shift_nat k m); shr_r := false; shr_s := false |}
  = {| shr_m := Zpos m; shr_r := false; shr_s := false |}.
Proof.
  induction k as [|k IH]; intros m.
  - reflexivity.
  - rewrite Nat.iter_succ_r. simpl. apply IH.
Qed.

Lemma shr_exact m m' e p :
  Zpos m = Zpos m' * 2 ^ Zpos p ->
  shr {| shr_m := Zpos m; shr_r := false; shr_s := false |} e (Zpos p)
  = ({| shr_m := Zpos m'; shr_r := false; shr_s := false |}, e + Zpos p).
Proof.
  intros Hm. unfold shr. f_equal.
  rewrite iter_pos_nat.
  assert (m = shift_nat (Pos.to_nat p) m') as ->.
  { apply Pos2Z.inj. rewrite shift_nat_correct, Zpower_nat_Z, positive_nat_Z. lia. }
  apply shr_1_exact_nat.
Qed.

Lemma fexp_canonical E : -1074 <= E -> fexp prec emax (53 + E) = E.
Proof. intros HE. unfold fexp, emin, prec, emax. lia. Qed.

Lemma shr_fexp_canonical m E :
  digits m = 53 -> -1074 <= E ->
  shr_fexp prec emax (Zpos m) E loc_Exact
  = ({| shr_m := Zpos m; shr_r := false; shr_s := false |}, E).
Proof.
  intros Hd HE. unfold shr_fexp, shr_record_of_loc.
  change (Zdigits2 (Zpos m)) with (digits m).
  rewrite Hd, fexp_canonical, Z.sub_diag by assumption. reflexivity.
Qed.

(** A mantissa of 53 digits at an exponent in range is left as it is. *)
Lemma binary_round_aux_canonical m E :
  digits m = 53 -> -1074 <= E <= 971 ->
  binary_round_aux prec emax false (Zpos m) E loc_Exact = S754_finite false m E.
Proof.
  intros Hd HE. unfold binary_round_aux.
  rewrite shr_fexp_canonical by (assumption || lia).
  cbn [shr_m loc_of_shr_record round_nearest_even].
  rewrite shr_fexp_canonical by (assumption || lia).
  cbn [shr_m].
  replace (E <=? emax - prec) with true
    by (symmetry; apply Z.leb_le; unfold emax, prec; lia).
  reflexivity.
Qed.

(** Rounding a value that a canonical mantissa and exponent represent
    exactly gives that mantissa and exponent. *)
Lemma binary_round_exact m e m' E :
  digits m' = 53 -> -1074 <= E <= 971 ->
  Zpos m * 2 ^ (e - Z.min e E) = Zpos m' * 2 ^ (E - Z.min e E) ->
  binary_round prec emax false m e = S754_finite false m' E.
Proof.
  intros Hd HE Hv.
  assert (Hdm : digits m + e = 53 + E).
  { destruct (Z_lt_le_dec E e).
    - rewrite Z.min_r in Hv by lia. rewrite Z.sub_diag, Z.mul_1_r in Hv.
      symmetry in Hv. apply digits_shift in Hv; lia.
    - rewrite Z.min_l in Hv by lia. rewrite Z.sub_diag, Z.mul_1_r in Hv.
      apply digits_shift in Hv; lia. }
  unfold binary_round, shl_align. fold (digits m).
  replace (fexp prec emax (digits m + e)) with E
    by (unfold fexp, emin, prec, emax; lia).
  destruct (E - e) as [|p|p] eqn:HEe.
  - assert (E = e) by lia. subst E.
    rewrite Z.min_id, Z.sub_diag, !Z.mul_1_r in Hv. injection Hv as ->.
    apply binary_round_aux_canonical; assumption.
  - rewrite Z.min_l in Hv by lia. rewrite Z.sub_diag, Z.mul_1_r, HEe in Hv.
    unfold binary_round_aux. unfold shr_fexp at 1.
    change (Zdigits2 (Zpos m)) with (digits m).
    replace (fexp prec emax (digits m + e) - e) with (Zpos p)
      by (unfold fexp, emin, prec, emax; lia).
    unfold shr_record_of_loc. rewrite (@shr_exact m m' e p Hv).
    cbn [shr_m loc_of_shr_record round_nearest_even].
    rewrite shr_fexp_canonical by (assumption || lia).
    cbn [shr_m].
    replace (e + Zpos p <=? emax - prec) with true
      by (symmetry; apply Z.leb_le; unfold emax, prec; lia).
    f_equal. lia.
  - rewrite Z.min_r in Hv by lia. rewrite Z.sub_diag, Z.mul_1_r in Hv.
    replace (e - E) with (Zpos p) in Hv by lia.
    assert (Pos.iter xO m p = m') as ->.
    { apply Pos2Z.inj. rewrite iter_xO_value. lia. }
    apply binary_round_aux_canonical; assumption.
Qed.



Lemma cmant_value v : digits v <= 53 -> Zpos (cmant v) = Zpos v * 2 ^ (53 - digits v).
Proof.
  intros Hd. unfold cmant. rewrite Z2Pos.id; [reflexivity|].
  apply Z.mul_pos_pos; [lia | apply Z.pow_pos_nonneg; lia].
Qed.

Lemma cmant_digits v : digits v <= 53 -> digits (cmant v) = 53.
Proof.
  intros Hd. rewrite (@digits_shift v (53 - digits v) (cmant v)); try lia.
  apply cmant_value; assumption.
Qed.

Lemma digits_below v : Zpos v < 2 ^ 53 -> digits v <= 53.
Proof.
  intros Hv. pose proof (digits_bounds v) as [Blo _].
  destruct (Z_lt_le_dec 53 (digits v)); [|assumption].
  assert (2 ^ 53 <= 2 ^ (digits v - 1)) by (apply Z.pow_le_mono_r; lia). lia.
Qed.

(** [IEEE.of_Z] is the correctly rounded conversion on every integer. *)
Lemma of_Z_rounds z :
  IEEE.of_Z z = SF2Prim (binary_normalize prec emax z 0 false).
Proof.
  unfold IEEE.of_Z.
  destruct ((0 <=? z) && (z <? 9223372036854775808)) eqn:Hrange;
    [|reflexivity].
  apply andb_true_iff in Hrange as [Hlo Hhi].
  apply Z.leb_le in Hlo. apply Z.ltb_lt in Hhi.
  rewrite <- (SF2Prim_Prim2SF (of_uint63 (Uint63.of_Z z))).
  rewrite of_uint63_spec, Uint63.of_Z_spec.
  rewrite Z.mod_small; [reflexivity|].
  split; [assumption|]. exact Hhi.
Qed.

Lemma of_Z_pos v :
  Zpos v < 2 ^ 53 ->
  Prim2SF (IEEE.of_Z (Zpos v)) = S754_finite false (cmant v) (cexp v).
Proof.
  intros Hv. pose proof (digits_below v Hv) as Hd. pose proof (digits_pos v).
  pose proof (cmant_digits v Hd) as Hcd.
  rewrite of_Z_rounds. cbn [binary_normalize].
  rewrite (@binary_round_exact v 0 (cmant v) (cexp v)).
  - apply Prim2SF_SF2Prim. unfold valid_binary, SpecFloat.bounded, canonical_mantissa.
    fold (digits (cmant v)). rewrite Hcd, fexp_canonical by (unfold cexp; lia).
    rewrite Z.eqb_refl. apply Z.leb_le. unfold cexp, emax, prec. lia.
  - assumption.
  - unfold cexp. lia.
  - unfold cexp. rewrite Z.min_r by lia. rewrite Z.sub_diag, Z.mul_1_r.
    rewrite cmant_value by assumption. f_equal. f_equal. lia.
Qed.

Lemma of_Z_0 : Prim2SF (IEEE.of_Z 0) = S754_zero false.
Proof. reflexivity. Qed.

Lemma of_Z_add a b :
  0 <= a -> 0 <= b -> a + b < 2 ^ 53 ->
  (IEEE.of_Z a + IEEE.of_Z b)%float = IEEE.of_Z (a + b).
Proof.
  intros Ha Hb Hab. apply Prim2SF_inj. rewrite add_spec.
  destruct a as [|a|a]; [|destruct b as [|b|b]|]; try lia.
  - rewrite of_Z_0. simpl Z.add.
    destruct b as [|b|b]; try lia; [reflexivity|].
    rewrite of_Z_pos by lia. reflexivity.
  - rewrite Z.add_0_r, of_Z_0, of_Z_pos by lia. reflexivity.
  - change (Zpos a + Zpos b) with (Zpos (a + b)).
    rewrite !of_Z_pos by lia.
    assert (Hda := digits_below a ltac:(lia)).
    assert (Hdb := digits_below b ltac:(lia)).
    assert (Hdab := digits_below (a + b) ltac:(lia)).
    pose proof (digits_pos a). pose proof (digits_pos b).
    pose proof (digits_pos (a + b)%positive).
    unfold SF64add, SFadd.
    set (ez := Z.min (cexp a) (cexp b)).
    assert (Hez : ez <= cexp a /\ ez <= cexp b /\ ez <= 0 /\ -53 < ez)
      by (unfold ez, cexp; lia).
    assert (Hal : forall v, digits v <= 53 -> ez <= cexp v ->
              Zpos (fst (shl_align (cmant v) (cexp v) ez)) = Zpos v * 2 ^ (- ez)).
    { intros v Hdv Hle. unfold shl_align.
      destruct (ez - cexp v) as [|p|p] eqn:Hp; try lia; cbn [fst].
      - rewrite cmant_value by assumption. unfold cexp in *. f_equal. f_equal. lia.
      - rewrite iter_xO_value, cmant_value by assumption.
        rewrite <- Z.mul_assoc, <- Z.pow_add_r by (unfold cexp in *; lia).
        unfold cexp in *. f_equal. f_equal. lia. }
    unfold cond_Zopp.
    destruct (Zpos (fst (shl_align (cmant a) (cexp a) ez))
              + Zpos (fst (shl_align (cmant b) (cexp b) ez))) as [|M|M] eqn:HM;
      try lia.
    rewrite (Hal a), (Hal b) in HM by lia.
    cbn [binary_normalize].
    apply binary_round_exact.
    + apply cmant_digits; assumption.
    + unfold cexp. lia.
    + rewrite cmant_value by assumption. rewrite <- HM.
      rewrite <- Z.mul_add_distr_r. rewrite Pos2Z.inj_add.
      rewrite <- !Z.mul_assoc, <- !Z.pow_add_r by (unfold cexp; lia).
      f_equal. f_equal. unfold cexp. lia.
Qed.

Lemma digits_lt_value a b : digits a < digits b -> Zpos a < Zpos b.
Proof.
  intros Hd. pose proof (digits_bounds a) as [_ Ha].
  pose proof (digits_bounds b) as [Hb _]. pose proof (digits_pos a).
  assert (2 ^ digits a <= 2 ^ (digits b - 1)) by (apply Z.pow_le_mono_r; lia).
  lia.
Qed.

Lemma of_Z_ltb a b :
  0 <= a < 2 ^ 53 -> 0 <= b < 2 ^ 53 ->
  (IEEE.of_Z a <? IEEE.of_Z b)%float = (a <? b).
Proof.
  intros Ha Hb. rewrite ltb_spec.
  destruct a as [|a|a]; [|destruct b as [|b|b]|]; try lia.
  - rewrite of_Z_0. destruct b as [|b|b]; try lia; [reflexivity|].
    rewrite of_Z_pos by lia. reflexivity.
  - rewrite of_Z_0, of_Z_pos by lia. reflexivity.
  - rewrite !of_Z_pos by lia.
    assert (Hda := digits_below a ltac:(lia)).
    assert (Hdb := digits_below b ltac:(lia)).
    unfold SFltb, SFcompare.
    destruct (Z.compare_spec (cexp a) (cexp b)) as [He|He|He]; unfold cexp in He.
    + rewrite Pos.compare_cont_spec. cbn [Pos.switch_Eq].
      change (cmant a ?= cmant b)%positive with (Zpos (cmant a) ?= Zpos (cmant b)).
      rewrite !cmant_value by assumption.
      replace (digits b) with (digits a) by lia.
      assert (0 < 2 ^ (53 - digits a)) by (apply Z.pow_pos_nonneg; lia).
      destruct (Z.compare_spec (Zpos a * 2 ^ (53 - digits a))
                               (Zpos b * 2 ^ (53 - digits a))),
        (Z.ltb_spec (Zpos a) (Zpos b)); try reflexivity; nia.
    + symmetry. apply Z.ltb_lt. apply digits_lt_value. lia.
    + symmetry. apply Z.ltb_ge. apply Z.lt_le_incl, digits_lt_value. lia.
Qed.

(** Order facts that hold for every pair of doubles, NaN included. *)
Lemma SFltb_trans x y z :
  SFltb x y = true -> SFltb y z = true -> SFltb x z = true.
Proof.
  unfold SFltb, SFcompare.
  destruct x as [sx|sx| |sx mx ex], y as [sy|sy| |sy my ey],
    z as [sz|sz| |sz mz ez]; try discriminate;
    try (destruct sx, sy, sz; (discriminate || reflexivity)); intros Hxy Hyz.
  destruct sx, sy, sz; try discriminate; try reflexivity.
  - destruct (Z.compare_spec ex ey), (Z.compare_spec ey ez), (Z.compare_spec ex ez);
      try discriminate; try reflexivity; try lia; subst.
    rewrite Pos.compare_cont_spec in *. cbn [Pos.switch_Eq] in *.
    destruct (Pos.compare_spec mx my), (Pos.compare_spec my mz), (Pos.compare_spec mx mz);
      try discriminate; try reflexivity; lia.
  - destruct (Z.compare_spec ex ey), (Z.compare_spec ey ez), (Z.compare_spec ex ez);
      try discriminate; try reflexivity; try lia; subst.
    rewrite Pos.compare_cont_spec in *. cbn [Pos.switch_Eq] in *.
    destruct (Pos.compare_spec mx my), (Pos.compare_spec my mz), (Pos.compare_spec mx mz);
      try discriminate; try reflexivity; lia.
Qed.

Lemma ltb_trans (x y z : float) :
  (x <? y)%float = true -> (y <? z)%float = true -> (x <? z)%float = true.
Proof. rewrite !ltb_spec. apply SFltb_trans. Qed.

Lemma SFltb_irrefl x : SFltb x x = false.
Proof.
  unfold SFltb, SFcompare.
  destruct x as [s|s| |s m e]; try reflexivity; try (destruct s; reflexivity).
  destruct s; rewrite Z.compare_refl, Pos.compare_cont_refl; reflexivity.
Qed.

Lemma ltb_irrefl (x : float) : (x <? x)%float = false.
Proof. rewrite ltb_spec. apply SFltb_irrefl. Qed.

Lemma ltb_abs_pos (x y : float) :
  (abs x <? y)%float = true -> (0 <? y)%float = true.
Proof.
  rewrite !ltb_spec, abs_spec. change (Prim2SF 0) with (S754_zero false).
  unfold SFltb, SFcompare, SFabs.
  destruct (Prim2SF x) as [sx|sx| |sx mx ex], (Prim2SF y) as [sy|sy| |sy my ey];
    try discriminate; try reflexivity;
    try (destruct sy; (discriminate || reflexivity)).
Qed.

Ltac sf_signs :=
  repeat match goal with
  | s : bool |- _ => destruct s
  end; try discriminate; try reflexivity.

Ltac sf_compare :=
  repeat match goal with
  | |- context [Z.compare ?a ?b] => destruct (Z.compare_spec a b)
  | H : context [Z.compare ?a ?b] |- _ => destruct (Z.compare_spec a b)
  end; try discriminate; try reflexivity; try lia; subst;
  rewrite ?Pos.compare_cont_spec in *; cbn [Pos.switch_Eq] in *;
  repeat match goal with
  | |- context [Pos.compare ?a ?b] => destruct (Pos.compare_spec a b)
  | H : context [Pos.compare ?a ?b] |- _ => destruct (Pos.compare_spec a b)
  end; try discriminate; try reflexivity; try lia.

(** When [m] is below [x] and not below [a], and [a] is a number, [a] is
    below [x]. *)
Lemma SFltb_below m a x :
  SFltb m a = false -> SFltb m x = true -> a <> S754_nan ->
  SFltb a x = true.
Proof.
  unfold SFltb, SFcompare.
  destruct m as [sm|sm| |sm mm em], a as [sa|sa| |sa ma ea],
    x as [sx|sx| |sx mx ex]; intros Hma Hmx Hnan;
    try discriminate; try congruence; sf_signs; sf_compare.
Qed.

(** A positive number that a positive number is not below is at most it. *)
Lemma SFltb_false_leb m a :
  SFltb m a = false -> SFltb (S754_zero false) m = true ->
  SFltb (S754_zero false) a = true -> SFleb a m = true.
Proof.
  unfold SFltb, SFleb, SFcompare.
  destruct m as [sm|sm| |sm mm em], a as [sa|sa| |sa ma ea];
    intros Hma Hm Ha; try discriminate; sf_signs; sf_compare.
Qed.

Lemma SFltb_leb_trans x y z :
  SFltb x y = true -> SFleb y z = true -> SFltb x z = true.
Proof.
  unfold SFltb, SFleb, SFcompare.
  destruct x as [sx|sx| |sx mx ex], y as [sy|sy| |sy my ey],
    z as [sz|sz| |sz mz ez]; intros Hxy Hyz;
    try discriminate; sf_signs; sf_compare.
Qed.

Lemma ltb_below (m a x : float) :
  (m <? a)%float = false -> (m <? x)%float = true ->
  (a <? x)%float = true \/ is_nan a = true.
Proof.
  rewrite !ltb_spec. intros Hma Hmx.
  destruct (Prim2SF a) eqn:Ha.
  4: left; apply SFltb_below with (Prim2SF m); try assumption; discriminate.
  1-2: left; apply SFltb_below with (Prim2SF m); try assumption; discriminate.
  right. unfold is_nan. rewrite eqb_spec, Ha. reflexivity.
Qed.

Lemma ltb_false_leb (m a : float) :
  (m <? a)%float = false -> (0 <? m)%float = true -> (0 <? a)%float = true ->
  (a <=? m)%float = true.
Proof.
  rewrite !ltb_spec, leb_spec. change (Prim2SF 0) with (S754_zero false).
  apply SFltb_false_leb.
Qed.

Lemma ltb_leb_trans (x y z : float) :
  (x <? y)%float = true -> (y <=? z)%float = true -> (x <? z)%float = true.
Proof. rewrite !ltb_spec, leb_spec. apply SFltb_leb_trans. Qed.

Lemma is_nan_abs (x : float) : is_nan (abs x) = is_nan x.
Proof.
  unfold is_nan. rewrite !eqb_spec, abs_spec.
  destruct (Prim2SF x) as [s|s| |s m e];
    unfold SFabs, SFeqb, SFcompare; try reflexivity;
    destruct s; rewrite ?Z.compare_refl, ?Pos.compare_cont_refl; reflexivity.
Qed.

End ExactIntegers.

(** * The Welford accumulator against the two-pass statistics *)

Section Welford.
Import TwoPass.
Local Existing Instance Exact.ops.
Local Open Scope R_scope.

Lemma sum_app xs ys : sum (xs ++ ys) = sum xs + sum ys.
Proof. induction xs as [|x xs IH]; simpl; [|rewrite IH]; lra. Qed.

Lemma sum_deviations m xs :
  sum (map (fun x => (x - m) * (x - m)) xs)
  = sumsq xs - 2 * m * sum xs + count xs * (m * m).
Proof.
  unfold sumsq, count. induction xs as [|x xs IH].
  - simpl. lra.
  - change (length (x :: xs)) with (S (length xs)). rewrite S_INR.
    simpl. rewrite IH. lra.
Qed.

Lemma count_snoc xs x : count (xs ++ [x]) = count xs + 1.
Proof. unfold count. rewrite length_app, plus_INR. simpl. lra. Qed.

Lemma count_nonneg xs : 0 <= count xs.
Proof. apply pos_INR. Qed.

Lemma count_zero xs : count xs = 0 -> xs = [].
Proof.
  unfold count. destruct xs; [reflexivity|].
  intros H. change (length (r :: xs)) with (S (length xs)) in H.
  rewrite S_INR in H. pose proof (pos_INR (length xs)). lra.
Qed.

Lemma sample_mean_snoc xs x :
  sample_mean (xs ++ [x])
  = sample_mean xs + (x - sample_mean xs) / (count xs + 1).
Proof.
  unfold sample_mean. rewrite sum_app, count_snoc. simpl.
  pose proof (count_nonneg xs) as Hk.
  destruct (Req_dec (count xs) 0) as [Hz|Hnz].
  - rewrite (count_zero _ Hz). unfold count. simpl.
    unfold Rdiv. rewrite ?Rmult_0_l, ?Rplus_0_l, ?Rminus_0_r. field.
  - field. lra.
Qed.

Lemma squared_deviations_snoc xs x :
  squared_deviations (xs ++ [x])
  = squared_deviations xs
    + (x - sample_mean xs) * (x - sample_mean (xs ++ [x])).
Proof.
  unfold squared_deviations. rewrite !sum_deviations.
  unfold sumsq. rewrite map_app, sum_app. simpl.
  rewrite sample_mean_snoc.
  unfold sample_mean. rewrite sum_app, count_snoc. simpl.
  pose proof (count_nonneg xs) as Hk.
  destruct (Req_dec (count xs) 0) as [Hz|Hnz].
  - rewrite (count_zero _ Hz). unfold count. simpl.
    unfold Rdiv. rewrite ?Rmult_0_l, ?Rplus_0_l, ?Rminus_0_r. field.
  - field. lra.
Qed.

Lemma of_class_snoc b p x c :
  of_class b (p ++ [(x, c)])
  = if Bool.eqb c b then of_class b p ++ [x] else of_class b p.
Proof.
  unfold of_class. rewrite filter_app, map_app. simpl.
  destruct (Bool.eqb c b); simpl; [reflexivity | apply app_nil_r].
Qed.

Lemma t_init_ok : stats_ok t_init [].
Proof.
  intros b. unfold of_class, sample_mean, squared_deviations, count.
  destruct b; cbn; repeat split; unfold Rdiv; ring.
Qed.

Lemma t_push_ok acc p x c :
  stats_ok acc p ->
  exists acc', t_push acc x (Z.b2z c) = Some acc'
               /\ stats_ok acc' (p ++ [(x, c)]).
Proof.
  intros Hok. unfold t_push.
  replace ((Z.b2z c =? 0)%Z || (Z.b2z c =? 1)%Z) with true
    by (destruct c; reflexivity).
  eexists. split; [reflexivity|].
  intros b. rewrite of_class_snoc.
  destruct (Hok b) as (Hn & Hmean & Hm2).
  destruct (Hok c) as (Hnc & Hmeanc & Hm2c).
  destruct c, b; simpl in *; unfold sel, upd in *; simpl in *;
    try (repeat split; assumption);
    rewrite count_snoc, sample_mean_snoc, squared_deviations_snoc,
      sample_mean_snoc;
    repeat split; congruence.
Qed.

Lemma t_push_all_ok q :
  forall acc p,
    stats_ok acc p ->
    exists acc', t_push_all acc (encode q) = Some acc'
                 /\ stats_ok acc' (p ++ q).
Proof.
  induction q as [|[x c] q IH]; intros acc p Hok.
  - exists acc. rewrite app_nil_r. split; [reflexivity | assumption].
  - destruct (t_push_ok acc p x c Hok) as (acc1 & Hpush & Hok1).
    destruct (IH acc1 _ Hok1) as (acc2 & Hall & Hok2).
    exists acc2. split.
    + simpl. rewrite Hpush. exact Hall.
    + replace (p ++ (x, c) :: q) with ((p ++ [(x, c)]) ++ q)
        by (rewrite <- app_assoc; reflexivity).
      exact Hok2.
Qed.

(** C7: over exact real arithmetic, any sequence of pushes from the initial
    accumulator succeeds, and for each class the resulting count, mean and
    variance (sum of squared deviations over count - 1) are the closed-form
    two-pass sample statistics of the values pushed with that class. *)
Theorem welford_matches_two_pass (pushes : list (R * bool)) :
  exists acc,
    t_push_all t_init (encode pushes) = Some acc
    /\ forall b : bool,
         let xs := of_class b pushes in
         sel (Z.b2z b) (n acc) = count xs
         /\ sel (Z.b2z b) (mean acc) = sample_mean xs
         /\ sel (Z.b2z b) (m2 acc) / (sel (Z.b2z b) (n acc) - 1)
            = sample_variance xs.
Proof.
  destruct (t_push_all_ok pushes _ _ t_init_ok) as (acc & Hrun & Hok).
  exists acc. split; [exact Hrun|].
  intros b xs. destruct (Hok b) as (Hn & Hmean & Hm2).
  simpl in Hn, Hmean, Hm2. fold xs in Hn, Hmean, Hm2.
  unfold sample_variance. rewrite Hn, Hmean, Hm2. auto.
Qed.
End Welford.

(** * The statistics updater *)

Section ListSet.

Context {A : Type}.

Lemma length_list_set (l : list A) i v : length (list_set i v l) = length l.
Proof.
  revert i. induction l as [|h t IH]; intros [|i]; simpl; auto.
Qed.

Lemma nth_list_set_eq (l : list A) i v d :
  i < length l -> nth i (list_set i v l) d = v.
Proof.
  revert i. induction l as [|h t IH]; intros [|i] Hi; simpl in *; try lia.
  - reflexivity.
  - apply IH. lia.
Qed.

Lemma nth_list_set_neq (l : list A) i k v d :
  k <> i -> nth k (list_set i v l) d = nth k l d.
Proof.
  revert i k. induction l as [|h t IH]; intros [|i] [|k] Hne; simpl;
    try reflexivity; try lia.
  apply IH. lia.
Qed.

End ListSet.

Section Updater.

Context {D : Type} {ops : DoubleOps D}.
Variable P : nat.

Local Abbreviation wf ctx := (length (ttest_ctxs ctx) = DUDECT_TESTS P).

Lemma t_push_valid (a : ttest_ctx_t D) x c :
  valid_class c = true -> t_push a x c = Some (pushed a x c).
Proof.
  intros Hc. unfold pushed, t_push. unfold valid_class in Hc. rewrite Hc.
  reflexivity.
Qed.

Lemma t_push_invalid (a : ttest_ctx_t D) x c :
  valid_class c = false -> t_push a x c = None.
Proof.
  intros Hc. unfold t_push. unfold valid_class in Hc. rewrite Hc. reflexivity.
Qed.

Lemma same_buffers_refl (c : dudect_ctx_t D) : same_buffers c c.
Proof. repeat split. Qed.

Lemma same_buffers_trans (c1 c2 c3 : dudect_ctx_t D) :
  same_buffers c1 c2 -> same_buffers c2 c3 -> same_buffers c1 c3.
Proof.
  unfold same_buffers. intros (?&?&?&?&?) (?&?&?&?&?).
  repeat split; congruence.
Qed.

Lemma push_at_valid (ctx : dudect_ctx_t D) k x c :
  valid_class c = true ->
  push_at ctx k x c
  = Some (set_ttest_ctxs ctx
            (list_set k (pushed (ttest ctx k) x c) (ttest_ctxs ctx))).
Proof.
  intros Hc. unfold push_at. rewrite (t_push_valid _ _ _ Hc). reflexivity.
Qed.

(** The inner loop of [update_statistics]: the cropped accumulators with
    index in [s+1 .. s+len] take the push when the delta is below their
    threshold; nothing else changes. *)
Lemma crop_loop_spec difference x c :
  valid_class c = true ->
  forall len s (ctx : dudect_ctx_t D),
  s + len < length (ttest_ctxs ctx) ->
  exists l',
    for_each
      (fun c0 crop_index =>
         if (difference <? nth crop_index (percentiles c0) 0)%Z
         then push_at c0 (crop_index + 1) x c
         else Some c0)
      (seq s len) ctx
    = Some (set_ttest_ctxs ctx l')
    /\ length l' = length (ttest_ctxs ctx)
    /\ forall k,
         nth k l' t_init =
         if ((s <? k) && (k <=? s + len)
             && (difference <? nth (k - 1) (percentiles ctx) 0)%Z)%bool
         then pushed (ttest ctx k) x c
         else ttest ctx k.
Proof.
  intros Hc. induction len as [|len IH]; intros s ctx Hlen.
  - exists (ttest_ctxs ctx). split; [destruct ctx; reflexivity|].
    split; [reflexivity|]. intros k.
    replace ((s <? k) && (k <=? s + 0)) with false; [reflexivity|].
    symmetry. apply andb_false_iff.
    destruct (Nat.ltb_spec s k); [right; apply Nat.leb_gt; lia | now left].
  - cbn [seq for_each].
    destruct (difference <? nth s (percentiles ctx) 0)%Z eqn:Hlt.
    + rewrite (push_at_valid _ _ _ _ Hc). cbn [bind].
      destruct (IH (S s) (set_ttest_ctxs ctx
                  (list_set (s + 1) (pushed (ttest ctx (s + 1)) x c)
                            (ttest_ctxs ctx)))) as (l' & Hrun & Hl & Hnth).
      { cbn [ttest_ctxs set_ttest_ctxs]. rewrite length_list_set. lia. }
      exists l'. split; [exact Hrun|]. cbn [ttest_ctxs set_ttest_ctxs] in Hl.
      rewrite length_list_set in Hl. split; [exact Hl|].
      intros k. rewrite Hnth. cbn [ttest_ctxs set_ttest_ctxs percentiles].
      unfold ttest. cbn [ttest_ctxs set_ttest_ctxs].
      destruct (Nat.eq_dec k (s + 1)) as [->|Hne].
      * replace (S s <? s + 1) with false by (symmetry; apply Nat.ltb_ge; lia).
        replace (s <? s + 1) with true by (symmetry; apply Nat.ltb_lt; lia).
        replace (s + 1 <=? s + S len) with true by (symmetry; apply Nat.leb_le; lia).
        replace (s + 1 - 1) with s by lia. rewrite Hlt. cbn [andb].
        rewrite nth_list_set_eq by lia. reflexivity.
      * rewrite nth_list_set_neq by assumption.
        replace ((S s <? k) && (k <=? S s + len))
          with ((s <? k) && (k <=? s + S len)); [reflexivity|].
        destruct (Nat.ltb_spec s k), (Nat.ltb_spec (S s) k),
          (Nat.leb_spec k (s + S len)), (Nat.leb_spec k (S s + len));
          try reflexivity; lia.
    + cbn [bind].
      destruct (IH (S s) ctx) as (l' & Hrun & Hl & Hnth); [lia|].
      exists l'. split; [exact Hrun|]. split; [exact Hl|].
      intros k. rewrite Hnth.
      destruct (Nat.eq_dec k (s + 1)) as [->|Hne].
      * replace (S s <? s + 1) with false by (symmetry; apply Nat.ltb_ge; lia).
        replace (s + 1 - 1) with s by lia. rewrite Hlt.
        rewrite !andb_false_r. reflexivity.
      * replace ((S s <? k) && (k <=? S s + len))
          with ((s <? k) && (k <=? s + S len)); [reflexivity|].
        destruct (Nat.ltb_spec s k), (Nat.ltb_spec (S s) k),
          (Nat.leb_spec k (s + S len)), (Nat.leb_spec k (S s + len));
          try reflexivity; lia.
Qed.

Lemma update_one_skipped (ctx : dudect_ctx_t D) i :
  (nth i (exec_times ctx) 0 < 0)%Z -> update_one P ctx i = Some ctx.
Proof.
  intros Hneg. unfold update_one.
  replace (nth i (exec_times ctx) 0 <? 0)%Z with true
    by (symmetry; apply Z.ltb_lt; assumption).
  reflexivity.
Qed.

Lemma update_one_abort (ctx : dudect_ctx_t D) i :
  (0 <= nth i (exec_times ctx) 0)%Z ->
  valid_class (nth i (classes ctx) 0%Z) = false ->
  update_one P ctx i = None.
Proof.
  intros Hpos Hc. unfold update_one.
  replace (nth i (exec_times ctx) 0 <? 0)%Z with false
    by (symmetry; apply Z.ltb_ge; assumption).
  unfold push_at. rewrite (t_push_invalid _ _ _ Hc). reflexivity.
Qed.

(** One retained delta: the raw accumulator takes the push, each cropped
    accumulator takes it when the delta is strictly below its threshold, and
    the second-order accumulator takes the squared centered value when the
    raw class-0 count, after this push, is above 10000. *)
Lemma update_one_retained (ctx : dudect_ctx_t D) i :
  wf ctx ->
  let difference := nth i (exec_times ctx) 0%Z in
  let class := nth i (classes ctx) 0%Z in
  (0 <= difference)%Z ->
  valid_class class = true ->
  exists ctx',
    update_one P ctx i = Some ctx'
    /\ same_buffers ctx ctx'
    /\ wf ctx'
    /\ ttest ctx' 0 = pushed (ttest ctx 0) (d_of_Z difference) class
    /\ (forall j, j < P ->
          ttest ctx' (j + 1) =
          if (difference <? nth j (percentiles ctx) 0)%Z
          then pushed (ttest ctx (j + 1)) (d_of_Z difference) class
          else ttest ctx (j + 1))
    /\ ttest ctx' (1 + P) =
       if (d_of_Z 10000 <? fst (n (ttest ctx' 0)))%D
       then
         let centered :=
           (d_of_Z difference - sel class (mean (ttest ctx' 0)))%D in
         pushed (ttest ctx (1 + P)) (centered * centered)%D class
       else ttest ctx (1 + P).
Proof.
  intros Hwf difference class Hpos Hc. unfold update_one.
  fold difference. fold class.
  replace (difference <? 0)%Z with false
    by (symmetry; apply Z.ltb_ge; assumption).
  rewrite (push_at_valid _ _ _ _ Hc). cbn [bind].
  set (ctx1 := set_ttest_ctxs ctx _).
  assert (Hlen1 : length (ttest_ctxs ctx1) = DUDECT_TESTS P).
  { unfold ctx1. cbn [ttest_ctxs set_ttest_ctxs]. rewrite length_list_set.
    assumption. }
  destruct (crop_loop_spec difference (d_of_Z difference) class Hc P 0 ctx1)
    as (l2 & Hrun & Hlen2 & Hnth2).
  { rewrite Hlen1. unfold DUDECT_TESTS. lia. }
  rewrite Hrun. cbn [bind].
  set (ctx2 := set_ttest_ctxs ctx1 l2).
  assert (Hraw1 : ttest ctx1 0 = pushed (ttest ctx 0) (d_of_Z difference) class).
  { unfold ctx1, ttest at 1. cbn [ttest_ctxs set_ttest_ctxs].
    apply nth_list_set_eq. rewrite Hwf. unfold DUDECT_TESTS. lia. }
  assert (Hraw2 : ttest ctx2 0 = ttest ctx1 0).
  { unfold ctx2, ttest at 1. cbn [ttest_ctxs set_ttest_ctxs].
    rewrite Hnth2. reflexivity. }
  assert (Hcrop2 : forall j, j < P ->
            ttest ctx2 (j + 1) =
            if (difference <? nth j (percentiles ctx) 0)%Z
            then pushed (ttest ctx (j + 1)) (d_of_Z difference) class
            else ttest ctx (j + 1)).
  { intros j Hj. unfold ctx2, ttest at 1. cbn [ttest_ctxs set_ttest_ctxs].
    rewrite Hnth2.
    replace (0 <? j + 1) with true by (symmetry; apply Nat.ltb_lt; lia).
    replace (j + 1 <=? 0 + P) with true by (symmetry; apply Nat.leb_le; lia).
    replace (j + 1 - 1) with j by lia. cbn [andb].
    assert (ttest ctx1 (j + 1) = ttest ctx (j + 1)) as ->.
    { unfold ctx1, ttest. cbn [ttest_ctxs set_ttest_ctxs].
      apply nth_list_set_neq. lia. }
    reflexivity. }
  assert (Hsnd2 : ttest ctx2 (1 + P) = ttest ctx (1 + P)).
  { unfold ctx2, ttest at 1. cbn [ttest_ctxs set_ttest_ctxs].
    rewrite Hnth2.
    replace (1 + P <=? 0 + P) with false by (symmetry; apply Nat.leb_gt; lia).
    rewrite andb_false_r. cbn [andb].
    unfold ctx1, ttest. cbn [ttest_ctxs set_ttest_ctxs].
    apply nth_list_set_neq. lia. }
  assert (Hwf2 : length (ttest_ctxs ctx2) = DUDECT_TESTS P).
  { unfold ctx2. cbn [ttest_ctxs set_ttest_ctxs]. congruence. }
  assert (Hbuf : same_buffers ctx ctx2) by (repeat split).
  destruct (d_of_Z 10000 <? fst (n (ttest ctx2 0)))%D eqn:Hgate.
  - rewrite (push_at_valid _ _ _ _ Hc).
    eexists. split; [reflexivity|].
    split; [exact Hbuf|].
    split; [cbn [ttest_ctxs set_ttest_ctxs]; rewrite length_list_set; exact Hwf2|].
    assert (Hkeep : forall k, k <> 1 + P ->
              ttest (set_ttest_ctxs ctx2
                       (list_set (1 + P)
                          (pushed (ttest ctx2 (1 + P))
                             ((d_of_Z difference - sel class (mean (ttest ctx2 0)))
                              * (d_of_Z difference - sel class (mean (ttest ctx2 0))))%D
                             class)
                          (ttest_ctxs ctx2))) k
              = ttest ctx2 k).
    { intros k Hk. unfold ttest at 1. cbn [ttest_ctxs set_ttest_ctxs].
      apply nth_list_set_neq. assumption. }
    split; [rewrite Hkeep by lia; congruence|].
    split; [intros j Hj; rewrite Hkeep by lia; apply Hcrop2; assumption|].
    rewrite (Hkeep 0) by lia. rewrite Hgate.
    unfold ttest at 1. cbn [ttest_ctxs set_ttest_ctxs].
    rewrite nth_list_set_eq by (rewrite Hwf2; unfold DUDECT_TESTS; lia).
    cbv zeta. rewrite Hsnd2. reflexivity.
  - exists ctx2. split; [reflexivity|].
    split; [exact Hbuf|]. split; [exact Hwf2|].
    split; [congruence|]. split; [exact Hcrop2|].
    rewrite Hgate. exact Hsnd2.
Qed.


Lemma retained_at_same (c1 c2 : dudect_ctx_t D) idx :
  same_buffers c1 c2 -> retained_at c1 idx = retained_at c2 idx.
Proof.
  intros (_ & _ & He & Hc & _). unfold retained_at. rewrite He, Hc.
  reflexivity.
Qed.

Lemma retained_at_cons (ctx : dudect_ctx_t D) i idx :
  retained_at ctx (i :: idx) =
  if (0 <=? nth i (exec_times ctx) 0)%Z
  then (nth i (exec_times ctx) 0%Z, nth i (classes ctx) 0%Z)
       :: retained_at ctx idx
  else retained_at ctx idx.
Proof. reflexivity. Qed.

Lemma update_loop_spec idx :
  forall ctx : dudect_ctx_t D,
  wf ctx ->
  Forall (fun p => valid_class (snd p) = true) (retained_at ctx idx) ->
  exists ctx',
    for_each (update_one P) idx ctx = Some ctx'
    /\ same_buffers ctx ctx'
    /\ wf ctx'
    /\ t_push_all (ttest ctx 0) (as_pushes (retained_at ctx idx))
       = Some (ttest ctx' 0)
    /\ forall j, j < P ->
         t_push_all (ttest ctx (j + 1))
           (as_pushes (below (nth j (percentiles ctx) 0%Z)
                             (retained_at ctx idx)))
         = Some (ttest ctx' (j + 1)).
Proof.
  induction idx as [|i idx IH]; intros ctx Hwf Hvalid.
  - exists ctx. split; [reflexivity|]. split; [apply same_buffers_refl|].
    split; [assumption|]. split; [reflexivity|]. intros; reflexivity.
  - rewrite retained_at_cons in *. cbn [for_each].
    destruct (Z.leb_spec 0 (nth i (exec_times ctx) 0%Z)) as [Hpos|Hneg].
    + inversion Hvalid as [|p l Hc Hrest]; subst. cbn [snd] in Hc.
      destruct (update_one_retained ctx i Hwf Hpos Hc)
        as (ctx1 & Hone & Hbuf1 & Hwf1 & Hraw & Hcrop & _).
      rewrite Hone. cbn [bind].
      rewrite (retained_at_same _ _ idx Hbuf1) in *.
      destruct (IH ctx1 Hwf1 Hrest) as (ctx' & Hrun & Hbuf & Hwf' & Hraw' & Hcrop').
      exists ctx'. split; [exact Hrun|].
      split; [eapply same_buffers_trans; eassumption|].
      split; [assumption|]. split.
      * cbn [as_pushes map t_push_all fst snd].
        rewrite (t_push_valid _ _ _ Hc). cbn [bind]. rewrite <- Hraw.
        exact Hraw'.
      * intros j Hj. specialize (Hcrop j Hj). specialize (Hcrop' j Hj).
        destruct Hbuf1 as (_ & _ & _ & _ & Hperc). rewrite <- Hperc in Hcrop'.
        unfold below at 1. cbn [filter fst].
        destruct (nth i (exec_times ctx) 0 <? nth j (percentiles ctx) 0)%Z.
        -- cbn [as_pushes map t_push_all fst snd].
           rewrite (t_push_valid _ _ _ Hc). cbn [bind]. rewrite <- Hcrop.
           exact Hcrop'.
        -- rewrite <- Hcrop. exact Hcrop'.
    + rewrite (update_one_skipped ctx i Hneg). cbn [bind].
      apply IH; assumption.
Qed.

(** With one measurement or more, [update_statistics] is its loop. *)
Lemma update_statistics_unfold (ctx : dudect_ctx_t D) :
  1 <= number_measurements ctx ->
  update_statistics P ctx
  = for_each (update_one P) (seq 10 (number_measurements ctx - 1 - 10)) ctx.
Proof.
  intros HN. unfold update_statistics.
  destruct (Nat.eqb_spec (number_measurements ctx) 0) as [H0|_]; [lia|].
  reflexivity.
Qed.

Lemma update_statistics_loop (ctx ctx' : dudect_ctx_t D) :
  update_statistics P ctx = Some ctx' ->
  1 <= number_measurements ctx
  /\ for_each (update_one P) (seq 10 (number_measurements ctx - 1 - 10)) ctx
     = Some ctx'.
Proof.
  unfold update_statistics.
  destruct (Nat.eqb_spec (number_measurements ctx) 0) as [H0|Hpos];
    [discriminate|].
  intros Hrun. split; [lia | exact Hrun].
Qed.

Lemma update_statistics_none (ctx : dudect_ctx_t D) :
  number_measurements ctx = 0 -> update_statistics P ctx = None.
Proof. intros H0. unfold update_statistics. rewrite H0. reflexivity. Qed.

(** C6: the statistics updater goes through the deltas at the indices 10 to
    [number_measurements - 2], drops the negative ones without failing
    (whatever their label), pushes every other one into the raw accumulator,
    and pushes it into the cropped accumulator of every threshold it is
    strictly below. [retained] is that list of deltas; the only way the
    update can fail is the class assertion of [t_push] on a retained delta. *)
Theorem update_statistics_pushes (ctx : dudect_ctx_t D) :
  1 <= number_measurements ctx ->
  length (ttest_ctxs ctx) = DUDECT_TESTS P ->
  Forall (fun p => valid_class (snd p) = true) (retained ctx) ->
  exists ctx',
    update_statistics P ctx = Some ctx'
    /\ same_buffers ctx ctx'
    /\ t_push_all (ttest ctx 0) (as_pushes (retained ctx))
       = Some (ttest ctx' 0)
    /\ forall j, j < P ->
         t_push_all (ttest ctx (j + 1))
           (as_pushes (below (nth j (percentiles ctx) 0%Z) (retained ctx)))
         = Some (ttest ctx' (j + 1)).
Proof.
  intros HN Hwf Hvalid. rewrite (update_statistics_unfold ctx HN).
  unfold retained in *.
  destruct (update_loop_spec _ ctx Hwf Hvalid)
    as (ctx' & Hrun & Hbuf & _ & Hraw & Hcrop).
  exists ctx'. auto.
Qed.

End Updater.

(** * What the updater leaves alone *)

Section Frame.

Context {D : Type} {ops : DoubleOps D}.
Variable P : nat.

Lemma for_each_frame (body : dudect_ctx_t D -> nat -> option (dudect_ctx_t D)) :
  (forall c i c', body c i = Some c' -> same_buffers c c') ->
  forall idx c c', for_each body idx c = Some c' -> same_buffers c c'.
Proof.
  intros Hbody. induction idx as [|i idx IH]; intros c c' Hrun.
  - injection Hrun as <-. apply same_buffers_refl.
  - cbn [for_each] in Hrun. destruct (body c i) as [c1|] eqn:Hb; [|discriminate].
    cbn [bind] in Hrun. eapply same_buffers_trans; [apply (Hbody _ _ _ Hb)|].
    apply IH. exact Hrun.
Qed.

Lemma push_at_frame (c : dudect_ctx_t D) k x class c' :
  push_at c k x class = Some c' -> same_buffers c c'.
Proof.
  unfold push_at. destruct (t_push _ _ _); [|discriminate].
  cbn [bind]. intros [= <-]. repeat split.
Qed.

Lemma update_one_frame (c : dudect_ctx_t D) i c' :
  update_one P c i = Some c' -> same_buffers c c'.
Proof.
  unfold update_one. destruct (_ <? 0)%Z.
  { intros [= <-]. apply same_buffers_refl. }
  destruct (push_at c 0 _ _) as [c1|] eqn:H1; [|discriminate]. cbn [bind].
  destruct (for_each _ _ c1) as [c2|] eqn:H2; [|discriminate]. cbn [bind].
  intros H3.
  apply push_at_frame in H1.
  apply for_each_frame in H2.
  2:{ intros c0 j c0'. destruct (_ <? _)%Z; [apply push_at_frame|].
      intros [= <-]. apply same_buffers_refl. }
  assert (same_buffers c2 c').
  { destruct (_ <? _)%D; [apply push_at_frame in H3; exact H3|].
    injection H3 as <-. apply same_buffers_refl. }
  eapply same_buffers_trans; [exact H1|].
  eapply same_buffers_trans; eassumption.
Qed.

Lemma update_statistics_keeps (c c' : dudect_ctx_t D) :
  update_statistics P c = Some c' -> same_buffers c c'.
Proof.
  intros Hupd. apply update_statistics_loop in Hupd as [_ Hrun].
  revert Hrun. apply for_each_frame. apply update_one_frame.
Qed.

End Frame.

(** * Counts of the reachable contexts *)

Section ReachableCounts.

Variable pow : float -> float -> float.
Local Hint Extern 0 (DoubleOps _) =>
  exact (IEEE.ops pow) : typeclass_instances.

Variable P : nat.
Variable E : Z.
Variable qsort : (Z -> Z -> Z) -> list Z -> list Z.

Local Open Scope Z_scope.

Lemma valid_class_cases c : valid_class c = true -> c = 0 \/ c = 1.
Proof. unfold valid_class. lia. Qed.

Lemma counts_pushed a x c j0 j1 :
  counts a j0 j1 -> valid_class c = true ->
  0 <= j0 -> 0 <= j1 -> j0 + 1 < 2 ^ 53 -> j1 + 1 < 2 ^ 53 ->
  counts (pushed a x c)
         (if c =? 0 then j0 + 1 else j0) (if c =? 0 then j1 else j1 + 1).
Proof.
  unfold counts. intros Hn Hc H0 H1 Hb0 Hb1.
  unfold pushed, t_push. fold (valid_class c). rewrite Hc. cbn [n]. rewrite Hn.
  destruct (valid_class_cases c Hc) as [-> | ->]; unfold upd, sel;
    cbn [Z.eqb fst snd d_add d_of_Z IEEE.ops]; f_equal; apply of_Z_add; lia.
Qed.

(** An accumulator that kept its counts or took one push of class [c] stays
    below a raw accumulator that took one push of class [c]. *)
Lemma counts_step a a' x c j0 j1 k0 k1 :
  counts a j0 j1 -> valid_class c = true ->
  0 <= j0 <= k0 -> 0 <= j1 <= k1 -> k0 + k1 + 1 < 2 ^ 53 ->
  a' = a \/ a' = pushed a x c ->
  exists j0' j1',
    (0 <= j0' <= (if c =? 0 then k0 + 1 else k0)
     /\ 0 <= j1' <= (if c =? 0 then k1 else k1 + 1))
    /\ counts a' j0' j1'.
Proof.
  intros Hn Hc H0 H1 Hb [-> | ->].
  - exists j0, j1. split; [destruct (c =? 0); lia | assumption].
  - eexists _, _. split; [|apply counts_pushed; try eassumption; lia].
    destruct (c =? 0); lia.
Qed.

Lemma counts_ok_weaken ctx B B' :
  counts_ok pow P ctx B -> B <= B' -> counts_ok pow P ctx B'.
Proof.
  intros (Hwf & k0 & k1 & Hk & Hraw & Hall) HB.
  split; [assumption|]. exists k0, k1. repeat split; try assumption; lia.
Qed.

Lemma counts_ok_update_one ctx i ctx' B :
  counts_ok pow P ctx B -> B + 1 < 2 ^ 53 ->
  update_one P ctx i = Some ctx' ->
  counts_ok pow P ctx' (B + 1).
Proof.
  intros Hok HB Hone.
  destruct (Z.ltb_spec (nth i (exec_times ctx) 0) 0) as [Hneg|Hpos].
  { rewrite (update_one_skipped P ctx i Hneg) in Hone. injection Hone as <-.
    apply counts_ok_weaken with B; [assumption | lia]. }
  destruct (valid_class (nth i (classes ctx) 0)) eqn:Hc.
  2:{ rewrite (update_one_abort P ctx i Hpos Hc) in Hone. discriminate. }
  destruct Hok as (Hwf & k0 & k1 & Hk & Hraw & Hall).
  destruct (update_one_retained P ctx i Hwf Hpos Hc)
    as (ctx1 & Hone1 & _ & Hwf1 & Hraw1 & Hcrop1 & Hsnd1).
  rewrite Hone1 in Hone. injection Hone as <-.
  set (c := nth i (classes ctx) 0) in *.
  set (x := @d_of_Z _ (IEEE.ops pow) (nth i (exec_times ctx) 0)) in *.
  split; [assumption|].
  exists (if c =? 0 then k0 + 1 else k0), (if c =? 0 then k1 else k1 + 1).
  split; [destruct (c =? 0); lia|]. split.
  - rewrite Hraw1. apply counts_pushed; try assumption; lia.
  - intros k Hk'. unfold DUDECT_TESTS in Hk'.
    destruct (Hall k Hk') as (j0 & j1 & Hj & Hcnt).
    assert (Hcase : exists y, ttest ctx1 k = ttest ctx k
                              \/ ttest ctx1 k = pushed (ttest ctx k) y c).
    { destruct (Nat.eq_dec k 0) as [->|Hk0].
      - exists x. right. exact Hraw1.
      - destruct (Nat.eq_dec k (1 + P)) as [->|HkP].
        + rewrite Hsnd1.
          destruct (_ <? _)%D; [eexists; right; reflexivity|].
          exists x. left. reflexivity.
        + replace k with (k - 1 + 1)%nat by lia. rewrite Hcrop1 by lia.
          exists x. destruct (_ <? _); [right|left]; reflexivity. }
    destruct Hcase as (y & Hy).
    apply (counts_step (ttest ctx k) (ttest ctx1 k) y c j0 j1 k0 k1);
      try assumption; lia.
Qed.

Lemma counts_ok_for_each idx :
  forall ctx ctx' B,
  counts_ok pow P ctx B -> B + Z.of_nat (length idx) < 2 ^ 53 ->
  for_each (update_one P) idx ctx = Some ctx' ->
  counts_ok pow P ctx' (B + Z.of_nat (length idx)).
Proof.
  induction idx as [|i idx IH]; intros ctx ctx' B Hok HB Hrun.
  - injection Hrun as <-. apply counts_ok_weaken with B; [assumption|simpl; lia].
  - cbn [for_each] in Hrun. cbn [length] in *.
    destruct (update_one P ctx i) as [ctx1|] eqn:Hone; [|discriminate].
    cbn [bind] in Hrun.
    apply (counts_ok_update_one ctx i ctx1 B Hok) in Hone; [|lia].
    apply (IH ctx1 ctx' (B + 1) Hone) in Hrun; [|lia].
    apply counts_ok_weaken with (B + 1 + Z.of_nat (length idx)); [assumption|lia].
Qed.


Lemma prepare_percentiles_frame idx :
  forall ctx ctx' : dudect_ctx_t float,
  for_each
    (fun c i =>
       r <- percentile qsort (exec_times c) (quantile P i)
              (number_measurements c) ;;
       Some {| number_measurements := number_measurements c;
               ticks := ticks c;
               exec_times := snd r;
               classes := classes c;
               ttest_ctxs := ttest_ctxs c;
               percentiles := list_set i (fst r) (percentiles c) |})
    idx ctx = Some ctx' ->
  ttest_ctxs ctx' = ttest_ctxs ctx
  /\ number_measurements ctx' = number_measurements ctx.
Proof.
  induction idx as [|i idx IH]; intros ctx ctx' Hrun.
  - injection Hrun as <-. split; reflexivity.
  - cbn [for_each] in Hrun.
    destruct (percentile qsort (exec_times ctx) (quantile P i)
                (number_measurements ctx)) as [r|]; [|discriminate].
    cbn [bind] in Hrun. apply IH in Hrun. exact Hrun.
Qed.

Lemma counts_ok_same_accs ctx ctx' B :
  ttest_ctxs ctx' = ttest_ctxs ctx ->
  counts_ok pow P ctx B -> counts_ok pow P ctx' B.
Proof.
  intros Heq. unfold counts_ok, ttest. rewrite Heq. auto.
Qed.

Lemma counts_ok_main ctx b ctx' s B :
  counts_ok pow P ctx B ->
  B + Z.of_nat (number_measurements ctx) < 2 ^ 53 ->
  dudect_main P E qsort ctx b = Some (ctx', s) ->
  counts_ok pow P ctx' (B + Z.of_nat (number_measurements ctx))
  /\ number_measurements ctx' = number_measurements ctx.
Proof.
  intros Hok HB Hmain. unfold dudect_main in Hmain.
  set (ctx0 := measure (prepare ctx b) b) in *.
  assert (Hok0 : counts_ok pow P ctx0 B)
    by (apply counts_ok_same_accs with ctx; [reflexivity | assumption]).
  assert (HN0 : number_measurements ctx0 = number_measurements ctx)
    by reflexivity.
  destruct (nth (P - 1) (percentiles ctx0) 0 =? 0).
  - unfold prepare_percentiles in Hmain.
    destruct (for_each _ _ ctx0) as [ctx1|] eqn:Hcal; [|discriminate].
    cbn [bind] in Hmain. injection Hmain as <- <-.
    apply prepare_percentiles_frame in Hcal. destruct Hcal as [Hacc HN].
    split; [|congruence].
    apply counts_ok_same_accs with ctx0; [assumption|].
    apply counts_ok_weaken with B; [assumption | lia].
  - destruct (update_statistics P ctx0) as [ctx1|] eqn:Hupd; [|discriminate].
    cbn [bind] in Hmain. injection Hmain as <- <-.
    split.
    + apply update_statistics_loop in Hupd as [_ Hupd].
      apply (counts_ok_for_each _ ctx0 ctx1 B Hok0) in Hupd.
      * eapply counts_ok_weaken; [exact Hupd|]. rewrite length_seq. lia.
      * rewrite length_seq. lia.
    + apply update_statistics_keeps in Hupd.
      destruct Hupd as (HN & _). congruence.
Qed.

Lemma counts_pair_init : counts (@t_init _ (IEEE.ops pow)) 0 0.
Proof. reflexivity. Qed.

Lemma counts_ok_init N : counts_ok pow P (dudect_init P N) 0.
Proof.
  split; [apply repeat_length|]. exists 0, 0.
  assert (Hnth : forall i, ttest (dudect_init P N) i = t_init).
  { intros i. unfold ttest, dudect_init. cbn [ttest_ctxs].
    destruct (Nat.lt_ge_cases i (DUDECT_TESTS P)).
    - apply nth_repeat_lt. assumption.
    - apply nth_overflow. rewrite repeat_length. assumption. }
  split; [lia|]. split; [rewrite Hnth; apply counts_pair_init|].
  intros i _. exists 0, 0. split; [lia|]. rewrite Hnth. apply counts_pair_init.
Qed.

Lemma counts_ok_run bs :
  forall ctx ctx' B,
  counts_ok pow P ctx B ->
  B + Z.of_nat (length bs) * Z.of_nat (number_measurements ctx) < 2 ^ 53 ->
  run P E qsort ctx bs = Some ctx' ->
  counts_ok pow P ctx' (B + Z.of_nat (length bs) * Z.of_nat (number_measurements ctx))
  /\ number_measurements ctx' = number_measurements ctx.
Proof.
  induction bs as [|b bs IH]; intros ctx ctx' B Hok HB Hrun.
  - injection Hrun as <-. split; [|reflexivity].
    apply counts_ok_weaken with B; [assumption | simpl; lia].
  - cbn [run] in Hrun. cbn [length] in *.
    destruct (dudect_main P E qsort ctx b) as [[ctx1 s]|] eqn:Hmain;
      [|discriminate].
    cbn [bind fst] in Hrun.
    destruct (counts_ok_main ctx b ctx1 s B Hok) as [Hok1 HN1];
      [lia | assumption |].
    apply (IH ctx1 ctx' _ Hok1) in Hrun; [|rewrite HN1; lia].
    destruct Hrun as [Hok' HN']. rewrite HN1 in *. split; [|assumption].
    eapply counts_ok_weaken; [exact Hok'|]. lia.
Qed.


End ReachableCounts.

(** * The classifier *)

Section Classifier.

Variable pow : float -> float -> float.
Local Hint Extern 0 (DoubleOps _) =>
  exact (IEEE.ops pow) : typeclass_instances.

Variable P : nat.
Variable E : Z.
Variable qsort : (Z -> Z -> Z) -> list Z -> list Z.

(** The loop of [max_test] after [len] iterations: [ret] is still 0 with
    [max] still 0, or it is a gated accumulator with [max] its [|t|], and no
    gated accumulator seen so far has [|t|] strictly above [max]. *)
Lemma max_test_loop_inv (ctx : dudect_ctx_t float) len :
  let st := fold_left (max_test_step E ctx) (seq 0 len)
                      (0, IEEE.of_Z 0, []) in
  let r := fst (fst st) in
  let m := snd (fst st) in
  ((r = 0 /\ m = IEEE.of_Z 0)
   \/ (r < len /\ gate E (ttest ctx r) = true
       /\ m = abs (t_compute (ttest ctx r)) /\ (0 <? m)%float = true))
  /\ forall i, i < len -> gate E (ttest ctx i) = true ->
       (m <? abs (t_compute (ttest ctx i)))%float = false.
Proof.
  induction len as [|len IH]; cbv zeta.
  - split; [left; split; reflexivity | intros i Hi; lia].
  - rewrite seq_S, fold_left_app. cbn [fold_left Nat.add].
    cbv zeta in IH.
    destruct (fold_left (max_test_step E ctx) (seq 0 len) (0, IEEE.of_Z 0, []))
      as [[r m] calls].
    cbn [fst snd] in IH. destruct IH as [Hsel Hmax].
    unfold max_test_step.
    destruct (gate E (ttest ctx len)) eqn:Hgate.
    + cbn [d_fabs d_ltb IEEE.ops].
      destruct (m <? abs (t_compute (ttest ctx len)))%float eqn:Hlt;
        cbn [fst snd].
      * split.
        -- right. split; [lia|]. split; [assumption|]. split; [reflexivity|].
           destruct Hsel as [[_ ->] | (_ & _ & -> & _)].
           ++ exact Hlt.
           ++ apply ltb_abs_pos with (x := t_compute (ttest ctx r)). exact Hlt.
        -- intros i Hi Hg.
           destruct (Nat.eq_dec i len) as [->|Hne]; [apply ltb_irrefl|].
           destruct (_ <? abs (t_compute (ttest ctx i)))%float eqn:Hc;
             [|reflexivity].
           rewrite <- (Hmax i ltac:(lia) Hg). symmetry.
           eapply ltb_trans; eassumption.
      * split.
        -- destruct Hsel as [Hsel | (Hr & Hsel)]; [left; exact Hsel|].
           right. split; [lia | exact Hsel].
        -- intros i Hi Hg.
           destruct (Nat.eq_dec i len) as [->|Hne]; [exact Hlt|].
           apply Hmax; [lia | assumption].
    + cbn [fst snd]. split.
      * destruct Hsel as [Hsel | (Hr & Hsel)]; [left; exact Hsel|].
        right. split; [lia | exact Hsel].
      * intros i Hi Hg.
        destruct (Nat.eq_dec i len) as [->|Hne]; [congruence|].
        apply Hmax; [lia | assumption].
Qed.

(** The loop of [max_test] after [len] iterations, on what it leaves behind:
    while [ret] is at its initial 0, no gated accumulator seen so far has a
    positive [|t|]; once [ret] is set, every gated accumulator before it has
    a [|t|] strictly below the selected one's, or a [t] that is NaN. *)
Lemma max_test_loop_first (ctx : dudect_ctx_t float) len :
  let st := fold_left (max_test_step E ctx) (seq 0 len)
                      (0, IEEE.of_Z 0, []) in
  let r := fst (fst st) in
  let m := snd (fst st) in
  (r = 0 /\ m = IEEE.of_Z 0
   /\ forall i, i < len -> gate E (ttest ctx i) = true ->
        (0 <? abs (t_compute (ttest ctx i)))%float = false)
  \/ (r < len /\ gate E (ttest ctx r) = true
      /\ m = abs (t_compute (ttest ctx r)) /\ (0 <? m)%float = true
      /\ forall i, i < r -> gate E (ttest ctx i) = true ->
           (abs (t_compute (ttest ctx i)) <? m)%float = true
           \/ is_nan (t_compute (ttest ctx i)) = true).
Proof.
  induction len as [|len IH]; cbv zeta.
  - left. split; [reflexivity|]. split; [reflexivity|]. intros i Hi; lia.
  - pose proof (max_test_loop_inv ctx len) as Hinv. cbv zeta in Hinv.
    rewrite seq_S, fold_left_app. cbn [fold_left Nat.add].
    cbv zeta in IH.
    destruct (fold_left (max_test_step E ctx) (seq 0 len) (0, IEEE.of_Z 0, []))
      as [[r m] calls].
    cbn [fst snd] in IH, Hinv. destruct Hinv as [_ Hmax].
    unfold max_test_step.
    destruct (gate E (ttest ctx len)) eqn:Hgate.
    + cbn [d_fabs d_ltb IEEE.ops].
      destruct (m <? abs (t_compute (ttest ctx len)))%float eqn:Hlt;
        cbn [fst snd].
      * right. split; [lia|]. split; [assumption|]. split; [reflexivity|].
        split.
        -- destruct IH as [(_ & -> & _) | (_ & _ & -> & _)].
           ++ exact Hlt.
           ++ apply ltb_abs_pos with (x := t_compute (ttest ctx r)). exact Hlt.
        -- intros i Hi Hg. rewrite <- is_nan_abs.
           apply ltb_below with m; [apply Hmax; assumption | exact Hlt].
      * destruct IH as [(Hr & Hm & Hzero) | (Hr & Hsel)].
        -- left. split; [exact Hr|]. split; [exact Hm|]. intros i Hi Hg.
           destruct (Nat.eq_dec i len) as [->|Hne];
             [rewrite Hm in Hlt; exact Hlt | apply Hzero; [lia | exact Hg]].
        -- right. split; [lia | exact Hsel].
    + cbn [fst snd].
      destruct IH as [(Hr & Hm & Hzero) | (Hr & Hsel)].
      * left. split; [exact Hr|]. split; [exact Hm|]. intros i Hi Hg.
        destruct (Nat.eq_dec i len) as [->|Hne];
          [congruence | apply Hzero; [lia | exact Hg]].
      * right. split; [lia | exact Hsel].
Qed.

End Classifier.

(** * The verdict of an accumulating step *)

Section Verdicts.

Variable pow : float -> float -> float.
Local Hint Extern 0 (DoubleOps _) =>
  exact (IEEE.ops pow) : typeclass_instances.

Variable P : nat.
Variable E : Z.
Variable qsort : (Z -> Z -> Z) -> list Z -> list Z.

Local Open Scope Z_scope.

Lemma report_state (ctx : dudect_ctx_t float) :
  state (report P E ctx) =
  if (number_traces (max_test P E ctx) <? IEEE.of_Z E)%float
  then DUDECT_NOT_ENOUGHT_MEASUREMENTS
  else verdict_of (abs (t_compute (max_test P E ctx))).
Proof.
  unfold report, number_traces, verdict_of.
  cbn [d_ltb d_add d_of_Z d_fabs IEEE.ops].
  destruct (_ <? IEEE.of_Z E)%float; [reflexivity|].
  unfold t_threshold_bananas, t_threshold_moderate.
  destruct (IEEE.of_Z 500 <? _)%float; [reflexivity|].
  destruct (IEEE.of_Z 10 <? _)%float; reflexivity.
Qed.

Lemma gate_counts a j0 j1 :
  0 <= E < 2 ^ 53 -> counts a j0 j1 -> 0 <= j0 < 2 ^ 53 ->
  gate E a = (E <? j0).
Proof.
  intros HE Hn Hj. unfold gate. rewrite Hn. cbn [fst d_ltb d_of_Z IEEE.ops].
  apply of_Z_ltb; assumption.
Qed.

Lemma number_traces_counts a j0 j1 :
  counts a j0 j1 -> 0 <= j0 -> 0 <= j1 -> j0 + j1 < 2 ^ 53 ->
  number_traces a = IEEE.of_Z (j0 + j1).
Proof.
  intros Hn H0 H1 Hb. unfold number_traces. rewrite Hn.
  cbn [fst snd d_add IEEE.ops]. apply of_Z_add; assumption.
Qed.

(** The index [max_test] returns: 0 when no gated accumulator has a positive
    [|t|], else a gated accumulator; in both cases no gated accumulator has
    [|t|] strictly above the selected one's when the selected one is gated. *)
Lemma max_test_index_spec (ctx : dudect_ctx_t float) :
  let r := max_test_index P E ctx in
  (r = 0%nat \/ ((r < DUDECT_TESTS P)%nat /\ gate E (ttest ctx r) = true))
  /\ forall i, (i < DUDECT_TESTS P)%nat -> gate E (ttest ctx i) = true ->
       (abs (t_compute (ttest ctx r)) <? abs (t_compute (ttest ctx i)))%float
       = false.
Proof.
  cbv zeta. unfold max_test_index, max_test_loop.
  pose proof (max_test_loop_inv pow E ctx (DUDECT_TESTS P)) as H.
  cbv zeta in H. cbn [d_of_Z IEEE.ops].
  destruct (fold_left _ _ _) as [[r m] calls]. cbn [fst snd] in *.
  destruct H as [Hsel Hmax]. split.
  - destruct Hsel as [[-> _] | (Hr & Hg & _)]; [left; reflexivity|].
    right. split; assumption.
  - intros i Hi Hg. specialize (Hmax i Hi Hg).
    destruct Hsel as [[-> ->] | (_ & _ & -> & _)]; [|exact Hmax].
    destruct (abs (t_compute (ttest ctx 0%nat))
              <? abs (t_compute (ttest ctx i)))%float eqn:Hc; [|reflexivity].
    apply ltb_abs_pos in Hc. change (IEEE.of_Z 0) with 0%float in Hmax.
    congruence.
Qed.

Lemma accumulating_step_inv N bs b ctx' s :
  (Z.of_nat (length bs) + 1) * Z.of_nat N < 2 ^ 53 ->
  accumulating_step P E qsort N bs b ctx' s ->
  counts_ok pow P ctx' ((Z.of_nat (length bs) + 1) * Z.of_nat N)
  /\ ret s = state (report P E ctx')
  /\ reported s = Some (report P E ctx').
Proof.
  intros HB (ctx & Hrun & Hmain & Hcal).
  destruct (counts_ok_run pow P E qsort bs _ ctx 0 (counts_ok_init pow P N))
    as [Hok HN]; [cbn [number_measurements dudect_init]; lia | exact Hrun |].
  cbn [number_measurements dudect_init] in Hok, HN.
  destruct (counts_ok_main pow P E qsort ctx b ctx' s _ Hok) as [Hok' _];
    [rewrite HN; lia | exact Hmain |].
  split.
  - eapply counts_ok_weaken; [exact Hok'|]. rewrite HN. lia.
  - unfold dudect_main in Hmain.
    destruct (nth (P - 1) _ 0 =? 0).
    + destruct (prepare_percentiles _ _ _); [|discriminate].
      cbn [bind] in Hmain. injection Hmain as _ <-. discriminate.
    + destruct (update_statistics _ _); [|discriminate].
      cbn [bind] in Hmain. injection Hmain as <- <-. split; reflexivity.
Qed.

(** In a context with integer counts, the accumulator [max_test] selects is
    gated as soon as any accumulator is. *)
Lemma max_test_gated ctx B :
  0 <= E < 2 ^ 53 -> B < 2 ^ 53 -> counts_ok pow P ctx B ->
  (exists i, (i < DUDECT_TESTS P)%nat /\ gate E (ttest ctx i) = true) ->
  (max_test_index P E ctx < DUDECT_TESTS P)%nat
  /\ gate E (max_test P E ctx) = true.
Proof.
  intros HE HB (Hwf & k0 & k1 & Hk & Hraw & Hall) (i & Hi & Hg).
  destruct (max_test_index_spec ctx) as [[Hr | [Hr Hgr]] _].
  - unfold max_test. rewrite Hr. split; [unfold DUDECT_TESTS; lia|].
    destruct (Hall i Hi) as (j0 & j1 & Hj & Hcnt).
    rewrite (gate_counts _ j0 j1 HE Hcnt) in Hg by lia.
    rewrite (gate_counts _ k0 k1 HE Hraw) by lia. lia.
  - split; assumption.
Qed.

Lemma gated_has_enough ctx B i :
  0 <= E < 2 ^ 53 -> B < 2 ^ 53 -> counts_ok pow P ctx B ->
  (i < DUDECT_TESTS P)%nat -> gate E (ttest ctx i) = true ->
  (number_traces (ttest ctx i) <? IEEE.of_Z E)%float = false.
Proof.
  intros HE HB (Hwf & k0 & k1 & Hk & Hraw & Hall) Hi Hg.
  destruct (Hall i Hi) as (j0 & j1 & Hj & Hcnt).
  rewrite (gate_counts _ j0 j1 HE Hcnt) in Hg by lia.
  rewrite (number_traces_counts _ j0 j1 Hcnt) by lia.
  rewrite of_Z_ltb by lia. lia.
Qed.

(** What [max_test] selects: the raw accumulator when no gated accumulator
    has a positive [|t|]; else a gated accumulator whose [|t|] is positive
    and strictly above the [|t|] of every gated accumulator before it whose
    [t] is a number. *)
Lemma max_test_first (ctx : dudect_ctx_t float) :
  let r := max_test_index P E ctx in
  (r = 0%nat
   /\ forall i, (i < DUDECT_TESTS P)%nat -> gate E (ttest ctx i) = true ->
        (0 <? abs (t_compute (ttest ctx i)))%float = false)
  \/ ((r < DUDECT_TESTS P)%nat /\ gate E (ttest ctx r) = true
      /\ (0 <? abs (t_compute (ttest ctx r)))%float = true
      /\ forall i, (i < r)%nat -> gate E (ttest ctx i) = true ->
           (abs (t_compute (ttest ctx i))
            <? abs (t_compute (ttest ctx r)))%float = true
           \/ is_nan (t_compute (ttest ctx i)) = true).
Proof.
  cbv zeta. unfold max_test_index, max_test_loop.
  pose proof (max_test_loop_first pow E ctx (DUDECT_TESTS P)) as H.
  cbv zeta in H. cbn [d_of_Z IEEE.ops].
  destruct (fold_left _ _ _) as [[r m] calls]. cbn [fst snd] in *.
  destruct H as [(Hr & _ & Hzero) | (Hr & Hg & -> & Hpos & Hfirst)].
  - left. split; assumption.
  - right. repeat split; assumption.
Qed.

(** C1: in every step of the accumulating phase in which some accumulator
    meets the enough-measurements gate (class-0 count above the threshold),
    the accumulator the classifier selects meets the gate and has the
    maximal [|t|] among those meeting the gate: none of them has a strictly
    larger [|t|]; as soon as one of them has a positive [|t|], the selected
    [|t|] is positive (a number: NaN never wins) and at least that one; and
    the selected accumulator is the first with the maximum: those before it
    have a strictly smaller [|t|], or a [t] that is NaN. The step returns
    leakage-found when the selected [|t|] is above 500 or above 10 and
    no-leakage-evidence-yet otherwise: it returns leakage-found exactly when
    some accumulator meeting the gate has a [|t|] above 10. *)
Theorem classifier_selects_maximal_t N bs b ctx' s :
  0 <= E < 2 ^ 53 ->
  (Z.of_nat (length bs) + 1) * Z.of_nat N < 2 ^ 53 ->
  accumulating_step P E qsort N bs b ctx' s ->
  (exists i, (i < DUDECT_TESTS P)%nat /\ gate E (ttest ctx' i) = true) ->
  let t := max_test P E ctx' in
  let max_t := abs (t_compute t) in
  gate E t = true
  /\ (forall j, (j < DUDECT_TESTS P)%nat -> gate E (ttest ctx' j) = true ->
        (max_t <? abs (t_compute (ttest ctx' j)))%float = false)
  /\ (forall j, (j < DUDECT_TESTS P)%nat -> gate E (ttest ctx' j) = true ->
        (0 <? abs (t_compute (ttest ctx' j)))%float = true ->
        (0 <? max_t)%float = true
        /\ (abs (t_compute (ttest ctx' j)) <=? max_t)%float = true)
  /\ (forall j, (j < max_test_index P E ctx')%nat ->
        gate E (ttest ctx' j) = true ->
        (abs (t_compute (ttest ctx' j)) <? max_t)%float = true
        \/ is_nan (t_compute (ttest ctx' j)) = true)
  /\ ret s =
     (if ((IEEE.of_Z 500 <? max_t) || (IEEE.of_Z 10 <? max_t))%float
      then DUDECT_LEAKAGE_FOUND
      else DUDECT_NO_LEAKAGE_EVIDENCE_YET)
  /\ (ret s = DUDECT_LEAKAGE_FOUND <->
      exists j, (j < DUDECT_TESTS P)%nat /\ gate E (ttest ctx' j) = true
                /\ (IEEE.of_Z 10
                    <? abs (t_compute (ttest ctx' j)))%float = true).
Proof.
  intros HE HB Hstep Hex. cbv zeta.
  destruct (accumulating_step_inv N bs b ctx' s HB Hstep) as (Hok & Hret & _).
  destruct (max_test_gated ctx' _ HE HB Hok Hex) as [Hr Hg].
  pose proof (proj2 (max_test_index_spec ctx')) as Hmax. cbv zeta in Hmax.
  pose proof (max_test_first ctx') as Hfirst. cbv zeta in Hfirst.
  assert (Hverdict :
            ret s =
            if ((IEEE.of_Z 500 <? abs (t_compute (max_test P E ctx')))
                || (IEEE.of_Z 10 <? abs (t_compute (max_test P E ctx'))))%float
            then DUDECT_LEAKAGE_FOUND
            else DUDECT_NO_LEAKAGE_EVIDENCE_YET).
  { rewrite Hret, report_state. unfold max_test in *.
    rewrite (gated_has_enough ctx' _ _ HE HB Hok Hr Hg). reflexivity. }
  assert (Hup : forall j, (j < DUDECT_TESTS P)%nat ->
            gate E (ttest ctx' j) = true ->
            (0 <? abs (t_compute (ttest ctx' j)))%float = true ->
            (0 <? abs (t_compute (max_test P E ctx')))%float = true
            /\ (abs (t_compute (ttest ctx' j))
                <=? abs (t_compute (max_test P E ctx')))%float = true).
  { intros j Hj Hgj Hpos. unfold max_test.
    destruct Hfirst as [(_ & Hzero) | (_ & _ & Hsel & _)];
      [rewrite (Hzero j Hj Hgj) in Hpos; discriminate|].
    split; [exact Hsel|].
    apply ltb_false_leb; [apply Hmax; assumption | exact Hsel | exact Hpos]. }
  split; [exact Hg|]. split; [exact Hmax|]. split; [exact Hup|]. split.
  { intros j Hj Hgj. unfold max_test.
    destruct Hfirst as [(H0 & _) | (_ & _ & _ & Hbefore)]; [lia|].
    apply Hbefore; assumption. }
  split; [exact Hverdict|]. split.
  - intros Hfound. exists (max_test_index P E ctx').
    split; [exact Hr|]. split; [exact Hg|]. fold (max_test P E ctx').
    rewrite Hverdict in Hfound.
    destruct (IEEE.of_Z 10 <? abs (t_compute (max_test P E ctx')))%float
      eqn:H10; [reflexivity|].
    destruct (IEEE.of_Z 500 <? abs (t_compute (max_test P E ctx')))%float
      eqn:H500; [|discriminate].
    rewrite <- H10. apply ltb_trans with (IEEE.of_Z 500); [reflexivity|].
    exact H500.
  - intros (j & Hj & Hgj & H10).
    assert (Hpos : (0 <? abs (t_compute (ttest ctx' j)))%float = true)
      by (apply ltb_trans with (IEEE.of_Z 10); [reflexivity | exact H10]).
    destruct (Hup j Hj Hgj Hpos) as [_ Hle].
    rewrite Hverdict, (ltb_leb_trans _ _ _ H10 Hle), orb_true_r. reflexivity.
Qed.


Lemma none_gated_below_total ctx B :
  0 <= E < 2 ^ 53 -> B < 2 ^ 53 -> counts_ok pow P ctx B ->
  (number_traces (ttest ctx 0%nat) <? IEEE.of_Z E)%float = true ->
  forall i, (i < DUDECT_TESTS P)%nat -> gate E (ttest ctx i) = false.
Proof.
  intros HE HB (Hwf & k0 & k1 & Hk & Hraw & Hall) Hlt i Hi.
  rewrite (number_traces_counts _ k0 k1 Hraw) in Hlt by lia.
  rewrite of_Z_ltb in Hlt by lia.
  destruct (Hall i Hi) as (j0 & j1 & Hj & Hcnt).
  rewrite (gate_counts _ j0 j1 HE Hcnt) by lia. lia.
Qed.

Lemma max_test_raw (ctx : dudect_ctx_t float) :
  (forall i, (i < DUDECT_TESTS P)%nat -> gate E (ttest ctx i) = false) ->
  max_test_index P E ctx = 0%nat.
Proof.
  intros Hnone. destruct (max_test_index_spec ctx) as [[Hr | [Hr Hg]] _].
  - exact Hr.
  - rewrite (Hnone _ Hr) in Hg. discriminate.
Qed.

Lemma verdict_of_real (x : float) :
  verdict_of x = DUDECT_LEAKAGE_FOUND
  \/ verdict_of x = DUDECT_NO_LEAKAGE_EVIDENCE_YET.
Proof. unfold verdict_of. destruct (_ || _); [left | right]; reflexivity. Qed.

(** The gate of [report] is on the raw accumulator's total count: a step of
    the accumulating phase returns not-enough-measurements when that total is
    below the threshold, and a verdict of the decision rule otherwise. *)
Lemma report_gate N bs b ctx' s :
  0 <= E < 2 ^ 53 ->
  (Z.of_nat (length bs) + 1) * Z.of_nat N < 2 ^ 53 ->
  accumulating_step P E qsort N bs b ctx' s ->
  if (number_traces (ttest ctx' 0%nat) <? IEEE.of_Z E)%float
  then max_test P E ctx' = ttest ctx' 0%nat
       /\ ret s = DUDECT_NOT_ENOUGHT_MEASUREMENTS
  else ret s = verdict_of (abs (t_compute (max_test P E ctx'))).
Proof.
  intros HE HB Hstep.
  destruct (accumulating_step_inv N bs b ctx' s HB Hstep) as (Hok & Hret & _).
  rewrite Hret, report_state.
  destruct (number_traces (ttest ctx' 0%nat) <? IEEE.of_Z E)%float eqn:Hlt.
  - assert (Hraw : max_test P E ctx' = ttest ctx' 0%nat).
    { unfold max_test. rewrite max_test_raw; [reflexivity|].
      apply (none_gated_below_total ctx' _ HE HB Hok Hlt). }
    rewrite Hraw, Hlt. split; reflexivity.
  - destruct (max_test_index_spec ctx') as [[Hr | [Hr Hg]] _].
    + unfold max_test. rewrite Hr, Hlt. reflexivity.
    + unfold max_test.
      rewrite (gated_has_enough ctx' _ _ HE HB Hok Hr Hg). reflexivity.
Qed.

(** C2, amended: in every step of the accumulating phase in which the raw
    accumulator's total count over both classes is below the threshold, the
    step returns not-enough-measurements, the candidate is the raw
    accumulator, and the count printed as still to go is the threshold minus
    that total. *)
Theorem not_enough_below_raw_total N bs b ctx' s :
  0 <= E < 2 ^ 53 ->
  (Z.of_nat (length bs) + 1) * Z.of_nat N < 2 ^ 53 ->
  accumulating_step P E qsort N bs b ctx' s ->
  let raw := ttest ctx' 0%nat in
  (number_traces raw <? IEEE.of_Z E)%float = true ->
  ret s = DUDECT_NOT_ENOUGHT_MEASUREMENTS
  /\ max_test P E ctx' = raw
  /\ exists r,
       reported s = Some r
       /\ output r = Not_enough (number_traces raw / IEEE.of_Z 1000000)%float
                                (IEEE.of_Z E - number_traces raw)%float.
Proof.
  intros HE HB Hstep raw Hlt.
  pose proof (report_gate N bs b ctx' s HE HB Hstep) as Hgate.
  fold raw in Hgate. rewrite Hlt in Hgate. destruct Hgate as [Hraw Hret].
  split; [exact Hret|]. split; [exact Hraw|].
  destruct (accumulating_step_inv N bs b ctx' s HB Hstep) as (_ & _ & Hrep).
  exists (report P E ctx'). split; [exact Hrep|].
  unfold report. rewrite Hraw. fold (number_traces raw).
  cbn [d_ltb d_of_Z d_sub d_div IEEE.ops]. rewrite Hlt. reflexivity.
Qed.

Lemma of_Z_inj a b :
  0 <= a < 2 ^ 53 -> 0 <= b < 2 ^ 53 -> IEEE.of_Z a = IEEE.of_Z b -> a = b.
Proof.
  intros Ha Hb Heq.
  pose proof (of_Z_ltb a b Ha Hb) as Hab.
  pose proof (of_Z_ltb b a Hb Ha) as Hba.
  rewrite Heq, ltb_irrefl in Hab. rewrite Heq, ltb_irrefl in Hba. lia.
Qed.

(** C3, amended: the boundary on the class-0 count of the accumulator the
    classifier selects. When that count is exactly threshold - 1, the
    selected accumulator is the raw one and the gate of [report], which is on
    the total count over both classes, decides: the step returns
    not-enough-measurements when the class-1 count is zero (the total is
    then threshold - 1) and leakage-found or no-leakage-evidence-yet when it
    is not. As soon as the class-0 count of the selected accumulator, or of
    any accumulator, equals the threshold, the step returns leakage-found or
    no-leakage-evidence-yet. *)
Theorem gate_boundary N bs b ctx' s :
  1 <= E < 2 ^ 53 ->
  (Z.of_nat (length bs) + 1) * Z.of_nat N < 2 ^ 53 ->
  accumulating_step P E qsort N bs b ctx' s ->
  let t := max_test P E ctx' in
  let raw := ttest ctx' 0%nat in
  (fst (n t) = IEEE.of_Z (E - 1) ->
   t = raw
   /\ (snd (n t) = IEEE.of_Z 0 -> ret s = DUDECT_NOT_ENOUGHT_MEASUREMENTS)
   /\ (snd (n t) <> IEEE.of_Z 0 ->
       ret s = DUDECT_LEAKAGE_FOUND
       \/ ret s = DUDECT_NO_LEAKAGE_EVIDENCE_YET))
  /\ (number_traces raw = IEEE.of_Z (E - 1) ->
      ret s = DUDECT_NOT_ENOUGHT_MEASUREMENTS)
  /\ (fst (n t) = IEEE.of_Z E ->
      ret s = DUDECT_LEAKAGE_FOUND
      \/ ret s = DUDECT_NO_LEAKAGE_EVIDENCE_YET)
  /\ (forall i, (i < DUDECT_TESTS P)%nat ->
        fst (n (ttest ctx' i)) = IEEE.of_Z E ->
        ret s = DUDECT_LEAKAGE_FOUND
        \/ ret s = DUDECT_NO_LEAKAGE_EVIDENCE_YET).
Proof.
  intros HE HB Hstep t raw.
  pose proof (report_gate N bs b ctx' s ltac:(lia) HB Hstep) as Hgate.
  fold raw in Hgate.
  destruct (accumulating_step_inv N bs b ctx' s HB Hstep)
    as ((Hwf & k0 & k1 & Hk & Hraw & Hall) & _ & _).
  fold raw in Hraw.
  assert (Htotal : number_traces raw = IEEE.of_Z (k0 + k1))
    by (apply number_traces_counts; [exact Hraw | lia | lia | lia]).
  assert (Hany : forall i, (i < DUDECT_TESTS P)%nat ->
            fst (n (ttest ctx' i)) = IEEE.of_Z E ->
            ret s = DUDECT_LEAKAGE_FOUND
            \/ ret s = DUDECT_NO_LEAKAGE_EVIDENCE_YET).
  { intros i Hi Hn0. destruct (Hall i Hi) as (j0 & j1 & Hj & Hcnt).
    unfold counts in Hcnt. rewrite Hcnt in Hn0. cbn [fst] in Hn0.
    apply of_Z_inj in Hn0; [|lia|lia].
    rewrite Htotal, of_Z_ltb in Hgate by lia.
    replace (k0 + k1 <? E) with false in Hgate by lia.
    rewrite Hgate. apply verdict_of_real. }
  split; [|split; [|split; [|exact Hany]]].
  - intros Hn0.
    assert (Hsel : t = raw).
    { unfold t, raw, max_test.
      destruct (max_test_index_spec ctx') as [[Hr | [Hr Hg]] _];
        [rewrite Hr; reflexivity|].
      exfalso. destruct (Hall _ Hr) as (j0 & j1 & Hj & Hcnt).
      rewrite (gate_counts _ j0 j1 ltac:(lia) Hcnt) in Hg by lia.
      unfold t, max_test in Hn0. unfold counts in Hcnt.
      rewrite Hcnt in Hn0. cbn [fst] in Hn0.
      apply of_Z_inj in Hn0; lia. }
    split; [exact Hsel|]. rewrite Hsel in *.
    unfold counts in Hraw. rewrite Hraw in *. cbn [fst snd] in *.
    apply of_Z_inj in Hn0; [|lia|lia].
    rewrite Htotal, of_Z_ltb in Hgate by lia. split.
    + intros Hn1. apply (of_Z_inj k1 0) in Hn1; [|lia|lia].
      replace (k0 + k1 <? E) with true in Hgate by lia. apply Hgate.
    + intros Hn1.
      assert (k1 <> 0) by (intros ->; apply Hn1; reflexivity).
      replace (k0 + k1 <? E) with false in Hgate by lia.
      rewrite Hgate. apply verdict_of_real.
  - intros Htot. rewrite Htot in Hgate.
    rewrite of_Z_ltb in Hgate by lia.
    replace (E - 1 <? E) with true in Hgate by lia. apply Hgate.
  - apply Hany. unfold max_test.
    destruct (max_test_index_spec ctx') as [[Hr | [Hr Hg]] _];
      [rewrite Hr; unfold DUDECT_TESTS; lia | exact Hr].
Qed.

End Verdicts.

(** * Calibration *)

Section Calibration.

Context {D : Type} {ops : DoubleOps D}.
Variable P : nat.
Variable E : Z.
Variable qsort : (Z -> Z -> Z) -> list Z -> list Z.

(** Once the last threshold is not zero, [dudect_main] leaves the thresholds
    as they are. *)
Lemma dudect_main_keeps_percentiles (ctx : dudect_ctx_t D) b ctx' s :
  nth (P - 1) (percentiles ctx) 0%Z <> 0%Z ->
  dudect_main P E qsort ctx b = Some (ctx', s) ->
  percentiles ctx' = percentiles ctx.
Proof.
  intros Hset. unfold dudect_main.
  change (percentiles (measure (prepare ctx b) b)) with (percentiles ctx).
  destruct (Z.eqb_spec (nth (P - 1) (percentiles ctx) 0%Z) 0); [contradiction|].
  destruct (update_statistics P _) as [c1|] eqn:Hupd; [|discriminate].
  cbn [bind]. intros [= <- _].
  apply update_statistics_keeps in Hupd. destruct Hupd as (_ & _ & _ & _ & Hp).
  symmetry. exact Hp.
Qed.

Lemma run_keeps_percentiles bs :
  forall ctx ctx' : dudect_ctx_t D,
  nth (P - 1) (percentiles ctx) 0%Z <> 0%Z ->
  run P E qsort ctx bs = Some ctx' ->
  percentiles ctx' = percentiles ctx.
Proof.
  induction bs as [|b bs IH]; intros ctx ctx' Hset Hrun.
  - injection Hrun as <-. reflexivity.
  - cbn [run] in Hrun.
    destruct (dudect_main P E qsort ctx b) as [[c1 s]|] eqn:Hmain; [|discriminate].
    cbn [bind fst] in Hrun.
    pose proof (dudect_main_keeps_percentiles ctx b c1 s Hset Hmain) as Hp.
    rewrite <- Hp. apply IH; [rewrite Hp|]; assumption.
Qed.

(** When the bounds assertion holds at every threshold index, the loop of
    [prepare_percentiles] runs to its end, and touches neither the
    accumulators nor the batch size. *)
Lemma prepare_percentiles_total idx :
  forall ctx : dudect_ctx_t D,
  forallb
    (fun i =>
       match d_to_size_t
               (d_of_Z (Z.of_nat (number_measurements ctx)) * quantile P i)%D
       with
       | Some array_position =>
           (array_position <? Z.of_nat (number_measurements ctx))%Z
       | None => false
       end) idx = true ->
  exists ctx',
    for_each
      (fun c i =>
         r <- percentile qsort (exec_times c) (quantile P i)
                (number_measurements c) ;;
         Some {| number_measurements := number_measurements c;
                 ticks := ticks c;
                 exec_times := snd r;
                 classes := classes c;
                 ttest_ctxs := ttest_ctxs c;
                 percentiles := list_set i (fst r) (percentiles c) |})
      idx ctx = Some ctx'
    /\ ttest_ctxs ctx' = ttest_ctxs ctx.
Proof.
  induction idx as [|i idx IH]; intros ctx Hpos.
  - exists ctx. split; reflexivity.
  - cbn [forallb] in Hpos. apply andb_true_iff in Hpos as [Hi Hrest].
    cbn [for_each]. unfold percentile at 1.
    destruct (d_to_size_t _) as [pos|]; [|discriminate].
    cbn [bind]. rewrite Hi. cbn [bind].
    match goal with
    | |- exists ctx', for_each _ _ ?c = _ /\ _ =>
        destruct (IH c Hrest) as (ctx' & Hrun & Hacc)
    end.
    exists ctx'. split; [exact Hrun | exact Hacc].
Qed.

(** C4, amended: on a fresh context whose configuration passes the bounds
    assertion of [percentile], the first call of [dudect_main] calibrates
    only (the accumulators are untouched) and returns
    not-enough-measurements whatever the batch; and when the last threshold
    it computed is not zero, no later call changes the thresholds. *)
Theorem calibration_once N b :
  positions_ok P N = true ->
  exists ctx1,
    dudect_main P E qsort (dudect_init P N) b = Some (ctx1, calibration_step)
    /\ ttest_ctxs ctx1 = ttest_ctxs (dudect_init P N)
    /\ (nth (P - 1) (percentiles ctx1) 0%Z <> 0%Z ->
        forall bs ctx',
          run P E qsort ctx1 bs = Some ctx' ->
          percentiles ctx' = percentiles ctx1).
Proof.
  intros Hpos. unfold dudect_main.
  set (ctx0 := measure (prepare (dudect_init P N) b) b).
  assert (Hfirst : (nth (P - 1) (percentiles ctx0) 0 =? 0)%Z = true).
  { apply Z.eqb_eq. cbn [ctx0 percentiles measure prepare dudect_init].
    destruct (Nat.lt_ge_cases (P - 1) P).
    - apply nth_repeat_lt. assumption.
    - apply nth_overflow. rewrite repeat_length. assumption. }
  rewrite Hfirst. unfold prepare_percentiles.
  destruct (prepare_percentiles_total (seq 0 P) ctx0 Hpos) as (ctx1 & Hrun & Hacc).
  rewrite Hrun. cbn [bind]. exists ctx1.
  split; [reflexivity|]. split; [exact Hacc|].
  intros Hset bs ctx'. apply run_keeps_percentiles. exact Hset.
Qed.

End Calibration.

(** * Steps found by evaluation, and the sort of the calibrator *)

Section Checked.

Context {D : Type} {ops : DoubleOps D}.
Variable P : nat.
Variable E : Z.
Variable qsort : (Z -> Z -> Z) -> list Z -> list Z.

(** A run followed by one more call, found by evaluation. *)
Lemma run_then_main_check N bs b
  (check : dudect_ctx_t D -> dudect_ctx_t D -> step_t D -> bool) :
  match run P E qsort (dudect_init P N) bs with
  | Some ctx =>
      match dudect_main P E qsort ctx b with
      | Some (ctx', s) => check ctx ctx' s
      | None => false
      end
  | None => false
  end = true ->
  exists ctx ctx' s,
    run P E qsort (dudect_init P N) bs = Some ctx
    /\ dudect_main P E qsort ctx b = Some (ctx', s)
    /\ check ctx ctx' s = true.
Proof.
  intros H.
  destruct (run P E qsort (dudect_init P N) bs) as [ctx|] eqn:Hrun;
    [|discriminate].
  destruct (dudect_main P E qsort ctx b) as [[ctx' s]|] eqn:Hmain;
    [|discriminate].
  exists ctx, ctx', s. split; [reflexivity|]. split; [exact Hmain | exact H].
Defined.

(** A step of the accumulating phase found by evaluation. *)
Lemma accumulating_step_check N bs b (check : dudect_ctx_t D -> step_t D -> bool) :
  match run P E qsort (dudect_init P N) bs with
  | Some ctx =>
      match dudect_main P E qsort ctx b with
      | Some (ctx', s) => negb (calibrated s) && check ctx' s
      | None => false
      end
  | None => false
  end = true ->
  exists ctx' s,
    accumulating_step P E qsort N bs b ctx' s /\ check ctx' s = true.
Proof.
  intros H.
  destruct (run_then_main_check N bs b
              (fun _ ctx' s => negb (calibrated s) && check ctx' s) H)
    as (ctx & ctx' & s & Hrun & Hmain & Hc).
  apply andb_true_iff in Hc as [Hcal Hcheck].
  exists ctx', s. split; [|exact Hcheck].
  exists ctx. repeat split; try assumption.
  destruct (calibrated s); [discriminate | reflexivity].
Defined.

(** A call that calibrated did nothing else. *)
Lemma dudect_main_calibrated (ctx : dudect_ctx_t D) b ctx' s :
  dudect_main P E qsort ctx b = Some (ctx', s) ->
  calibrated s = true -> s = calibration_step.
Proof.
  unfold dudect_main. destruct (_ =? _)%Z.
  - destruct (prepare_percentiles _ _ _); [|discriminate].
    cbn [bind]. intros [= _ <-] _. reflexivity.
  - destruct (update_statistics _ _); [|discriminate].
    cbn [bind]. intros [= _ <-]. discriminate.
Qed.

(** On a buffer that [qsort] leaves as it is, [prepare_percentiles] does
    what it does with a [qsort] that moves nothing. *)
Lemma prepare_percentiles_sorted_input idx :
  forall ctx : dudect_ctx_t D,
  qsort cmp (firstn (number_measurements ctx) (exec_times ctx))
  = firstn (number_measurements ctx) (exec_times ctx) ->
  for_each
    (fun c i =>
       r <- percentile qsort (exec_times c) (quantile P i)
              (number_measurements c) ;;
       Some {| number_measurements := number_measurements c;
               ticks := ticks c;
               exec_times := snd r;
               classes := classes c;
               ttest_ctxs := ttest_ctxs c;
               percentiles := list_set i (fst r) (percentiles c) |})
    idx ctx
  = for_each
      (fun c i =>
         r <- percentile (fun _ l => l) (exec_times c) (quantile P i)
                (number_measurements c) ;;
         Some {| number_measurements := number_measurements c;
                 ticks := ticks c;
                 exec_times := snd r;
                 classes := classes c;
                 ttest_ctxs := ttest_ctxs c;
                 percentiles := list_set i (fst r) (percentiles c) |})
      idx ctx.
Proof.
  induction idx as [|i idx IH]; intros ctx Hfix; [reflexivity|].
  cbn [for_each]. unfold percentile at 1 3. rewrite Hfix.
  destruct (d_to_size_t _) as [pos|]; [|reflexivity]. cbn [bind].
  destruct (pos <? _)%Z; [|reflexivity]. cbn [bind snd fst].
  apply IH. cbn [number_measurements exec_times].
  rewrite firstn_skipn. exact Hfix.
Qed.

Lemma dudect_main_sorted_input (ctx : dudect_ctx_t D) b :
  (let ctx0 := measure (prepare ctx b) b in
   qsort cmp (firstn (number_measurements ctx0) (exec_times ctx0))
   = firstn (number_measurements ctx0) (exec_times ctx0)) ->
  dudect_main P E qsort ctx b = dudect_main P E (fun _ l => l) ctx b.
Proof.
  cbv zeta. intros Hfix. unfold dudect_main.
  destruct (_ =? 0)%Z; [|reflexivity].
  unfold prepare_percentiles.
  rewrite (prepare_percentiles_sorted_input _ _ Hfix). reflexivity.
Qed.

End Checked.

(** * The second-order accumulator *)

Section SecondOrder.

Variable pow : float -> float -> float.
Local Hint Extern 0 (DoubleOps _) =>
  exact (IEEE.ops pow) : typeclass_instances.

Variable P : nat.

Local Open Scope Z_scope.

(** C5, amended: a retained delta is pushed into the second-order
    accumulator exactly when the raw accumulator's class-0 count, this delta
    included, is above 10000, whatever the class-1 count; the value pushed
    is the square of the delta less the raw mean of its class, that mean
    taken after the raw push of this delta. So the delta that brings the
    class-0 count to 10000 pushes nothing and the one that brings it to
    10001 is pushed. [k0] and [k1] are the raw counts before the delta. *)
Theorem second_order_gate (ctx : dudect_ctx_t float) i k0 k1 :
  length (ttest_ctxs ctx) = DUDECT_TESTS P ->
  counts (ttest ctx 0%nat) k0 k1 ->
  0 <= k0 -> 0 <= k1 -> k0 + 1 < 2 ^ 53 -> k1 + 1 < 2 ^ 53 ->
  let difference := nth i (exec_times ctx) 0 in
  let class := nth i (classes ctx) 0 in
  0 <= difference ->
  valid_class class = true ->
  exists ctx',
    update_one P ctx i = Some ctx'
    /\ let raw := ttest ctx' 0%nat in
       let k0' := if class =? 0 then k0 + 1 else k0 in
       let k1' := if class =? 0 then k1 else k1 + 1 in
       counts raw k0' k1'
       /\ ttest ctx' (1 + P)%nat =
          if 10000 <? k0'
          then
            let centered :=
              (IEEE.of_Z difference - sel class (mean raw))%float in
            pushed (ttest ctx (1 + P)%nat) (centered * centered)%float class
          else ttest ctx (1 + P)%nat.
Proof.
  intros Hwf Hraw H0 H1 Hb0 Hb1 difference class Hpos Hc.
  destruct (update_one_retained P ctx i Hwf Hpos Hc)
    as (ctx' & Hone & _ & _ & Hraw' & _ & Hsnd).
  exists ctx'. split; [exact Hone|]. cbv zeta.
  fold difference class in Hraw', Hsnd.
  assert (Hcnt : counts (ttest ctx' 0%nat)
                   (if class =? 0 then k0 + 1 else k0)
                   (if class =? 0 then k1 else k1 + 1)).
  { rewrite Hraw'. apply counts_pushed; assumption. }
  split; [exact Hcnt|].
  rewrite Hsnd. unfold counts in Hcnt. rewrite Hcnt.
  cbn [fst d_ltb d_of_Z d_sub d_mul IEEE.ops].
  rewrite of_Z_ltb by (destruct (class =? 0); lia).
  reflexivity.
Qed.

End SecondOrder.

(** * The bounds assertion of the calibrator, over the reals *)

Section Bounds.

Local Open Scope R_scope.

Lemma Rpower_half_range y : 0 <= y -> 0 < Rpower (/ 2) y <= 1.
Proof.
  intros Hy. unfold Rpower. split; [apply exp_pos|].
  rewrite <- exp_0.
  assert (y * ln (/ 2) <= 0).
  { rewrite ln_Rinv by lra.
    assert (0 < ln 2) by (rewrite <- ln_1; apply ln_increasing; lra). nra. }
  destruct (Req_dec (y * ln (/ 2)) 0) as [->|]; [lra|].
  left. apply exp_increasing. lra.
Qed.

Lemma quantile_range P i :
  (i < P)%nat -> 0 <= @quantile R Exact.ops P i < 1.
Proof.
  intros Hi. unfold quantile. cbn [d_of_Z d_half d_pow d_sub d_mul d_div Exact.ops].
  assert (0 <= 10 * IZR (Z.of_nat (i + 1)) / IZR (Z.of_nat P)) as Hy.
  { apply Rmult_le_pos.
    - apply Rmult_le_pos; [lra|]. apply IZR_le. lia.
    - left. apply Rinv_0_lt_compat. apply IZR_lt. lia. }
  pose proof (Rpower_half_range _ Hy). lra.
Qed.

(** Over the reals, for a batch of size [S >= 1] and a threshold index
    [i < P], the quantile [1 - 0.5^(10 (i+1) / P)] is below 1, the position
    [floor (S q)] is in [0, S), and [percentile] passes its bounds assertion
    and reads inside the buffer. *)
Lemma calibration_in_bounds_exact (P S i : nat) :
  (1 <= S)%nat -> (i < P)%nat ->
  let q := @quantile R Exact.ops P i in
  q < 1
  /\ exists array_position,
       @d_to_size_t R Exact.ops (IZR (Z.of_nat S) * q) = Some array_position
       /\ (0 <= array_position < Z.of_nat S)%Z
       /\ forall qsort a,
            @percentile R Exact.ops qsort a q S
            = Some (nth (Z.to_nat array_position)
                        (qsort cmp (firstn S a) ++ skipn S a) 0%Z,
                    qsort cmp (firstn S a) ++ skipn S a).
Proof.
  intros HS Hi q. destruct (quantile_range P i Hi) as [Hq0 Hq1]. fold q in Hq0, Hq1.
  split; [exact Hq1|].
  assert (HSr : 1 <= IZR (Z.of_nat S)) by (apply IZR_le; lia).
  assert (Hx : 0 <= IZR (Z.of_nat S) * q < IZR (Z.of_nat S)) by nra.
  exists (Zfloor (IZR (Z.of_nat S) * q)).
  assert (Hfl : (0 <= Zfloor (IZR (Z.of_nat S) * q) < Z.of_nat S)%Z).
  { pose proof (Zfloor_bound (IZR (Z.of_nat S) * q)) as [Hlo Hhi]. split.
    - apply Zfloor_lub. simpl. lra.
    - apply lt_IZR. lra. }
  assert (Hcast : @d_to_size_t R Exact.ops (IZR (Z.of_nat S) * q)
                  = Some (Zfloor (IZR (Z.of_nat S) * q))).
  { cbn [d_to_size_t Exact.ops]. unfold Exact.to_size_t.
    destruct (Rlt_dec (-1) (IZR (Z.of_nat S) * q)); [|lra].
    rewrite Z.max_r by lia. reflexivity. }
  split; [exact Hcast|]. split; [exact Hfl|].
  intros qsort a. unfold percentile.
  cbn [d_of_Z d_mul Exact.ops] in *. rewrite Hcast. cbn [bind].
  replace (Zfloor (IZR (Z.of_nat S) * q) <? Z.of_nat S)%Z with true
    by (symmetry; apply Z.ltb_lt; lia).
  reflexivity.
Qed.

End Bounds.

(** * Rounding in binary64, and the position the calibrator computes

    The calibrator computes the position of a threshold as
    [(size_t) ((double) size * (1 - pow(0.5, y)))], in binary64: the
    conversion of the size, the subtraction and the product each round to
    nearest. This section follows the rounding of the kernel's floats
    ([binary_round_aux] and its right shift) far enough to bound that
    position. *)

Section Rounding.

Local Open Scope Z_scope.

(** One step of the right shift, on a mantissa that is not negative. *)
Lemma shr_1_spec m r s :
  0 <= m ->
  shr_1 {| shr_m := m; shr_r := r; shr_s := s |}
  = {| shr_m := m / 2; shr_r := Z.odd m; shr_s := r || s |}.
Proof.
  intros Hm. rewrite <- Z.div2_div.
  destruct m as [|p|p]; [reflexivity | destruct p; reflexivity | lia].
Qed.

(** [k + 1] steps: the mantissa is divided by [2^(k+1)] and the round bit is
    the last bit shifted out. *)
Lemma shr_iter_spec k M :
  0 <= M ->
  exists s,
    Nat.iter (S k) shr_1 {| shr_m := M; shr_r := false; shr_s := false |}
    = {| shr_m := M / 2 ^ Z.of_nat (S k);
         shr_r := Z.odd (M / 2 ^ Z.of_nat k);
         shr_s := s |}.
Proof.
  intros HM. induction k as [|k IH].
  - exists false. cbn [Nat.iter]. rewrite shr_1_spec by assumption.
    change (2 ^ Z.of_nat 0) with 1. rewrite Z.div_1_r. reflexivity.
  - destruct IH as (s & IH). rewrite Nat.iter_succ, IH.
    rewrite shr_1_spec by (apply Z.div_pos; lia).
    eexists. f_equal.
    rewrite Z.div_div by lia. f_equal.
    rewrite (Nat2Z.inj_succ (S k)), Z.pow_succ_r by lia. lia.
Qed.

(** Rounding to nearest leaves the mantissa or adds one, the latter only
    when the round bit is set. *)
Lemma round_nearest_even_cases m r s :
  let m1 := round_nearest_even m
              (loc_of_shr_record {| shr_m := m; shr_r := r; shr_s := s |}) in
  m1 = m \/ (m1 = m + 1 /\ r = true).
Proof.
  destruct r, s; cbn [loc_of_shr_record round_nearest_even]; auto.
  destruct (Z.even m); auto.
Qed.

(** The shift of [shr_fexp] on a mantissa of [53 + k] digits: by [k] places. *)
Lemma shr_fexp_spec M e k :
  digits M = 53 + k -> 0 <= k -> -1074 <= e + k ->
  exists r s,
    shr_fexp prec emax (Zpos M) e loc_Exact
    = ({| shr_m := Zpos M / 2 ^ k; shr_r := r; shr_s := s |}, e + k)
    /\ (r = true -> 2 ^ k <= 2 * (Zpos M mod 2 ^ k)).
Proof.
  intros Hd Hk HE. unfold shr_fexp, shr_record_of_loc.
  change (Zdigits2 (Zpos M)) with (digits M).
  replace (fexp prec emax (digits M + e) - e) with k
    by (unfold fexp, emin, prec, emax; lia).
  destruct k as [|p|p]; [| |lia].
  - exists false, false. cbn [shr]. rewrite Z.div_1_r, Z.add_0_r.
    split; [reflexivity | discriminate].
  - cbn [shr]. rewrite iter_pos_nat.
    destruct (Pos2Nat.is_succ p) as (j & Hj). rewrite Hj.
    destruct (shr_iter_spec j (Zpos M) ltac:(lia)) as (s & Hs).
    rewrite Hs. assert (Hp : Zpos p = Z.of_nat (S j)) by lia.
    exists (Z.odd (Zpos M / 2 ^ Z.of_nat j)), s. rewrite Hp. split; [reflexivity|].
    intros Hodd.
    rewrite Nat2Z.inj_succ, Z.pow_succ_r by lia.
    rewrite (Z.mul_comm 2 (2 ^ Z.of_nat j)).
    rewrite (Z.rem_mul_r (Zpos M) (2 ^ Z.of_nat j) 2)
      by (try apply Z.pow_nonzero; lia).
    rewrite Zmod_odd, Hodd.
    pose proof (Z.mod_pos_bound (Zpos M) (2 ^ Z.of_nat j)
                  ltac:(apply Z.pow_pos_nonneg; lia)).
    lia.
Qed.

(** Rounding a mantissa of [53 + k] digits, in the range of the normal
    numbers: the mantissa [m1] of the result, before it is normalised, is
    the quotient by [2^k] or one more, one more only when the remainder is
    at least half of [2^k]. *)
Lemma binary_round_aux_spec M e k :
  digits M = 53 + k -> 0 <= k -> -1074 <= e + k <= 970 ->
  exists m1,
    Zpos M / 2 ^ k <= m1 <= Zpos M / 2 ^ k + 1
    /\ 2 ^ 52 <= m1 <= 2 ^ 53
    /\ (m1 = Zpos M / 2 ^ k + 1 -> 2 ^ k <= 2 * (Zpos M mod 2 ^ k))
    /\ binary_round_aux prec emax false (Zpos M) e loc_Exact
       = if m1 <? 2 ^ 53
         then S754_finite false (Z.to_pos m1) (e + k)
         else S754_finite false (Z.to_pos (2 ^ 52)) (e + k + 1).
Proof.
  intros Hd Hk HE.
  destruct (shr_fexp_spec M e k Hd Hk ltac:(lia)) as (r & s & Hshr & Hr).
  pose proof (digits_bounds M) as [Hlo Hhi]. rewrite Hd in Hlo, Hhi.
  assert (H2k : 0 < 2 ^ k) by (apply Z.pow_pos_nonneg; lia).
  assert (Hm0 : 2 ^ 52 <= Zpos M / 2 ^ k < 2 ^ 53).
  { replace (53 + k - 1) with (52 + k) in Hlo by lia.
    rewrite Z.pow_add_r in Hlo, Hhi by lia. split.
    - apply Z.div_le_lower_bound; lia.
    - apply Z.div_lt_upper_bound; lia. }
  set (m0 := Zpos M / 2 ^ k) in *.
  pose proof (round_nearest_even_cases m0 r s) as Hround. cbv zeta in Hround.
  set (m1 := round_nearest_even m0 _) in Hround.
  exists m1. split; [lia|]. split; [lia|]. split.
  { intros Hup. apply Hr. destruct Hround as [Hsame | [_ Hrt]]; [lia | exact Hrt]. }
  unfold binary_round_aux. rewrite Hshr. cbn [shr_m]. fold m0. fold m1.
  destruct (Z.ltb_spec m1 (2 ^ 53)) as [Hlt | Hge].
  - destruct m1 as [|p1|p1] eqn:Hm1; try lia.
    rewrite shr_fexp_canonical.
    + cbn [shr_m]. replace (e + k <=? emax - prec) with true
        by (symmetry; apply Z.leb_le; unfold emax, prec; lia).
      reflexivity.
    + apply digits_unique. lia.
    + lia.
  - assert (Hm1 : m1 = 2 ^ 53) by lia. rewrite Hm1.
    destruct (shr_fexp_spec (Z.to_pos (2 ^ 53)) (e + k) 1) as (r' & s' & Hshr' & _);
      [reflexivity | lia | lia |].
    change (Zpos (Z.to_pos (2 ^ 53))) with (2 ^ 53) in Hshr'.
    rewrite Hshr'. cbn [shr_m].
    change (2 ^ 53 / 2 ^ 1) with (Zpos (Z.to_pos (2 ^ 52))). cbv iota.
    replace (e + k + 1 <=? emax - prec) with true
      by (symmetry; apply Z.leb_le; unfold emax, prec; lia).
    reflexivity.
Qed.


Lemma valid_canonical m e :
  digits m = 53 -> -1074 <= e <= 971 ->
  valid_binary (S754_finite false m e) = true.
Proof.
  intros Hd He. unfold SpecFloat.valid_binary, SpecFloat.bounded, canonical_mantissa.
  fold (digits m). rewrite Hd, fexp_canonical by lia.
  rewrite Z.eqb_refl. apply Z.leb_le. unfold emax, prec. lia.
Qed.

(** A valid float at an exponent above that of the subnormal numbers has a
    mantissa of 53 digits. *)
Lemma valid_normal m e :
  valid_binary (S754_finite false m e) = true -> -1074 < e ->
  digits m = 53.
Proof.
  unfold SpecFloat.valid_binary, SpecFloat.bounded, canonical_mantissa. fold (digits m).
  intros Hv He. apply andb_true_iff in Hv as [Hc _]. apply Z.eqb_eq in Hc.
  unfold fexp, emin, prec, emax in Hc. lia.
Qed.

(** [binary_round] on a mantissa of 53 digits or more does not shift it to
    the left. *)
Lemma binary_round_large M e k :
  digits M = 53 + k -> 0 <= k -> -1074 <= e + k ->
  binary_round prec emax false M e
  = binary_round_aux prec emax false (Zpos M) e loc_Exact.
Proof.
  intros Hd Hk HE. unfold binary_round, shl_align. fold (digits M).
  replace (fexp prec emax (digits M + e) - e) with k
    by (unfold fexp, emin, prec, emax; lia).
  destruct k; [reflexivity | reflexivity | lia].
Qed.

(** [binary_round] on a mantissa of at most 53 digits is exact. *)
Lemma binary_round_small M e :
  digits M <= 53 -> -1074 <= digits M + e - 53 <= 971 ->
  binary_round prec emax false M e
  = S754_finite false (Z.to_pos (Zpos M * 2 ^ (53 - digits M)))
                (digits M + e - 53).
Proof.
  intros Hd HE. pose proof (digits_pos M).
  assert (Hpos : 0 < Zpos M * 2 ^ (53 - digits M))
    by (apply Z.mul_pos_pos; [lia | apply Z.pow_pos_nonneg; lia]).
  apply binary_round_exact.
  - rewrite (digits_shift M (53 - digits M)); [lia | lia |].
    rewrite Z2Pos.id by assumption. reflexivity.
  - assumption.
  - rewrite Z.min_r by lia. rewrite Z.sub_diag, Z.mul_1_r.
    rewrite Z2Pos.id by assumption. f_equal. f_equal. lia.
Qed.

(** The conversion of a size: [(double) S] for [1 <= S < 2^64] is a normal
    number, and every normal number below it is below [S]: its integer part
    is less than [S]. *)
Lemma of_Z_size (S : Z) :
  1 <= S < 2 ^ 64 ->
  exists mx ex,
    Prim2SF (IEEE.of_Z S) = S754_finite false mx ex
    /\ digits mx = 53 /\ -52 <= ex <= 12
    /\ forall mr er,
         digits mr = 53 ->
         er < ex \/ (er = ex /\ Zpos mr < Zpos mx) ->
         Z.shiftl (Zpos mr) er < S.
Proof.
  intros HS. destruct S as [|v|v]; try lia.
  pose proof (digits_bounds v) as [Hlo Hhi]. pose proof (digits_pos v) as Hdp.
  assert (Hd64 : digits v <= 64).
  { destruct (Z_lt_le_dec 64 (digits v)); [|assumption].
    assert (2 ^ 64 <= 2 ^ (digits v - 1)) by (apply Z.pow_le_mono_r; lia). lia. }
  destruct (Z_lt_le_dec (Zpos v) (2 ^ 53)) as [Hsmall | Hbig].
  - (* the conversion is exact *)
    pose proof (digits_below v Hsmall) as Hd.
    exists (cmant v), (cexp v). split; [apply of_Z_pos; assumption|].
    split; [apply cmant_digits; assumption|]. unfold cexp.
    split; [lia|]. intros mr er Hdr Hlex.
    pose proof (digits_bounds mr) as [Hrlo Hrhi]. rewrite Hdr in Hrlo, Hrhi.
    change (2 ^ (53 - 1)) with (2 ^ 52) in Hrlo.
    rewrite cmant_value in Hlex by assumption.
    rewrite Z.shiftl_div_pow2 by lia.
    apply Z.div_lt_upper_bound; [apply Z.pow_pos_nonneg; lia|].
    destruct Hlex as [Hlt | [-> Hlt]].
    + assert (2 ^ (54 - digits v) <= 2 ^ (- er)) by (apply Z.pow_le_mono_r; lia).
      assert (2 ^ (54 - digits v) * 2 ^ (digits v - 1) = 2 ^ 53)
        by (rewrite <- Z.pow_add_r by lia; f_equal; lia).
      nia.
    + replace (- (digits v - 53)) with (53 - digits v) by lia. lia.
  - (* the conversion rounds *)
    assert (Hd : 54 <= digits v).
    { destruct (Z_lt_le_dec (digits v) 54); [|assumption].
      assert (2 ^ digits v <= 2 ^ 53) by (apply Z.pow_le_mono_r; lia). lia. }
    set (k := digits v - 53).
    assert (Hk : 1 <= k <= 11) by (unfold k; lia).
    assert (Hdk : digits v = 53 + k) by (unfold k; lia).
    clearbody k.
    destruct (binary_round_aux_spec v 0 k Hdk ltac:(lia) ltac:(lia))
      as (m1 & Hm1 & Hm1r & Hup & Hround).
    rewrite !Z.add_0_l in Hround.
    assert (H2k : 0 < 2 ^ k) by (apply Z.pow_pos_nonneg; lia).
    pose proof (Z.div_mod (Zpos v) (2 ^ k) ltac:(lia)) as Hdiv.
    pose proof (Z.mod_pos_bound (Zpos v) (2 ^ k) H2k) as Hrem.
    assert (Hm0 : 2 ^ 52 <= Zpos v / 2 ^ k < 2 ^ 53).
    { split.
      - apply Z.div_le_lower_bound; [lia|]. rewrite <- Z.pow_add_r by lia.
        replace (k + 52) with (digits v - 1) by lia. exact Hlo.
      - apply Z.div_lt_upper_bound; [lia|]. rewrite <- Z.pow_add_r by lia.
        replace (k + 53) with (digits v) by lia. exact Hhi. }
    set (m0 := Zpos v / 2 ^ k) in *. set (rem := Zpos v mod 2 ^ k) in *.
    clearbody m0 rem.
    assert (Hconv : Prim2SF (IEEE.of_Z (Zpos v))
                    = if m1 <? 2 ^ 53
                      then S754_finite false (Z.to_pos m1) k
                      else S754_finite false (Z.to_pos (2 ^ 52)) (k + 1)).
    { rewrite of_Z_rounds. cbn [binary_normalize].
      rewrite (binary_round_large v 0 k Hdk) by lia. rewrite Hround.
      apply Prim2SF_SF2Prim.
      destruct (m1 <? 2 ^ 53) eqn:Hlt.
      - apply Z.ltb_lt in Hlt. apply valid_canonical; [|lia].
        apply digits_unique. rewrite Z2Pos.id by lia. lia.
      - apply valid_canonical; [reflexivity | lia]. }
    assert (Hfloor : forall mr er, digits mr = 53 ->
              er < k \/ (er = k /\ Zpos mr <= m0) ->
              Z.shiftl (Zpos mr) er <= 2 ^ k * m0).
    { intros mr er Hdr Hlex.
      pose proof (digits_bounds mr) as [Hrlo Hrhi]. rewrite Hdr in Hrlo, Hrhi.
      change (2 ^ (53 - 1)) with (2 ^ 52) in Hrlo.
      destruct Hlex as [Hlt | [-> Hle]].
      - destruct (Z_lt_le_dec er 0).
        + rewrite Z.shiftl_div_pow2 by lia.
          assert (Zpos mr / 2 ^ (- er) <= Zpos mr).
          { apply Z.div_le_upper_bound; [apply Z.pow_pos_nonneg; lia|].
            assert (0 < 2 ^ (- er)) by (apply Z.pow_pos_nonneg; lia).
            nia. }
          nia.
        + rewrite Z.shiftl_mul_pow2 by lia.
          assert (2 * 2 ^ er <= 2 ^ k).
          { rewrite <- Z.pow_succ_r by lia. apply Z.pow_le_mono_r; lia. }
          assert (0 < 2 ^ er) by (apply Z.pow_pos_nonneg; lia).
          nia.
      - rewrite Z.shiftl_mul_pow2 by lia. nia. }
    rewrite Hconv. destruct (Z.ltb_spec m1 (2 ^ 53)) as [Hlt | Hge].
    + exists (Z.to_pos m1), k. split; [reflexivity|].
      split; [apply digits_unique; rewrite Z2Pos.id by lia; lia|].
      split; [lia|]. intros mr er Hdr Hlex. rewrite Z2Pos.id in Hlex by lia.
      destruct (Z.eq_dec m1 m0) as [Hsame | Hne].
      * destruct Hlex as [Hlex | [-> Hlex]].
        -- pose proof (Hfloor mr er Hdr ltac:(left; lia)).
           (* strictly below: one more place or more *)
           pose proof (digits_bounds mr) as [Hrlo Hrhi].
           rewrite Hdr in Hrlo, Hrhi.
           destruct (Z_lt_le_dec er 0).
           ++ rewrite Z.shiftl_div_pow2 by lia.
              assert (Zpos mr / 2 ^ (- er) <= Zpos mr).
              { apply Z.div_le_upper_bound; [apply Z.pow_pos_nonneg; lia|].
                assert (0 < 2 ^ (- er)) by (apply Z.pow_pos_nonneg; lia).
                nia. }
              lia.
           ++ rewrite Z.shiftl_mul_pow2 by lia.
              assert (2 * 2 ^ er <= 2 ^ k).
              { rewrite <- Z.pow_succ_r by lia. apply Z.pow_le_mono_r; lia. }
              assert (0 < 2 ^ er) by (apply Z.pow_pos_nonneg; lia).
              nia.
        -- rewrite Z.shiftl_mul_pow2 by lia. nia.
      * assert (Hm1up : m1 = m0 + 1) by lia. specialize (Hup Hm1up).
        assert (Hlex' : er < k \/ (er = k /\ Zpos mr <= m0)) by lia.
        apply Z.le_lt_trans with (2 ^ k * m0); [apply Hfloor; assumption | lia].
    + assert (Hm1up : m1 = m0 + 1) by lia. specialize (Hup Hm1up).
      exists (Z.to_pos (2 ^ 52)), (k + 1). split; [reflexivity|].
      split; [reflexivity|]. split; [lia|]. intros mr er Hdr Hlex.
      pose proof (digits_bounds mr) as [Hrlo Hrhi]. rewrite Hdr in Hrlo, Hrhi.
      change (2 ^ (53 - 1)) with (2 ^ 52) in Hrlo.
      change (Zpos (Z.to_pos (2 ^ 52))) with (2 ^ 52) in Hlex.
      apply Z.le_lt_trans with (2 ^ k * m0); [apply Hfloor; [assumption | lia] | lia].
Qed.


Lemma digits_at_most v a : 0 <= a -> Zpos v < 2 ^ a -> digits v <= a.
Proof.
  intros Ha Hv. pose proof (digits_bounds v) as [Hlo _].
  destruct (Z_lt_le_dec a (digits v)); [|assumption].
  assert (2 ^ a <= 2 ^ (digits v - 1)) by (apply Z.pow_le_mono_r; lia). lia.
Qed.

Lemma SFltb_finite m1 e1 m2 e2 :
  SFltb (S754_finite false m1 e1) (S754_finite false m2 e2) = true ->
  e1 < e2 \/ (e1 = e2 /\ Zpos m1 < Zpos m2).
Proof.
  unfold SFltb, SFcompare.
  destruct (Z.compare_spec e1 e2); try discriminate; [|lia].
  rewrite Pos.compare_cont_spec. cbn [Pos.switch_Eq].
  destruct (Pos.compare_spec m1 m2); try discriminate. lia.
Qed.

Lemma SFleb_finite m1 e1 m2 e2 :
  SFleb (S754_finite false m1 e1) (S754_finite false m2 e2) = true ->
  e1 < e2 \/ (e1 = e2 /\ Zpos m1 <= Zpos m2).
Proof.
  unfold SFleb, SFcompare.
  destruct (Z.compare_spec e1 e2); try discriminate; [|lia].
  rewrite Pos.compare_cont_spec. cbn [Pos.switch_Eq].
  destruct (Pos.compare_spec m1 m2); try discriminate; lia.
Qed.

(** [1 - p] for a double [p] above [2^-54] and at most 1: zero, or a normal
    number below 1, that is, at an exponent of -53 at most. *)
Lemma one_minus_spec (p : float) :
  (0x1p-54 <? p)%float = true -> (p <=? 1)%float = true ->
  Prim2SF (1 - p) = S754_zero false
  \/ exists mq eq,
       Prim2SF (1 - p) = S754_finite false mq eq
       /\ digits mq = 53 /\ -1074 <= eq <= -53.
Proof.
  rewrite ltb_spec, leb_spec, sub_spec. pose proof (Prim2SF_valid p) as Hv.
  change (Prim2SF 0x1p-54) with (S754_finite false 4503599627370496 (-106)).
  change (Prim2SF 1) with (S754_finite false 4503599627370496 (-52)).
  destruct (Prim2SF p) as [s|s| |s mp ep];
    try (unfold SFltb, SFleb, SFcompare; try destruct s; discriminate).
  destruct s; [unfold SFltb, SFcompare; discriminate|].
  intros Hlo Hhi.
  assert (Hep : -106 <= ep <= -52
                /\ (ep = -106 -> 2 ^ 52 < Zpos mp)
                /\ (ep = -52 -> Zpos mp <= 2 ^ 52)).
  { apply SFltb_finite in Hlo. apply SFleb_finite in Hhi.
    change (Zpos 4503599627370496) with (2 ^ 52) in Hlo, Hhi. lia. }
  destruct Hep as (Hrange & Hlow & Hone).
  pose proof (valid_normal mp ep Hv ltac:(lia)) as Hd.
  pose proof (digits_bounds mp) as [Hmlo Hmhi]. rewrite Hd in Hmlo, Hmhi.
  change (2 ^ (53 - 1)) with (2 ^ 52) in Hmlo.
  destruct (Z.eq_dec ep (-52)) as [-> | Hne].
  { left. assert (mp = 4503599627370496%positive) as -> by lia. reflexivity. }
  unfold SF64sub, SFsub. rewrite Z.min_r by lia.
  unfold shl_align. rewrite Z.sub_diag.
  destruct (ep - -52) as [|d|d] eqn:Hshift; try lia.
  cbn [fst cond_Zopp]. rewrite iter_xO_value.
  set (k := - ep - 53).
  assert (Hk : 0 <= k <= 53) by (unfold k; lia).
  replace (Zpos d) with (k + 1) by (unfold k; lia).
  assert (Hep : ep = - (k + 53)) by (unfold k; lia). clearbody k. subst ep.
  change (Zpos 4503599627370496) with (2 ^ 52).
  assert (H2k : 0 < 2 ^ k) by (apply Z.pow_pos_nonneg; lia).
  assert (Hone' : 2 ^ 52 * 2 ^ (k + 1) = 2 ^ 53 * 2 ^ k).
  { rewrite Z.pow_add_r by lia. change (2 ^ 53) with (2 ^ 52 * 2 ^ 1). lia. }
  rewrite Hone'.
  destruct (2 ^ 53 * 2 ^ k - Zpos mp) as [|D|D] eqn:HD; try nia.
  cbn [binary_normalize]. right.
  assert (HDhi : Zpos D < 2 ^ (53 + k)) by (rewrite Z.pow_add_r by lia; lia).
  pose proof (digits_at_most D (53 + k) ltac:(lia) HDhi) as HdD.
  pose proof (digits_pos D) as HdDpos.
  destruct (Z_lt_le_dec (digits D) 54) as [Hsmall | Hbig].
  - rewrite binary_round_small by lia.
    eexists _, _. split; [reflexivity|]. split; [|lia].
    assert (Hpos : 0 < Zpos D * 2 ^ (53 - digits D))
      by (apply Z.mul_pos_pos; [lia | apply Z.pow_pos_nonneg; lia]).
    rewrite (digits_shift D (53 - digits D)); [lia | lia |].
    rewrite Z2Pos.id by assumption. reflexivity.
  - set (j := digits D - 53).
    assert (Hj : 1 <= j <= k) by (unfold j; lia).
    assert (Hdj : digits D = 53 + j) by (unfold j; lia). clearbody j.
    rewrite (binary_round_large D _ j Hdj) by lia.
    destruct (binary_round_aux_spec D (- (k + 53)) j Hdj ltac:(lia) ltac:(lia))
      as (m1 & Hm1 & Hm1r & Hup & ->).
    destruct (Z.ltb_spec m1 (2 ^ 53)) as [Hlt | Hge].
    + eexists _, _. split; [reflexivity|]. split; [|lia].
      apply digits_unique. rewrite Z2Pos.id by lia. lia.
    + eexists _, _. split; [reflexivity|]. split; [reflexivity|].
      split; [lia|].
      destruct (Z.eq_dec j k) as [-> | Hjk]; [exfalso | lia].
      pose proof (Z.div_mod (Zpos D) (2 ^ k) ltac:(lia)) as Hdiv.
      pose proof (Z.mod_pos_bound (Zpos D) (2 ^ k) H2k) as Hrem.
      assert (Hm0 : Zpos D / 2 ^ k < 2 ^ 53).
      { apply Z.div_lt_upper_bound; [lia|]. rewrite <- Z.pow_add_r by lia.
        rewrite Z.add_comm. exact HDhi. }
      set (m0 := Zpos D / 2 ^ k) in *. set (rem := Zpos D mod 2 ^ k) in *.
      clearbody m0 rem.
      assert (Hm1up : m1 = m0 + 1) by lia. specialize (Hup Hm1up).
      assert (Hmp : 2 * Zpos mp <= 2 ^ k) by nia.
      destruct (Z_lt_le_dec k 53) as [Hk53 | Hk53].
      * assert (2 ^ k <= 2 ^ 52) by (apply Z.pow_le_mono_r; lia). lia.
      * assert (k = 53) by lia. subst k. specialize (Hlow eq_refl). lia.
Qed.

(** The product of a normal number [x >= 1] and a normal number below 1 is
    a normal number below [x]. *)
Lemma mul_below mx ex mq eq :
  digits mx = 53 -> -52 <= ex <= 12 ->
  digits mq = 53 -> -1074 <= eq <= -53 ->
  exists mr er,
    SF64mul (S754_finite false mx ex) (S754_finite false mq eq)
    = S754_finite false mr er
    /\ digits mr = 53
    /\ (er < ex \/ (er = ex /\ Zpos mr < Zpos mx)).
Proof.
  intros Hdx Hex Hdq Heq. unfold SF64mul, SFmul. cbn [xorb].
  pose proof (digits_bounds mx) as [Hxlo Hxhi]. rewrite Hdx in Hxlo, Hxhi.
  pose proof (digits_bounds mq) as [Hqlo Hqhi]. rewrite Hdq in Hqlo, Hqhi.
  change (2 ^ (53 - 1)) with (2 ^ 52) in Hxlo, Hqlo.
  assert (HM : Zpos (mx * mq) = Zpos mx * Zpos mq) by apply Pos2Z.inj_mul.
  assert (HMlo : 2 ^ 104 <= Zpos (mx * mq)).
  { rewrite HM. change (2 ^ 104) with (2 ^ 52 * 2 ^ 52). nia. }
  assert (HMhi : Zpos (mx * mq) < 2 ^ 106).
  { rewrite HM. change (2 ^ 106) with (2 ^ 53 * 2 ^ 53). nia. }
  assert (HMq : Zpos (mx * mq) <= Zpos mx * (2 ^ 53 - 1)) by (rewrite HM; nia).
  destruct (Z_lt_le_dec (Zpos (mx * mq)) (2 ^ 105)) as [Hsmall | Hbig].
  - (* 105 digits *)
    assert (Hd : digits (mx * mq) = 53 + 52)
      by (apply digits_unique; split; [exact HMlo | exact Hsmall]).
    destruct (binary_round_aux_spec (mx * mq) (ex + eq) 52 Hd ltac:(lia) ltac:(lia))
      as (m1 & Hm1 & Hm1r & Hup & ->).
    destruct (Z.ltb_spec m1 (2 ^ 53)) as [Hlt | Hge].
    + eexists _, _. split; [reflexivity|]. split; [|left; lia].
      apply digits_unique. rewrite Z2Pos.id by lia. lia.
    + eexists _, _. split; [reflexivity|]. split; [reflexivity|].
      destruct (Z.eq_dec eq (-53)) as [-> | Hne]; [right | left; lia].
      split; [lia|]. change (Zpos (Z.to_pos (2 ^ 52))) with (2 ^ 52).
      pose proof (Z.div_mod (Zpos (mx * mq)) (2 ^ 52) ltac:(lia)) as Hdiv.
      assert (Hm0 : Zpos (mx * mq) / 2 ^ 52 < 2 ^ 53)
        by (apply Z.div_lt_upper_bound; [lia|]; exact Hsmall).
      set (m0 := Zpos (mx * mq) / 2 ^ 52) in *.
      set (rem := Zpos (mx * mq) mod 2 ^ 52) in *. clearbody m0 rem.
      assert (Hm1up : m1 = m0 + 1) by lia. specialize (Hup Hm1up).
      destruct (Z.eq_dec (Zpos mx) (2 ^ 52)) as [Hx | Hx]; [|lia].
      rewrite Hx in HMq. lia.
  - (* 106 digits *)
    assert (Hd : digits (mx * mq) = 53 + 53)
      by (apply digits_unique; split; [exact Hbig | exact HMhi]).
    destruct (binary_round_aux_spec (mx * mq) (ex + eq) 53 Hd ltac:(lia) ltac:(lia))
      as (m1 & Hm1 & Hm1r & Hup & ->).
    pose proof (Z.div_mod (Zpos (mx * mq)) (2 ^ 53) ltac:(lia)) as Hdiv.
    pose proof (Z.mod_pos_bound (Zpos (mx * mq)) (2 ^ 53) ltac:(lia)) as Hrem.
    assert (Hm0 : Zpos (mx * mq) / 2 ^ 53 < Zpos mx)
      by (apply Z.div_lt_upper_bound; lia).
    set (m0 := Zpos (mx * mq) / 2 ^ 53) in *.
    set (rem := Zpos (mx * mq) mod 2 ^ 53) in *. clearbody m0 rem.
    assert (Hm1x : m1 < Zpos mx).
    { destruct (Z_lt_le_dec m1 (Zpos mx)) as [|Hge]; [assumption | exfalso].
      assert (Hm1up : m1 = m0 + 1) by lia. specialize (Hup Hm1up).
      assert (m0 = Zpos mx - 1) by lia. subst m0.
      assert (Zpos mx = 2 ^ 52) by lia. lia. }
    replace (m1 <? 2 ^ 53) with true by (symmetry; apply Z.ltb_lt; lia).
    eexists _, _. split; [reflexivity|]. split.
    + apply digits_unique. rewrite Z2Pos.id by lia. lia.
    + rewrite Z2Pos.id by lia.
      destruct (Z.eq_dec eq (-53)) as [-> | Hne]; [right | left]; lia.
Qed.

End Rounding.

(** * The bounds assertion of the calibrator, in binary64 *)

Section BoundsBinary64.

Variable pow : float -> float -> float.
Local Hint Extern 0 (DoubleOps _) =>
  exact (IEEE.ops pow) : typeclass_instances.

Local Open Scope Z_scope.

(** The exponent the calibrator passes to [pow] for the threshold [i]:
    [10 * (double) (i + 1) / DUDECT_NUMBER_PERCENTILES]. *)
Local Abbreviation exponent P i :=
  (IEEE.of_Z 10 * IEEE.of_Z (Z.of_nat (i + 1)) / IEEE.of_Z (Z.of_nat P))%float.

Lemma quantile_binary64 P i :
  @quantile float (IEEE.ops pow) P i = (1 - pow 0.5 (exponent P i))%float.
Proof. reflexivity. Qed.

(** The position of a threshold, from the range of [pow]: when
    [pow(0.5, y)] is above [2^-54] and at most 1, the quantile is below 1,
    the cast to [size_t] is defined and the position is below the size. *)
Lemma position_in_bounds (S : nat) (p : float) :
  (1 <= S)%nat -> Z.of_nat S < 2 ^ 64 ->
  (0x1p-54 <? p)%float = true -> (p <=? 1)%float = true ->
  (1 - p <? 1)%float = true
  /\ exists array_position,
       IEEE.to_size_t (IEEE.of_Z (Z.of_nat S) * (1 - p))%float
       = Some array_position
       /\ 0 <= array_position < Z.of_nat S.
Proof.
  intros HS HS64 Hlo Hhi.
  destruct (of_Z_size (Z.of_nat S) ltac:(lia))
    as (mx & ex & Hx & Hdx & Hex & Hbelow).
  destruct (one_minus_spec p Hlo Hhi) as [Hq | (mq & eq & Hq & Hdq & Heq)].
  - split; [rewrite ltb_spec, Hq; reflexivity|].
    exists 0. split; [|lia].
    unfold IEEE.to_size_t. rewrite mul_spec, Hx, Hq. reflexivity.
  - split.
    { rewrite ltb_spec, Hq.
      change (Prim2SF 1) with (S754_finite false 4503599627370496 (-52)).
      unfold SFltb, SFcompare.
      destruct (Z.compare_spec eq (-52)); [lia | reflexivity | lia]. }
    destruct (mul_below mx ex mq eq Hdx Hex Hdq Heq)
      as (mr & er & Hr & Hdr & Hlex).
    exists (Z.shiftl (Zpos mr) er).
    pose proof (Hbelow mr er Hdr Hlex) as Hlt.
    assert (Hnn : 0 <= Z.shiftl (Zpos mr) er) by (apply Z.shiftl_nonneg; lia).
    split; [|lia].
    unfold IEEE.to_size_t. rewrite mul_spec, Hx, Hq, Hr.
    replace (Z.shiftl (Zpos mr) er <? 2 ^ 64) with true
      by (symmetry; apply Z.ltb_lt; lia).
    reflexivity.
Qed.

(** C10: in binary64, for a batch of size [S >= 1] (a [size_t]: below
    [2^64]) and a threshold index [i], whenever the value [pow] returns for
    [0.5] and the exponent of that threshold is in the range that [0.5^y]
    has for [0 <= y < 54] (above [2^-54], at most 1), the quantile
    [1 - pow(0.5, y)] is below 1, the cast [(size_t) ((double) S * q)] is
    defined, the position it gives is in [0, S), and [percentile] passes
    its bounds assertion and reads inside the buffer. For [i < P] the
    exponent is in (0, 10] and [0.5^y] in [2^-10, 1) ([quantile_range]). *)
Theorem calibration_in_bounds (P S i : nat) :
  (1 <= S)%nat -> Z.of_nat S < 2 ^ 64 ->
  (0x1p-54 <? pow 0.5 (exponent P i))%float = true ->
  (pow 0.5 (exponent P i) <=? 1)%float = true ->
  let q := @quantile float (IEEE.ops pow) P i in
  (q <? 1)%float = true
  /\ exists array_position,
       IEEE.to_size_t (IEEE.of_Z (Z.of_nat S) * q)%float = Some array_position
       /\ 0 <= array_position < Z.of_nat S
       /\ forall qsort a,
            @percentile float (IEEE.ops pow) qsort a q S
            = Some (nth (Z.to_nat array_position)
                        (qsort cmp (firstn S a) ++ skipn S a) 0,
                    qsort cmp (firstn S a) ++ skipn S a).
Proof.
  intros HS HS64 Hlo Hhi q. unfold q. rewrite quantile_binary64.
  destruct (position_in_bounds S _ HS HS64 Hlo Hhi)
    as (Hq & pos & Hcast & Hpos).
  split; [exact Hq|]. exists pos. split; [exact Hcast|]. split; [exact Hpos|].
  intros qsort a. unfold percentile.
  cbn [d_to_size_t d_mul d_of_Z IEEE.ops]. rewrite Hcast. cbn [bind].
  replace (pos <? Z.of_nat S) with true by (symmetry; apply Z.ltb_lt; lia).
  reflexivity.
Qed.

(** With [pow] in range at every threshold index, the configuration passes
    the bounds assertion at every threshold. *)
Lemma positions_ok_binary64 (P N : nat) :
  (1 <= N)%nat -> Z.of_nat N < 2 ^ 64 ->
  (forall i, (i < P)%nat ->
     (0x1p-54 <? pow 0.5 (exponent P i))%float = true
     /\ (pow 0.5 (exponent P i) <=? 1)%float = true) ->
  @positions_ok float (IEEE.ops pow) P N = true.
Proof.
  intros HN HN64 Hpow. unfold positions_ok. apply forallb_forall.
  intros i Hi. apply in_seq in Hi. destruct (Hpow i ltac:(lia)) as [Hlo Hhi].
  rewrite quantile_binary64.
  destruct (position_in_bounds N _ HN HN64 Hlo Hhi)
    as (_ & pos & Hcast & Hpos).
  cbn [d_to_size_t d_mul d_of_Z IEEE.ops]. rewrite Hcast.
  apply Z.ltb_lt. lia.
Qed.

End BoundsBinary64.

(** * Concrete runs *)

Section ConcreteRuns.

Import Reference.
#[local] Existing Instance Reference.ops.

Local Abbreviation P10 := NUMBER_PERCENTILES.
Local Abbreviation E := ENOUGH_MEASUREMENTS.

Lemma is_state_eq a b : is_state a b = true -> a = b.
Proof. destruct a, b; (reflexivity || discriminate). Qed.

Lemma pair_eqb_eq p q : pair_eqb p q = true -> p = q.
Proof.
  destruct p as [a b], q as [c d]. unfold pair_eqb. cbn [fst snd].
  intros H. apply andb_true_iff in H as [H1 H2].
  apply FloatAxioms.Leibniz.eqb_spec in H1, H2. congruence.
Qed.

Lemma acc_eqb_eq a b : acc_eqb a b = true -> a = b.
Proof.
  destruct a, b. unfold acc_eqb. simpl. intros H.
  apply andb_true_iff in H as [H H3]. apply andb_true_iff in H as [H1 H2].
  apply pair_eqb_eq in H1, H2, H3. congruence.
Qed.

Lemma list_eqb_eq l1 l2 : list_eqb l1 l2 = true -> l1 = l2.
Proof. unfold list_eqb. destruct (list_eq_dec Z.eq_dec l1 l2); congruence. Qed.

Lemma forallb2_eqb_eq (l1 l2 : list bool) :
  forallb2 Bool.eqb l1 l2 = true -> l1 = l2.
Proof.
  revert l2. induction l1 as [|x t1 IH]; intros [|y t2] H;
    try discriminate; [reflexivity|].
  cbn [forallb2] in H. apply andb_true_iff in H as [Hxy Ht].
  apply Bool.eqb_prop in Hxy. f_equal; [exact Hxy | apply IH; exact Ht].
Qed.

(** C1, witness: the threshold at 3 and a second batch of 50 retained
    deltas, 25 of each class, the two classes about 100 cycles apart. Eleven
    accumulators meet the gate. The raw one has [|t|] above 693; the first
    two cropped ones hold one class only and their [t] is NaN; the third
    cropped one has [|t|] above 975, as have those after it: it is the one
    selected, and the step returns leakage-found. *)
Lemma classifier_selects_maximal_t_witness :
  exists ctx' s,
    accumulating_step P10 3 qsort 61 [mixed] mixed ctx' s
    /\ map (gate 3) (ttest_ctxs ctx') = repeat true 11 ++ [false]
    /\ max_test_index P10 3 ctx' = 3
    /\ (693 <? abs (t_compute (ttest ctx' 0)))%float = true
    /\ (abs (t_compute (ttest ctx' 0)) <? 694)%float = true
    /\ is_nan (t_compute (ttest ctx' 1)) = true
    /\ is_nan (t_compute (ttest ctx' 2)) = true
    /\ (975 <? abs (t_compute (max_test P10 3 ctx')))%float = true
    /\ gate 3 (max_test P10 3 ctx') = true
    /\ (forall j, j < DUDECT_TESTS P10 -> gate 3 (ttest ctx' j) = true ->
          (abs (t_compute (max_test P10 3 ctx'))
           <? abs (t_compute (ttest ctx' j)))%float = false)
    /\ (forall j, j < DUDECT_TESTS P10 -> gate 3 (ttest ctx' j) = true ->
          (0 <? abs (t_compute (ttest ctx' j)))%float = true ->
          (abs (t_compute (ttest ctx' j))
           <=? abs (t_compute (max_test P10 3 ctx')))%float = true)
    /\ (forall j, j < 3 -> gate 3 (ttest ctx' j) = true ->
          (abs (t_compute (ttest ctx' j))
           <? abs (t_compute (max_test P10 3 ctx')))%float = true
          \/ is_nan (t_compute (ttest ctx' j)) = true)
    /\ ret s = DUDECT_LEAKAGE_FOUND.
Proof.
  destruct (accumulating_step_check P10 3 qsort 61 [mixed] mixed
              (fun ctx' s =>
                 forallb2 Bool.eqb (map (gate 3) (ttest_ctxs ctx'))
                          (repeat true 11 ++ [false])
                 && Nat.eqb (max_test_index P10 3 ctx') 3
                 && (693 <? abs (t_compute (ttest ctx' 0)))%float
                 && (abs (t_compute (ttest ctx' 0)) <? 694)%float
                 && is_nan (t_compute (ttest ctx' 1))
                 && is_nan (t_compute (ttest ctx' 2))
                 && (975 <? abs (t_compute (max_test P10 3 ctx')))%float
                 && gate 3 (ttest ctx' 0)))
    as (ctx' & s & Hstep & Hcheck); [vm_compute; reflexivity|].
  repeat (apply andb_true_iff in Hcheck as [Hcheck ?]).
  exists ctx', s. split; [exact Hstep|].
  destruct (classifier_selects_maximal_t IEEE.pow_intexp P10 3 qsort
              61 [mixed] mixed ctx' s)
    as (Hg & Hmax & Hup & Hbefore & Hret & Hiff).
  - lia.
  - vm_compute. reflexivity.
  - exact Hstep.
  - exists 0. split; [unfold DUDECT_TESTS; lia | assumption].
  - assert (Hidx : max_test_index P10 3 ctx' = 3)
      by (apply Nat.eqb_eq; assumption).
    split; [apply forallb2_eqb_eq; exact Hcheck|].
    split; [exact Hidx|].
    do 5 (split; [assumption|]).
    split; [exact Hg|]. split; [exact Hmax|].
    split; [intros j Hj Hgj Hpos; apply (Hup j Hj Hgj Hpos)|].
    split.
    { intros j Hj Hgj. apply Hbefore; [|exact Hgj].
      exact (eq_ind_r (fun k => j < k) Hj Hidx). }
    apply Hiff. exists 3.
    split; [unfold DUDECT_TESTS, NUMBER_PERCENTILES; lia|].
    split; [exact (eq_ind 3 (fun k => gate 3 (ttest ctx' k) = true)
                     (eq_ind _ (fun k => gate 3 (ttest ctx' k) = true)
                        Hg _ Hidx) _ eq_refl)|].
    apply ltb_trans with 975%float; [reflexivity|].
    exact (eq_ind _ (fun k => (975 <? abs (t_compute (ttest ctx' k)))%float
                              = true) H0 _ Hidx).
Defined.

(** C2, witness: the first accumulating step of a context of 12
    measurements, where the raw accumulator has one delta. *)
Lemma not_enough_below_raw_total_witness :
  exists ctx' s,
    accumulating_step P10 E qsort 12 [warm] warm ctx' s
    /\ ret s = DUDECT_NOT_ENOUGHT_MEASUREMENTS
    /\ max_test P10 E ctx' = ttest ctx' 0.
Proof.
  destruct (accumulating_step_check P10 E qsort 12 [warm] warm
              (fun ctx' s =>
                 (number_traces (ttest ctx' 0) <? IEEE.of_Z E)%float))
    as (ctx' & s & Hstep & Hcheck); [vm_compute; reflexivity|].
  exists ctx', s. split; [exact Hstep|].
  destruct (not_enough_below_raw_total IEEE.pow_intexp P10 E qsort
              12 [warm] warm ctx' s) as (Hret & Hraw & _).
  - unfold E, ENOUGH_MEASUREMENTS. lia.
  - vm_compute. reflexivity.
  - exact Hstep.
  - exact Hcheck.
  - split; [exact Hret | exact Hraw].
Defined.

(** C3, witness: three steps at the boundary. With the threshold at 2, a
    selected accumulator whose counts are 1 and 0: not enough measurements.
    With the threshold at 3, counts of 2 and 1: a verdict. With the
    threshold at 4, counts of 4 and 0: a verdict. *)
Lemma gate_boundary_witness :
  (exists ctx' s,
     accumulating_step P10 2 qsort 12 [warm] warm ctx' s
     /\ n (max_test P10 2 ctx') = (IEEE.of_Z (2 - 1), IEEE.of_Z 0)
     /\ ret s = DUDECT_NOT_ENOUGHT_MEASUREMENTS)
  /\ (exists ctx' s,
        accumulating_step P10 3 qsort 15 [warm15] with_negative ctx' s
        /\ n (max_test P10 3 ctx') = (IEEE.of_Z (3 - 1), IEEE.of_Z 1)
        /\ (ret s = DUDECT_LEAKAGE_FOUND
            \/ ret s = DUDECT_NO_LEAKAGE_EVIDENCE_YET))
  /\ (exists ctx' s,
        accumulating_step P10 4 qsort 15 [warm15] warm15 ctx' s
        /\ n (max_test P10 4 ctx') = (IEEE.of_Z 4, IEEE.of_Z 0)
        /\ (ret s = DUDECT_LEAKAGE_FOUND
            \/ ret s = DUDECT_NO_LEAKAGE_EVIDENCE_YET)).
Proof.
  split; [|split].
  - destruct (accumulating_step_check P10 2 qsort 12 [warm] warm
                (fun ctx' s =>
                   pair_eqb (n (max_test P10 2 ctx'))
                            (IEEE.of_Z (2 - 1), IEEE.of_Z 0)))
      as (ctx' & s & Hstep & Hcheck); [vm_compute; reflexivity|].
    apply pair_eqb_eq in Hcheck.
    exists ctx', s. split; [exact Hstep|]. split; [exact Hcheck|].
    destruct (gate_boundary IEEE.pow_intexp P10 2 qsort
                12 [warm] warm ctx' s) as (Hbelow & _).
    + lia.
    + vm_compute. reflexivity.
    + exact Hstep.
    + destruct Hbelow as (_ & Hzero & _); [exact (f_equal fst Hcheck)|].
      apply Hzero. exact (f_equal snd Hcheck).
  - destruct (accumulating_step_check P10 3 qsort 15 [warm15] with_negative
                (fun ctx' s =>
                   pair_eqb (n (max_test P10 3 ctx'))
                            (IEEE.of_Z (3 - 1), IEEE.of_Z 1)))
      as (ctx' & s & Hstep & Hcheck); [vm_compute; reflexivity|].
    apply pair_eqb_eq in Hcheck.
    exists ctx', s. split; [exact Hstep|]. split; [exact Hcheck|].
    destruct (gate_boundary IEEE.pow_intexp P10 3 qsort
                15 [warm15] with_negative ctx' s) as (Hbelow & _).
    + lia.
    + vm_compute. reflexivity.
    + exact Hstep.
    + destruct Hbelow as (_ & _ & Hmore); [exact (f_equal fst Hcheck)|].
      apply Hmore. intros Hzero.
      pose proof (eq_trans (eq_sym (f_equal snd Hcheck)) Hzero) as Heq.
      vm_compute in Heq. discriminate Heq.
  - destruct (accumulating_step_check P10 4 qsort 15 [warm15] warm15
                (fun ctx' s =>
                   pair_eqb (n (max_test P10 4 ctx'))
                            (IEEE.of_Z 4, IEEE.of_Z 0)))
      as (ctx' & s & Hstep & Hcheck); [vm_compute; reflexivity|].
    apply pair_eqb_eq in Hcheck.
    exists ctx', s. split; [exact Hstep|]. split; [exact Hcheck|].
    destruct (gate_boundary IEEE.pow_intexp P10 4 qsort
                15 [warm15] warm15 ctx' s) as (_ & _ & Hat & _).
    + lia.
    + vm_compute. reflexivity.
    + exact Hstep.
    + apply Hat. exact (f_equal fst Hcheck).
Defined.

(** C2, counterexample: after 200 accumulating batches of 50 retained
    deltas, half of each class, no accumulator has a class-0 count above
    10000 (the raw one has 5000), and the step returns leakage-found. *)
Lemma leakage_found_with_no_accumulator_gated :
  exists ctx' s,
    accumulating_step P10 E qsort 61 (repeat mixed 200) mixed ctx' s
    /\ (forall i, i < DUDECT_TESTS P10 -> gate E (ttest ctx' i) = false)
    /\ ret s = DUDECT_LEAKAGE_FOUND.
Proof.
  destruct (accumulating_step_check P10 E qsort 61 (repeat mixed 200) mixed
              (fun ctx' s =>
                 forallb (fun i => negb (gate E (ttest ctx' i)))
                         (seq 0 (DUDECT_TESTS P10))
                 && is_state (ret s) DUDECT_LEAKAGE_FOUND))
    as (ctx' & s & Hstep & Hcheck).
  { vm_compute. reflexivity. }
  apply andb_true_iff in Hcheck as [Hgates Hret].
  exists ctx', s. split; [exact Hstep|]. split.
  - intros i Hi. rewrite forallb_forall in Hgates.
    specialize (Hgates i). rewrite in_seq in Hgates.
    apply negb_true_iff. apply Hgates. lia.
  - apply is_state_eq. exact Hret.
Qed.

(** C3, counterexample: with the raw class-0 count at exactly 9999, one
    below the threshold, and one delta of class 1, the step returns
    no-leakage-evidence-yet. *)
Lemma real_verdict_one_below_threshold :
  exists ctx' s,
    accumulating_step P10 E qsort 61 (repeat zeros 200) zeros_but_one ctx' s
    /\ n (ttest ctx' 0) = (9999, 1)%float
    /\ ret s = DUDECT_NO_LEAKAGE_EVIDENCE_YET.
Proof.
  destruct (accumulating_step_check P10 E qsort 61 (repeat zeros 200)
              zeros_but_one
              (fun ctx' s =>
                 pair_eqb (n (ttest ctx' 0)) (9999, 1)%float
                 && is_state (ret s) DUDECT_NO_LEAKAGE_EVIDENCE_YET))
    as (ctx' & s & Hstep & Hcheck).
  { vm_compute. reflexivity. }
  apply andb_true_iff in Hcheck as [Hn Hret].
  exists ctx', s. split; [exact Hstep|]. split.
  - apply pair_eqb_eq. exact Hn.
  - apply is_state_eq. exact Hret.
Qed.

(** C4, witness: a context of 3 measurements. *)
Lemma calibration_once_witness :
  exists ctx1,
    main (init 3) moving = Some (ctx1, calibration_step)
    /\ ttest_ctxs ctx1 = ttest_ctxs (init 3)
    /\ (nth (P10 - 1) (percentiles ctx1) 0%Z <> 0%Z ->
        forall bs ctx',
          runs ctx1 bs = Some ctx' -> percentiles ctx' = percentiles ctx1).
Proof.
  apply (calibration_once P10 E qsort 3 moving). vm_compute. reflexivity.
Defined.

(** C4, counterexample: the counter does not advance during the first
    batch, every threshold the first call computes is 0, and the second
    call computes the thresholds again, from the second batch. *)
Lemma thresholds_recomputed_after_zero_calibration :
  exists ctx1 ctx2,
    main (init 3) still = Some (ctx1, calibration_step)
    /\ main ctx1 moving = Some (ctx2, calibration_step)
    /\ percentiles ctx1 = repeat 0%Z 10
    /\ percentiles ctx2 = 7%Z :: repeat 13%Z 9.
Proof.
  assert (H : match main (init 3) still with
              | Some (ctx1, s1) =>
                  match main ctx1 moving with
                  | Some (ctx2, s2) =>
                      calibrated s1 && calibrated s2
                      && list_eqb (percentiles ctx1) (repeat 0%Z 10)
                      && list_eqb (percentiles ctx2) (7%Z :: repeat 13%Z 9)
                  | None => false
                  end
              | None => false
              end = true) by (vm_compute; reflexivity).
  unfold main in *.
  destruct (dudect_main P10 E qsort (init 3) still) as [[ctx1 s1]|] eqn:H1;
    [|discriminate].
  destruct (dudect_main P10 E qsort ctx1 moving) as [[ctx2 s2]|] eqn:H2;
    [|discriminate].
  apply andb_true_iff in H as [H Hp2]. apply andb_true_iff in H as [H Hp1].
  apply andb_true_iff in H as [Hc1 Hc2].
  exists ctx1, ctx2.
  pose proof (dudect_main_calibrated _ _ _ _ _ _ _ H1 Hc1) as ->.
  pose proof (dudect_main_calibrated _ _ _ _ _ _ _ H2 Hc2) as ->.
  split; [reflexivity|]. split; [exact H2|].
  split; apply list_eqb_eq; assumption.
Qed.

(** The only arrangement of 3000000000, 3000000001 and 0 that [cmp] calls
    sorted puts 0 last: [cmp] casts each difference of three billion to a
    negative [int]. *)
Lemma cmp_sorted_arrangement (l : list Z) :
  Permutation [3000000000; 3000000001; 0]%Z l ->
  StronglySorted (fun a b => (cmp a b <= 0)%Z) l ->
  l = [3000000000; 3000000001; 0]%Z.
Proof.
  intros Hperm Hsorted.
  assert (Hlen := Permutation_length Hperm).
  destruct l as [|x [|y [|z [|]]]]; try discriminate Hlen.
  assert (Hin : forall v, In v [x; y; z] -> In v [3000000000; 3000000001; 0]%Z)
    by (intros v; apply Permutation_in; apply Permutation_sym; exact Hperm).
  assert (Hnd : NoDup [x; y; z]).
  { apply (Permutation_NoDup Hperm).
    repeat constructor; simpl; intuition discriminate. }
  apply StronglySorted_inv in Hsorted as [Hyz Hx].
  apply StronglySorted_inv in Hyz as [_ Hy].
  apply Forall_inv in Hy.
  pose proof (Forall_inv Hx) as Hxy.
  apply Forall_inv_tail, Forall_inv in Hx.
  inversion Hnd as [|? ? Hx_notin Hnd']; subst.
  inversion Hnd' as [|? ? Hy_notin _]; subst.
  destruct (Hin x ltac:(simpl; auto)) as [<-|[<-|[<-|[]]]];
    destruct (Hin y ltac:(simpl; auto)) as [<-|[<-|[<-|[]]]];
    destruct (Hin z ltac:(simpl; auto)) as [<-|[<-|[<-|[]]]];
    try reflexivity;
    try (exfalso; apply Hx_notin; simpl; auto; fail);
    try (exfalso; apply Hy_notin; simpl; auto; fail);
    exfalso; vm_compute in Hx, Hy, Hxy;
    first [apply Hx; reflexivity | apply Hy; reflexivity | apply Hxy; reflexivity].
Qed.

(** C9, on a failing input: three trials of an operation that takes three
    billion cycles. Whatever sort [qsort] is, as long as it returns a
    permutation of the buffer that its comparison function calls sorted, the
    first threshold is 3000000001 and every later one is 0: the thresholds
    are not in ascending order. *)
Theorem thresholds_decrease_on_slow_batch
  (sort : (Z -> Z -> Z) -> list Z -> list Z) :
  (let buffer := [3000000000; 3000000001; 0]%Z in
   Permutation buffer (sort cmp buffer)
   /\ StronglySorted (fun a b => (cmp a b <= 0)%Z) (sort cmp buffer)) ->
  exists ctx1,
    dudect_main NUMBER_PERCENTILES ENOUGH_MEASUREMENTS sort (init 3) slow
    = Some (ctx1, calibration_step)
    /\ percentiles ctx1 = 3000000001%Z :: repeat 0%Z 9.
Proof.
  cbv zeta. intros [Hperm Hsorted].
  pose proof (cmp_sorted_arrangement _ Hperm Hsorted) as Hfix.
  rewrite dudect_main_sorted_input.
  2:{ cbv zeta.
      replace (firstn _ _) with [3000000000; 3000000001; 0]%Z
        by (vm_compute; reflexivity).
      exact Hfix. }
  assert (H : match dudect_main NUMBER_PERCENTILES ENOUGH_MEASUREMENTS
                      (fun _ l => l) (init 3) slow with
              | Some (ctx1, s) =>
                  calibrated s
                  && list_eqb (percentiles ctx1) (3000000001%Z :: repeat 0%Z 9)
              | None => false
              end = true) by (vm_compute; reflexivity).
  destruct (dudect_main _ _ _ (init 3) slow) as [[ctx1 s]|] eqn:Hmain;
    [|discriminate].
  apply andb_true_iff in H as [Hcal Hp].
  exists ctx1. split; [|apply list_eqb_eq; exact Hp].
  rewrite (dudect_main_calibrated _ _ _ _ _ _ _ Hmain Hcal). reflexivity.
Qed.


(** C9, witness: the reference sort on that buffer. *)
Lemma thresholds_decrease_on_slow_batch_witness :
  exists ctx1,
    main (init 3) slow = Some (ctx1, calibration_step)
    /\ percentiles ctx1 = 3000000001%Z :: repeat 0%Z 9.
Proof.
  apply (thresholds_decrease_on_slow_batch qsort). cbv zeta.
  replace (qsort cmp [3000000000; 3000000001; 0]%Z)
    with [3000000000; 3000000001; 0]%Z by (vm_compute; reflexivity).
  split; [apply Permutation_refl|].
  repeat constructor; vm_compute; discriminate.
Defined.

(** C5, witness: the first retained delta after calibration. *)
Lemma second_order_gate_witness :
  let ctx := measure (prepare (fst (after_main (init 12) warm)) warm) warm in
  exists ctx',
    update_one P10 ctx 10 = Some ctx'
    /\ counts (ttest ctx' 0) 1 0
    /\ ttest ctx' 11 = ttest ctx 11.
Proof.
  intros ctx.
  destruct (second_order_gate IEEE.pow_intexp P10 ctx 10 0 0)
    as (ctx' & Hone & Hcnt & Hsnd); try lia.
  - vm_compute. reflexivity.
  - vm_compute. reflexivity.
  - vm_compute. discriminate.
  - vm_compute. reflexivity.
  - exists ctx'. split; [exact Hone|].
    replace (nth 10 (classes ctx) 0%Z) with 0%Z in Hcnt, Hsnd
      by (vm_compute; reflexivity).
    split; [exact Hcnt | exact Hsnd].
Defined.

(** C5, counterexample: batches of 50 retained deltas of class 1 only.
    After 220 of them the raw class-1 count is 11000, above 10000; one more
    brings it to 11050, and the second-order accumulator is still as
    [t_init] left it. *)
Lemma second_order_idle_above_class_1_count :
  exists ctx ctx' s,
    runs (init 61) (repeat ones 221) = Some ctx
    /\ main ctx ones = Some (ctx', s)
    /\ n (ttest ctx 0) = (0, 11000)%float
    /\ n (ttest ctx' 0) = (0, 11050)%float
    /\ ttest ctx' 11 = t_init.
Proof.
  destruct (run_then_main_check P10 E qsort 61 (repeat ones 221) ones
              (fun ctx ctx' s =>
                 pair_eqb (n (ttest ctx 0)) (0, 11000)%float
                 && pair_eqb (n (ttest ctx' 0)) (0, 11050)%float
                 && acc_eqb (ttest ctx' 11) t_init))
    as (ctx & ctx' & s & Hrun & Hmain & Hcheck); [vm_compute; reflexivity|].
  apply andb_true_iff in Hcheck as [Hcheck H3].
  apply andb_true_iff in Hcheck as [H1 H2].
  exists ctx, ctx', s. split; [exact Hrun|]. split; [exact Hmain|].
  split; [apply pair_eqb_eq; exact H1|].
  split; [apply pair_eqb_eq; exact H2 | apply acc_eqb_eq; exact H3].
Qed.

(** The boundary of C5 on class 0: with exactly 10000 retained deltas of
    class 0 the second-order accumulator has received nothing, and the
    10001st is pushed into it. *)
Lemma second_order_boundary :
  exists ctx ctx' s,
    runs (init 61) (repeat zeros 201) = Some ctx
    /\ main ctx one_zero = Some (ctx', s)
    /\ n (ttest ctx 0) = (10000, 0)%float
    /\ ttest ctx 11 = t_init
    /\ n (ttest ctx' 0) = (10001, 0)%float
    /\ n (ttest ctx' 11) = (1, 0)%float.
Proof.
  destruct (run_then_main_check P10 E qsort 61 (repeat zeros 201) one_zero
              (fun ctx ctx' s =>
                 pair_eqb (n (ttest ctx 0)) (10000, 0)%float
                 && acc_eqb (ttest ctx 11) t_init
                 && pair_eqb (n (ttest ctx' 0)) (10001, 0)%float
                 && pair_eqb (n (ttest ctx' 11)) (1, 0)%float))
    as (ctx & ctx' & s & Hrun & Hmain & Hcheck); [vm_compute; reflexivity|].
  apply andb_true_iff in Hcheck as [Hcheck H4].
  apply andb_true_iff in Hcheck as [Hcheck H3].
  apply andb_true_iff in Hcheck as [H1 H2].
  exists ctx, ctx', s. split; [exact Hrun|]. split; [exact Hmain|].
  split; [apply pair_eqb_eq; exact H1|].
  split; [apply acc_eqb_eq; exact H2|].
  split; apply pair_eqb_eq; assumption.
Qed.

(** C6, witness: a context of 15 measurements calibrated on deltas of 100
    (every threshold is 100), then the batch whose deltas at the indices 10
    to 13 are 100, -7 with the label 5, 50 with the label 1, and 100. The
    negative delta is dropped, label and all; the three others go into the
    raw accumulator, and the delta of 50, the only one below the thresholds,
    into each cropped accumulator. *)
Lemma update_statistics_pushes_witness :
  let ctx := measure (prepare (fst (after_main (init 15) warm15))
                              with_negative)
                     with_negative in
  number_measurements ctx = 15
  /\ map (fun i => (nth i (exec_times ctx) 0, nth i (classes ctx) 0)%Z)
         (seq 10 4)
     = [(100, 0); (-7, 5); (50, 1); (100, 0)]%Z
  /\ percentiles ctx = repeat 100%Z 10
  /\ retained ctx = [(100, 0); (50, 1); (100, 0)]%Z
  /\ (forall j, j < P10 ->
        below (nth j (percentiles ctx) 0%Z) (retained ctx) = [(50, 1)%Z])
  /\ exists ctx',
       update_statistics P10 ctx = Some ctx'
       /\ same_buffers ctx ctx'
       /\ t_push_all (ttest ctx 0) (as_pushes (retained ctx))
          = Some (ttest ctx' 0)
       /\ (forall j, j < P10 ->
             t_push_all (ttest ctx (j + 1))
               (as_pushes (below (nth j (percentiles ctx) 0%Z) (retained ctx)))
             = Some (ttest ctx' (j + 1)))
       /\ n (ttest ctx' 0) = (2, 1)%float
       /\ n (ttest ctx' 1) = (0, 1)%float.
Proof.
  intros ctx.
  assert (Hret : retained ctx = [(100, 0); (50, 1); (100, 0)]%Z)
    by (vm_compute; reflexivity).
  assert (Hperc : percentiles ctx = repeat 100%Z 10)
    by (vm_compute; reflexivity).
  split; [reflexivity|]. split; [vm_compute; reflexivity|].
  split; [exact Hperc|]. split; [exact Hret|]. split.
  { intros j Hj. rewrite Hret, Hperc. rewrite nth_repeat_lt by exact Hj.
    reflexivity. }
  destruct (update_statistics_pushes P10 ctx)
    as (ctx' & Hupd & Hbuf & Hraw & Hcrop).
  - vm_compute. lia.
  - vm_compute. reflexivity.
  - rewrite Hret. repeat constructor.
  - exists ctx'. split; [exact Hupd|]. split; [exact Hbuf|].
    split; [exact Hraw|]. split; [exact Hcrop|].
    assert (Hn : match update_statistics P10 ctx with
                 | Some c => pair_eqb (n (ttest c 0)) (2, 1)%float
                             && pair_eqb (n (ttest c 1)) (0, 1)%float
                 | None => false
                 end = true) by (vm_compute; reflexivity).
    rewrite Hupd in Hn. apply andb_true_iff in Hn as [H0 H1].
    split; apply pair_eqb_eq; assumption.
Defined.

(** C8: failing inputs. In the first accumulating step of a context of 12
    measurements, [report] calls [t_compute] on the raw accumulator, whose
    counts are 1 and 0, before it looks at the total. And after 220
    accumulating batches of 50 deltas of class 0 only, the raw accumulator meets the gate
    with 11000 deltas of class 0 and none of class 1: [max_test] and
    [report] call [t_compute] on it, the result is NaN, it is what [report]
    prints, and the step returns no-leakage-evidence-yet. *)
Theorem t_compute_called_on_an_empty_class :
  (exists ctx' s r,
     accumulating_step P10 E qsort 12 [warm] warm ctx' s
     /\ reported s = Some r
     /\ map (@n float) (t_compute_calls r) = [(1, 0)%float]
     /\ ret s = DUDECT_NOT_ENOUGHT_MEASUREMENTS)
  /\ (exists ctx' s r meas,
        accumulating_step P10 E qsort 61 (repeat zeros 220) zeros ctx' s
        /\ reported s = Some r
        /\ map (@n float) (t_compute_calls r)
           = [(11000, 0)%float; (11000, 0)%float]
        /\ gate E (max_test P10 E ctx') = true
        /\ t_compute (max_test P10 E ctx') = nan
        /\ output r = Statistics meas nan nan nan
        /\ ret s = DUDECT_NO_LEAKAGE_EVIDENCE_YET).
Proof.
  split.
  - destruct (accumulating_step_check P10 E qsort 12 [warm] warm
                (fun ctx' s =>
                   match reported s with
                   | Some r =>
                       match map (@n float) (t_compute_calls r) with
                       | [p] => pair_eqb p (1, 0)%float
                       | _ => false
                       end
                   | None => false
                   end
                   && is_state (ret s) DUDECT_NOT_ENOUGHT_MEASUREMENTS))
      as (ctx' & s & Hstep & Hcheck); [vm_compute; reflexivity|].
    apply andb_true_iff in Hcheck as [Hcalls Hret].
    destruct (reported s) as [r|] eqn:Hr; [|discriminate].
    exists ctx', s, r. split; [exact Hstep|]. split; [exact Hr|].
    split; [|apply is_state_eq; exact Hret].
    destruct (map (@n float) (t_compute_calls r)) as [|p [|]];
      try discriminate.
    apply pair_eqb_eq in Hcalls. congruence.
  - destruct (accumulating_step_check P10 E qsort 61 (repeat zeros 220) zeros
                (fun ctx' s =>
                   match reported s with
                   | Some r =>
                       match map (@n float) (t_compute_calls r),
                             output r with
                       | [p; q], Statistics _ t tau d =>
                           pair_eqb p (11000, 0)%float
                           && pair_eqb q (11000, 0)%float
                           && PrimFloat.Leibniz.eqb t nan
                           && PrimFloat.Leibniz.eqb tau nan
                           && PrimFloat.Leibniz.eqb d nan
                       | _, _ => false
                       end
                   | None => false
                   end
                   && gate E (max_test P10 E ctx')
                   && PrimFloat.Leibniz.eqb (t_compute (max_test P10 E ctx')) nan
                   && is_state (ret s) DUDECT_NO_LEAKAGE_EVIDENCE_YET))
      as (ctx' & s & Hstep & Hcheck); [vm_compute; reflexivity|].
    apply andb_true_iff in Hcheck as [Hcheck Hret].
    apply andb_true_iff in Hcheck as [Hcheck Hnan].
    apply andb_true_iff in Hcheck as [Hrep Hgate].
    destruct (reported s) as [r|] eqn:Hr; [|discriminate].
    destruct (map (@n float) (t_compute_calls r)) as [|p [|q [|]]] eqn:Hcalls;
      try discriminate.
    destruct (output r) as [|meas t tau d] eqn:Hout; [discriminate|].
    apply andb_true_iff in Hrep as [Hrep Hd].
    apply andb_true_iff in Hrep as [Hrep Htau].
    apply andb_true_iff in Hrep as [Hrep Ht].
    apply andb_true_iff in Hrep as [Hp Hq].
    apply pair_eqb_eq in Hp, Hq.
    apply FloatAxioms.Leibniz.eqb_spec in Hd, Htau, Ht, Hnan.
    exists ctx', s, r, meas. split; [exact Hstep|]. split; [exact Hr|].
    split; [congruence|]. split; [exact Hgate|]. split; [exact Hnan|].
    split; [congruence | apply is_state_eq; exact Hret].
Qed.

(** C10, witness: the last of ten thresholds on a batch of 150, with a
    [pow] that is exact on the integral exponent 10: the quantile is
    [1 - 2^-10] and the position 149. *)
Lemma calibration_in_bounds_witness :
  (@quantile float Reference.ops 10 9 <? 1)%float = true
  /\ IEEE.to_size_t
       (IEEE.of_Z (Z.of_nat 150) * @quantile float Reference.ops 10 9)%float
     = Some 149%Z
  /\ exists array_position,
       IEEE.to_size_t
         (IEEE.of_Z (Z.of_nat 150) * @quantile float Reference.ops 10 9)%float
       = Some array_position
       /\ (0 <= array_position < Z.of_nat 150)%Z.
Proof.
  destruct (calibration_in_bounds IEEE.pow_intexp 10 150 9)
    as (Hq & pos & Hcast & Hpos & _).
  - lia.
  - vm_compute. reflexivity.
  - vm_compute. reflexivity.
  - vm_compute. reflexivity.
  - split; [exact Hq|]. split; [vm_compute; reflexivity|].
    exists pos. split; [exact Hcast | exact Hpos].
Defined.

(** The range asked of [pow] is needed: with a [pow] that returns 0 the
    quantile is 1, the position is the size, and the bounds assertion of
    [percentile] fails. *)
Lemma percentile_fails_when_pow_underflows :
  @percentile float (IEEE.ops (fun _ _ => 0%float)) qsort
    [5; 3; 4]%Z (@quantile float (IEEE.ops (fun _ _ => 0%float)) 10 0) 3
  = None.
Proof. vm_compute. reflexivity. Qed.

End ConcreteRuns.
(** * Wrap-around: the comparison function, the cycle counter, the deltas *)

Section WrapAround.

Local Open Scope Z_scope.

Lemma wrap64_mod z : wrap64 z = (z + 2 ^ 63) mod 2 ^ 64 - 2 ^ 63.
Proof.
  unfold wrap64. change 18446744073709551615 with (Z.ones 64).
  rewrite Z.land_ones by lia. reflexivity.
Qed.

Lemma wrap32_mod z : wrap32 z = (z + 2 ^ 31) mod 2 ^ 32 - 2 ^ 31.
Proof.
  unfold wrap32. change 4294967295 with (Z.ones 32).
  rewrite Z.land_ones by lia. reflexivity.
Qed.

Lemma wrap64_small z : - 2 ^ 63 <= z < 2 ^ 63 -> wrap64 z = z.
Proof. intros H. rewrite wrap64_mod, Z.mod_small; lia. Qed.

Lemma wrap32_small z : - 2 ^ 31 <= z < 2 ^ 31 -> wrap32 z = z.
Proof. intros H. rewrite wrap32_mod, Z.mod_small; lia. Qed.

Lemma wrap64_range z : - 2 ^ 63 <= wrap64 z < 2 ^ 63.
Proof.
  rewrite wrap64_mod. pose proof (Z.mod_pos_bound (z + 2 ^ 63) (2 ^ 64)). lia.
Qed.

Lemma wrap64_shift z k : wrap64 (z + k * 2 ^ 64) = wrap64 z.
Proof.
  rewrite !wrap64_mod. replace (z + k * 2 ^ 64 + 2 ^ 63)
    with (z + 2 ^ 63 + k * 2 ^ 64) by ring.
  rewrite Z.mod_add by lia. reflexivity.
Qed.

Lemma wrap64_decompose z : exists k, wrap64 z = z + k * 2 ^ 64.
Proof.
  exists (- ((z + 2 ^ 63) / 2 ^ 64)). rewrite wrap64_mod.
  rewrite Z.mod_eq by lia. ring.
Qed.

Lemma cmp_small (a b : Z) : - 2 ^ 31 <= a - b < 2 ^ 31 -> cmp a b = a - b.
Proof.
  intros H. unfold cmp. rewrite wrap64_small by lia. apply wrap32_small.
  exact H.
Qed.

(** X1: [cmp] is the difference itself as long as the difference fits an
    [int]; it then orders its arguments as the integers they are. *)
Theorem cmp_exact_within_int (a b : Z) :
  - 2 ^ 31 <= a - b < 2 ^ 31 ->
  cmp a b = a - b
  /\ (cmp a b < 0 <-> a < b) /\ (cmp a b = 0 <-> a = b).
Proof.
  intros H. rewrite (cmp_small a b H). lia.
Qed.

(** X1, witness: two deltas 2^31 - 1 apart. *)
Lemma cmp_exact_within_int_witness :
  cmp 100 2147483747 = 100 - 2147483747
  /\ (cmp 100 2147483747 < 0 <-> 100 < 2147483747)
  /\ (cmp 100 2147483747 = 0 <-> 100 = 2147483747).
Proof. apply (cmp_exact_within_int 100 2147483747). lia. Defined.

Lemma wrap64_diff c d :
  wrap64 (wrap64 (c + d) - c) = wrap64 d.
Proof.
  destruct (wrap64_decompose (c + d)) as [k ->].
  replace (c + d + k * 2 ^ 64 - c) with (d + k * 2 ^ 64) by ring.
  apply wrap64_shift.
Qed.

End WrapAround.

Section Counter.

Local Open Scope Z_scope.

Lemma low_bits_zero lo n : 0 <= lo < 2 ^ 32 -> 32 <= n -> Z.testbit lo n = false.
Proof.
  intros Hlo Hn. replace lo with (lo mod 2 ^ 32) by (apply Z.mod_small; lia).
  apply Z.mod_pow2_bits_high. lia.
Qed.

Lemma lor_halves lo h : 0 <= lo < 2 ^ 32 -> Z.lor lo (Z.shiftl h 32) = lo + h * 2 ^ 32.
Proof.
  intros Hlo.
  assert (Hand : Z.land lo (Z.shiftl h 32) = 0).
  { apply Z.bits_inj'. intros n Hn. rewrite Z.land_spec, Z.bits_0.
    destruct (Z.lt_ge_cases n 32).
    - rewrite Z.shiftl_spec_low by lia. apply andb_false_r.
    - rewrite (low_bits_zero lo n) by lia. reflexivity. }
  rewrite <- Z.lxor_lor by exact Hand.
  rewrite <- Z.add_nocarry_lxor by exact Hand.
  rewrite Z.shiftl_mul_pow2 by lia. reflexivity.
Qed.

Lemma wrap64_high_half hi :
  0 <= hi < 2 ^ 32 -> wrap64 (Z.shiftl hi 32) = Z.shiftl (wrap32 hi) 32.
Proof.
  intros Hhi. rewrite !Z.shiftl_mul_pow2 by lia.
  destruct (Z.lt_ge_cases hi (2 ^ 31)).
  - rewrite wrap32_small by lia. apply wrap64_small. lia.
  - rewrite <- (wrap64_shift _ (-1)). rewrite wrap64_small by lia.
    rewrite wrap32_mod. replace (hi + 2 ^ 31) with (hi - 2 ^ 31 + 1 * 2 ^ 32) by ring.
    rewrite Z.mod_add by lia. rewrite Z.mod_small by lia. ring.
Qed.

(** X2: [cpucycles] puts the two halves of the counter together without loss:
    the result is the 64-bit counter read as an [int64_t], and both halves
    can be read back from it. *)
Theorem cpucycles_halves (lo hi : Z) :
  0 <= lo < 2 ^ 32 -> 0 <= hi < 2 ^ 32 ->
  cpucycles lo hi = wrap64 (lo + hi * 2 ^ 32)
  /\ Z.land (cpucycles lo hi) (Z.ones 32) = lo
  /\ Z.land (Z.shiftr (cpucycles lo hi) 32) (Z.ones 32) = hi.
Proof.
  intros Hlo Hhi. unfold cpucycles.
  rewrite wrap64_high_half by exact Hhi.
  rewrite lor_halves by exact Hlo.
  assert (Hw : wrap32 hi = hi \/ wrap32 hi = hi - 2 ^ 32).
  { rewrite wrap32_mod. destruct (Z.lt_ge_cases hi (2 ^ 31)).
    - left. rewrite Z.mod_small by lia. lia.
    - right. replace (hi + 2 ^ 31) with (hi - 2 ^ 31 + 1 * 2 ^ 32) by ring.
      rewrite Z.mod_add by lia. rewrite Z.mod_small by lia. ring. }
  split; [|split].
  - destruct Hw as [Hw | Hw]; rewrite Hw.
    + destruct (Z.lt_ge_cases hi (2 ^ 31)).
      * symmetry. apply wrap64_small. lia.
      * exfalso. rewrite wrap32_mod in Hw.
        replace (hi + 2 ^ 31) with (hi - 2 ^ 31 + 1 * 2 ^ 32) in Hw by ring.
        rewrite Z.mod_add, Z.mod_small in Hw by lia. lia.
    + destruct (Z.lt_ge_cases hi (2 ^ 31)).
      * exfalso. rewrite wrap32_small in Hw by lia. lia.
      * rewrite <- (wrap64_shift (lo + hi * 2 ^ 32) (-1)).
        rewrite wrap64_small by lia. ring.
  - rewrite Z.land_ones by lia.
    rewrite Z.mod_add by lia. apply Z.mod_small. exact Hlo.
  - rewrite Z.shiftr_div_pow2 by lia. rewrite Z.div_add by lia.
    rewrite Z.div_small by lia. rewrite Z.land_ones by lia.
    destruct Hw as [-> | ->].
    + apply Z.mod_small. lia.
    + replace (0 + (hi - 2 ^ 32)) with (hi + (-1) * 2 ^ 32) by ring.
      rewrite Z.mod_add by lia. apply Z.mod_small. lia.
Qed.

(** X2, witness: a counter whose high half has its top bit set. *)
Lemma cpucycles_halves_witness :
  cpucycles 4294967295 2147483648 = wrap64 (4294967295 + 2147483648 * 2 ^ 32)
  /\ Z.land (cpucycles 4294967295 2147483648) (Z.ones 32) = 4294967295
  /\ Z.land (Z.shiftr (cpucycles 4294967295 2147483648) 32) (Z.ones 32)
     = 2147483648.
Proof. apply (cpucycles_halves 4294967295 2147483648); lia. Defined.

End Counter.

Section MeasuredDeltas.

Context {D : Type} {ops : DoubleOps D}.

Local Open Scope Z_scope.

Lemma nth_map_seq (A : Type) (f : nat -> A) (n i : nat) (d : A) :
  (i < n)%nat -> nth i (map f (seq 0 n)) d = f i.
Proof.
  intros Hi. rewrite (nth_indep _ d (f 0%nat)) by (rewrite length_map, length_seq; exact Hi).
  rewrite map_nth. rewrite seq_nth by exact Hi. reflexivity.
Qed.

Lemma measure_delta (ctx : dudect_ctx_t D) (b : batch) (i : nat) :
  (i + 1 < number_measurements ctx)%nat ->
  nth i (exec_times (measure ctx b)) 0
  = wrap64 (nth (i + 1) (cycles b) 0 - nth i (cycles b) 0).
Proof.
  intros Hi. unfold measure. cbn [exec_times].
  rewrite app_nth1 by (rewrite length_map, length_seq; lia).
  rewrite nth_map_seq by lia.
  rewrite !nth_map_seq by lia. reflexivity.
Qed.

(** X3: [measure] and a counter that wraps around: when the counter read [c] at
    trial [i] and has advanced by [d] cycles at trial [i+1], wrapping around
    the [int64_t] range if it must, the delta of trial [i] is [d] itself as
    long as [d] is below 2^63, and negative from there on. *)
Theorem measure_delta_across_wrap (ctx : dudect_ctx_t D) (b : batch)
  (i : nat) (c d : Z) :
  (i + 1 < number_measurements ctx)%nat ->
  - 2 ^ 63 <= c < 2 ^ 63 ->
  0 <= d < 2 ^ 64 ->
  nth i (cycles b) 0 = c ->
  nth (i + 1) (cycles b) 0 = wrap64 (c + d) ->
  nth i (exec_times (measure ctx b)) 0
  = if d <? 2 ^ 63 then d else d - 2 ^ 64.
Proof.
  intros Hi Hc Hd Hci Hnext. rewrite measure_delta by exact Hi.
  rewrite Hci, Hnext, wrap64_diff.
  destruct (Z.ltb_spec d (2 ^ 63)).
  - apply wrap64_small. lia.
  - rewrite <- (wrap64_shift d (-1)). apply wrap64_small. lia.
Qed.

End MeasuredDeltas.

(** X3, witness: the counter passes the top of the [int64_t] range between
    the second and the third trial. *)
Lemma measure_delta_across_wrap_witness :
  nth 1 (exec_times
           (measure (dudect_init (ops := Reference.ops) 10 3)
              {| labels := [0; 1; 0]%Z;
                 cycles := [0; 9223372036854775800; -9223372036854775796]%Z |}))
      0%Z = 20%Z.
Proof.
  apply (measure_delta_across_wrap
           (dudect_init (ops := Reference.ops) 10 3)
           {| labels := [0; 1; 0]%Z;
              cycles := [0; 9223372036854775800; -9223372036854775796]%Z |}
           1 9223372036854775800 20).
  - simpl. lia.
  - lia.
  - lia.
  - reflexivity.
  - vm_compute. reflexivity.
Defined.

(** * The thresholds of the calibrator *)

Section CalibratedThresholds.

Context {D : Type} {ops : DoubleOps D}.
Variable P : nat.
Variable qsort : (Z -> Z -> Z) -> list Z -> list Z.

Hypothesis qsort_permutes : forall l, Permutation l (qsort cmp l).

Lemma percentile_reads a which size r :
  length a = size -> (0 < size)%nat ->
  percentile qsort a which size = Some r ->
  snd r = qsort cmp a
  /\ exists pos,
       d_to_size_t (d_of_Z (Z.of_nat size) * which)%D = Some pos
       /\ (Z.to_nat pos < size)%nat
       /\ fst r = nth (Z.to_nat pos) (qsort cmp a) 0%Z.
Proof.
  intros Hlen Hsize. unfold percentile.
  rewrite <- Hlen, firstn_all, skipn_all, app_nil_r.
  destruct (d_to_size_t _) as [pos|]; [|discriminate]. cbn [bind].
  destruct (Z.ltb_spec pos (Z.of_nat (length a))); [|discriminate].
  intros [= <-]. split; [reflexivity|]. exists pos.
  split; [reflexivity|]. split; [lia | reflexivity].
Qed.

(** The loop of [prepare_percentiles] over the indices [idx]: the buffer is
    permuted, and the threshold of each index is read from a sorted copy of
    the buffer at the position of its quantile. *)
Lemma calibrate_loop idx :
  forall ctx ctx' : dudect_ctx_t D,
  length (exec_times ctx) = number_measurements ctx ->
  (0 < number_measurements ctx)%nat ->
  for_each
    (fun c i =>
       r <- percentile qsort (exec_times c) (quantile P i)
              (number_measurements c) ;;
       Some {| number_measurements := number_measurements c;
               ticks := ticks c;
               exec_times := snd r;
               classes := classes c;
               ttest_ctxs := ttest_ctxs c;
               percentiles := list_set i (fst r) (percentiles c) |})
    idx ctx = Some ctx' ->
  Permutation (exec_times ctx) (exec_times ctx')
  /\ length (percentiles ctx') = length (percentiles ctx)
  /\ forall i,
       (In i idx -> (i < length (percentiles ctx))%nat ->
        exists b pos,
          Permutation (exec_times ctx) b
          /\ d_to_size_t (d_of_Z (Z.of_nat (number_measurements ctx))
                          * quantile P i)%D = Some pos
          /\ (Z.to_nat pos < number_measurements ctx)%nat
          /\ nth i (percentiles ctx') 0%Z = nth (Z.to_nat pos) (qsort cmp b) 0%Z)
       /\ (~ In i idx ->
           nth i (percentiles ctx') 0%Z = nth i (percentiles ctx) 0%Z).
Proof.
  induction idx as [|k idx IH]; intros ctx ctx' Hlen HN Hrun.
  - injection Hrun as <-. split; [apply Permutation_refl|].
    split; [reflexivity|]. intros i. split; [intros []|reflexivity].
  - cbn [for_each] in Hrun.
    destruct (percentile qsort (exec_times ctx) (quantile P k)
                (number_measurements ctx)) as [r|] eqn:Hp; [|discriminate].
    cbn [bind] in Hrun.
    destruct (percentile_reads _ _ _ _ Hlen HN Hp)
      as (Hsnd & pos & Hpos & Hin & Hfst).
    assert (Hperm1 : Permutation (exec_times ctx) (snd r))
      by (rewrite Hsnd; apply qsort_permutes).
    apply IH in Hrun; cbn [number_measurements exec_times percentiles] in *.
    2:{ rewrite <- (Permutation_length Hperm1). exact Hlen. }
    2:{ exact HN. }
    destruct Hrun as (Hperm2 & Hlenp & Hidx).
    split; [eapply Permutation_trans; eassumption|].
    split; [rewrite Hlenp; apply length_list_set|].
    intros i. split.
    + intros Hi Hil.
      destruct (in_dec Nat.eq_dec i idx) as [Hin_idx | Hnotin].
      * destruct (proj1 (Hidx i) Hin_idx) as (b & pos' & Hb & Hpos' & Hlt & Hread).
        { rewrite length_list_set. exact Hil. }
        exists b, pos'. split; [eapply Permutation_trans; eassumption|].
        repeat split; assumption.
      * destruct Hi as [<- | Hi]; [|contradiction].
        exists (exec_times ctx), pos. split; [apply Permutation_refl|].
        split; [exact Hpos|]. split; [exact Hin|].
        rewrite (proj2 (Hidx k) Hnotin).
        rewrite nth_list_set_eq by exact Hil. exact Hfst.
    + intros Hnotin.
      assert (i <> k) by (intros ->; apply Hnotin; left; reflexivity).
      rewrite (proj2 (Hidx i)) by (intros Hi; apply Hnotin; right; exact Hi).
      apply nth_list_set_neq. congruence.
Qed.

(** X4: calibration reads its thresholds out of the batch: each threshold is one
    of the values of the buffer of deltas, and the buffer comes out
    permuted. *)
Theorem thresholds_are_batch_values (ctx ctx' : dudect_ctx_t D) :
  length (exec_times ctx) = number_measurements ctx ->
  (0 < number_measurements ctx)%nat ->
  length (percentiles ctx) = P ->
  prepare_percentiles P qsort ctx = Some ctx' ->
  Permutation (exec_times ctx) (exec_times ctx')
  /\ forall i, (i < P)%nat ->
       In (nth i (percentiles ctx') 0%Z) (exec_times ctx).
Proof.
  intros Hlen HN HP Hrun. unfold prepare_percentiles in Hrun.
  destruct (calibrate_loop _ _ _ Hlen HN Hrun) as (Hperm & _ & Hidx).
  split; [exact Hperm|]. intros i Hi.
  destruct (proj1 (Hidx i)) as (b & pos & Hb & _ & Hlt & ->).
  - apply in_seq. lia.
  - lia.
  - apply (Permutation_in _ (Permutation_sym (Permutation_trans Hb (qsort_permutes b)))).
    apply nth_In. rewrite <- (Permutation_length (qsort_permutes b)).
    rewrite <- (Permutation_length Hb). lia.
Qed.

End CalibratedThresholds.

Section SortedBuffers.

Local Open Scope Z_scope.

Lemma sorted_unique (l1 : list Z) :
  forall l2, StronglySorted Z.le l1 -> StronglySorted Z.le l2 ->
  Permutation l1 l2 -> l1 = l2.
Proof.
  induction l1 as [|h1 t1 IH]; intros l2 H1 H2 Hperm.
  - apply Permutation_nil in Hperm. congruence.
  - destruct l2 as [|h2 t2].
    { apply Permutation_sym, Permutation_nil in Hperm. discriminate. }
    apply StronglySorted_inv in H1 as [Ht1 Hh1].
    apply StronglySorted_inv in H2 as [Ht2 Hh2].
    assert (h1 = h2).
    { assert (In h2 (h1 :: t1))
        by (apply (Permutation_in _ (Permutation_sym Hperm)); left; reflexivity).
      assert (In h1 (h2 :: t2))
        by (apply (Permutation_in _ Hperm); left; reflexivity).
      rewrite Forall_forall in Hh1, Hh2.
      assert (h1 <= h2) by (destruct H as [->|H]; [lia | apply Hh1; exact H]).
      assert (h2 <= h1) by (destruct H0 as [->|H0]; [lia | apply Hh2; exact H0]).
      lia. }
    subst h2. f_equal. apply IH; try assumption.
    apply Permutation_cons_inv in Hperm. exact Hperm.
Qed.

Lemma sorted_nth_le (l : list Z) :
  StronglySorted Z.le l ->
  forall i j, (i <= j)%nat -> (j < length l)%nat -> nth i l 0 <= nth j l 0.
Proof.
  induction 1 as [|h t Ht IH Hh]; intros i j Hij Hj; [inversion Hj|].
  destruct i as [|i], j as [|j]; cbn [nth length] in *; try lia.
  - rewrite Forall_forall in Hh. apply Hh. apply nth_In. lia.
  - apply IH; lia.
Qed.

Lemma within_int_perm l l' : Permutation l l' -> within_int l -> within_int l'.
Proof.
  intros Hperm Hw x y Hx Hy.
  apply Hw; apply (Permutation_in _ (Permutation_sym Hperm)); assumption.
Qed.

Lemma cmp_sorted_ascending (l : list Z) :
  within_int l ->
  StronglySorted (fun a b => cmp a b <= 0) l -> StronglySorted Z.le l.
Proof.
  intros Hw Hs. induction Hs as [|h t Ht IH Hh]; constructor.
  - apply IH. intros x y Hx Hy. apply Hw; right; assumption.
  - rewrite Forall_forall in *. intros x Hx.
    assert (Hd : - 2 ^ 31 <= h - x < 2 ^ 31).
    { pose proof (Hw h x (or_introl eq_refl) (or_intror Hx)).
      pose proof (Hw x h (or_intror Hx) (or_introl eq_refl)). lia. }
    pose proof (Hh x Hx) as Hc.
    rewrite (cmp_small h x Hd) in Hc. lia.
Qed.

End SortedBuffers.

Section QuantileSchedule.

Local Open Scope R_scope.

Lemma Rpower_half_decreasing x y : x <= y -> Rpower (/ 2) y <= Rpower (/ 2) x.
Proof.
  intros Hxy. unfold Rpower.
  assert (Hln : ln (/ 2) < 0).
  { rewrite ln_Rinv by lra.
    assert (0 < ln 2) by (rewrite <- ln_1; apply ln_increasing; lra). lra. }
  destruct (Req_dec x y) as [->|Hne]; [lra|].
  left. apply exp_increasing. nra.
Qed.

Lemma quantile_monotone P i j :
  (i <= j)%nat -> (j < P)%nat ->
  @quantile R Exact.ops P i <= @quantile R Exact.ops P j.
Proof.
  intros Hij Hj. unfold quantile.
  cbn [d_of_Z d_half d_pow d_sub d_mul d_div Exact.ops].
  assert (HP : 0 < IZR (Z.of_nat P)) by (apply IZR_lt; lia).
  assert (Hle : IZR (Z.of_nat (i + 1)) <= IZR (Z.of_nat (j + 1)))
    by (apply IZR_le; lia).
  assert (10 * IZR (Z.of_nat (i + 1)) / IZR (Z.of_nat P)
          <= 10 * IZR (Z.of_nat (j + 1)) / IZR (Z.of_nat P)).
  { unfold Rdiv. apply Rmult_le_compat_r.
    - left. apply Rinv_0_lt_compat. exact HP.
    - lra. }
  pose proof (Rpower_half_decreasing _ _ H). lra.
Qed.

(** The position [percentile] reads for threshold [i], over the reals. *)
Lemma exact_position P S i :
  (1 <= S)%nat -> (i < P)%nat ->
  @d_to_size_t R Exact.ops
     (@d_mul R Exact.ops (@d_of_Z R Exact.ops (Z.of_nat S))
        (@quantile R Exact.ops P i))
  = Some (Zfloor (IZR (Z.of_nat S) * @quantile R Exact.ops P i))
  /\ (0 <= Zfloor (IZR (Z.of_nat S) * @quantile R Exact.ops P i)
      < Z.of_nat S)%Z.
Proof.
  intros HS Hi. destruct (quantile_range P i Hi) as [Hq0 Hq1].
  set (q := @quantile R Exact.ops P i) in *.
  assert (HSr : 1 <= IZR (Z.of_nat S)) by (apply IZR_le; lia).
  assert (Hx : 0 <= IZR (Z.of_nat S) * q < IZR (Z.of_nat S)) by nra.
  assert (Hfl : (0 <= Zfloor (IZR (Z.of_nat S) * q) < Z.of_nat S)%Z).
  { pose proof (Zfloor_bound (IZR (Z.of_nat S) * q)) as [Hlo Hhi]. split.
    - apply Zfloor_lub. simpl. lra.
    - apply lt_IZR. lra. }
  split; [|exact Hfl].
  cbn [d_to_size_t d_of_Z d_mul Exact.ops]. unfold Exact.to_size_t.
  destruct (Rlt_dec (-1) (IZR (Z.of_nat S) * q)); [|lra].
  rewrite Z.max_r by lia. reflexivity.
Qed.

Lemma exact_positions_ok P S :
  (1 <= S)%nat -> @positions_ok R Exact.ops P S = true.
Proof.
  intros HS. unfold positions_ok. apply forallb_forall. intros i Hi.
  apply in_seq in Hi.
  destruct (exact_position P S i HS ltac:(lia)) as [-> Hb].
  apply Z.ltb_lt. lia.
Qed.

Lemma exact_position_monotone P S i j :
  (1 <= S)%nat -> (i <= j)%nat -> (j < P)%nat ->
  (Zfloor (IZR (Z.of_nat S) * @quantile R Exact.ops P i)
   <= Zfloor (IZR (Z.of_nat S) * @quantile R Exact.ops P j))%Z.
Proof.
  intros HS Hij Hj. apply Zfloor_le.
  apply Rmult_le_compat_l; [apply IZR_le; lia|].
  apply quantile_monotone; assumption.
Qed.

End QuantileSchedule.

Section AscendingThresholds.

Variable P : nat.
Variable qsort : (Z -> Z -> Z) -> list Z -> list Z.

Local Existing Instance Exact.ops.

(** X5: over the reals, when the values of the buffer differ by less than 2^31,
    so that [cmp] sees every difference as it is, and [qsort] returns a
    permutation that its comparison function calls sorted, calibration runs
    to its end and the thresholds it stores are in ascending order. *)
Theorem thresholds_ascend_within_int (ctx : dudect_ctx_t R) :
  (forall l, Permutation l (qsort cmp l)) ->
  (forall l, within_int l ->
             StronglySorted (fun a b => (cmp a b <= 0)%Z) (qsort cmp l)) ->
  length (exec_times ctx) = number_measurements ctx ->
  (0 < number_measurements ctx)%nat ->
  length (percentiles ctx) = P ->
  within_int (exec_times ctx) ->
  exists ctx',
    prepare_percentiles P qsort ctx = Some ctx'
    /\ forall i j, (i <= j)%nat -> (j < P)%nat ->
         (nth i (percentiles ctx') 0 <= nth j (percentiles ctx') 0)%Z.
Proof.
  intros Hperm Hsort Hlen HN HP Hw.
  destruct (prepare_percentiles_total P qsort (seq 0 P) ctx) as (ctx' & Hrun & _).
  { apply (exact_positions_ok P (number_measurements ctx)). lia. }
  exists ctx'. split; [exact Hrun|].
  set (srt := qsort cmp (exec_times ctx)).
  assert (Hsrt : forall b, Permutation (exec_times ctx) b -> qsort cmp b = srt).
  { intros b Hb. apply sorted_unique.
    - apply cmp_sorted_ascending.
      + apply (within_int_perm b); [apply Hperm|].
        apply (within_int_perm (exec_times ctx)); assumption.
      + apply Hsort. apply (within_int_perm (exec_times ctx)); assumption.
    - apply cmp_sorted_ascending.
      + apply (within_int_perm (exec_times ctx)); [apply Hperm | exact Hw].
      + apply Hsort. exact Hw.
    - eapply Permutation_trans; [apply Permutation_sym, Hperm|].
      eapply Permutation_trans; [apply Permutation_sym, Hb|]. apply Hperm. }
  assert (Hsorted : StronglySorted Z.le srt).
  { apply cmp_sorted_ascending.
    - apply (within_int_perm (exec_times ctx)); [apply Hperm | exact Hw].
    - apply Hsort. exact Hw. }
  destruct (calibrate_loop P qsort Hperm _ _ _ Hlen HN Hrun) as (Hperm' & _ & Hidx).
  assert (Hread : forall i, (i < P)%nat ->
            nth i (percentiles ctx') 0%Z
            = nth (Z.to_nat (Zfloor (IZR (Z.of_nat (number_measurements ctx))
                                     * @quantile R Exact.ops P i))) srt 0%Z).
  { intros i Hi.
    destruct (proj1 (Hidx i)) as (b & pos & Hb & Hpos & _ & ->).
    - apply in_seq. lia.
    - lia.
    - rewrite (Hsrt b Hb).
      destruct (exact_position P (number_measurements ctx) i ltac:(lia) Hi)
        as [Hpos' _].
      rewrite Hpos' in Hpos. injection Hpos as <-. reflexivity. }
  intros i j Hij Hj. rewrite !Hread by lia.
  destruct (exact_position P (number_measurements ctx) j ltac:(lia) Hj)
    as [_ Hbj].
  destruct (exact_position P (number_measurements ctx) i ltac:(lia) ltac:(lia))
    as [_ Hbi].
  pose proof (exact_position_monotone P (number_measurements ctx) i j
                ltac:(lia) Hij Hj).
  apply sorted_nth_le; [exact Hsorted| lia |].
  unfold srt. rewrite <- (Permutation_length (Hperm _)). lia.
Qed.

End AscendingThresholds.

Section ReferenceSort.

Import Reference.
Local Open Scope Z_scope.

Lemma insert_permutes c x l : Permutation (x :: l) (insert c x l).
Proof.
  induction l as [|y t IH]; cbn [insert]; [apply Permutation_refl|].
  destruct (c x y <=? 0); [apply Permutation_refl|].
  eapply Permutation_trans; [apply perm_swap|]. apply perm_skip. exact IH.
Qed.

Lemma reference_qsort_permutes c l : Permutation l (qsort c l).
Proof.
  induction l as [|x t IH]; cbn [qsort fold_right]; [apply Permutation_refl|].
  eapply Permutation_trans; [apply perm_skip; exact IH|].
  apply insert_permutes.
Qed.

Lemma insert_ascending x l :
  within_int (x :: l) -> StronglySorted Z.le l ->
  StronglySorted Z.le (insert cmp x l).
Proof.
  intros Hw Hs. induction Hs as [|y t Ht IH Hy]; cbn [insert].
  - repeat constructor.
  - assert (Hd : - 2 ^ 31 <= x - y < 2 ^ 31).
    { pose proof (Hw x y ltac:(simpl; auto) ltac:(simpl; auto)).
      pose proof (Hw y x ltac:(simpl; auto) ltac:(simpl; auto)). lia. }
    rewrite (cmp_small x y Hd).
    destruct (Z.leb_spec (x - y) 0).
    + constructor; [constructor; assumption|].
      constructor; [lia|]. rewrite Forall_forall in *.
      intros z Hz. specialize (Hy z Hz). lia.
    + constructor.
      * apply IH. intros a b Ha Hb. apply Hw; simpl in *; tauto.
      * rewrite Forall_forall in *. intros z Hz.
        apply (Permutation_in _ (Permutation_sym (insert_permutes cmp x t))) in Hz.
        destruct Hz as [<-|Hz]; [lia | apply Hy; exact Hz].
Qed.

Lemma ascending_cmp_sorted l :
  within_int l -> StronglySorted Z.le l ->
  StronglySorted (fun a b => cmp a b <= 0) l.
Proof.
  intros Hw Hs. induction Hs as [|h t Ht IH Hh]; constructor.
  - apply IH. intros x y Hx Hy. apply Hw; right; assumption.
  - rewrite Forall_forall in *. intros x Hx.
    assert (Hd : - 2 ^ 31 <= h - x < 2 ^ 31).
    { pose proof (Hw h x (or_introl eq_refl) (or_intror Hx)).
      pose proof (Hw x h (or_intror Hx) (or_introl eq_refl)). lia. }
    rewrite (cmp_small h x Hd). specialize (Hh x Hx). lia.
Qed.

Lemma reference_qsort_ascending l :
  within_int l -> StronglySorted Z.le (qsort cmp l).
Proof.
  induction l as [|x t IH]; intros Hw; cbn [qsort fold_right]; [constructor|].
  apply insert_ascending.
  - apply (within_int_perm (x :: t)); [|exact Hw].
    apply perm_skip. apply reference_qsort_permutes.
  - apply IH. intros a b Ha Hb. apply Hw; right; assumption.
Qed.

Lemma reference_qsort_sorts l :
  within_int l -> StronglySorted (fun a b => cmp a b <= 0) (qsort cmp l).
Proof.
  intros Hw. apply ascending_cmp_sorted.
  - apply (within_int_perm l); [apply reference_qsort_permutes | exact Hw].
  - apply reference_qsort_ascending. exact Hw.
Qed.

(** X5, witness: the reference sort on a batch of five trials. *)
Lemma thresholds_ascend_within_int_witness :
  let ctx := @measure R (@prepare R (@dudect_init R Exact.ops 10 5) moving)
               {| labels := []; cycles := [0; 40; 50; 80; 100] |} in
  exists ctx',
    @prepare_percentiles R Exact.ops 10 qsort ctx = Some ctx'
    /\ forall i j, (i <= j)%nat -> (j < 10)%nat ->
         (nth i (percentiles ctx') 0 <= nth j (percentiles ctx') 0)%Z.
Proof.
  apply (thresholds_ascend_within_int 10 qsort).
  - apply reference_qsort_permutes.
  - apply reference_qsort_sorts.
  - reflexivity.
  - simpl. lia.
  - reflexivity.
  - intros x y Hx Hy. vm_compute in Hx, Hy.
    repeat (destruct Hx as [<-|Hx]; [repeat (destruct Hy as [<-|Hy]; [lia|]); destruct Hy|]).
    destruct Hx.
Defined.

(** X4, witness: the calibrating call on a batch of three trials. *)
Lemma thresholds_are_batch_values_witness :
  let ctx := measure (prepare (init 3) moving) moving in
  let ctx' := fst (after_main (init 3) moving) in
  Permutation (exec_times ctx) (exec_times ctx')
  /\ forall i, (i < 10)%nat -> In (nth i (percentiles ctx') 0%Z) (exec_times ctx).
Proof.
  apply (thresholds_are_batch_values (ops := Reference.ops) 10 qsort).
  - intros l. apply reference_qsort_permutes.
  - reflexivity.
  - simpl. lia.
  - reflexivity.
  - vm_compute. reflexivity.
Defined.

End ReferenceSort.

(** * The assertion of the updater *)

Section UpdaterAssertion.

Context {D : Type} {ops : DoubleOps D}.
Variable P : nat.

Lemma update_loop_aborts idx :
  forall ctx : dudect_ctx_t D,
  length (ttest_ctxs ctx) = DUDECT_TESTS P ->
  Exists (fun p => valid_class (snd p) = false) (retained_at ctx idx) ->
  for_each (update_one P) idx ctx = None.
Proof.
  induction idx as [|i idx IH]; intros ctx Hwf Hbad.
  - inversion Hbad.
  - rewrite retained_at_cons in Hbad. cbn [for_each].
    destruct (Z.leb_spec 0 (nth i (exec_times ctx) 0%Z)) as [Hpos|Hneg].
    + destruct (valid_class (nth i (classes ctx) 0%Z)) eqn:Hc.
      * destruct (update_one_retained P ctx i Hwf Hpos Hc)
          as (ctx1 & Hone & Hbuf1 & Hwf1 & _).
        rewrite Hone. cbn [bind]. apply IH; [exact Hwf1|].
        rewrite <- (retained_at_same ctx ctx1 idx Hbuf1).
        inversion Hbad as [p l Hp | p l Hl]; subst; [|exact Hl].
        cbn [snd] in Hp. congruence.
      * rewrite (update_one_abort P ctx i Hpos Hc). reflexivity.
    + rewrite (update_one_skipped P ctx i Hneg). cbn [bind].
      apply IH; assumption.
Qed.

(** X6: the two ways [update_statistics] fails. With no measurement the
    bound [number_measurements - 1] of its loop wraps around and the loop
    runs off the buffers. With one measurement or more it fails exactly when
    it hits the assertion of [t_push]: when one of the retained deltas (not
    negative, at an index from 10 to [number_measurements - 2]) carries a
    class label other than 0 or 1. A bad label on a warm-up or a negative
    delta goes unnoticed. *)
Theorem update_statistics_aborts_iff (ctx : dudect_ctx_t D) :
  length (ttest_ctxs ctx) = DUDECT_TESTS P ->
  update_statistics P ctx = None
  <-> number_measurements ctx = 0
      \/ Exists (fun p => valid_class (snd p) = false) (retained ctx).
Proof.
  intros Hwf.
  destruct (Nat.eq_dec (number_measurements ctx) 0) as [H0|Hpos].
  { split; [intros _; left; exact H0|].
    intros _. apply update_statistics_none. exact H0. }
  rewrite (update_statistics_unfold P ctx) by lia. split.
  - intros Hnone. right.
    destruct (Forall_Exists_dec (fun p : Z * Z => valid_class (snd p) = true)
                (fun p => bool_dec (valid_class (snd p)) true) (retained ctx))
      as [Hall | Hbad].
    + destruct (update_loop_spec P _ ctx Hwf Hall) as (ctx' & Hrun & _).
      congruence.
    + apply Exists_exists in Hbad as (p & Hin & Hp). apply Exists_exists.
      exists p. split; [exact Hin|]. destruct (valid_class (snd p)); congruence.
  - intros [H0 | Hbad]; [contradiction|].
    apply update_loop_aborts; assumption.
Qed.

End UpdaterAssertion.

(** X6, witness: a batch of twelve trials whose one retained delta is
    labelled 2, and a context of no measurement. *)
Lemma update_statistics_aborts_iff_witness :
  let ctx :=
    measure (prepare (fst (Reference.after_main (Reference.init 12) Reference.warm))
               {| labels := repeat 0%Z 10 ++ [2%Z; 0%Z];
                  cycles := cycles Reference.warm |})
            Reference.warm in
  number_measurements ctx = 12
  /\ retained ctx = [(100, 2)%Z]
  /\ update_statistics (ops := Reference.ops) 10 ctx = None
  /\ update_statistics (ops := Reference.ops) 10 (Reference.init 0) = None.
Proof.
  intros ctx. split; [reflexivity|].
  assert (Hret : retained ctx = [(100, 2)%Z]) by (vm_compute; reflexivity).
  split; [exact Hret|]. split.
  - apply (update_statistics_aborts_iff (ops := Reference.ops) 10 ctx);
      [reflexivity|].
    right. rewrite Hret. constructor. reflexivity.
  - apply (update_statistics_aborts_iff (ops := Reference.ops) 10
             (Reference.init 0)); [reflexivity|].
    left. reflexivity.
Defined.

(** * More on the accumulator *)

Section ClassIndependence.

Context {D : Type} {ops : DoubleOps D}.

Lemma t_push_same_class (a b : ttest_ctx_t D) x c :
  valid_class c = true ->
  class_stats c a = class_stats c b ->
  class_stats c (pushed a x c) = class_stats c (pushed b x c).
Proof.
  intros Hc Hab. unfold pushed. rewrite !t_push_valid by exact Hc.
  unfold pushed, t_push. fold (valid_class c). rewrite Hc.
  unfold class_stats in *. cbn [n mean m2].
  injection Hab as Hn Hmean Hm2. rewrite Hn, Hmean, Hm2.
  unfold sel, upd. destruct (c =? 0)%Z; reflexivity.
Qed.

Lemma t_push_other_class (a : ttest_ctx_t D) x c k :
  valid_class c = true -> valid_class k = true -> k <> c ->
  class_stats c (pushed a x k) = class_stats c a.
Proof.
  intros Hc Hk Hne. unfold pushed, t_push. fold (valid_class k). rewrite Hk.
  unfold class_stats. cbn [n mean m2].
  apply valid_class_cases in Hc, Hk.
  destruct Hc as [-> | ->], Hk as [-> | ->]; try congruence; reflexivity.
Qed.

Lemma pushes_of_class_only c pushes :
  valid_class c = true ->
  forall a b a' : ttest_ctx_t D,
  class_stats c a = class_stats c b ->
  t_push_all a pushes = Some a' ->
  exists b',
    t_push_all b (pushes_of c pushes) = Some b'
    /\ class_stats c b' = class_stats c a'.
Proof.
  intros Hc. induction pushes as [|[x k] rest IH]; intros a b a' Hab Hrun.
  - injection Hrun as <-. exists b. split; [reflexivity | symmetry; exact Hab].
  - cbn [t_push_all] in Hrun.
    destruct (valid_class k) eqn:Hk.
    2:{ rewrite (t_push_invalid _ _ _ Hk) in Hrun. discriminate. }
    rewrite (t_push_valid _ _ _ Hk) in Hrun. cbn [bind] in Hrun.
    unfold pushes_of. cbn [filter snd]. fold (pushes_of c rest).
    destruct (Z.eqb_spec k c) as [-> | Hne].
    + cbn [t_push_all]. rewrite (t_push_valid _ _ _ Hc). cbn [bind].
      apply (IH (pushed a x c)); [|exact Hrun].
      apply t_push_same_class; assumption.
    + apply (IH (pushed a x k)); [|exact Hrun].
      rewrite t_push_other_class by assumption. exact Hab.
Qed.

(** X7: the two classes do not mix: what an accumulator holds for a class after
    a sequence of pushes (count, mean and sum of squares, in whatever
    arithmetic) is what it holds after the pushes of that class alone. *)
Theorem classes_do_not_mix (c : Z) (pushes : list (D * Z))
  (a a' : ttest_ctx_t D) :
  valid_class c = true ->
  t_push_all a pushes = Some a' ->
  exists a'',
    t_push_all a (pushes_of c pushes) = Some a''
    /\ class_stats c a'' = class_stats c a'.
Proof.
  intros Hc Hrun. apply (pushes_of_class_only c pushes Hc a a a' eq_refl Hrun).
Qed.

End ClassIndependence.

Section ExactCounts.

Variable pow : float -> float -> float.
Local Hint Extern 0 (DoubleOps _) =>
  exact (IEEE.ops pow) : typeclass_instances.

Local Open Scope Z_scope.

Lemma pushes_of_cons (c : Z) (p : float * Z) (rest : list (float * Z)) :
  pushes_of c (p :: rest)
  = if snd p =? c then p :: pushes_of c rest else pushes_of c rest.
Proof. reflexivity. Qed.

Lemma counts_after_pushes (pushes : list (float * Z)) :
  forall (a : ttest_ctx_t float) j0 j1,
  counts a j0 j1 -> 0 <= j0 -> 0 <= j1 ->
  j0 + j1 + Z.of_nat (length pushes) < 2 ^ 53 ->
  Forall (fun p => valid_class (snd p) = true) pushes ->
  exists a',
    t_push_all a pushes = Some a'
    /\ counts a' (j0 + Z.of_nat (length (pushes_of 0 pushes)))
                 (j1 + Z.of_nat (length (pushes_of 1 pushes))).
Proof.
  induction pushes as [|[x c] rest IH]; intros a j0 j1 Hcnt H0 H1 Hb Hvalid.
  - exists a. split; [reflexivity|]. cbn. rewrite !Z.add_0_r. exact Hcnt.
  - inversion Hvalid as [|p l Hc Hrest]; subst. cbn [snd] in Hc.
    cbn [length] in Hb. cbn [t_push_all].
    rewrite (t_push_valid _ _ _ Hc). cbn [bind].
    pose proof (counts_pushed pow a x c j0 j1 Hcnt Hc H0 H1
                  ltac:(lia) ltac:(lia)) as Hcnt'.
    destruct (IH _ _ _ Hcnt'
                ltac:(destruct (c =? 0); lia) ltac:(destruct (c =? 0); lia)
                ltac:(destruct (c =? 0); lia) Hrest)
      as (a' & Hrun & Hres).
    exists a'. split; [exact Hrun|].
    rewrite !pushes_of_cons. cbn [snd].
    destruct (valid_class_cases c Hc) as [-> | ->]; cbn [Z.eqb Pos.eqb length] in *;
      rewrite ?Nat2Z.inj_succ;
      match goal with
      | |- counts _ ?u ?v =>
          match type of Hres with
          | counts _ ?u' ?v' =>
              replace u with u' by lia; replace v with v' by lia; exact Hres
          end
      end.
Qed.

(** X8: in binary64 the counts are exact: after fewer than 2^53 pushes with
    labels 0 and 1 from the initial accumulator (as [n[class]++] on a
    [double] does them), [n[0]] and [n[1]] are the numbers of pushes of
    class 0 and of class 1, converted without rounding. *)
Theorem counts_are_exact (pushes : list (float * Z)) :
  Z.of_nat (length pushes) < 2 ^ 53 ->
  Forall (fun p => valid_class (snd p) = true) pushes ->
  exists a,
    t_push_all t_init pushes = Some a
    /\ n a = (IEEE.of_Z (Z.of_nat (length (pushes_of 0 pushes))),
              IEEE.of_Z (Z.of_nat (length (pushes_of 1 pushes)))).
Proof.
  intros Hlen Hvalid.
  destruct (counts_after_pushes pushes t_init 0 0 (counts_pair_init pow)
              ltac:(lia) ltac:(lia) ltac:(lia) Hvalid) as (a & Hrun & Hcnt).
  exists a. split; [exact Hrun | exact Hcnt].
Qed.

End ExactCounts.

(** X8, witness: three pushes. *)
Lemma counts_are_exact_witness :
  exists a,
    t_push_all (ops := Reference.ops) (t_init (ops := Reference.ops))
      [(3%float, 0%Z); (5%float, 1%Z); (4%float, 0%Z)] = Some a
    /\ n a = (IEEE.of_Z 2, IEEE.of_Z 1).
Proof.
  apply (counts_are_exact IEEE.pow_intexp
           [(3%float, 0%Z); (5%float, 1%Z); (4%float, 0%Z)]).
  - simpl. lia.
  - repeat constructor.
Defined.

Section AffineInvariance.

Import TwoPass.
Local Existing Instance Exact.ops.
Local Open Scope R_scope.

Variables k c : R.

Lemma of_class_rescaled b pushes :
  of_class b (rescaled k c pushes)
  = map (fun x => k * x + c) (of_class b pushes).
Proof.
  unfold of_class, rescaled. induction pushes as [|[x l] rest IH]; [reflexivity|].
  cbn [map filter snd fst]. destruct (Bool.eqb l b); cbn [map fst]; congruence.
Qed.

Lemma count_map (f : R -> R) xs : count (map f xs) = count xs.
Proof. unfold count. rewrite length_map. reflexivity. Qed.

Lemma sum_affine xs :
  sum (map (fun x => k * x + c) xs) = k * sum xs + count xs * c.
Proof.
  induction xs as [|x xs IH].
  - unfold count. cbn. ring.
  - change (count (x :: xs)) with (INR (S (length xs))). rewrite S_INR.
    fold (count xs). cbn [map sum fold_right]. fold (sum (map (fun x => k * x + c) xs)).
    fold (sum xs). rewrite IH. ring.
Qed.

Lemma sample_mean_affine xs :
  xs <> [] ->
  sample_mean (map (fun x => k * x + c) xs) = k * sample_mean xs + c.
Proof.
  intros Hne. unfold sample_mean. rewrite count_map, sum_affine.
  assert (count xs <> 0) by (intros H; apply Hne, count_zero, H).
  field. assumption.
Qed.

Lemma squared_deviations_affine xs :
  squared_deviations (map (fun x => k * x + c) xs)
  = k * k * squared_deviations xs.
Proof.
  destruct xs as [|x0 xs0] eqn:E; [unfold squared_deviations; cbn; ring|].
  rewrite <- E. assert (Hne : xs <> []) by (rewrite E; discriminate).
  unfold squared_deviations. rewrite sample_mean_affine by exact Hne.
  generalize (sample_mean xs) as m. intros m. clear E Hne.
  induction xs as [|x xs IH]; [cbn; ring|].
  cbn [map sum fold_right] in *. unfold sum in IH. rewrite IH. ring.
Qed.

(** X9: Welch's t over the reals does not depend on the unit or the origin of
    the measurements: when both classes have been pushed to, replacing every
    value [x] by [k x + c] with [k > 0] leaves [t_compute] where it was. *)
Theorem t_compute_affine_invariant (pushes : list (R * bool)) :
  0 < k ->
  of_class false pushes <> [] -> of_class true pushes <> [] ->
  exists a a',
    t_push_all t_init (encode pushes) = Some a
    /\ t_push_all t_init (encode (rescaled k c pushes)) = Some a'
    /\ t_compute a' = t_compute a.
Proof.
  intros Hk H0 H1.
  destruct (t_push_all_ok pushes _ _ t_init_ok) as (a & Hrun & Hok).
  destruct (t_push_all_ok (rescaled k c pushes) _ _ t_init_ok)
    as (a' & Hrun' & Hok').
  exists a, a'. split; [exact Hrun|]. split; [exact Hrun'|].
  cbn [app] in Hok, Hok'.
  destruct (Hok false) as (Hn0 & Hm0 & Hs0).
  destruct (Hok true) as (Hn1 & Hm1 & Hs1).
  destruct (Hok' false) as (Hn0' & Hm0' & Hs0').
  destruct (Hok' true) as (Hn1' & Hm1' & Hs1').
  rewrite of_class_rescaled in Hn0', Hm0', Hs0', Hn1', Hm1', Hs1'.
  rewrite count_map in Hn0', Hn1'.
  rewrite sample_mean_affine in Hm0', Hm1' by assumption.
  rewrite squared_deviations_affine in Hs0', Hs1'.
  cbn [Z.b2z sel Z.eqb] in *.
  unfold t_compute. cbn [d_of_Z d_sub d_div d_add d_sqrt Exact.ops].
  rewrite Hn0', Hn1', Hm0', Hm1', Hs0', Hs1', Hn0, Hn1, Hm0, Hm1, Hs0, Hs1.
  set (n0 := count (of_class false pushes)).
  set (n1 := count (of_class true pushes)).
  set (s0 := squared_deviations (of_class false pushes)).
  set (s1 := squared_deviations (of_class true pushes)).
  set (m0 := sample_mean (of_class false pushes)).
  set (m1 := sample_mean (of_class true pushes)).
  replace (k * k * s0 / (n0 - 1) / n0 + k * k * s1 / (n1 - 1) / n1)
    with (k * k * (s0 / (n0 - 1) / n0 + s1 / (n1 - 1) / n1))
    by (unfold Rdiv; ring).
  rewrite sqrt_mult_alt by nra.
  rewrite sqrt_square by lra.
  replace (k * m0 + c - (k * m1 + c)) with (k * (m0 - m1)) by ring.
  unfold Rdiv. rewrite Rinv_mult.
  generalize (/ sqrt (s0 * / (n0 - 1) * / n0 + s1 * / (n1 - 1) * / n1)).
  intros y. field. lra.
Qed.

End AffineInvariance.

(** * Verdicts and the driver's loop *)

Section EnoughCalls.

Variable pow : float -> float -> float.
Local Hint Extern 0 (DoubleOps _) =>
  exact (IEEE.ops pow) : typeclass_instances.

Variable P : nat.
Variable E : Z.
Variable qsort : (Z -> Z -> Z) -> list Z -> list Z.

Local Open Scope Z_scope.

(** The deltas one call of [update_statistics] can retain. *)
Local Abbreviation per_call N := (Z.of_nat (N - 1 - 10)).

Lemma counts_ok_main_tight ctx b ctx' s B :
  counts_ok pow P ctx B ->
  B + per_call (number_measurements ctx) < 2 ^ 53 ->
  dudect_main P E qsort ctx b = Some (ctx', s) ->
  counts_ok pow P ctx'
    (if calibrated s then B else B + per_call (number_measurements ctx))
  /\ number_measurements ctx' = number_measurements ctx.
Proof.
  intros Hok HB Hmain. unfold dudect_main in Hmain.
  set (ctx0 := measure (prepare ctx b) b) in *.
  assert (Hok0 : counts_ok pow P ctx0 B)
    by (apply counts_ok_same_accs with ctx; [reflexivity | assumption]).
  assert (HN0 : number_measurements ctx0 = number_measurements ctx)
    by reflexivity.
  destruct (nth (P - 1) (percentiles ctx0) 0 =? 0).
  - unfold prepare_percentiles in Hmain.
    destruct (for_each _ _ ctx0) as [ctx1|] eqn:Hcal; [|discriminate].
    cbn [bind] in Hmain. injection Hmain as <- <-. cbn [calibrated].
    apply (prepare_percentiles_frame pow) in Hcal. destruct Hcal as [Hacc HN].
    split; [|congruence].
    apply counts_ok_same_accs with ctx0; assumption.
  - destruct (update_statistics P ctx0) as [ctx1|] eqn:Hupd; [|discriminate].
    cbn [bind] in Hmain. injection Hmain as <- <-. cbn [calibrated].
    split.
    + apply update_statistics_loop in Hupd as [_ Hupd].
      apply (counts_ok_for_each pow P _ ctx0 ctx1 B Hok0) in Hupd.
      * rewrite length_seq in Hupd. exact Hupd.
      * rewrite length_seq. rewrite HN0. exact HB.
    + apply update_statistics_keeps in Hupd.
      destruct Hupd as (HN & _). congruence.
Qed.

Lemma counts_ok_run_tight bs :
  forall ctx ctx' B,
  counts_ok pow P ctx B ->
  B + Z.of_nat (length bs) * per_call (number_measurements ctx) < 2 ^ 53 ->
  run P E qsort ctx bs = Some ctx' ->
  counts_ok pow P ctx'
    (B + Z.of_nat (length bs) * per_call (number_measurements ctx))
  /\ number_measurements ctx' = number_measurements ctx.
Proof.
  induction bs as [|b bs IH]; intros ctx ctx' B Hok HB Hrun.
  - injection Hrun as <-. split; [|reflexivity].
    apply counts_ok_weaken with B; [assumption | simpl; lia].
  - cbn [run] in Hrun. cbn [length] in *.
    destruct (dudect_main P E qsort ctx b) as [[ctx1 s]|] eqn:Hmain;
      [|discriminate].
    cbn [bind fst] in Hrun.
    rewrite Nat2Z.inj_succ, Z.mul_succ_l in *.
    assert (0 <= Z.of_nat (length bs) * per_call (number_measurements ctx))
      by (apply Z.mul_nonneg_nonneg; lia).
    destruct (counts_ok_main_tight ctx b ctx1 s B Hok) as [Hok1 HN1];
      [lia | assumption |].
    assert (Hok1' : counts_ok pow P ctx1 (B + per_call (number_measurements ctx)))
      by (eapply counts_ok_weaken; [exact Hok1 | destruct (calibrated s); lia]).
    apply (IH ctx1 ctx' _ Hok1') in Hrun; [|rewrite HN1; lia].
    destruct Hrun as [Hok' HN']. rewrite HN1 in *. split; [|assumption].
    eapply counts_ok_weaken; [exact Hok'|]. lia.
Qed.

Lemma first_call_calibrates N b ctx1 s :
  dudect_main P E qsort (dudect_init P N) b = Some (ctx1, s) ->
  calibrated s = true /\ ret s = DUDECT_NOT_ENOUGHT_MEASUREMENTS.
Proof.
  unfold dudect_main.
  set (ctx0 := measure (prepare (dudect_init P N) b) b).
  assert (Hfirst : (nth (P - 1) (percentiles ctx0) 0 =? 0)%Z = true).
  { apply Z.eqb_eq. cbn [ctx0 percentiles measure prepare dudect_init].
    destruct (Nat.lt_ge_cases (P - 1) P).
    - apply nth_repeat_lt. assumption.
    - apply nth_overflow. rewrite repeat_length. assumption. }
  rewrite Hfirst. destruct (prepare_percentiles _ _ _); [|discriminate].
  cbn [bind]. intros [= _ <-]. split; reflexivity.
Qed.

(** The counts of a context reached from [dudect_init]: nothing is counted
    by the first call, and at most [number_measurements - 11] deltas by each
    later one. *)
Lemma counts_ok_reached N bs ctx :
  Z.of_nat (length bs) * per_call N < 2 ^ 53 ->
  run P E qsort (dudect_init P N) bs = Some ctx ->
  counts_ok pow P ctx (Z.of_nat (length bs - 1) * per_call N)
  /\ number_measurements ctx = N.
Proof.
  intros HB Hrun. destruct bs as [|b0 bs].
  - injection Hrun as <-. split; [|reflexivity]. apply counts_ok_init.
  - cbn [run] in Hrun.
    destruct (dudect_main P E qsort (dudect_init P N) b0) as [[ctx1 s]|] eqn:Hmain;
      [|discriminate].
    cbn [bind fst] in Hrun.
    destruct (first_call_calibrates N b0 ctx1 s Hmain) as [Hcal _].
    destruct (counts_ok_main_tight _ b0 ctx1 s 0 (counts_ok_init pow P N))
      as [Hok1 HN1]; [cbn [number_measurements dudect_init length] in *; lia
                     | exact Hmain |].
    rewrite Hcal in Hok1. cbn [number_measurements dudect_init] in HN1.
    cbn [length] in *.
    destruct (counts_ok_run_tight bs ctx1 ctx 0 Hok1) as [Hok HN];
      [rewrite HN1; lia | exact Hrun |].
    rewrite HN1 in *. split; [|exact HN].
    replace (S (length bs) - 1)%nat with (length bs) by lia. exact Hok.
Qed.

(** X10: no verdict before enough measurements: when a call of [dudect_main]
    returns leakage-found or no-leakage-evidence-yet, the calls made on the
    context so far, the first one apart, were enough to retain
    [DUDECT_ENOUGH_MEASUREMENTS] deltas at [number_measurements - 11] deltas
    a call. *)
Theorem verdict_needs_enough_calls N bs b ctx ctx' s :
  0 <= E < 2 ^ 53 ->
  (Z.of_nat (length bs) + 1) * Z.of_nat N < 2 ^ 53 ->
  run P E qsort (dudect_init P N) bs = Some ctx ->
  dudect_main P E qsort ctx b = Some (ctx', s) ->
  ret s <> DUDECT_NOT_ENOUGHT_MEASUREMENTS ->
  E <= Z.of_nat (length bs) * per_call N.
Proof.
  intros HE HB Hrun Hmain Hret.
  assert (Hrun' : run P E qsort (dudect_init P N) (bs ++ [b]) = Some ctx').
  { clear HB. revert Hrun. generalize (dudect_init P N).
    induction bs as [|b0 bs IH]; intros c0 Hrun.
    - injection Hrun as ->. cbn [app run]. rewrite Hmain. reflexivity.
    - cbn [app run] in *. destruct (dudect_main P E qsort c0 b0) as [[c1 s1]|];
        [|discriminate]. cbn [bind fst] in *. apply IH. exact Hrun. }
  destruct (counts_ok_reached N (bs ++ [b]) ctx') as [Hok _];
    [rewrite length_app; cbn [length]; nia | exact Hrun' |].
  rewrite length_app in Hok. cbn [length] in Hok.
  replace (length bs + 1 - 1)%nat with (length bs) in Hok by lia.
  assert (Hstate : ret s = state (report P E ctx')).
  { unfold dudect_main in Hmain. destruct (_ =? 0).
    - destruct (prepare_percentiles _ _ _); [|discriminate].
      cbn [bind] in Hmain. injection Hmain as _ <-. contradiction Hret.
      reflexivity.
    - destruct (update_statistics _ _); [|discriminate].
      cbn [bind] in Hmain. injection Hmain as <- <-. reflexivity. }
  rewrite Hstate, (report_state pow) in Hret.
  destruct (number_traces (max_test P E ctx') <? IEEE.of_Z E)%float eqn:Hlt;
    [contradiction Hret; reflexivity|].
  destruct Hok as (Hwf & k0 & k1 & Hk & Hraw & Hall).
  assert (Hr : (max_test_index P E ctx' < DUDECT_TESTS P)%nat).
  { destruct (max_test_index_spec pow P E ctx') as [[Hr | [Hr _]] _];
      [rewrite Hr; unfold DUDECT_TESTS; lia | exact Hr]. }
  destruct (Hall _ Hr) as (j0 & j1 & Hj & Hcnt).
  unfold max_test in Hlt.
  assert (Hbound : Z.of_nat (length bs) * per_call N < 2 ^ 53) by nia.
  rewrite (number_traces_counts pow _ j0 j1 Hcnt) in Hlt by lia.
  rewrite of_Z_ltb in Hlt by lia. lia.
Qed.

End EnoughCalls.

Section NotANumber.

Variable pow : float -> float -> float.
Local Hint Extern 0 (DoubleOps _) =>
  exact (IEEE.ops pow) : typeclass_instances.

Variable P : nat.
Variable E : Z.

Lemma SFeqb_self_nan s : SFeqb s s = false -> s = S754_nan.
Proof.
  destruct s as [sg|sg| |sg m e]; unfold SFeqb, SFcompare; try reflexivity;
    try (destruct sg; discriminate).
  rewrite Z.compare_refl, Pos.compare_refl. destruct sg; discriminate.
Qed.

Lemma is_nan_spec (x : float) : is_nan x = true -> Prim2SF x = S754_nan.
Proof.
  unfold is_nan. rewrite eqb_spec. intros H. apply SFeqb_self_nan.
  destruct (SFeqb _ _); [discriminate | reflexivity].
Qed.

Lemma ltb_abs_nan (x y : float) : is_nan x = true -> (y <? abs x)%float = false.
Proof.
  intros H. rewrite ltb_spec, abs_spec, (is_nan_spec x H).
  unfold SFltb, SFcompare. cbn [SFabs]. destruct (Prim2SF y); reflexivity.
Qed.

(** X11: a [t_compute] that is not a number is never reported as a leak: when the
    statistic of the accumulator [max_test] returns is NaN, [report] returns
    not-enough-measurements below its gate and no-leakage-evidence-yet from
    there on. *)
Theorem nan_statistic_is_no_evidence (ctx : dudect_ctx_t float) :
  is_nan (t_compute (max_test P E ctx)) = true ->
  state (report P E ctx)
  = if (number_traces (max_test P E ctx) <? IEEE.of_Z E)%float
    then DUDECT_NOT_ENOUGHT_MEASUREMENTS
    else DUDECT_NO_LEAKAGE_EVIDENCE_YET.
Proof.
  intros Hnan. rewrite (report_state pow).
  destruct (_ <? IEEE.of_Z E)%float; [reflexivity|].
  unfold verdict_of. cbn [d_ltb d_of_Z IEEE.ops].
  rewrite !ltb_abs_nan by exact Hnan. reflexivity.
Qed.

End NotANumber.

Section IdleCounter.

Context {D : Type} {ops : DoubleOps D}.
Variable P : nat.
Variable E : Z.
Variable qsort : (Z -> Z -> Z) -> list Z -> list Z.

Hypothesis qsort_permutes : forall l, Permutation l (qsort cmp l).

Lemma qsort_zeros n : qsort cmp (repeat 0%Z n) = repeat 0%Z n.
Proof. apply Permutation_repeat. apply Permutation_sym, qsort_permutes. Qed.

Lemma nth_zeros i n : nth i (repeat 0%Z n) 0%Z = 0%Z.
Proof.
  destruct (Nat.lt_ge_cases i n).
  - apply nth_repeat_lt. assumption.
  - apply nth_overflow. rewrite repeat_length. assumption.
Qed.

Lemma list_set_zeros i n : list_set i 0%Z (repeat 0%Z n) = repeat 0%Z n.
Proof.
  revert i. induction n as [|n IH]; intros i; [destruct i; reflexivity|].
  destruct i; cbn [repeat list_set]; [reflexivity|]. rewrite IH. reflexivity.
Qed.

Lemma calibrate_blank N idx :
  forall ctx ctx' : dudect_ctx_t D,
  blank P N ctx ->
  for_each
    (fun c i =>
       r <- percentile qsort (exec_times c) (quantile P i)
              (number_measurements c) ;;
       Some {| number_measurements := number_measurements c;
               ticks := ticks c;
               exec_times := snd r;
               classes := classes c;
               ttest_ctxs := ttest_ctxs c;
               percentiles := list_set i (fst r) (percentiles c) |})
    idx ctx = Some ctx' ->
  blank P N ctx'.
Proof.
  induction idx as [|i idx IH]; intros ctx ctx' Hb Hrun.
  - injection Hrun as <-. exact Hb.
  - cbn [for_each] in Hrun. destruct Hb as (HN & Hex & Hp).
    unfold percentile in Hrun at 1.
    rewrite Hex, HN in Hrun.
    rewrite firstn_all2, skipn_all2, app_nil_r, qsort_zeros in Hrun
      by (rewrite repeat_length; lia).
    destruct (d_to_size_t _) as [pos|]; [|discriminate]. cbn [bind] in Hrun.
    destruct (pos <? _)%Z; [|discriminate]. cbn [bind fst snd] in Hrun.
    apply IH in Hrun; [exact Hrun|].
    unfold blank. cbn [number_measurements exec_times percentiles].
    rewrite nth_zeros, Hp, list_set_zeros. auto.
Qed.

Lemma zeros_repeat (l : list Z) n :
  length l = n -> Forall (eq 0%Z) l -> l = repeat 0%Z n.
Proof. intros <- H. apply Forall_eq_repeat. exact H. Qed.

Lemma measure_idle N (ctx : dudect_ctx_t D) b :
  number_measurements ctx = N -> exec_times ctx = repeat 0%Z N ->
  idle N b ->
  exec_times (measure (prepare ctx b) b) = repeat 0%Z N.
Proof.
  intros HN Hex Hidle. unfold measure, prepare.
  cbn [exec_times number_measurements]. rewrite HN, Hex.
  apply zeros_repeat.
  { rewrite length_app, length_map, length_seq, length_skipn, repeat_length.
    lia. }
  apply Forall_app. split.
  - apply Forall_forall. intros x Hx. apply in_map_iff in Hx as (i & <- & Hi).
    apply in_seq in Hi. rewrite !nth_map_seq by lia.
    rewrite (Hidle i) by lia. rewrite (Hidle (i + 1)%nat) by lia.
    rewrite Z.sub_diag. reflexivity.
  - apply Forall_forall. intros x Hx.
    assert (In x (repeat 0%Z N)).
    { rewrite <- (firstn_skipn (N - 1) (repeat 0%Z N)). apply in_or_app.
      right. exact Hx. }
    symmetry. eapply repeat_spec. eassumption.
Qed.

Lemma dudect_main_idle N (ctx : dudect_ctx_t D) b :
  positions_ok P N = true ->
  blank P N ctx -> idle N b ->
  exists ctx',
    dudect_main P E qsort ctx b = Some (ctx', calibration_step)
    /\ blank P N ctx' /\ ttest_ctxs ctx' = ttest_ctxs ctx.
Proof.
  intros Hpos (HN & Hex & Hp) Hidle. unfold dudect_main.
  set (ctx0 := measure (prepare ctx b) b).
  assert (Hb0 : blank P N ctx0).
  { split; [exact HN|]. split; [apply measure_idle; assumption | exact Hp]. }
  replace (nth (P - 1) (percentiles ctx0) 0 =? 0)%Z with true
    by (destruct Hb0 as (_ & _ & ->); rewrite nth_zeros; reflexivity).
  unfold prepare_percentiles.
  destruct (prepare_percentiles_total P qsort (seq 0 P) ctx0) as (ctx' & Hrun & Hacc).
  { destruct Hb0 as (-> & _). exact Hpos. }
  rewrite Hrun. cbn [bind]. exists ctx'. split; [reflexivity|].
  split; [eapply calibrate_blank; eassumption | exact Hacc].
Qed.

(** X12: on a cycle counter that does not advance the driver's loop never ends:
    every delta is 0, so is every threshold, [dudect_main] takes each call
    for the first one, calibrates again and returns
    not-enough-measurements. However many batches are supplied, the loop is
    still running and no accumulator has been pushed to. *)
Theorem idle_counter_never_ends N (bs : list batch) :
  positions_ok P N = true ->
  Forall (idle N) bs ->
  until_verdict P E qsort (dudect_init P N) bs = Running
  /\ exists ctx,
       run P E qsort (dudect_init P N) bs = Some ctx
       /\ ttest_ctxs ctx = ttest_ctxs (dudect_init P N).
Proof.
  intros Hpos Hidle.
  assert (Hgen : forall ctx : dudect_ctx_t D, blank P N ctx ->
            until_verdict P E qsort ctx bs = Running
            /\ exists ctx', run P E qsort ctx bs = Some ctx'
                            /\ ttest_ctxs ctx' = ttest_ctxs ctx).
  { induction Hidle as [|b rest Hb Hrest IH]; intros ctx Hblank.
    - split; [reflexivity|]. exists ctx. split; reflexivity.
    - destruct (dudect_main_idle N ctx b Hpos Hblank Hb)
        as (ctx1 & Hmain & Hblank1 & Hacc1).
      destruct (IH ctx1 Hblank1) as (Hloop & ctx' & Hrun & Hacc').
      cbn [until_verdict run]. rewrite Hmain. cbn [ret calibration_step bind fst].
      split; [exact Hloop|]. exists ctx'. split; [exact Hrun | congruence]. }
  apply Hgen. repeat split.
Qed.

End IdleCounter.

(** * The random string of [measure.c] *)

Section RandomString.

Local Open Scope Z_scope.

Variable rand : nat -> Z.

Lemma fill_spec (k : nat) :
  forall (buf : list Z),
  (k <= length buf)%nat ->
  let out := fold_left (fun b i => list_set i (97 + rand i mod 26) b)
                       (seq 0 k) buf in
  length out = length buf
  /\ (forall i, (i < k)%nat -> nth i out 0 = 97 + rand i mod 26)
  /\ (forall i, (k <= i)%nat -> nth i out 0 = nth i buf 0).
Proof.
  induction k as [|k IH]; intros buf Hk out.
  - repeat split; intros; try reflexivity; lia.
  - subst out. rewrite seq_S, fold_left_app. cbn [fold_left Nat.add].
    destruct (IH buf ltac:(lia)) as (Hlen & Hfilled & Hrest).
    set (mid := fold_left _ (seq 0 k) buf) in *.
    split; [rewrite length_list_set; exact Hlen|]. split.
    + intros i Hi. destruct (Nat.eq_dec i k) as [->|Hne].
      * apply nth_list_set_eq. lia.
      * rewrite nth_list_set_neq by congruence. apply Hfilled. lia.
    + intros i Hi. rewrite nth_list_set_neq by lia. apply Hrest. lia.
Qed.

Lemma strlen_letters (s : list Z) (k : nat) :
  (k < length s)%nat ->
  (forall i, (i < k)%nat -> nth i s 0 <> 0) -> nth k s 0 = 0 ->
  strlen s = k.
Proof.
  revert k. induction s as [|c rest IH]; intros k Hk Hnz Hz; [inversion Hk|].
  cbn [strlen]. destruct k as [|k].
  - cbn [nth] in Hz. rewrite Hz. reflexivity.
  - pose proof (Hnz 0%nat ltac:(lia)) as Hc. cbn [nth] in Hc.
    destruct (Z.eqb_spec c 0); [contradiction|]. f_equal.
    apply IH; [cbn [length] in Hk; lia | | exact Hz].
    intros i Hi. apply (Hnz (S i)). lia.
Qed.

(** X13: [random_string] on a buffer it fits in: the first [len - 1] bytes become
    lowercase letters (['a' + rand mod 26]), byte [len - 1] becomes NUL, the
    rest of the buffer is untouched, and the result is a C string of exactly
    [len - 1] characters. *)
Theorem random_string_fills (buf : list Z) (len : nat) :
  (1 <= len <= length buf)%nat ->
  exists out,
    random_string rand buf len = Some out
    /\ length out = length buf
    /\ (forall i, (i < len - 1)%nat ->
          nth i out 0 = 97 + rand i mod 26 /\ 97 <= nth i out 0 <= 122)
    /\ nth (len - 1) out 0 = 0
    /\ (forall i, (len <= i)%nat -> nth i out 0 = nth i buf 0)
    /\ strlen out = (len - 1)%nat.
Proof.
  intros Hlen. unfold random_string.
  replace ((1 <=? len)%nat && (len <=? length buf)%nat)%bool with true
    by (symmetry; apply andb_true_iff; split; apply Nat.leb_le; lia).
  destruct (fill_spec (len - 1) buf ltac:(lia)) as (Hl & Hfilled & Hrest).
  set (mid := fold_left _ (seq 0 (len - 1)) buf) in *.
  eexists. split; [reflexivity|].
  assert (Hletters : forall i, (i < len - 1)%nat ->
            nth i (list_set (len - 1) 0 mid) 0 = 97 + rand i mod 26
            /\ 97 <= nth i (list_set (len - 1) 0 mid) 0 <= 122).
  { intros i Hi. rewrite nth_list_set_neq by lia. rewrite Hfilled by lia.
    pose proof (Z.mod_pos_bound (rand i) 26). lia. }
  assert (Hnul : nth (len - 1) (list_set (len - 1) 0 mid) 0 = 0)
    by (apply nth_list_set_eq; lia).
  split; [rewrite length_list_set; exact Hl|].
  split; [exact Hletters|]. split; [exact Hnul|]. split.
  - intros i Hi. rewrite nth_list_set_neq by lia. apply Hrest. lia.
  - apply strlen_letters; [rewrite length_list_set; lia | | exact Hnul].
    intros i Hi. destruct (Hletters i Hi). lia.
Qed.

End RandomString.

(** X13, witness: a buffer of six bytes and a string of four letters. *)
Lemma random_string_fills_witness :
  exists out,
    random_string (fun i => Z.of_nat (100 * i + 7)) (repeat 1%Z 6) 5 = Some out
    /\ length out = 6
    /\ (forall i, (i < 5 - 1)%nat ->
          nth i out 0%Z = (97 + Z.of_nat (100 * i + 7) mod 26)%Z
          /\ (97 <= nth i out 0 <= 122)%Z)
    /\ nth (5 - 1) out 0%Z = 0%Z
    /\ (forall i, (5 <= i)%nat -> nth i out 0%Z = nth i (repeat 1%Z 6) 0%Z)
    /\ strlen out = (5 - 1)%nat.
Proof.
  apply (random_string_fills (fun i => Z.of_nat (100 * i + 7)) (repeat 1%Z 6) 5).
  simpl. lia.
Defined.

(** * More concrete runs *)

Section MoreConcreteRuns.

Import Reference.
#[local] Existing Instance Reference.ops.

(** X7, witness: three pushes, two of class 0. *)
Lemma classes_do_not_mix_witness :
  let pushes := [(3%float, 0%Z); (5%float, 1%Z); (4%float, 0%Z)] in
  let a' := pushed (pushed (pushed t_init 3%float 0) 5%float 1) 4%float 0 in
  exists a'',
    t_push_all t_init (pushes_of 0 pushes) = Some a''
    /\ class_stats 0 a'' = class_stats 0 a'.
Proof.
  apply (classes_do_not_mix 0 [(3%float, 0%Z); (5%float, 1%Z); (4%float, 0%Z)]).
  - reflexivity.
  - reflexivity.
Defined.

(** X9, witness: four measurements, doubled and shifted by 5. *)
Lemma t_compute_affine_invariant_witness :
  let pushes := [(1, false); (2, true); (3, false); (5, true)]%R in
  exists a a',
    t_push_all (ops := Exact.ops) (t_init (ops := Exact.ops))
      (TwoPass.encode pushes) = Some a
    /\ t_push_all (ops := Exact.ops) (t_init (ops := Exact.ops))
         (TwoPass.encode (rescaled 2 5 pushes)) = Some a'
    /\ t_compute (ops := Exact.ops) a' = t_compute (ops := Exact.ops) a.
Proof.
  apply (t_compute_affine_invariant 2 5
           [(1, false); (2, true); (3, false); (5, true)]%R).
  - lra.
  - unfold TwoPass.of_class. simpl. discriminate.
  - unfold TwoPass.of_class. simpl. discriminate.
Defined.

(** X10, witness: the verdict of the 201st call on batches of 61 trials. *)
Lemma verdict_needs_enough_calls_witness :
  (ENOUGH_MEASUREMENTS <= Z.of_nat (length (repeat mixed 200))
                          * Z.of_nat (61 - 1 - 10))%Z.
Proof.
  destruct (run_then_main_check NUMBER_PERCENTILES ENOUGH_MEASUREMENTS qsort
              61 (repeat mixed 200) mixed
              (fun _ _ s => negb (is_state (ret s) DUDECT_NOT_ENOUGHT_MEASUREMENTS)))
    as (ctx & ctx' & s & Hrun & Hmain & Hc); [vm_compute; reflexivity|].
  apply (verdict_needs_enough_calls IEEE.pow_intexp NUMBER_PERCENTILES
           ENOUGH_MEASUREMENTS qsort 61 (repeat mixed 200) mixed ctx ctx' s).
  - unfold ENOUGH_MEASUREMENTS. lia.
  - rewrite repeat_length. lia.
  - exact Hrun.
  - exact Hmain.
  - intros Heq. rewrite Heq in Hc. discriminate.
Defined.

(** X11, witness: a fresh context, whose accumulators are empty, and a
    threshold of 0 measurements. *)
Lemma nan_statistic_is_no_evidence_witness :
  state (report NUMBER_PERCENTILES 0 (init 12))
  = if (number_traces (max_test NUMBER_PERCENTILES 0 (init 12)) <? IEEE.of_Z 0)%float
    then DUDECT_NOT_ENOUGHT_MEASUREMENTS
    else DUDECT_NO_LEAKAGE_EVIDENCE_YET.
Proof.
  apply (nan_statistic_is_no_evidence IEEE.pow_intexp NUMBER_PERCENTILES 0 (init 12)).
  vm_compute. reflexivity.
Defined.

(** X12, witness: three batches of three trials on a counter stuck at 5. *)
Lemma idle_counter_never_ends_witness :
  until_verdict NUMBER_PERCENTILES ENOUGH_MEASUREMENTS qsort (init 3)
    [still; still; still] = Running
  /\ exists ctx,
       runs (init 3) [still; still; still] = Some ctx
       /\ ttest_ctxs ctx = ttest_ctxs (init 3).
Proof.
  apply (idle_counter_never_ends NUMBER_PERCENTILES ENOUGH_MEASUREMENTS qsort
           (fun l => reference_qsort_permutes cmp l) 3 [still; still; still]).
  - vm_compute. reflexivity.
  - repeat constructor; intros i Hi;
      destruct i as [|[|[|i]]]; try reflexivity; lia.
Defined.

End MoreConcreteRuns.

Module QueueFacts.

Import Queue.

Section Paths.

Variables h h' : heap.

Lemma path_cons a l : path h (a :: l) -> path h l.
Proof. destruct l as [|b l]; [trivial|]. intros [_ H]. exact H. Qed.

Lemma path_split l1 x l2 :
  path h (l1 ++ x :: l2) <-> path h (l1 ++ [x]) /\ path h (x :: l2).
Proof.
  induction l1 as [|a l1 IH]; cbn [app].
  - split; [intros H; split; [exact I | exact H] | intros [_ H]; exact H].
  - destruct l1 as [|b l1]; cbn [app path] in *.
    + tauto.
    + rewrite IH. tauto.
Qed.

Lemma path_wired l1 a b l2 : path h (l1 ++ a :: b :: l2) -> wired h a b.
Proof. intros H. apply path_split in H as [_ [H _]]. exact H. Qed.

(** A path depends on the [next] of its addresses but the last and on the
    [prev] of its addresses but the first. *)
Lemma path_frame l :
  path h l ->
  (forall x, In x (removelast l) -> next h' x = next h x) ->
  (forall x, In x (tl l) -> prev h' x = prev h x) ->
  path h' l.
Proof.
  induction l as [|a l IH]; [trivial|].
  destruct l as [|b l]; [trivial|].
  intros [[Hn Hp] Hrest] Hnext Hprev. split.
  - split.
    + rewrite Hnext by (left; reflexivity). exact Hn.
    + rewrite Hprev by (left; reflexivity). exact Hp.
  - apply IH; [exact Hrest | |].
    + intros x Hx. apply Hnext. right. exact Hx.
    + intros x Hx. apply Hprev. right. exact Hx.
Qed.

End Paths.

Lemma store_same {A : Type} (f : addr -> A) a v : store f a v a = v.
Proof. unfold store. rewrite Nat.eqb_refl. reflexivity. Qed.

Lemma store_other {A : Type} (f : addr -> A) a v x :
  x <> a -> store f a v x = f x.
Proof.
  intros H. unfold store. destruct (Nat.eqb_spec x a); [contradiction|].
  reflexivity.
Qed.

Lemma removelast_snoc (A : Type) (l : list A) x : removelast (l ++ [x]) = l.
Proof. apply removelast_last. Qed.

Lemma NoDup_app_iff (A : Type) (l1 l2 : list A) :
  NoDup (l1 ++ l2)
  <-> NoDup l1 /\ NoDup l2 /\ forall a, In a l1 -> In a l2 -> False.
Proof.
  split.
  - intros H. split; [apply (NoDup_app_remove_r _ _ H)|].
    split; [apply (NoDup_app_remove_l _ _ H)|].
    induction l1 as [|x l1 IH]; intros a Ha Hb; [inversion Ha|].
    cbn [app] in H. apply NoDup_cons_iff in H as [Hx H].
    destruct Ha as [<- | Ha].
    + apply Hx. apply in_or_app. right. exact Hb.
    + apply (IH H a Ha Hb).
  - intros (H1 & H2 & H3). apply NoDup_app; assumption.
Qed.

(** Membership and distinctness goals over lists known without duplicates. *)
Ltac distinct :=
  repeat first
    [ match goal with
      | H : NoDup (_ ++ _) |- _ =>
          apply NoDup_app_iff in H; destruct H as (? & ? & ?)
      | H : NoDup (_ :: _) |- _ =>
          apply NoDup_cons_iff in H; destruct H as [? ?]
      | H : context [In _ (_ ++ _)] |- _ => setoid_rewrite in_app_iff in H
      | |- context [In _ (_ ++ _)] => setoid_rewrite in_app_iff
      end
    | progress cbn [In] in * ];
  try solve [intuition (subst; eauto 10; try congruence; try lia)].

Ltac run_live :=
  repeat match goal with
         | H : live ?h ?a = true |- context [live ?h ?a] => rewrite H
         | |- _ => progress cbn [live next prev value chars brk budget]
         end.

Lemma list_add_run h node p :
  live h p = true -> live h (next h p) = true -> live h node = true ->
  exists h',
    list_add node p h = Some (tt, h')
    /\ next h' = store (store (next h) node (next h p)) p node
    /\ prev h' = store (store (prev h) (next h p) node) node p
    /\ relinked h h'.
Proof.
  intros Hp Hs Hn. unfold list_add, and_then, get_next, set_prev, set_next.
  run_live. eexists. split; [reflexivity|]. cbn. repeat split; reflexivity.
Qed.

Lemma list_del_run h x :
  live h x = true -> live h (next h x) = true -> live h (prev h x) = true ->
  exists h',
    list_del x h = Some (tt, h')
    /\ next h' = store (next h) (prev h x) (next h x)
    /\ prev h' = store (prev h) (next h x) (prev h x)
    /\ relinked h h'.
Proof.
  intros Hx Hs Hp. unfold list_del, and_then, get_next, get_prev, set_prev, set_next.
  run_live. eexists. split; [reflexivity|]. cbn. repeat split; reflexivity.
Qed.

(** Inserting [node] after [p] in the ring that starts at [c]. *)
Lemma ring_add h h' l1 p l2 c node :
  hd p l1 = c ->
  NoDup (l1 ++ p :: l2) -> ~ In node (l1 ++ p :: l2) ->
  path h (l1 ++ p :: l2 ++ [c]) ->
  next h' = store (store (next h) node (next h p)) p node ->
  prev h' = store (store (prev h) (next h p) node) node p ->
  path h' (l1 ++ p :: node :: l2 ++ [c]).
Proof.
  intros Hc Hnd Hfresh Hpath Hnext Hprev.
  destruct (l2 ++ [c]) as [|s B] eqn:Htail.
  { destruct l2; discriminate. }
  assert (Hs : next h p = s) by (apply (path_wired h l1 p s B Hpath)).
  rewrite Hs in *.
  apply path_split in Hpath as [Hfront Hback].
  apply path_cons in Hback.
  assert (Hl2 : removelast (s :: B) = l2)
    by (rewrite <- Htail; apply removelast_snoc).
  assert (Hnode_p : node <> p) by (intros ->; distinct).
  assert (Hs_node : s <> node).
  { intros ->. destruct l2 as [|y l2']; cbn in Htail; injection Htail as <- <-.
    - destruct l1 as [|y l1]; cbn in Hc; subst; distinct.
    - distinct. }
  apply path_split. split; [|split; [|split]].
  - apply (path_frame h); [exact Hfront | |].
    + intros x Hx. rewrite removelast_snoc in Hx. rewrite Hnext.
      rewrite !store_other; [reflexivity | intros -> | intros ->]; distinct.
    + intros x Hx. rewrite Hprev.
      rewrite !store_other; [reflexivity | intros -> | intros ->];
        (destruct l1 as [|y l1]; cbn in Hc, Hx; [contradiction|]; subst y;
         destruct l2 as [|z l2']; cbn in Htail; injection Htail as <- <-;
         distinct).
  - split.
    + rewrite Hnext. apply store_same.
    + rewrite Hprev. apply store_same.
  - split.
    + rewrite Hnext. rewrite store_other by exact Hnode_p. apply store_same.
    + rewrite Hprev. rewrite store_other by exact Hs_node. apply store_same.
  - apply (path_frame h); [exact Hback | |].
    + intros x Hx. rewrite Hl2 in Hx. rewrite Hnext.
      rewrite !store_other; [reflexivity | intros -> | intros ->]; distinct.
    + intros x Hx. cbn [tl] in Hx. rewrite Hprev.
      rewrite !store_other; [reflexivity | intros -> | intros ->];
        (destruct l2 as [|z l2']; cbn in Htail; injection Htail as <- <-;
         [contradiction|];
         destruct l1 as [|y l1]; cbn in Hc; subst; distinct).
Qed.

(** Unlinking [x] from the ring that starts at [c]. *)
Lemma ring_del h h' c l1 x l2 :
  NoDup (c :: l1 ++ x :: l2) ->
  path h (c :: l1 ++ x :: l2 ++ [c]) ->
  next h' = store (next h) (prev h x) (next h x) ->
  prev h' = store (prev h) (next h x) (prev h x) ->
  path h' (c :: l1 ++ l2 ++ [c]).
Proof.
  intros Hnd Hpath Hnext Hprev.
  destruct (l2 ++ [c]) as [|s B] eqn:Htail.
  { destruct l2; discriminate. }
  destruct (exists_last (l := c :: l1) ltac:(discriminate)) as (F0 & pv & HF).
  assert (Hhd : hd pv F0 = c).
  { destruct F0 as [|y F0]; cbn in HF; injection HF as Hc _; subst;
      reflexivity. }
  change (c :: l1 ++ x :: s :: B) with ((c :: l1) ++ x :: s :: B) in Hpath.
  change (c :: l1 ++ s :: B) with ((c :: l1) ++ s :: B).
  change (c :: l1 ++ x :: l2) with ((c :: l1) ++ x :: l2) in Hnd.
  rewrite HF in *. rewrite <- app_assoc in Hpath. cbn [app] in Hpath.
  assert (Hpv : prev h x = pv) by (apply (path_wired h F0 pv x (s :: B) Hpath)).
  assert (Hs : next h x = s).
  { apply (path_wired h (F0 ++ [pv]) x s B). rewrite <- app_assoc. exact Hpath. }
  rewrite Hpv, Hs in *.
  apply path_split in Hpath as [Hfront Hback].
  apply path_cons, path_cons in Hback.
  assert (Hl2 : removelast (s :: B) = l2)
    by (rewrite <- Htail; apply removelast_snoc).
  rewrite <- app_assoc. cbn [app].
  apply path_split. split; [|split].
  - apply (path_frame h); [exact Hfront | |].
    + intros y Hy. rewrite removelast_snoc in Hy. rewrite Hnext.
      rewrite store_other; [reflexivity | intros ->]. distinct.
    + intros y Hy. rewrite Hprev.
      rewrite store_other; [reflexivity | intros ->].
      destruct F0 as [|z F0]; cbn in Hhd, Hy; [contradiction|]. subst z.
      destruct l2 as [|z l2']; cbn in Htail; injection Htail as <- <-;
        distinct.
  - split.
    + rewrite Hnext. apply store_same.
    + rewrite Hprev. apply store_same.
  - apply (path_frame h); [exact Hback | |].
    + intros y Hy. rewrite Hl2 in Hy. rewrite Hnext.
      rewrite store_other; [reflexivity | intros ->]. distinct.
    + intros y Hy. cbn [tl] in Hy. rewrite Hprev.
      rewrite store_other; [reflexivity | intros ->].
      destruct l2 as [|z l2']; cbn in Htail; injection Htail as <- <-;
        [contradiction|].
      destruct F0 as [|y F0]; cbn in Hhd; subst; distinct.
Qed.

End QueueFacts.

Module QueueOps.

Import Queue QueueFacts.

(** ** Strings *)

Lemma strlen_le buf : strlen buf <= length buf.
Proof.
  induction buf as [|c rest IH]; cbn [strlen length]; [lia|].
  destruct (c =? 0)%Z; lia.
Qed.

Lemma c_str_length buf : length (c_str buf) = strlen buf.
Proof. unfold c_str. apply firstn_length_le. apply strlen_le. Qed.

Lemma c_str_snoc buf rest : c_str (c_str buf ++ 0%Z :: rest) = c_str buf.
Proof.
  unfold c_str. induction buf as [|c buf IH]; cbn [strlen firstn app]; [reflexivity|].
  destruct (Z.eqb_spec c 0) as [->|Hc]; cbn [firstn app strlen].
  - reflexivity.
  - destruct (Z.eqb_spec c 0); [contradiction|]. cbn [firstn]. rewrite IH.
    reflexivity.
Qed.

Lemma strlen_snoc buf rest : strlen (c_str buf ++ 0%Z :: rest) = strlen buf.
Proof.
  rewrite <- (c_str_length (c_str buf ++ 0%Z :: rest)), c_str_snoc.
  apply c_str_length.
Qed.

Lemma c_str_idem buf : c_str (c_str buf) = c_str buf.
Proof.
  unfold c_str. induction buf as [|c buf IH]; cbn [strlen firstn]; [reflexivity|].
  destruct (Z.eqb_spec c 0) as [->|Hc]; cbn [firstn strlen]; [reflexivity|].
  destruct (Z.eqb_spec c 0); [contradiction|]. cbn [firstn]. rewrite IH.
  reflexivity.
Qed.

(** What [strncpy(dst, src, strlen(src) + 1)] leaves in a fresh array of
    [strlen(src) + 1] bytes. *)
Lemma copy_whole buf :
  firstn (strlen buf + 1) (c_str buf ++ repeat 0%Z (strlen buf + 1))
  ++ skipn (strlen buf + 1) (repeat 0%Z (strlen buf + 1))
  = c_str buf ++ [0%Z].
Proof.
  rewrite skipn_all2 by (rewrite repeat_length; lia). rewrite app_nil_r.
  rewrite firstn_app, c_str_length.
  rewrite firstn_all2 by (rewrite c_str_length; lia).
  replace (strlen buf + 1 - strlen buf) with 1 by lia.
  replace (strlen buf + 1) with (S (strlen buf)) by lia. reflexivity.
Qed.

(** ** Facts read off a queue *)

Section QueueShape.

Variables (h : heap) (head : addr) (nodes : list addr).
Hypothesis Q : queue h head nodes.

Lemma queue_live a : In a (head :: nodes) -> live h a = true.
Proof.
  intros Ha. pose proof (allocated _ _ _ Q) as Hl. rewrite Forall_forall in Hl.
  apply Hl. destruct Ha as [<-|Ha]; [left; reflexivity|].
  right. apply in_or_app. left. exact Ha.
Qed.

Lemma queue_live_value a : In a nodes -> live h (value h a) = true.
Proof.
  intros Ha. pose proof (allocated _ _ _ Q) as Hl. rewrite Forall_forall in Hl.
  apply Hl. right. apply in_or_app. right. apply in_map. exact Ha.
Qed.

Lemma live_not_null a : live h a = true -> a <> NULL.
Proof. intros Ha ->. destruct (heap_ok _ _ _ Q) as [H0 _]. congruence. Qed.

Lemma live_below_brk a : live h a = true -> a < brk h.
Proof.
  intros Ha. destruct (heap_ok _ _ _ Q) as (_ & _ & Hb).
  destruct (Nat.lt_ge_cases a (brk h)) as [|Hge]; [assumption|].
  rewrite (Hb a Hge) in Ha. discriminate.
Qed.

Lemma queue_next_head : next h head = hd head nodes.
Proof.
  pose proof (linked _ _ _ Q) as Hp. destruct nodes as [|x l]; cbn in Hp |- *;
    apply Hp.
Qed.

Lemma queue_prev_head : prev h head = last nodes head.
Proof.
  pose proof (linked _ _ _ Q) as Hp.
  destruct (exists_last (l := head :: nodes) ltac:(discriminate)) as (F & z & HF).
  change (head :: nodes ++ [head]) with ((head :: nodes) ++ [head]) in Hp.
  rewrite HF, <- app_assoc in Hp. cbn [app] in Hp.
  destruct (path_wired h F z head [] Hp) as [_ Hprev]. rewrite Hprev.
  destruct F as [|y F]; cbn in HF; injection HF as Hy HF; subst.
  - reflexivity.
  - rewrite last_last. reflexivity.
Qed.

Lemma queue_head_not_node : ~ In head nodes.
Proof.
  pose proof (distinct _ _ _ Q) as Hd. apply NoDup_cons_iff in Hd as [Hd _].
  intros Hin. apply Hd. apply in_or_app. left. exact Hin.
Qed.

End QueueShape.

End QueueOps.

Module QueueInsert.

Import Queue QueueFacts QueueOps.

Ltac stores :=
  repeat first
    [ rewrite store_same
    | rewrite store_other by (first [assumption | lia | congruence]) ].

Lemma eqb_false a b : a <> b -> (a =? b) = false.
Proof. apply Nat.eqb_neq. Qed.

Lemma insert_run h p s b :
  live h NULL = false -> 1 <= brk h ->
  (forall a, brk h <= a -> live h a = false) ->
  budget h = S (S b) ->
  live h p = true -> live h (next h p) = true ->
  live h s = true -> terminated (chars h s) = true ->
  (Z.of_nat (strlen (chars h s)) < INT_MAX)%Z ->
  exists h',
    q_insert_head p s h = Some (true, h')
    /\ next h' = store (store (next h) (brk h) (next h p)) p (brk h)
    /\ prev h' = store (store (prev h) (next h p) (brk h)) (brk h) p
    /\ value h' = store (value h) (brk h) (S (brk h))
    /\ chars h'
       = store (store (store (chars h) (brk h) (repeat 0%Z sizeof_element_t))
                      (S (brk h)) (repeat 0%Z (strlen (chars h s) + 1)))
               (S (brk h)) (c_str (chars h s) ++ [0%Z])
    /\ live h' = store (store (live h) (brk h) true) (S (brk h)) true
    /\ brk h' = S (S (brk h))
    /\ budget h' = b.
Proof.
  intros H0 Hbrk Hfree Hbudget Hp Hnp Hs Hterm Hfit.
  assert (Hpe : p <> brk h) by (intros ->; rewrite Hfree in Hp by lia; discriminate).
  assert (Hse : s <> brk h) by (intros ->; rewrite Hfree in Hs by lia; discriminate).
  assert (Hsv : s <> S (brk h)) by (intros ->; rewrite Hfree in Hs by lia; discriminate).
  assert (Hpv : p <> S (brk h)) by (intros ->; rewrite Hfree in Hp by lia; discriminate).
  assert (Hne : next h p <> brk h) by (intros E; rewrite E, Hfree in Hnp by lia; discriminate).
  assert (Hnv : next h p <> S (brk h)) by (intros E; rewrite E, Hfree in Hnp by lia; discriminate).
  assert (Hpn : p <> NULL) by (intros ->; congruence).
  assert (Hsn : s <> NULL) by (intros ->; congruence).
  unfold q_insert_head.
  rewrite (eqb_false p NULL Hpn), (eqb_false s NULL Hsn). cbn [orb].
  unfold and_then at 1. unfold malloc at 1. rewrite Hbudget.
  rewrite (eqb_false (brk h) NULL) by (unfold NULL; lia).
  unfold and_then at 1. unfold strlen_at. cbn [live chars]. stores.
  rewrite Hs, Hterm. cbn [andb].
  unfold and_then at 1. unfold to_int.
  destruct (Z.ltb_spec (Z.of_nat (strlen (chars h s))) INT_MAX)
    as [_ | Hover]; [|lia].
  unfold and_then at 1. unfold malloc at 1. cbn [budget brk].
  unfold and_then at 1. unfold set_value. cbn [live]. stores.
  rewrite (eqb_false (S (brk h)) NULL) by (unfold NULL; lia).
  unfold and_then at 1. unfold strncpy. cbn [live chars]. stores.
  rewrite Hs, Hterm. rewrite (eqb_false (S (brk h)) s) by congruence.
  rewrite Nat.mul_1_r. rewrite repeat_length, Nat.leb_refl. cbn [andb orb negb].
  rewrite copy_whole. cbn [next prev value chars live brk budget].
  unfold and_then at 1.
  match goal with
  | |- context [list_add ?e ?q ?hh] =>
      destruct (list_add_run hh e q) as (h' & Hrun & Hn' & Hp' & Hrel)
  end.
  { cbn [live]. stores. exact Hp. }
  { cbn [live next]. stores. exact Hnp. }
  { cbn [live]. stores. reflexivity. }
  rewrite Hrun. unfold pure.
  destruct Hrel as (Hv & Hc & Hl & Hb & Hbu).
  cbn [next prev value chars live brk budget] in Hn', Hp', Hv, Hc, Hl, Hb, Hbu.
  exists h'. repeat split; assumption.
Qed.

Lemma terminated_snoc buf : terminated (c_str buf ++ [0%Z]) = true.
Proof.
  unfold terminated. rewrite strlen_snoc, length_app, c_str_length.
  cbn [length]. apply Nat.ltb_lt. lia.
Qed.

(** [q_insert_head(p, s)] with [p] the head or an element of a queue, when
    [malloc] grants two more requests: the new element goes in right after
    [p]. *)
Lemma insert_after_ok h head nodes l1 p l2 s b :
  queue h head nodes ->
  head :: nodes = l1 ++ p :: l2 ->
  budget h = S (S b) ->
  live h s = true -> terminated (chars h s) = true ->
  (Z.of_nat (strlen (chars h s)) < INT_MAX)%Z ->
  exists h' nodes',
    q_insert_head p s h = Some (true, h')
    /\ head :: nodes' = l1 ++ p :: brk h :: l2
    /\ queue h' head nodes'
    /\ c_str (chars h' (value h' (brk h))) = c_str (chars h s)
    /\ (forall a, In a nodes ->
          c_str (chars h' (value h' a)) = c_str (chars h (value h a)))
    /\ budget h' = b
    /\ (forall a, live h a = true -> live h' a = true /\ chars h' a = chars h a).
Proof.
  intros Q Hsplit Hbudget Hs Hterm Hfit.
  destruct (heap_ok _ _ _ Q) as (H0 & Hbrk & Hfree).
  set (e := brk h) in *. set (v := S e).
  assert (Hp : live h p = true).
  { apply (queue_live h head nodes Q). rewrite Hsplit. apply in_elt. }
  assert (Hnp : live h (next h p) = true).
  { pose proof (linked _ _ _ Q) as Hpath.
    change (head :: nodes ++ [head]) with ((head :: nodes) ++ [head]) in Hpath.
    rewrite Hsplit, <- app_assoc in Hpath. cbn [app] in Hpath.
    destruct (l2 ++ [head]) as [|x B] eqn:Htail; [destruct l2; discriminate|].
    destruct (path_wired h l1 p x B Hpath) as [-> _].
    apply (queue_live h head nodes Q).
    destruct l2 as [|y l2']; cbn in Htail; injection Htail as <- <-.
    - left. reflexivity.
    - rewrite Hsplit. apply in_or_app. right. right. left. reflexivity. }
  destruct (insert_run h p s b H0 Hbrk Hfree Hbudget Hp Hnp Hs Hterm Hfit)
    as (h' & Hrun & Hn' & Hp' & Hv' & Hc' & Hl' & Hb' & Hbu').
  fold e in Hn', Hp', Hv', Hc', Hl', Hb'. fold v in Hv', Hc', Hl', Hb'.
  assert (Hfresh : forall a, live h a = true -> a <> e /\ a <> v).
  { intros a Ha. split; intros ->; rewrite Hfree in Ha by (unfold v, e; lia);
      discriminate. }
  assert (Hblocks : forall a, In a (head :: nodes ++ map (value h) nodes) ->
                              a <> e /\ a <> v).
  { intros a Ha. apply Hfresh. pose proof (allocated _ _ _ Q) as Hl.
    rewrite Forall_forall in Hl. apply Hl. exact Ha. }
  assert (Hval : forall a, In a nodes -> value h' a = value h a).
  { intros a Ha. rewrite Hv'. apply store_other.
    apply Hblocks. right. apply in_or_app. left. exact Ha. }
  assert (Hchars : forall a, live h a = true -> chars h' a = chars h a).
  { intros a Ha. rewrite Hc'. destruct (Hfresh a Ha).
    rewrite !store_other by assumption. reflexivity. }
  assert (Hlive : forall a, live h a = true -> live h' a = true).
  { intros a Ha. rewrite Hl'. destruct (Hfresh a Ha).
    rewrite !store_other by assumption. exact Ha. }
  set (nodes' := tl (l1 ++ p :: e :: l2)).
  assert (Hnodes' : head :: nodes' = l1 ++ p :: e :: l2).
  { unfold nodes'. destruct l1 as [|y l1]; cbn in Hsplit |- *;
      injection Hsplit as <- _; reflexivity. }
  assert (Hperm : Permutation nodes' (e :: nodes)).
  { apply (Permutation_cons_inv (a := head)).
    rewrite Hnodes'. apply Permutation_sym.
    eapply Permutation_trans; [apply perm_swap|].
    rewrite Hsplit. eapply Permutation_trans; [apply Permutation_middle|].
    apply Permutation_app_head. apply perm_swap. }
  assert (He_notin : ~ In e nodes).
  { intros Hin. destruct (Hblocks e); [|congruence].
    right. apply in_or_app. left. exact Hin. }
  assert (Hperm_blocks :
            Permutation (head :: nodes' ++ map (value h') nodes')
                        (e :: v :: head :: nodes ++ map (value h) nodes)).
  { assert (Hmap : map (value h') (e :: nodes) = v :: map (value h) nodes).
    { cbn [map]. f_equal; [rewrite Hv'; apply store_same|].
      apply map_ext_in. exact Hval. }
    eapply Permutation_trans.
    { apply perm_skip. apply Permutation_app;
        [exact Hperm | apply Permutation_map; exact Hperm]. }
    rewrite Hmap. cbn [app].
    eapply Permutation_trans; [apply perm_swap|]. apply perm_skip.
    eapply Permutation_trans; [|apply perm_swap]. apply perm_skip.
    apply Permutation_sym, Permutation_middle. }
  exists h', nodes'. split; [exact Hrun|]. split; [exact Hnodes'|].
  split; [|split; [|split; [|split; [exact Hbu'|]]]].
  - constructor.
    + rewrite Hl', Hb'. split; [|split].
      * rewrite !store_other by (unfold v, e, NULL; lia). exact H0.
      * lia.
      * intros a Ha. rewrite !store_other by (unfold v, e in *; lia).
        apply Hfree. unfold v, e in *. lia.
    + apply (Permutation_NoDup (Permutation_sym Hperm_blocks)).
      constructor; [|constructor; [|apply (distinct _ _ _ Q)]].
      * intros [Hev | Hin]; [unfold v in Hev; lia|].
        destruct (Hblocks e Hin). congruence.
      * intros Hin. destruct (Hblocks v Hin). congruence.
    + change (head :: nodes' ++ [head]) with ((head :: nodes') ++ [head]).
      rewrite Hnodes', <- app_assoc. cbn [app].
      apply (ring_add h h' l1 p l2 head e).
      * destruct l1 as [|y l1]; cbn in Hsplit |- *; injection Hsplit as <- _;
          reflexivity.
      * rewrite <- Hsplit. pose proof (distinct _ _ _ Q) as Hd.
        change (head :: nodes ++ map (value h) nodes)
          with ((head :: nodes) ++ map (value h) nodes) in Hd.
        apply (NoDup_app_remove_r _ _ Hd).
      * rewrite <- Hsplit. intros Hin. destruct (Hblocks e); [|congruence].
        destruct Hin as [<-|Hin]; [left; reflexivity|].
        right. apply in_or_app. left. exact Hin.
      * pose proof (linked _ _ _ Q) as Hpath.
        change (head :: nodes ++ [head]) with ((head :: nodes) ++ [head]) in Hpath.
        rewrite Hsplit, <- app_assoc in Hpath. exact Hpath.
      * exact Hn'.
      * exact Hp'.
    + apply (Permutation_Forall (Permutation_sym Hperm_blocks)).
      constructor; [rewrite Hl'; rewrite store_other by (unfold v; lia);
                    apply store_same|].
      constructor; [rewrite Hl'; apply store_same|].
      pose proof (allocated _ _ _ Q) as Hall. rewrite Forall_forall in *.
      intros a Ha. apply Hlive. apply Hall. exact Ha.
    + apply (Permutation_Forall (Permutation_sym Hperm)). constructor.
      * rewrite Hv', store_same, Hc', store_same. apply terminated_snoc.
      * pose proof (strings_end _ _ _ Q) as Hall. rewrite Forall_forall in *.
        intros a Ha. rewrite (Hval a Ha), Hchars; [apply Hall; exact Ha|].
        apply (queue_live_value h head nodes Q). exact Ha.
  - rewrite Hv', store_same, Hc', store_same. apply c_str_snoc.
  - intros a Ha. rewrite (Hval a Ha), Hchars; [reflexivity|].
    apply (queue_live_value h head nodes Q). exact Ha.
  - intros a Ha. split; [apply Hlive | apply Hchars]; exact Ha.
Qed.

End QueueInsert.

Module QueueInsertFacts.

Import Queue QueueFacts QueueOps QueueInsert.

(** A queue stays one when nothing changes at its blocks. *)
Lemma queue_frame h h' head nodes :
  queue h head nodes ->
  (live h' NULL = false /\ 1 <= brk h'
   /\ forall a, brk h' <= a -> live h' a = false) ->
  (forall a, In a (head :: nodes) ->
             next h' a = next h a /\ prev h' a = prev h a) ->
  (forall a, In a nodes ->
             value h' a = value h a
             /\ chars h' (value h a) = chars h (value h a)) ->
  (forall a, In a (head :: nodes ++ map (value h) nodes) -> live h' a = true) ->
  queue h' head nodes /\ contents h' nodes = contents h nodes.
Proof.
  intros Q Hok Hlinks Hvals Hlive.
  assert (Hmap : map (value h') nodes = map (value h) nodes)
    by (apply map_ext_in; intros a Ha; apply Hvals; exact Ha).
  split.
  - constructor.
    + exact Hok.
    + rewrite Hmap. apply (distinct _ _ _ Q).
    + apply (path_frame h); [apply (linked _ _ _ Q) | |].
      * intros x Hx.
        change (head :: nodes ++ [head]) with ((head :: nodes) ++ [head]) in Hx.
        rewrite removelast_snoc in Hx. apply Hlinks. exact Hx.
      * intros x Hx. cbn [tl] in Hx. apply Hlinks.
        apply in_app_or in Hx as [Hx | [<- | []]]; [right; exact Hx|].
        left. reflexivity.
    + rewrite Hmap. apply Forall_forall. exact Hlive.
    + pose proof (strings_end _ _ _ Q) as Hall. rewrite Forall_forall in *.
      intros a Ha. destruct (Hvals a Ha) as [-> ->]. apply Hall. exact Ha.
  - unfold contents. apply map_ext_in. intros a Ha.
    destruct (Hvals a Ha) as [-> ->]. reflexivity.
Qed.

(** [q_insert_head(p, s)] when [malloc] fails, on the element or on its
    string: nothing is inserted and nothing stays allocated. *)
Lemma insert_fails h head nodes p s :
  queue h head nodes -> In p (head :: nodes) ->
  budget h <= 1 ->
  live h s = true -> terminated (chars h s) = true ->
  (Z.of_nat (strlen (chars h s)) < INT_MAX)%Z ->
  exists h',
    q_insert_head p s h = Some (false, h')
    /\ queue h' head nodes
    /\ contents h' nodes = contents h nodes
    /\ (forall a, live h' a = live h a)
    /\ budget h' = 0.
Proof.
  intros Q Hin Hbudget Hs Hterm Hfit.
  destruct (heap_ok _ _ _ Q) as (H0 & Hbrk & Hfree).
  assert (Hp : live h p = true) by (apply (queue_live h head nodes Q); exact Hin).
  assert (Hpn : p <> NULL) by (intros ->; congruence).
  assert (Hsn : s <> NULL) by (intros ->; congruence).
  assert (Hse : s <> brk h)
    by (intros ->; rewrite Hfree in Hs by lia; discriminate).
  unfold q_insert_head.
  rewrite (eqb_false p NULL Hpn), (eqb_false s NULL Hsn). cbn [orb].
  unfold and_then at 1. unfold malloc at 1.
  destruct (budget h) as [|[|b]] eqn:Hb; [| |lia].
  - rewrite Nat.eqb_refl. exists h. unfold pure.
    split; [reflexivity|]. split; [exact Q|]. split; [reflexivity|].
    split; [reflexivity | exact Hb].
  - rewrite (eqb_false (brk h) NULL) by (unfold NULL; lia).
    unfold and_then at 1. unfold strlen_at. cbn [live chars]. stores.
    rewrite Hs, Hterm. cbn [andb].
    unfold and_then at 1. unfold to_int.
    destruct (Z.ltb_spec (Z.of_nat (strlen (chars h s))) INT_MAX)
      as [_ | Hover]; [|lia].
    unfold and_then at 1. unfold malloc at 1. cbn [budget].
    unfold and_then at 1. unfold set_value. cbn [live]. stores.
    rewrite Nat.eqb_refl.
    unfold and_then at 1. unfold free. cbn [live].
    rewrite (eqb_false (brk h) NULL) by (unfold NULL; lia). stores.
    unfold pure. cbn [next prev value chars live brk budget].
    eexists. split; [reflexivity|].
    assert (Hblocks : forall a, In a (head :: nodes ++ map (value h) nodes) ->
                                a <> brk h).
    { intros a Ha E. pose proof (allocated _ _ _ Q) as Hl.
      rewrite Forall_forall in Hl. specialize (Hl a Ha).
      rewrite E, Hfree in Hl by lia. discriminate. }
    assert (Hsame : forall a,
              store (store (live h) (brk h) true) (brk h) false a = live h a).
    { intros a. destruct (Nat.eq_dec a (brk h)) as [->|Hne].
      - rewrite store_same. symmetry. apply Hfree. lia.
      - rewrite !store_other by exact Hne. reflexivity. }
    match goal with
    | |- queue ?hh _ _ /\ _ =>
        destruct (queue_frame h hh head nodes Q) as [Q' Hc']
    end.
    + cbn [live brk]. split; [rewrite Hsame; exact H0|]. split; [lia|].
      intros a Ha. rewrite Hsame. apply Hfree. lia.
    + intros a Ha. cbn [next prev]. split; reflexivity.
    + intros a Ha. cbn [value chars]. split; apply store_other.
      * apply Hblocks. right. apply in_or_app. left. exact Ha.
      * apply Hblocks. right. apply in_or_app. right. apply in_map. exact Ha.
    + intros a Ha. cbn [live]. rewrite Hsame.
      pose proof (allocated _ _ _ Q) as Hl. rewrite Forall_forall in Hl.
      apply Hl. exact Ha.
    + split; [exact Q'|]. split; [exact Hc'|]. split; [exact Hsame|].
      reflexivity.
Qed.

End QueueInsertFacts.

Module QueueRemove.

Import Queue QueueFacts QueueOps QueueInsert QueueInsertFacts.

Lemma c_str_nonzero buf : Forall (fun c => c <> 0%Z) (c_str buf).
Proof.
  unfold c_str. induction buf as [|c buf IH]; cbn [strlen firstn]; [constructor|].
  destruct (Z.eqb_spec c 0); cbn [firstn]; constructor; assumption.
Qed.

Lemma c_str_prefix l rest :
  Forall (fun c => c <> 0%Z) l -> c_str (l ++ 0%Z :: rest) = l.
Proof.
  unfold c_str. induction 1 as [|c l Hc Hl IH]; cbn [app strlen firstn].
  - reflexivity.
  - destruct (Z.eqb_spec c 0); [contradiction|]. cbn [firstn]. rewrite IH.
    reflexivity.
Qed.

Lemma Forall_firstn (A : Type) (P : A -> Prop) n (l : list A) :
  Forall P l -> Forall P (firstn n l).
Proof.
  intros H. rewrite <- (firstn_skipn n l) in H.
  apply Forall_app in H. apply H.
Qed.

Lemma list_set_app (A : Type) (l1 l2 : list A) n v :
  length l1 = n -> list_set n v (l1 ++ l2) = l1 ++ list_set 0 v l2.
Proof.
  intros <-. induction l1 as [|x l1 IH]; cbn [app length list_set].
  - reflexivity.
  - rewrite IH. reflexivity.
Qed.

(** What [strncpy(sp, src, n); sp[n] = 0;] leaves in [sp]: the string of
    [src] cut to [n] characters. *)
Lemma copy_truncated src old n :
  n < length old ->
  c_str (list_set n 0%Z (firstn n (c_str src ++ repeat 0%Z n) ++ skipn n old))
  = firstn n (c_str src).
Proof.
  intros Hn.
  assert (Hlen : length (firstn n (c_str src ++ repeat 0%Z n)) = n).
  { apply firstn_length_le. rewrite length_app, repeat_length. lia. }
  rewrite list_set_app by exact Hlen.
  destruct (skipn n old) as [|c rest] eqn:Hskip.
  { apply (f_equal (@length Z)) in Hskip. rewrite length_skipn in Hskip.
    cbn in Hskip. lia. }
  cbn [list_set].
  destruct (Nat.le_gt_cases n (strlen src)) as [Hge | Hlt].
  - rewrite firstn_app, c_str_length.
    replace (n - strlen src) with 0 by lia. cbn [firstn]. rewrite app_nil_r.
    apply c_str_prefix. apply Forall_firstn. apply c_str_nonzero.
  - destruct n as [|k]; [lia|].
    rewrite firstn_app, c_str_length.
    rewrite (firstn_all2 (c_str src)) by (rewrite c_str_length; lia).
    replace (S k - strlen src) with (S (k - strlen src)) by lia.
    cbn [repeat firstn].
    rewrite <- app_assoc. cbn [app].
    apply c_str_prefix. apply c_str_nonzero.
Qed.

Lemma copy_out_run h sp v bufsize :
  live h sp = true -> live h v = true -> sp <> v ->
  1 <= bufsize <= length (chars h sp) ->
  terminated (chars h v) = true ->
  exists h',
    copy_out sp v bufsize h = Some (tt, h')
    /\ next h' = next h /\ prev h' = prev h /\ value h' = value h
    /\ live h' = live h /\ brk h' = brk h /\ budget h' = budget h
    /\ (forall a, a <> sp -> chars h' a = chars h a)
    /\ c_str (chars h' sp) = firstn (bufsize - 1) (c_str (chars h v))
    /\ terminated (chars h' sp) = true.
Proof.
  intros Hsp Hv Hne Hsize Hterm. unfold copy_out, and_then, strncpy.
  rewrite Hsp, Hv, (eqb_false sp v Hne), Hterm.
  replace (bufsize - 1 <=? length (chars h sp)) with true
    by (symmetry; apply Nat.leb_le; lia).
  cbn [andb orb negb]. unfold set_char. cbn [live chars]. rewrite Hsp.
  rewrite store_same.
  set (copied := firstn (bufsize - 1)
                   (c_str (chars h v) ++ repeat 0%Z (bufsize - 1))).
  assert (Hlen : length (copied ++ skipn (bufsize - 1) (chars h sp))
                 = length (chars h sp)).
  { rewrite length_app, length_skipn. unfold copied.
    rewrite firstn_length_le by (rewrite length_app, repeat_length; lia). lia. }
  rewrite Hlen.
  replace (bufsize - 1 <? length (chars h sp)) with true
    by (symmetry; apply Nat.ltb_lt; lia).
  cbn [andb]. eexists. split; [reflexivity|].
  cbn [next prev value chars live brk budget].
  repeat (split; [reflexivity|]). split; [|split].
  - intros a Ha. rewrite !store_other by exact Ha. reflexivity.
  - rewrite store_same. unfold copied. apply copy_truncated. lia.
  - rewrite store_same. unfold terminated. apply Nat.ltb_lt.
    rewrite length_list_set, Hlen.
    rewrite <- c_str_length. unfold copied. rewrite copy_truncated by lia.
    pose proof (firstn_le_length (bufsize - 1) (c_str (chars h v))). lia.
Qed.

Lemma perm_take_out (A : Type) (l1 l2 : list A) p x :
  Permutation (l1 ++ p :: x :: l2) (x :: l1 ++ p :: l2).
Proof.
  replace (l1 ++ p :: x :: l2) with ((l1 ++ [p]) ++ x :: l2)
    by (rewrite <- app_assoc; reflexivity).
  replace (l1 ++ p :: l2) with ((l1 ++ [p]) ++ l2)
    by (rewrite <- app_assoc; reflexivity).
  apply Permutation_sym, Permutation_middle.
Qed.

(** [q_remove_head(p, sp, bufsize)] with [p] the head or an element of a
    queue and an element [x] after it: [x] is unlinked and returned, still
    allocated, and its string is copied to [sp], cut to [bufsize - 1]
    characters. *)
Lemma remove_after_ok h head nodes l1 p x l2 sp bufsize :
  queue h head nodes ->
  head :: nodes = l1 ++ p :: x :: l2 ->
  receives h head nodes sp bufsize ->
  exists h' nodes',
    q_remove_head p sp bufsize h = Some (x, h')
    /\ head :: nodes' = l1 ++ p :: l2
    /\ queue h' head nodes'
    /\ (forall a, In a nodes ->
          value h' a = value h a
          /\ chars h' (value h a) = chars h (value h a))
    /\ live h' = live h /\ brk h' = brk h /\ budget h' = budget h
    /\ (negb (sp =? NULL) && (0 <? bufsize) = true ->
        c_str (chars h' sp) = firstn (bufsize - 1) (c_str (chars h (value h x)))
        /\ terminated (chars h' sp) = true).
Proof.
  intros Q Hsplit Hsp.
  assert (Hnd : NoDup (head :: nodes)).
  { pose proof (distinct _ _ _ Q) as Hd.
    change (head :: nodes ++ map (value h) nodes)
      with ((head :: nodes) ++ map (value h) nodes) in Hd.
    apply (NoDup_app_remove_r _ _ Hd). }
  assert (Hp_in : In p (head :: nodes)) by (rewrite Hsplit; apply in_elt).
  assert (Hx_in : In x nodes).
  { destruct l1 as [|y l1]; cbn in Hsplit; injection Hsplit as _ ->.
    - left. reflexivity.
    - apply in_or_app. right. right. left. reflexivity. }
  assert (Hp : live h p = true) by (apply (queue_live h head nodes Q), Hp_in).
  assert (Hx : live h x = true)
    by (apply (queue_live h head nodes Q); right; exact Hx_in).
  assert (Hpn : p <> NULL) by (apply (live_not_null h head nodes Q), Hp).
  assert (Hxp : x <> p).
  { rewrite Hsplit in Hnd. intros ->. apply NoDup_remove_2 in Hnd.
    apply Hnd. apply in_or_app. right. left. reflexivity. }
  pose proof (linked _ _ _ Q) as Hpath.
  change (head :: nodes ++ [head]) with ((head :: nodes) ++ [head]) in Hpath.
  rewrite Hsplit, <- app_assoc in Hpath. cbn [app] in Hpath.
  assert (Hnext_p : next h p = x) by (apply (path_wired h l1 p x _ Hpath)).
  assert (Hprev_x : prev h x = p) by (apply (path_wired h l1 p x _ Hpath)).
  assert (Hnext_x : In (next h x) (head :: nodes)).
  { destruct (l2 ++ [head]) as [|z B] eqn:Htail; [destruct l2; discriminate|].
    replace (l1 ++ p :: x :: z :: B) with ((l1 ++ [p]) ++ x :: z :: B) in Hpath
      by (rewrite <- app_assoc; reflexivity).
    destruct (path_wired h (l1 ++ [p]) x z B Hpath) as [-> _].
    destruct l2 as [|y l2']; cbn in Htail; injection Htail as <- <-.
    - left. reflexivity.
    - rewrite Hsplit. apply in_or_app. right. right. right. left. reflexivity. }
  assert (Hnx : live h (next h x) = true)
    by (apply (queue_live h head nodes Q), Hnext_x).
  (* the copy *)
  assert (Hcopy : exists h1,
            (if negb (sp =? NULL) && (0 <? bufsize)
             then let* v := get_value x in copy_out sp v bufsize
             else pure tt) h = Some (tt, h1)
            /\ next h1 = next h /\ prev h1 = prev h /\ value h1 = value h
            /\ live h1 = live h /\ brk h1 = brk h /\ budget h1 = budget h
            /\ (forall a, In a nodes -> chars h1 (value h a) = chars h (value h a))
            /\ (negb (sp =? NULL) && (0 <? bufsize) = true ->
                c_str (chars h1 sp)
                = firstn (bufsize - 1) (c_str (chars h (value h x)))
                /\ terminated (chars h1 sp) = true)).
  { destruct (negb (sp =? NULL) && (0 <? bufsize)) eqn:Hcond.
    - destruct (Hsp Hcond) as (Hlsp & Hsize & Hout).
      apply andb_true_iff in Hcond as [_ Hpos]. apply Nat.ltb_lt in Hpos.
      assert (Hv : live h (value h x) = true)
        by (apply (queue_live_value h head nodes Q), Hx_in).
      assert (Hne : sp <> value h x).
      { intros E. apply Hout. right. apply in_or_app. right. rewrite E.
        apply in_map. exact Hx_in. }
      assert (Hterm : terminated (chars h (value h x)) = true).
      { pose proof (strings_end _ _ _ Q) as Hall. rewrite Forall_forall in Hall.
        apply Hall. exact Hx_in. }
      destruct (copy_out_run h sp (value h x) bufsize Hlsp Hv Hne ltac:(lia) Hterm)
        as (h1 & Hrun & Hn1 & Hp1 & Hv1 & Hl1 & Hb1 & Hbu1 & Hc1 & Hstr & Ht1).
      exists h1. split.
      { unfold and_then at 1. unfold get_value. rewrite Hx. exact Hrun. }
      repeat (split; [assumption|]). split; [|intros _; split; assumption].
      intros a Ha. apply Hc1. intros E. apply Hout. right. apply in_or_app.
      right. rewrite <- E. apply in_map. exact Ha.
    - exists h. split; [reflexivity|]. repeat (split; [reflexivity|]).
      intros H. discriminate H. }
  destruct Hcopy as (h1 & Hrun1 & Hn1 & Hp1 & Hv1 & Hl1 & Hb1 & Hbu1 & Hc1 & Hstr).
  destruct (list_del_run h1 x) as (h' & Hrun2 & Hn' & Hp' & Hrel).
  { rewrite Hl1. exact Hx. }
  { rewrite Hl1, Hn1. exact Hnx. }
  { rewrite Hl1, Hp1, Hprev_x. exact Hp. }
  destruct Hrel as (Hv' & Hc' & Hl' & Hb' & Hbu').
  rewrite Hn1, Hp1 in Hn', Hp'.
  set (nodes' := tl (l1 ++ p :: l2)).
  assert (Hnodes' : head :: nodes' = l1 ++ p :: l2).
  { unfold nodes'. destruct l1 as [|y l1]; cbn in Hsplit |- *;
      injection Hsplit as <- _; reflexivity. }
  assert (Hperm : Permutation nodes (x :: nodes')).
  { apply (Permutation_cons_inv (a := head)).
    eapply Permutation_trans; [|apply perm_swap].
    rewrite Hsplit, Hnodes'. apply perm_take_out. }
  assert (Hsub : forall a, In a nodes' -> In a nodes).
  { intros a Ha. apply (Permutation_in _ (Permutation_sym Hperm)). right.
    exact Ha. }
  assert (Hperm_blocks :
            Permutation (head :: nodes ++ map (value h) nodes)
                        (x :: value h x
                           :: head :: nodes' ++ map (value h) nodes')).
  { eapply Permutation_trans.
    { apply perm_skip. apply Permutation_app;
        [exact Hperm | apply Permutation_map; exact Hperm]. }
    cbn [app map].
    eapply Permutation_trans; [apply perm_swap|]. apply perm_skip.
    eapply Permutation_trans; [|apply perm_swap]. apply perm_skip.
    apply Permutation_sym, Permutation_middle. }
  exists h', nodes'. split.
  { unfold q_remove_head. rewrite (eqb_false p NULL Hpn).
    unfold list_empty. unfold copy_out, and_then in *. unfold get_next.
    rewrite Hp, Hnext_p. unfold pure at 1. rewrite (eqb_false x p Hxp).
    rewrite Hp, Hnext_p, Hrun1, Hrun2. reflexivity. }
  split; [exact Hnodes'|].
  assert (Hvals : forall a, In a nodes ->
            value h' a = value h a
            /\ chars h' (value h a) = chars h (value h a)).
  { intros a Ha. rewrite Hv', Hv1, Hc'. split; [reflexivity|].
    apply Hc1. exact Ha. }
  split; [|split; [exact Hvals|]].
  - constructor.
    + rewrite Hl', Hl1, Hb', Hb1. apply (heap_ok _ _ _ Q).
    + pose proof (Permutation_NoDup Hperm_blocks (distinct _ _ _ Q)) as Hd.
      apply NoDup_cons_iff in Hd as [_ Hd].
      apply NoDup_cons_iff in Hd as [_ Hd].
      replace (map (value h') nodes') with (map (value h) nodes'); [exact Hd|].
      apply map_ext_in. intros a Ha. symmetry. apply Hvals, Hsub, Ha.
    + assert (HF : exists F, l1 ++ [p] = head :: F).
      { destruct l1 as [|y l1']; cbn [app] in Hsplit |- *;
          injection Hsplit as <- _; eexists; reflexivity. }
      destruct HF as (F & HF).
      change (head :: nodes' ++ [head]) with ((head :: nodes') ++ [head]).
      rewrite Hnodes'.
      replace ((l1 ++ p :: l2) ++ [head]) with ((l1 ++ [p]) ++ l2 ++ [head])
        by (rewrite <- !app_assoc; reflexivity).
      rewrite HF. cbn [app].
      apply (ring_del h h' head F x l2).
      * change (head :: F ++ x :: l2) with ((head :: F) ++ x :: l2).
        rewrite <- HF, <- app_assoc. cbn [app]. rewrite <- Hsplit. exact Hnd.
      * change (head :: F ++ x :: l2 ++ [head])
          with ((head :: F) ++ x :: l2 ++ [head]).
        rewrite <- HF, <- app_assoc. exact Hpath.
      * exact Hn'.
      * exact Hp'.
    + pose proof (Permutation_Forall Hperm_blocks (allocated _ _ _ Q)) as Hall.
      apply Forall_inv_tail, Forall_inv_tail in Hall.
      replace (map (value h') nodes') with (map (value h) nodes');
        [rewrite Hl', Hl1; exact Hall|].
      apply map_ext_in. intros a Ha. symmetry. apply Hvals, Hsub, Ha.
    + pose proof (strings_end _ _ _ Q) as Hall. rewrite Forall_forall in *.
      intros a Ha. destruct (Hvals a (Hsub a Ha)) as [-> ->].
      apply Hall, Hsub, Ha.
  - rewrite Hl', Hl1, Hb', Hb1, Hbu', Hbu1. repeat (split; [reflexivity|]).
    rewrite Hc'. exact Hstr.
Qed.

End QueueRemove.

Module QueueSpecs.

Import Queue QueueFacts QueueOps QueueInsert QueueInsertFacts QueueRemove.

Lemma contents_ext h h' nodes :
  (forall a, In a nodes ->
     c_str (chars h' (value h' a)) = c_str (chars h (value h a))) ->
  contents h' nodes = contents h nodes.
Proof. intros H. unfold contents. apply map_ext_in. exact H. Qed.

Lemma and_then_run (A B : Type) (m : M A) (k : A -> M B) h a h1 :
  m h = Some (a, h1) -> and_then m k h = k a h1.
Proof. intros H. unfold and_then. rewrite H. reflexivity. Qed.

(** X14: [q_insert_head]: with two allocations left the string is copied into a
    new element at the front of the queue; with fewer the call returns
    false, the queue is as it was and nothing stays allocated. *)
Theorem q_insert_head_spec h head nodes s :
  queue h head nodes ->
  live h s = true -> terminated (chars h s) = true ->
  (Z.of_nat (strlen (chars h s)) < INT_MAX)%Z ->
  if 2 <=? budget h then
    exists h' e,
      q_insert_head head s h = Some (true, h')
      /\ queue h' head (e :: nodes)
      /\ contents h' (e :: nodes) = c_str (chars h s) :: contents h nodes
  else
    exists h',
      q_insert_head head s h = Some (false, h')
      /\ queue h' head nodes
      /\ contents h' nodes = contents h nodes
      /\ forall a, live h' a = live h a.
Proof.
  intros Q Hs Hterm Hfit. destruct (Nat.leb_spec 2 (budget h)) as [Hb | Hb].
  - destruct (budget h) as [|[|b]] eqn:Hbudget; try lia.
    destruct (insert_after_ok h head nodes [] head nodes s b Q eq_refl Hbudget
                Hs Hterm Hfit)
      as (h' & nodes' & Hrun & Hnodes' & Q' & Hnew & Hold & _).
    cbn [app] in Hnodes'. injection Hnodes' as ->.
    exists h', (brk h). split; [exact Hrun|]. split; [exact Q'|].
    unfold contents. cbn [map]. f_equal; [exact Hnew|].
    apply map_ext_in. exact Hold.
  - destruct (insert_fails h head nodes head s Q (or_introl eq_refl)
                ltac:(lia) Hs Hterm Hfit)
      as (h' & Hrun & Q' & Hc & Hl & _).
    exists h'. auto.
Qed.

(** X15: [q_insert_tail]: the same, at the back of the queue. *)
Theorem q_insert_tail_spec h head nodes s :
  queue h head nodes ->
  live h s = true -> terminated (chars h s) = true ->
  (Z.of_nat (strlen (chars h s)) < INT_MAX)%Z ->
  if 2 <=? budget h then
    exists h' e,
      q_insert_tail head s h = Some (true, h')
      /\ queue h' head (nodes ++ [e])
      /\ contents h' (nodes ++ [e]) = contents h nodes ++ [c_str (chars h s)]
  else
    exists h',
      q_insert_tail head s h = Some (false, h')
      /\ queue h' head nodes
      /\ contents h' nodes = contents h nodes
      /\ forall a, live h' a = live h a.
Proof.
  intros Q Hs Hterm Hfit.
  assert (Hhead : live h head = true)
    by (apply (queue_live h head nodes Q); left; reflexivity).
  assert (Hhn : head <> NULL) by (apply (live_not_null h head nodes Q), Hhead).
  assert (Hsn : s <> NULL) by (apply (live_not_null h head nodes Q), Hs).
  assert (Hlast : q_insert_tail head s h
                  = q_insert_head (last nodes head) s h).
  { unfold q_insert_tail. rewrite (eqb_false _ _ Hhn), (eqb_false _ _ Hsn).
    cbn [orb].
    apply (and_then_run _ _ (get_prev head) (fun t => q_insert_head t s)).
    unfold get_prev. rewrite Hhead.
    rewrite (queue_prev_head h head nodes Q). reflexivity. }
  rewrite Hlast.
  destruct (exists_last (l := head :: nodes) ltac:(discriminate))
    as (l1 & p & Hsplit).
  assert (Hp : last nodes head = p).
  { destruct l1 as [|y l1]; cbn in Hsplit; injection Hsplit as Hy Hn; subst.
    - reflexivity.
    - apply last_last. }
  rewrite Hp.
  destruct (Nat.leb_spec 2 (budget h)) as [Hb | Hb].
  - destruct (budget h) as [|[|b]] eqn:Hbudget; try lia.
    destruct (insert_after_ok h head nodes l1 p [] s b Q Hsplit Hbudget
                Hs Hterm Hfit)
      as (h' & nodes' & Hrun & Hnodes' & Q' & Hnew & Hold & _).
    assert (nodes' = nodes ++ [brk h]) as ->.
    { replace (l1 ++ [p; brk h]) with ((l1 ++ [p]) ++ [brk h]) in Hnodes'
        by (rewrite <- app_assoc; reflexivity).
      rewrite <- Hsplit in Hnodes'. cbn [app] in Hnodes'.
      injection Hnodes' as ->. reflexivity. }
    exists h', (brk h). split; [exact Hrun|]. split; [exact Q'|].
    unfold contents. rewrite map_app. cbn [map]. f_equal.
    + apply map_ext_in. exact Hold.
    + f_equal. exact Hnew.
  - destruct (insert_fails h head nodes p s Q) as (h' & Hrun & Q' & Hc & Hl & _);
      try assumption; try lia.
    { rewrite Hsplit. apply in_elt. }
    exists h'. auto.
Qed.

End QueueSpecs.

Module QueueSpecs2.

Import Queue QueueFacts QueueOps QueueInsert QueueInsertFacts QueueRemove QueueSpecs.

Lemma remove_empty h head sp bufsize :
  queue h head [] -> q_remove_head head sp bufsize h = Some (NULL, h).
Proof.
  intros Q.
  assert (Hhead : live h head = true)
    by (apply (queue_live h head [] Q); left; reflexivity).
  assert (Hhn : head <> NULL) by (apply (live_not_null h head [] Q), Hhead).
  unfold q_remove_head. rewrite (eqb_false _ _ Hhn).
  unfold list_empty, and_then, get_next. rewrite Hhead.
  rewrite (queue_next_head h head [] Q). cbn [hd]. unfold pure.
  rewrite Nat.eqb_refl. reflexivity.
Qed.

Lemma remove_after_spec h head nodes l1 p x l2 sp bufsize :
  queue h head nodes ->
  head :: nodes = l1 ++ p :: x :: l2 ->
  receives h head nodes sp bufsize ->
  exists h' nodes',
    q_remove_head p sp bufsize h = Some (x, h')
    /\ head :: nodes' = l1 ++ p :: l2
    /\ queue h' head nodes'
    /\ contents h' nodes' = contents h nodes'
    /\ handed_over h h' x (c_str (chars h (value h x))) sp bufsize.
Proof.
  intros Q Hsplit Hsp.
  destruct (remove_after_ok h head nodes l1 p x l2 sp bufsize Q Hsplit Hsp)
    as (h' & nodes' & Hrun & Hnodes' & Q' & Hvals & Hl & _ & _ & Hcopy).
  assert (Hx_in : In x nodes).
  { destruct l1 as [|y l1]; cbn in Hsplit; injection Hsplit as _ ->.
    - left. reflexivity.
    - apply in_or_app. right. right. left. reflexivity. }
  assert (Hsub : forall a, In a nodes' -> In a nodes).
  { intros a Ha.
    assert (In a (head :: nodes')) as Hin by (right; exact Ha).
    rewrite Hnodes' in Hin.
    assert (In a (head :: nodes)) as [<- | H].
    { rewrite Hsplit. apply in_app_or in Hin as [Hin | [<- | Hin]].
      - apply in_or_app. left. exact Hin.
      - apply in_elt.
      - apply in_or_app. right. right. right. exact Hin. }
    - exfalso. apply (queue_head_not_node h' head nodes' Q'). exact Ha.
    - exact H. }
  exists h', nodes'. split; [exact Hrun|]. split; [exact Hnodes'|].
  split; [exact Q'|]. split.
  - apply contents_ext. intros a Ha.
    destruct (Hvals a (Hsub a Ha)) as [-> ->]. reflexivity.
  - destruct (Hvals x Hx_in) as [Hvx Hcx].
    unfold handed_over. rewrite Hvx, Hcx, Hl.
    split; [apply (queue_live h head nodes Q); right; exact Hx_in|].
    split; [apply (queue_live_value h head nodes Q), Hx_in|].
    split.
    { pose proof (distinct _ _ _ Q) as Hd. apply NoDup_cons_iff in Hd as [_ Hd].
      apply NoDup_app_iff in Hd as (_ & _ & Hd). intros E.
      apply (Hd x Hx_in). rewrite E at 1. apply in_map. exact Hx_in. }
    split; [reflexivity|]. split; [reflexivity|].
    intros Hc. apply Hcopy. exact Hc.
Qed.

(** X16: [q_remove_head]: [NULL] on an empty queue, which stays as it is; else
    the first element is taken off the queue and handed over. *)
Theorem q_remove_head_spec h head nodes sp bufsize :
  queue h head nodes ->
  receives h head nodes sp bufsize ->
  match nodes with
  | [] => q_remove_head head sp bufsize h = Some (NULL, h)
  | x :: rest =>
      exists h',
        q_remove_head head sp bufsize h = Some (x, h')
        /\ queue h' head rest
        /\ contents h' rest = tl (contents h nodes)
        /\ handed_over h h' x (hd [] (contents h nodes)) sp bufsize
  end.
Proof.
  intros Q Hsp. destruct nodes as [|x rest].
  - apply remove_empty. exact Q.
  - destruct (remove_after_spec h head (x :: rest) [] head x rest sp bufsize
                Q eq_refl Hsp)
      as (h' & nodes' & Hrun & Hnodes' & Q' & Hc & Hx).
    cbn [app] in Hnodes'. injection Hnodes' as ->.
    exists h'. auto.
Qed.

(** X17: [q_remove_tail]: the same, with the last element. *)
Theorem q_remove_tail_spec h head nodes sp bufsize :
  queue h head nodes ->
  receives h head nodes sp bufsize ->
  match rev nodes with
  | [] => q_remove_tail head sp bufsize h = Some (NULL, h)
  | x :: _ =>
      exists h',
        q_remove_tail head sp bufsize h = Some (x, h')
        /\ queue h' head (removelast nodes)
        /\ contents h' (removelast nodes) = removelast (contents h nodes)
        /\ handed_over h h' x (last (contents h nodes) []) sp bufsize
  end.
Proof.
  intros Q Hsp.
  assert (Hhead : live h head = true)
    by (apply (queue_live h head nodes Q); left; reflexivity).
  assert (Hhn : head <> NULL) by (apply (live_not_null h head nodes Q), Hhead).
  destruct (rev nodes) as [|x rrest] eqn:Hrev.
  - assert (nodes = []) as ->.
    { destruct nodes; [reflexivity|]. apply (f_equal (@length _)) in Hrev.
      rewrite length_rev in Hrev. discriminate. }
    unfold q_remove_tail. rewrite (eqb_false _ _ Hhn).
    unfold list_empty, and_then, get_next. rewrite Hhead.
    rewrite (queue_next_head h head [] Q). cbn [hd]. unfold pure.
    rewrite Nat.eqb_refl. reflexivity.
  - assert (Hnodes : nodes = rev rrest ++ [x]).
    { rewrite <- (rev_involutive nodes), Hrev. reflexivity. }
    set (rest := rev rrest) in *. clearbody rest. subst nodes. clear Hrev.
    rewrite removelast_last.
    destruct (exists_last (l := head :: rest) ltac:(discriminate))
      as (l1 & p & Hsplit).
    assert (Hfull : head :: rest ++ [x] = l1 ++ p :: x :: []).
    { change (head :: rest ++ [x]) with ((head :: rest) ++ [x]).
      rewrite Hsplit, <- app_assoc. reflexivity. }
    destruct (remove_after_spec h head (rest ++ [x]) l1 p x [] sp bufsize
                Q Hfull Hsp)
      as (h' & nodes' & Hrun & Hnodes' & Q' & Hc & Hx).
    rewrite <- Hsplit in Hnodes'. injection Hnodes' as ->.
    exists h'. split.
    { unfold q_remove_tail. rewrite (eqb_false _ _ Hhn).
      assert (Hx_live : live h x = true).
      { apply (queue_live h head (rest ++ [x]) Q). right. apply in_elt. }
      pose proof (linked _ _ _ Q) as Hpath.
      change (head :: (rest ++ [x]) ++ [head])
        with ((head :: rest ++ [x]) ++ [head]) in Hpath.
      rewrite Hfull, <- app_assoc in Hpath. cbn [app] in Hpath.
      destruct (path_wired h l1 p x [head] Hpath) as [_ Hprev_x].
      unfold list_empty, and_then, get_next, get_prev. rewrite Hhead.
      rewrite (queue_next_head h head (rest ++ [x]) Q). unfold pure.
      assert (Hne : hd head (rest ++ [x]) <> head).
      { intros E. apply (queue_head_not_node h head (rest ++ [x]) Q).
        rewrite <- E at 1. destruct rest; left; reflexivity. }
      rewrite (eqb_false _ _ Hne). rewrite Hhead.
      rewrite (queue_prev_head h head (rest ++ [x]) Q), last_last.
      rewrite Hx_live, Hprev_x. exact Hrun. }
    split; [exact Q'|]. split.
    + rewrite Hc. unfold contents. rewrite map_app. cbn [map].
      rewrite removelast_last. reflexivity.
    + unfold contents. rewrite map_app. cbn [map]. rewrite last_last.
      exact Hx.
Qed.

End QueueSpecs2.

Module QueueWalk.

Import Queue QueueFacts QueueOps QueueInsert QueueInsertFacts QueueRemove QueueSpecs.

Section Neighbours.

Variables (h : heap) (head : addr) (nodes : list addr).
Hypothesis Q : queue h head nodes.

(** The neighbours of an element of the queue. *)
Lemma queue_next l1 x l2 :
  nodes = l1 ++ x :: l2 -> next h x = hd head l2.
Proof.
  intros ->. pose proof (linked _ _ _ Q) as Hp.
  replace (head :: (l1 ++ x :: l2) ++ [head])
    with ((head :: l1) ++ x :: (l2 ++ [head])) in Hp
    by (cbn [app]; rewrite <- app_assoc; reflexivity).
  destruct l2 as [|y l2]; cbn [app hd] in *;
    apply (path_wired h (head :: l1) x _ _ Hp).
Qed.

Lemma queue_prev l1 x l2 :
  nodes = l1 ++ x :: l2 -> prev h x = last l1 head.
Proof.
  intros ->. pose proof (linked _ _ _ Q) as Hp.
  destruct (exists_last (l := head :: l1) ltac:(discriminate)) as (F & z & HF).
  replace (head :: (l1 ++ x :: l2) ++ [head])
    with ((head :: l1) ++ x :: (l2 ++ [head])) in Hp
    by (cbn [app]; rewrite <- app_assoc; reflexivity).
  rewrite HF, <- app_assoc in Hp. cbn [app] in Hp.
  destruct (path_wired h F z x _ Hp) as [_ ->].
  destruct F as [|y F]; cbn in HF; injection HF as Hy HF; subst.
  - reflexivity.
  - rewrite last_last. reflexivity.
Qed.

Lemma queue_node_not_head x : In x nodes -> x <> head.
Proof.
  intros Hx ->. apply (queue_head_not_node h head nodes Q). exact Hx.
Qed.

Lemma hd_in_queue l1 l2 :
  nodes = l1 ++ l2 -> In (hd head l2) (head :: nodes).
Proof.
  intros ->. destruct l2 as [|y l2]; cbn [hd]; [left; reflexivity|].
  right. apply in_elt.
Qed.

End Neighbours.

Lemma size_loop_spec h head nodes :
  queue h head nodes ->
  forall l2 l1 fuel len,
  nodes = l1 ++ l2 -> length l2 <= fuel ->
  (len + Z.of_nat (length l2) <= INT_MAX)%Z ->
  size_loop fuel head (hd head l2) len h
  = Some ((len + Z.of_nat (length l2))%Z, h).
Proof.
  intros Q. induction l2 as [|x l2 IH]; intros l1 fuel len Hsplit Hfuel Hint.
  - cbn [hd length]. destruct fuel; cbn [size_loop];
      rewrite Nat.eqb_refl, Z.add_0_r; reflexivity.
  - cbn [hd length] in *. destruct fuel as [|fuel]; [lia|]. cbn [size_loop].
    assert (Hx : In x nodes) by (rewrite Hsplit; apply in_elt).
    rewrite (eqb_false x head (queue_node_not_head h head nodes Q x Hx)).
    unfold and_then, get_next, increment.
    destruct (Z.ltb_spec len INT_MAX) as [_ | Hover]; [|lia].
    rewrite (queue_live h head nodes Q x (or_intror Hx)).
    rewrite (queue_next h head nodes Q l1 x l2 Hsplit).
    rewrite (IH (l1 ++ [x]) fuel (len + 1)%Z);
      [|rewrite <- app_assoc; exact Hsplit | lia | lia].
    f_equal. f_equal. lia.
Qed.

(** X18: [q_size]: the number of elements, when the loop is given at least that
    many iterations and the number fits an [int]; the queue is not
    touched. *)
Theorem q_size_spec h head nodes fuel :
  queue h head nodes -> length nodes <= fuel ->
  (Z.of_nat (length nodes) <= INT_MAX)%Z ->
  q_size fuel head h = Some (Z.of_nat (length nodes), h).
Proof.
  intros Q Hfuel Hint.
  assert (Hhead : live h head = true)
    by (apply (queue_live h head nodes Q); left; reflexivity).
  unfold q_size.
  rewrite (eqb_false head NULL (live_not_null h head nodes Q head Hhead)).
  unfold and_then, get_next. rewrite Hhead.
  rewrite (queue_next_head h head nodes Q).
  apply (size_loop_spec h head nodes Q nodes [] fuel 0%Z eq_refl Hfuel).
  exact Hint.
Qed.

(** [q_new]: [NULL] when [malloc] fails, else an empty queue at a block that
    was not allocated before. *)
Lemma q_new_ok h :
  live h NULL = false -> 1 <= brk h ->
  (forall a, brk h <= a -> live h a = false) ->
  match budget h with
  | O => q_new h = Some (NULL, h)
  | S b =>
      exists h',
        q_new h = Some (brk h, h')
        /\ queue h' (brk h) []
        /\ (forall a, a <> brk h ->
              live h' a = live h a /\ chars h' a = chars h a
              /\ next h' a = next h a /\ prev h' a = prev h a
              /\ value h' a = value h a)
        /\ brk h' = S (brk h) /\ budget h' = b
  end.
Proof.
  intros H0 Hbrk Hfree. unfold q_new, and_then, malloc.
  destruct (budget h) as [|b]; [reflexivity|].
  rewrite (eqb_false (brk h) NULL) by (unfold NULL; lia).
  unfold INIT_LIST_HEAD, and_then, set_next, set_prev. cbn [live].
  rewrite !store_same. cbn [live]. rewrite store_same. unfold pure.
  eexists. split; [reflexivity|].
  cbn [next prev value chars live brk budget].
  split; [|split; [|split; reflexivity]].
  - constructor; cbn [next prev value chars live brk budget map app].
    + split; [|split].
      * rewrite store_other by (unfold NULL; lia). exact H0.
      * lia.
      * intros a Ha. rewrite store_other by lia. apply Hfree. lia.
    + repeat constructor. intros [].
    + split; [|exact I]. split; apply store_same.
    + repeat constructor. apply store_same.
    + constructor.
  - intros a Ha. rewrite !store_other by exact Ha. repeat split; reflexivity.
Qed.

End QueueWalk.

Module QueueRelease.

Import Queue QueueFacts QueueOps QueueInsert QueueInsertFacts QueueRemove QueueSpecs QueueWalk.

Lemma released_nil h : released h h [].
Proof. unfold released. repeat split; try reflexivity. intros a []. Qed.

Lemma q_release_element_run h x :
  live h x = true -> live h (value h x) = true -> x <> value h x ->
  x <> NULL -> value h x <> NULL ->
  exists h',
    q_release_element x h = Some (tt, h') /\ released h h' [x; value h x].
Proof.
  intros Hx Hv Hne Hxn Hvn.
  unfold q_release_element, and_then, get_value, free. rewrite Hx.
  rewrite (eqb_false _ _ Hvn), Hv, (eqb_false _ _ Hxn). cbn [live].
  rewrite store_other by exact Hne. rewrite Hx.
  eexists. split; [reflexivity|]. unfold released.
  cbn [next prev value chars live brk budget].
  repeat (split; [reflexivity|]). split.
  - intros a [<- | [<- | []]].
    + apply store_same.
    + rewrite store_other by congruence. apply store_same.
  - intros a Ha. cbn [In] in Ha.
    rewrite !store_other by (intros ->; tauto). reflexivity.
Qed.

Lemma released_trans h h1 h2 d1 d2 :
  released h h1 d1 -> released h1 h2 d2 -> released h h2 (d1 ++ d2).
Proof.
  intros (Hn1 & Hp1 & Hv1 & Hc1 & Hb1 & Hbu1 & Hd1 & Hk1)
         (Hn2 & Hp2 & Hv2 & Hc2 & Hb2 & Hbu2 & Hd2 & Hk2).
  unfold released. rewrite Hn2, Hp2, Hv2, Hc2, Hb2, Hbu2.
  repeat (split; [assumption|]). split.
  - intros a Ha. destruct (in_dec Nat.eq_dec a d2) as [Hin | Hout].
    + apply Hd2. exact Hin.
    + rewrite Hk2 by exact Hout. apply Hd1.
      apply in_app_or in Ha as [Ha | Ha]; [exact Ha | contradiction].
  - intros a Ha. rewrite Hk2, Hk1; [reflexivity | |];
      intros Hin; apply Ha; apply in_or_app; tauto.
Qed.

Lemma released_same h h' d d' :
  released h h' d -> (forall a, In a d <-> In a d') -> released h h' d'.
Proof.
  intros (Hn & Hp & Hv & Hc & Hb & Hbu & Hd & Hk) Heq. unfold released.
  repeat (split; [assumption|]). split.
  - intros a Ha. apply Hd, Heq, Ha.
  - intros a Ha. apply Hk. intros Hin. apply Ha, Heq, Hin.
Qed.

(** The loop of [q_free], [release_queue] and [dudect_free]: from the
    element [hd todo] on, every element and its string are freed. *)
Lemma release_loop_spec h head nodes :
  queue h head nodes ->
  forall todo done hc fuel safe,
  nodes = done ++ todo -> length todo <= fuel ->
  match todo with [] => True | _ :: rest => safe = hd head rest end ->
  released h hc (done ++ map (value h) done) ->
  exists h',
    release_loop fuel head (hd head todo) safe hc = Some (tt, h')
    /\ released h h' (nodes ++ map (value h) nodes).
Proof.
  intros Q.
  induction todo as [|x todo IH]; intros done hc fuel safe Hsplit Hfuel Hsafe Hrel.
  - cbn [hd tl]. exists hc. rewrite app_nil_r in Hsplit. subst done.
    split; [|exact Hrel].
    destruct fuel; cbn [release_loop]; rewrite Nat.eqb_refl; reflexivity.
  - cbn [hd tl length] in *. subst safe. destruct fuel as [|fuel]; [lia|].
    cbn [release_loop].
    assert (Hx : In x nodes) by (rewrite Hsplit; apply in_elt).
    rewrite (eqb_false x head (queue_node_not_head h head nodes Q x Hx)).
    pose proof Hrel as (Hn & Hp & Hv & Hc & Hb & Hbu & Hdead & Hkeep).
    assert (Hout : forall a, In a (head :: x :: value h x
                                     :: todo ++ map (value h) todo) ->
                             ~ In a (done ++ map (value h) done)).
    { pose proof (distinct _ _ _ Q) as Hd.
      rewrite Hsplit, map_app in Hd. cbn [map] in Hd.
      intros a Ha Hin. clear IH Hdead Hkeep Hrel. distinct. }
    assert (Hlive0 : forall a, In a (head :: x :: value h x
                                       :: todo ++ map (value h) todo) ->
                               live h a = true).
    { intros a Ha.
      pose proof (allocated _ _ _ Q) as Hall. rewrite Forall_forall in Hall.
      apply Hall. rewrite Hsplit, map_app. cbn [map].
      clear - Ha. distinct. }
    assert (Hlive : forall a, In a (head :: x :: value h x
                                      :: todo ++ map (value h) todo) ->
                              live hc a = true).
    { intros a Ha. rewrite Hkeep by (apply Hout; exact Ha).
      apply Hlive0. exact Ha. }
    assert (Hxv : x <> value h x).
    { pose proof (distinct _ _ _ Q) as Hd.
      rewrite Hsplit, map_app in Hd. cbn [map] in Hd.
      clear IH Hdead Hkeep Hout Hlive Hlive0 Hrel. intros E. rewrite <- E in Hd.
      distinct. }
    destruct (q_release_element_run hc x) as (h1 & Hrun1 & Hrel1).
    { apply Hlive. right. left. reflexivity. }
    { rewrite Hv. apply Hlive. right. right. left. reflexivity. }
    { rewrite Hv. exact Hxv. }
    { apply (live_not_null h head nodes Q). apply Hlive0. right. left.
      reflexivity. }
    { rewrite Hv. apply (live_not_null h head nodes Q). apply Hlive0.
      right. right. left. reflexivity. }
    rewrite Hv in Hrel1.
    assert (Hrel' : released h h1 ((done ++ [x]) ++ map (value h) (done ++ [x]))).
    { apply (released_same h h1 ((done ++ map (value h) done) ++ [x; value h x])).
      - apply (released_trans h hc h1); assumption.
      - intros a. rewrite map_app. cbn [map]. clear. split; intros H; distinct. }
    destruct Hrel1 as (Hn1 & _ & _ & _ & _ & _ & _ & Hkeep1).
    assert (Hsafe_in : In (hd head todo) (head :: todo)).
    { destruct todo; cbn [hd]; [left | right; left]; reflexivity. }
    assert (Hsafe_live : live h1 (hd head todo) = true).
    { rewrite Hkeep1.
      - apply Hlive. destruct Hsafe_in as [<- | Hin]; [left; reflexivity|].
        right. right. right. apply in_or_app. left. exact Hin.
      - pose proof (distinct _ _ _ Q) as Hd.
        rewrite Hsplit, map_app in Hd. cbn [map] in Hd.
        clear IH Hdead Hkeep Hout Hlive Hlive0 Hrel Hrel' Hkeep1.
        intros Hin. destruct todo as [|y todo]; cbn [hd] in *; distinct. }
    unfold and_then at 1. rewrite Hrun1.
    unfold and_then at 1. unfold get_next. rewrite Hsafe_live.
    destruct (IH (done ++ [x]) h1 fuel (next h1 (hd head todo)))
      as (h' & Hrun & Hfinal).
    + rewrite <- app_assoc. exact Hsplit.
    + lia.
    + destruct todo as [|y todo']; [exact I|]. cbn [hd].
      rewrite Hn1, Hn.
      apply (queue_next h head nodes Q (done ++ [x]) y todo').
      rewrite <- app_assoc. exact Hsplit.
    + exact Hrel'.
    + exists h'. split; [exact Hrun | exact Hfinal].
Qed.

(** X19: [q_free]: every block of the queue is freed (the head, the elements,
    their strings), each exactly once, and nothing else is touched. *)
Theorem q_free_spec h head nodes fuel :
  queue h head nodes -> length nodes <= fuel ->
  exists h',
    q_free fuel head h = Some (tt, h')
    /\ released h h' (head :: nodes ++ map (value h) nodes).
Proof.
  intros Q Hfuel.
  assert (Hhead : live h head = true)
    by (apply (queue_live h head nodes Q); left; reflexivity).
  assert (Hhn : head <> NULL) by (apply (live_not_null h head nodes Q), Hhead).
  unfold q_free. rewrite (eqb_false _ _ Hhn).
  unfold and_then at 1. unfold get_next at 1. rewrite Hhead.
  rewrite (queue_next_head h head nodes Q).
  assert (Hfirst : live h (hd head nodes) = true).
  { apply (queue_live h head nodes Q).
    apply (hd_in_queue h head nodes Q [] nodes eq_refl). }
  unfold and_then at 1. unfold get_next at 1. rewrite Hfirst.
  destruct (release_loop_spec h head nodes Q nodes [] h fuel
              (next h (hd head nodes)) eq_refl Hfuel)
    as (h1 & Hrun & Hrel).
  { destruct nodes as [|x rest]; [exact I|]. cbn [hd].
    apply (queue_next h head (x :: rest) Q [] x rest eq_refl). }
  { apply released_nil. }
  unfold and_then. rewrite Hrun.
  pose proof Hrel as (Hn & Hp & Hv & Hc & Hb & Hbu & Hdead & Hkeep).
  assert (Hhead1 : live h1 head = true).
  { rewrite Hkeep; [exact Hhead|]. pose proof (distinct _ _ _ Q) as Hd.
    apply NoDup_cons_iff in Hd as [Hd _]. exact Hd. }
  unfold free. rewrite (eqb_false _ _ Hhn), Hhead1.
  eexists. split; [reflexivity|].
  apply (released_same h _ ((nodes ++ map (value h) nodes) ++ [head])).
  - apply (released_trans h h1); [exact Hrel|].
    unfold released. cbn [next prev value chars live brk budget].
    repeat (split; [reflexivity|]). split.
    + intros a [<- | []]. apply store_same.
    + intros a Ha. apply store_other. intros ->. apply Ha. left. reflexivity.
  - intros a. clear. split; intros H; distinct.
Qed.

End QueueRelease.

Module QueueMove.

Import Queue QueueFacts QueueOps QueueInsert QueueInsertFacts QueueRemove QueueSpecs QueueWalk QueueRelease.

(** A queue whose elements are rearranged, nothing allocated or freed and
    no string touched, is a queue. *)
Lemma queue_relinked h h' head nodes nodes' :
  queue h head nodes -> relinked h h' ->
  Permutation nodes nodes' ->
  path h' (head :: nodes' ++ [head]) ->
  queue h' head nodes' /\ contents h' nodes' = contents h nodes'.
Proof.
  intros Q (Hv & Hc & Hl & Hb & Hbu) Hperm Hpath.
  assert (Hblocks : Permutation (head :: nodes ++ map (value h) nodes)
                                (head :: nodes' ++ map (value h) nodes')).
  { apply perm_skip. apply Permutation_app; [exact Hperm|].
    apply Permutation_map. exact Hperm. }
  split.
  - constructor.
    + rewrite Hl, Hb. apply (heap_ok _ _ _ Q).
    + rewrite Hv. apply (Permutation_NoDup Hblocks). apply (distinct _ _ _ Q).
    + exact Hpath.
    + rewrite Hv, Hl. apply (Permutation_Forall Hblocks).
      apply (allocated _ _ _ Q).
    + rewrite Hv, Hc. apply (Permutation_Forall Hperm).
      apply (strings_end _ _ _ Q).
  - unfold contents. rewrite Hv, Hc. reflexivity.
Qed.

(** [list_del(x)] on an element of a queue. *)
Lemma unlink_ok h head l1 x l2 :
  queue h head (l1 ++ x :: l2) ->
  exists h',
    list_del x h = Some (tt, h')
    /\ path h' (head :: l1 ++ l2 ++ [head])
    /\ relinked h h'
    /\ (forall a, a <> x -> a <> last l1 head -> next h' a = next h a)
    /\ next h' x = next h x /\ prev h' x = prev h x.
Proof.
  intros Q.
  assert (Hx : live h x = true)
    by (apply (queue_live h head _ Q); right; apply in_elt).
  pose proof (queue_next h head _ Q l1 x l2 eq_refl) as Hnx.
  pose proof (queue_prev h head _ Q l1 x l2 eq_refl) as Hpx.
  assert (Hnd : NoDup (head :: l1 ++ x :: l2)).
  { pose proof (distinct _ _ _ Q) as Hd.
    change (head :: (l1 ++ x :: l2) ++ map (value h) (l1 ++ x :: l2))
      with ((head :: l1 ++ x :: l2) ++ map (value h) (l1 ++ x :: l2)) in Hd.
    apply (NoDup_app_remove_r _ _ Hd). }
  destruct (list_del_run h x Hx) as (h' & Hrun & Hn' & Hp' & Hrel).
  { rewrite Hnx. apply (queue_live h head _ Q).
    apply (hd_in_queue h head _ Q (l1 ++ [x]) l2).
    rewrite <- app_assoc. reflexivity. }
  { rewrite Hpx. apply (queue_live h head _ Q).
    destruct (exists_last (l := head :: l1) ltac:(discriminate)) as (F & z & HF).
    assert (last l1 head = z) as ->.
    { destruct F as [|y F]; cbn in HF; injection HF as Hy HF; subst;
        [reflexivity | apply last_last]. }
    assert (In z (head :: l1)) as [<- | Hz] by (rewrite HF; apply in_elt).
    - left. reflexivity.
    - right. apply in_or_app. left. exact Hz. }
  exists h'. split; [exact Hrun|]. split; [|split; [exact Hrel|]].
  - apply (ring_del h h' head l1 x l2 Hnd); [|exact Hn' | exact Hp'].
    pose proof (linked _ _ _ Q) as Hpath.
    rewrite <- app_assoc in Hpath. exact Hpath.
  - split; [|split].
    + intros a Hax Hap. rewrite Hn', Hpx. apply store_other. exact Hap.
    + rewrite Hn', Hpx. apply store_other.
      destruct (exists_last (l := head :: l1) ltac:(discriminate)) as (F & z & HF).
      assert (last l1 head = z) as ->.
      { destruct F as [|y F]; cbn in HF; injection HF as Hy HF; subst;
          [reflexivity | apply last_last]. }
      intros ->.
      change (head :: l1 ++ z :: l2) with ((head :: l1) ++ z :: l2) in Hnd.
      rewrite HF in Hnd. clear - Hnd. distinct.
    + rewrite Hp', Hnx. apply store_other.
      intros E. destruct l2 as [|y l2]; cbn [hd] in E.
      * subst x. clear - Hnd. distinct.
      * subst y. clear - Hnd. distinct.
Qed.

Lemma relinked_refl h : relinked h h.
Proof. repeat split. Qed.

Lemma relinked_trans h1 h2 h3 :
  relinked h1 h2 -> relinked h2 h3 -> relinked h1 h3.
Proof.
  intros (? & ? & ? & ? & ?) (? & ? & ? & ? & ?). repeat split; congruence.
Qed.

Lemma contents_relinked h h' l : relinked h h' -> contents h' l = contents h l.
Proof. intros (Hv & Hc & _). unfold contents. rewrite Hv, Hc. reflexivity. Qed.

(** [list_move(x, p)]: the element [x] of a queue goes right after [p], the
    head or another element. *)
Lemma move_ok h head l1 x l2 A p B :
  queue h head (l1 ++ x :: l2) ->
  head :: l1 ++ l2 = A ++ p :: B ->
  exists h',
    list_move x p h = Some (tt, h')
    /\ relinked h h'
    /\ queue h' head (tl (A ++ p :: x :: B))
    /\ head :: tl (A ++ p :: x :: B) = A ++ p :: x :: B.
Proof.
  intros Q Hsplit.
  destruct (unlink_ok h head l1 x l2 Q)
    as (h1 & Hrun1 & Hpath1 & Hrel1 & _).
  assert (Hnd : NoDup (head :: l1 ++ x :: l2)).
  { pose proof (distinct _ _ _ Q) as Hd.
    change (head :: (l1 ++ x :: l2) ++ map (value h) (l1 ++ x :: l2))
      with ((head :: l1 ++ x :: l2) ++ map (value h) (l1 ++ x :: l2)) in Hd.
    apply (NoDup_app_remove_r _ _ Hd). }
  assert (Hnd1 : NoDup (A ++ p :: B)).
  { rewrite <- Hsplit.
    change (head :: l1 ++ x :: l2) with ((head :: l1) ++ x :: l2) in Hnd.
    apply (NoDup_remove_1 _ _ _ Hnd). }
  assert (Hx_out : ~ In x (A ++ p :: B)).
  { rewrite <- Hsplit.
    change (head :: l1 ++ x :: l2) with ((head :: l1) ++ x :: l2) in Hnd.
    apply (NoDup_remove_2 _ _ _ Hnd). }
  assert (Hsub : forall a, In a (head :: l1 ++ l2) ->
                           In a (head :: l1 ++ x :: l2)).
  { intros a Ha. clear - Ha. distinct. }
  assert (Hlive1 : forall a, In a (head :: l1 ++ x :: l2) -> live h1 a = true).
  { intros a Ha. destruct Hrel1 as (_ & _ & -> & _).
    apply (queue_live h head _ Q). exact Ha. }
  assert (Hpath1' : path h1 (A ++ p :: B ++ [head])).
  { change (head :: l1 ++ l2 ++ [head]) with ((head :: l1 ++ l2) ++ [head])
      in Hpath1 || idtac.
    replace (head :: l1 ++ l2 ++ [head]) with ((head :: l1 ++ l2) ++ [head])
      in Hpath1 by (cbn [app]; rewrite <- app_assoc; reflexivity).
    rewrite Hsplit, <- app_assoc in Hpath1. exact Hpath1. }
  assert (Hhd : hd p A = head).
  { destruct A as [|y A]; cbn in Hsplit |- *; injection Hsplit as <- _;
      reflexivity. }
  assert (Hp_in : In p (head :: l1 ++ l2)) by (rewrite Hsplit; apply in_elt).
  assert (Hnext_in : In (next h1 p) (head :: l1 ++ l2)).
  { destruct (B ++ [head]) as [|z T] eqn:Htail; [destruct B; discriminate|].
    destruct (path_wired h1 A p z T Hpath1') as [-> _].
    destruct B as [|y B']; cbn in Htail; injection Htail as <- <-.
    - left. reflexivity.
    - rewrite Hsplit. apply in_or_app. right. right. left. reflexivity. }
  destruct (list_add_run h1 x p) as (h' & Hrun2 & Hn' & Hp' & Hrel2).
  { apply Hlive1, Hsub, Hp_in. }
  { apply Hlive1, Hsub, Hnext_in. }
  { apply Hlive1. right. apply in_elt. }
  assert (Hpath' : path h' (A ++ p :: x :: B ++ [head]))
    by (apply (ring_add h1 h' A p B head x); assumption).
  assert (Hshape : head :: tl (A ++ p :: x :: B) = A ++ p :: x :: B).
  { destruct A as [|y A]; cbn in Hhd |- *; subst; reflexivity. }
  assert (Hrel : relinked h h') by (apply (relinked_trans h h1 h'); assumption).
  exists h'. split.
  { unfold list_move, and_then. rewrite Hrun1. exact Hrun2. }
  split; [exact Hrel|]. split; [|exact Hshape].
  apply (queue_relinked h h' head (l1 ++ x :: l2)); [exact Q | exact Hrel | |].
  - apply (Permutation_cons_inv (a := head)). rewrite Hshape.
    eapply Permutation_trans; [apply perm_skip, Permutation_sym, Permutation_middle|].
    eapply Permutation_trans; [apply perm_swap|].
    eapply Permutation_trans; [apply perm_skip; rewrite Hsplit; apply Permutation_refl|].
    eapply Permutation_trans; [apply Permutation_middle|].
    apply Permutation_app_head. apply perm_swap.
  - change (head :: tl (A ++ p :: x :: B) ++ [head])
      with ((head :: tl (A ++ p :: x :: B)) ++ [head]).
    rewrite Hshape, <- app_assoc. exact Hpath'.
Qed.

End QueueMove.

Module QueueReverse.

Import Queue QueueFacts QueueOps QueueInsert QueueInsertFacts QueueRemove QueueSpecs QueueWalk QueueRelease QueueMove.

(** The tests [list_empty] and [list_is_singular] on a queue. *)
Lemma list_empty_run h head nodes :
  queue h head nodes ->
  list_empty head h = Some (match nodes with [] => true | _ => false end, h).
Proof.
  intros Q. unfold list_empty, and_then, get_next.
  rewrite (queue_live h head nodes Q head (or_introl eq_refl)).
  rewrite (queue_next_head h head nodes Q). unfold pure.
  destruct nodes as [|x rest]; cbn [hd].
  - rewrite Nat.eqb_refl. reflexivity.
  - rewrite (eqb_false x head); [reflexivity|].
    apply (queue_node_not_head h head _ Q). left. reflexivity.
Qed.

Lemma list_is_singular_run h head nodes :
  queue h head nodes ->
  list_is_singular head h
  = Some (match nodes with [_] => true | _ => false end, h).
Proof.
  intros Q. unfold list_is_singular.
  rewrite (and_then_run _ _ _ _ _ _ _ (list_empty_run h head nodes Q)).
  destruct nodes as [|x rest]; [reflexivity|].
  unfold and_then, get_prev, get_next.
  pose proof (queue_live h head _ Q head (or_introl eq_refl)) as Hhead.
  rewrite Hhead.
  rewrite (queue_prev_head h head _ Q), (queue_next_head h head _ Q).
  rewrite Hhead. unfold pure. cbn [hd]. destruct rest as [|y rest].
  - cbn [last]. rewrite Nat.eqb_refl. reflexivity.
  - rewrite (eqb_false (last (x :: y :: rest) head) x); [reflexivity|].
    pose proof (distinct _ _ _ Q) as Hd. apply NoDup_cons_iff in Hd as [_ Hd].
    apply NoDup_app_remove_r in Hd. apply NoDup_cons_iff in Hd as [Hx _].
    intros E. apply Hx. rewrite <- E.
    change (last (x :: y :: rest) head) with (last (y :: rest) head).
    destruct (exists_last (l := y :: rest) ltac:(discriminate)) as (F & z & ->).
    rewrite last_last. apply in_elt.
Qed.

Lemma reverse_loop_spec head :
  forall todo done h fuel safe,
  queue h head (rev done ++ todo) ->
  match todo with [] => True | _ :: rest => safe = hd head rest end ->
  length todo <= fuel ->
  exists h',
    reverse_loop fuel head (hd head todo) safe h = Some (tt, h')
    /\ relinked h h'
    /\ queue h' head (rev (done ++ todo)).
Proof.
  induction todo as [|x todo IH]; intros done h fuel safe Q Hsafe Hfuel.
  - exists h. rewrite !app_nil_r in *. cbn [hd].
    split; [|split; [apply relinked_refl | exact Q]].
    destruct fuel; cbn [reverse_loop]; rewrite Nat.eqb_refl; reflexivity.
  - cbn [hd length] in *. subst safe. destruct fuel as [|fuel]; [lia|].
    cbn [reverse_loop].
    assert (Hx : In x (rev done ++ x :: todo)) by apply in_elt.
    rewrite (eqb_false x head (queue_node_not_head h head _ Q x Hx)).
    destruct (move_ok h head (rev done) x todo [] head (rev done ++ todo) Q eq_refl)
      as (h1 & Hrun1 & Hrel1 & Q1 & _).
    cbn [app tl] in Q1.
    assert (Q1' : queue h1 head (rev (done ++ [x]) ++ todo)).
    { rewrite rev_app_distr. cbn [rev app]. exact Q1. }
    assert (Hsafe_live : live h1 (hd head todo) = true).
    { apply (queue_live h1 head _ Q1').
      apply (hd_in_queue h1 head _ Q1' (rev (done ++ [x])) todo eq_refl). }
    destruct (IH (done ++ [x]) h1 fuel (next h1 (hd head todo)) Q1')
      as (h' & Hrun & Hrel & Q').
    { destruct todo as [|y todo']; [exact I|]. cbn [hd].
      apply (queue_next h1 head _ Q1' (rev (done ++ [x])) y todo' eq_refl). }
    { lia. }
    exists h'. split.
    { unfold and_then at 1. rewrite Hrun1.
      unfold and_then at 1. unfold get_next. rewrite Hsafe_live. exact Hrun. }
    split; [apply (relinked_trans h h1 h'); assumption|].
    rewrite <- app_assoc in Q'. exact Q'.
Qed.

(** X20: [q_reverse]: the elements in reverse order, each with its string; no
    block is allocated, freed or written but the links. *)
Theorem q_reverse_spec h head nodes fuel :
  queue h head nodes -> length nodes <= fuel ->
  exists h',
    q_reverse fuel head h = Some (tt, h')
    /\ queue h' head (rev nodes)
    /\ contents h' (rev nodes) = rev (contents h nodes)
    /\ relinked h h'.
Proof.
  intros Q Hfuel.
  assert (Hhead : live h head = true)
    by (apply (queue_live h head nodes Q); left; reflexivity).
  assert (Hhn : head <> NULL) by (apply (live_not_null h head nodes Q), Hhead).
  assert (Hsame : exists h',
            q_reverse fuel head h = Some (tt, h')
            /\ queue h' head (rev nodes) /\ relinked h h').
  { unfold q_reverse. rewrite (eqb_false _ _ Hhn).
    rewrite (and_then_run _ _ _ _ _ _ _ (list_empty_run h head nodes Q)).
    destruct nodes as [|x rest].
    { exists h. split; [reflexivity|]. split; [exact Q | apply relinked_refl]. }
    rewrite (and_then_run _ _ _ _ _ _ _ (list_is_singular_run h head _ Q)).
    destruct rest as [|y rest].
    { exists h. split; [reflexivity|]. split; [exact Q | apply relinked_refl]. }
    unfold and_then at 1. unfold get_next at 1. rewrite Hhead.
    rewrite (queue_next_head h head _ Q). cbn [hd].
    unfold and_then at 1. unfold get_next at 1.
    rewrite (queue_live h head _ Q x (or_intror (or_introl eq_refl))).
    rewrite (queue_next h head _ Q [] x (y :: rest) eq_refl). cbn [hd].
    destruct (reverse_loop_spec head (x :: y :: rest) [] h fuel y Q eq_refl Hfuel)
      as (h' & Hrun & Hrel & Q').
    exists h'. split; [exact Hrun|]. split; [exact Q' | exact Hrel]. }
  destruct Hsame as (h' & Hrun & Q' & Hrel).
  exists h'. split; [exact Hrun|]. split; [exact Q'|]. split; [|exact Hrel].
  rewrite (contents_relinked h h' _ Hrel). unfold contents. apply map_rev.
Qed.

End QueueReverse.

Module QueueSwap.

Import Queue QueueFacts QueueOps QueueInsert QueueInsertFacts QueueRemove QueueSpecs QueueWalk QueueRelease QueueMove QueueReverse.

Lemma swap_pairs_map (A B : Type) (f : A -> B) (l : list A) :
  forall n, length l <= n -> swap_pairs (map f l) = map f (swap_pairs l).
Proof.
  intros n. revert l. induction n as [|n IH]; intros l Hl.
  - destruct l; [reflexivity | cbn in Hl; lia].
  - destruct l as [|a [|b rest]]; try reflexivity.
    cbn [map swap_pairs]. f_equal. f_equal. apply IH. cbn in Hl. lia.
Qed.

Lemma swap_loop_spec head :
  forall fuel todo done h second,
  queue h head (done ++ todo) ->
  match todo with
  | _ :: b :: _ => second = b
  | [_] => second = head
  | [] => True
  end ->
  length todo <= fuel ->
  exists h',
    swap_loop fuel head (hd head todo) second h = Some (tt, h')
    /\ relinked h h'
    /\ queue h' head (done ++ swap_pairs todo).
Proof.
  induction fuel as [|fuel IH]; intros todo done h second Q Hsecond Hfuel.
  - destruct todo; [|cbn in Hfuel; lia]. exists h.
    cbn [swap_loop hd swap_pairs]. rewrite Nat.eqb_refl, andb_false_r.
    split; [reflexivity|]. split; [apply relinked_refl | exact Q].
  - destruct todo as [|a [|b rest]].
    + exists h. cbn [swap_loop hd swap_pairs].
      rewrite Nat.eqb_refl, andb_false_r.
      split; [reflexivity|]. split; [apply relinked_refl | exact Q].
    + subst second. exists h. cbn [swap_loop hd swap_pairs].
      rewrite Nat.eqb_refl. cbn [negb andb].
      split; [reflexivity|]. split; [apply relinked_refl | exact Q].
    + subst second. cbn [swap_loop hd swap_pairs length] in *.
      assert (Ha : In a (done ++ a :: b :: rest)) by apply in_elt.
      assert (Hb : In b (done ++ a :: b :: rest))
        by (apply in_or_app; right; right; left; reflexivity).
      rewrite (eqb_false b head (queue_node_not_head h head _ Q b Hb)).
      rewrite (eqb_false a head (queue_node_not_head h head _ Q a Ha)).
      cbn [negb andb].
      unfold and_then at 1. unfold get_prev.
      rewrite (queue_live h head _ Q a (or_intror Ha)).
      rewrite (queue_prev h head _ Q done a (b :: rest) eq_refl).
      destruct (exists_last (l := head :: done) ltac:(discriminate))
        as (A & p & HA).
      assert (Hp : last done head = p).
      { destruct A as [|y A]; cbn in HA; injection HA as Hy HA'; subst;
          [reflexivity | apply last_last]. }
      rewrite Hp.
      assert (Q0 : queue h head ((done ++ [a]) ++ b :: rest))
        by (rewrite <- app_assoc; exact Q).
      destruct (move_ok h head (done ++ [a]) b rest A p (a :: rest) Q0)
        as (h1 & Hrun1 & Hrel1 & Q1 & Hshape).
      { change (head :: (done ++ [a]) ++ rest)
          with ((head :: done) ++ [a] ++ rest) || idtac.
        replace (head :: (done ++ [a]) ++ rest)
          with ((head :: done) ++ a :: rest)
          by (cbn [app]; rewrite <- app_assoc; reflexivity).
        rewrite HA, <- app_assoc. reflexivity. }
      assert (Hnodes1 : tl (A ++ p :: b :: a :: rest) = done ++ b :: a :: rest).
      { assert (E : head :: tl (A ++ p :: b :: a :: rest)
                    = head :: done ++ b :: a :: rest).
        { rewrite Hshape.
          replace (A ++ p :: b :: a :: rest) with ((A ++ [p]) ++ b :: a :: rest)
            by (rewrite <- app_assoc; reflexivity).
          rewrite <- HA. reflexivity. }
        injection E as E. exact E. }
      rewrite Hnodes1 in Q1.
      assert (Q1' : queue h1 head ((done ++ [b; a]) ++ rest))
        by (rewrite <- app_assoc; exact Q1).
      assert (Ha1 : live h1 a = true).
      { apply (queue_live h1 head _ Q1). right. apply in_or_app. right.
        right. left. reflexivity. }
      assert (Hnext_a : next h1 a = hd head rest).
      { apply (queue_next h1 head _ Q1 (done ++ [b]) a rest).
        rewrite <- app_assoc. reflexivity. }
      assert (Hfirst_live : live h1 (hd head rest) = true).
      { apply (queue_live h1 head _ Q1').
        apply (hd_in_queue h1 head _ Q1' (done ++ [b; a]) rest eq_refl). }
      destruct (IH rest (done ++ [b; a]) h1 (next h1 (hd head rest)) Q1')
        as (h' & Hrun & Hrel & Q').
      { destruct rest as [|c [|d rest']]; [exact I | |]; cbn [hd].
        - apply (queue_next h1 head _ Q1' (done ++ [b; a]) c [] eq_refl).
        - apply (queue_next h1 head _ Q1' (done ++ [b; a]) c (d :: rest') eq_refl). }
      { lia. }
      exists h'. split.
      { unfold and_then at 1. rewrite Hrun1.
        unfold and_then at 1. unfold get_next at 1. rewrite Ha1, Hnext_a.
        unfold and_then at 1. unfold get_next at 1. rewrite Hfirst_live.
        exact Hrun. }
      split; [apply (relinked_trans h h1 h'); assumption|].
      rewrite <- app_assoc in Q'. exact Q'.
Qed.

(** X21: [q_swap]: every two adjacent elements are exchanged, an odd last one
    stays; no block is allocated, freed or written but the links. *)
Theorem q_swap_spec h head nodes fuel :
  queue h head nodes -> length nodes <= fuel ->
  exists h',
    q_swap fuel head h = Some (tt, h')
    /\ queue h' head (swap_pairs nodes)
    /\ contents h' (swap_pairs nodes) = swap_pairs (contents h nodes)
    /\ relinked h h'.
Proof.
  intros Q Hfuel.
  assert (Hhead : live h head = true)
    by (apply (queue_live h head nodes Q); left; reflexivity).
  assert (Hhn : head <> NULL) by (apply (live_not_null h head nodes Q), Hhead).
  assert (Hsame : exists h',
            q_swap fuel head h = Some (tt, h')
            /\ queue h' head (swap_pairs nodes) /\ relinked h h').
  { unfold q_swap. rewrite (eqb_false _ _ Hhn).
    rewrite (and_then_run _ _ _ _ _ _ _ (list_empty_run h head nodes Q)).
    destruct nodes as [|x rest].
    { exists h. split; [reflexivity|]. split; [exact Q | apply relinked_refl]. }
    rewrite (and_then_run _ _ _ _ _ _ _ (list_is_singular_run h head _ Q)).
    destruct rest as [|y rest].
    { exists h. split; [reflexivity|]. split; [exact Q | apply relinked_refl]. }
    unfold and_then at 1. unfold get_next at 1. rewrite Hhead.
    rewrite (queue_next_head h head _ Q). cbn [hd].
    unfold and_then at 1. unfold get_next at 1. rewrite Hhead.
    rewrite (queue_next_head h head _ Q). cbn [hd].
    unfold and_then at 1. unfold get_next at 1.
    rewrite (queue_live h head _ Q x (or_intror (or_introl eq_refl))).
    rewrite (queue_next h head _ Q [] x (y :: rest) eq_refl). cbn [hd].
    destruct (swap_loop_spec head fuel (x :: y :: rest) [] h y Q eq_refl Hfuel)
      as (h' & Hrun & Hrel & Q').
    exists h'. split; [exact Hrun|]. split; [exact Q' | exact Hrel]. }
  destruct Hsame as (h' & Hrun & Q' & Hrel).
  exists h'. split; [exact Hrun|]. split; [exact Q'|]. split; [|exact Hrel].
  rewrite (contents_relinked h h' _ Hrel). unfold contents. symmetry.
  apply (swap_pairs_map _ _ _ nodes (length nodes)). lia.
Qed.

End QueueSwap.

Module QueueDelete.

Import Queue QueueFacts QueueOps QueueInsert QueueInsertFacts QueueRemove QueueSpecs QueueWalk QueueRelease QueueMove QueueReverse.

Lemma dropped_refl h : dropped h h [].
Proof. unfold dropped. repeat split; try reflexivity. intros a []. Qed.

Lemma dropped_trans h h1 h2 d1 d2 :
  dropped h h1 d1 -> dropped h1 h2 d2 -> dropped h h2 (d1 ++ d2).
Proof.
  intros (Hv1 & Hc1 & Hb1 & Hbu1 & Hd1 & Hk1)
         (Hv2 & Hc2 & Hb2 & Hbu2 & Hd2 & Hk2).
  unfold dropped. rewrite Hv2, Hc2, Hb2, Hbu2.
  repeat (split; [assumption|]). split.
  - intros a Ha. destruct (in_dec Nat.eq_dec a d2) as [Hin | Hout].
    + apply Hd2. exact Hin.
    + rewrite Hk2 by exact Hout. apply Hd1.
      apply in_app_or in Ha as [Ha | Ha]; [exact Ha | contradiction].
  - intros a Ha. rewrite Hk2, Hk1; [reflexivity | |];
      intros Hin; apply Ha, in_or_app; [left | right]; exact Hin.
Qed.

Lemma dropped_same h h' d d' :
  dropped h h' d -> (forall a, In a d <-> In a d') -> dropped h h' d'.
Proof.
  intros (Hv & Hc & Hb & Hbu & Hd & Hk) Heq. unfold dropped.
  repeat (split; [assumption|]). split.
  - intros a Ha. apply Hd, Heq, Ha.
  - intros a Ha. apply Hk. intros Hin. apply Ha, Heq, Hin.
Qed.

Lemma contents_dropped h h' d l : dropped h h' d -> contents h' l = contents h l.
Proof. intros (Hv & Hc & _). unfold contents. rewrite Hv, Hc. reflexivity. Qed.

(** [list_del(x); q_release_element(x)] on an element of a queue: the
    queue without it, its two blocks freed. *)
Lemma delete_ok h head l1 x l2 :
  queue h head (l1 ++ x :: l2) ->
  exists h',
    (list_del x ;;; q_release_element x) h = Some (tt, h')
    /\ queue h' head (l1 ++ l2)
    /\ dropped h h' [x; value h x].
Proof.
  intros Q.
  assert (Hxin : In x (l1 ++ x :: l2)) by apply in_elt.
  assert (Hx : live h x = true)
    by (apply (queue_live h head _ Q); right; exact Hxin).
  assert (Hvx : live h (value h x) = true)
    by (apply (queue_live_value h head _ Q), Hxin).
  pose proof (distinct _ _ _ Q) as Hd.
  pose proof (allocated _ _ _ Q) as Hall. rewrite Forall_forall in Hall.
  pose proof (strings_end _ _ _ Q) as Hends. rewrite Forall_forall in Hends.
  assert (Hperm : Permutation (head :: (l1 ++ x :: l2) ++ map (value h) (l1 ++ x :: l2))
                    (x :: value h x :: head :: (l1 ++ l2) ++ map (value h) (l1 ++ l2))).
  { eapply Permutation_trans; [|apply perm_skip, perm_swap].
    eapply Permutation_trans; [|apply perm_swap]. apply perm_skip.
    rewrite !map_app. cbn [map].
    eapply Permutation_trans;
      [apply Permutation_app;
       [apply Permutation_sym, Permutation_middle
       |apply Permutation_sym, Permutation_middle]|].
    cbn [app]. apply perm_skip. rewrite <- map_app.
    apply Permutation_sym, Permutation_middle. }
  pose proof (Permutation_NoDup Hperm Hd) as Hd'.
  apply NoDup_cons_iff in Hd' as [Hx_out Hd'].
  apply NoDup_cons_iff in Hd' as [Hv_out Hd'].
  assert (Hxv : x <> value h x) by (intros E; apply Hx_out; left; symmetry; exact E).
  destruct (unlink_ok h head l1 x l2 Q)
    as (h1 & Hrun1 & Hpath1 & (Hv1 & Hc1 & Hl1 & Hb1 & Hbu1) & _).
  destruct (q_release_element_run h1 x) as (h' & Hrun2 & Hrel).
  { rewrite Hl1. exact Hx. }
  { rewrite Hl1, Hv1. exact Hvx. }
  { rewrite Hv1. exact Hxv. }
  { apply (live_not_null h head _ Q), Hx. }
  { rewrite Hv1. apply (live_not_null h head _ Q), Hvx. }
  destruct Hrel as (Hn' & Hp' & Hv' & Hc' & Hb' & Hbu' & Hdead & Hkeep).
  rewrite Hv1 in Hdead, Hkeep.
  assert (Hdrop : dropped h h' [x; value h x]).
  { unfold dropped. rewrite Hv', Hc', Hb', Hbu', Hv1, Hc1, Hb1, Hbu1.
    repeat (split; [reflexivity|]). split; [exact Hdead|].
    intros a Ha. rewrite (Hkeep a Ha), Hl1. reflexivity. }
  assert (Hvv : value h' = value h) by (rewrite Hv', Hv1; reflexivity).
  assert (Hcc : chars h' = chars h) by (rewrite Hc', Hc1; reflexivity).
  assert (Hstay : forall a, In a (head :: (l1 ++ l2) ++ map (value h) (l1 ++ l2)) ->
                            live h' a = true).
  { intros a Ha. rewrite Hkeep, Hl1.
    - apply Hall. eapply Permutation_in; [apply Permutation_sym, Hperm|].
      right. right. exact Ha.
    - intros [<- | [<- | []]].
      + apply Hx_out. right. exact Ha.
      + apply Hv_out. exact Ha. }
  exists h'. split.
  { unfold and_then. rewrite Hrun1. exact Hrun2. }
  split; [|exact Hdrop].
  constructor.
  - destruct (heap_ok _ _ _ Q) as (H0 & Hbrk & Hfree).
    assert (Hmono : forall a, live h a = false -> live h' a = false).
    { intros a Ha. destruct (in_dec Nat.eq_dec a [x; value h x]) as [Hin | Hout].
      - apply Hdead, Hin.
      - rewrite Hkeep, Hl1 by exact Hout. exact Ha. }
    rewrite Hb', Hb1. split; [apply Hmono, H0|]. split; [exact Hbrk|].
    intros a Ha. apply Hmono, Hfree, Ha.
  - rewrite Hvv. exact Hd'.
  - assert (E : path h1 (head :: (l1 ++ l2) ++ [head])
                = path h1 (head :: l1 ++ l2 ++ [head]))
      by (rewrite <- app_assoc; reflexivity).
    assert (Hgoal : path h1 (head :: (l1 ++ l2) ++ [head]))
      by (rewrite E; exact Hpath1).
    apply (path_frame h1 h' _ Hgoal); intros a _;
      [rewrite Hn' | rewrite Hp']; reflexivity.
  - rewrite Forall_forall, Hvv. exact Hstay.
  - rewrite Forall_forall, Hvv, Hcc. intros a Ha. apply Hends.
    apply in_app_or in Ha as [Ha | Ha]; apply in_or_app;
      [left | right; right]; exact Ha.
Qed.

Lemma hd_skipn (A : Type) (d : A) (l : list A) :
  forall j, hd d (skipn j l) = nth j l d.
Proof.
  induction l as [|a l IH]; intros [|j]; cbn; try reflexivity. apply IH.
Qed.

Lemma split_at (A : Type) (d : A) (l : list A) j :
  j < length l -> l = firstn j l ++ nth j l d :: skipn (S j) l.
Proof.
  revert j. induction l as [|a l IH]; intros [|j] Hj; cbn in *; try lia.
  - reflexivity.
  - f_equal. apply IH. lia.
Qed.

Section Positions.

Variables (h : heap) (head : addr) (nodes : list addr).
Hypothesis Q : queue h head nodes.

(** The [j]-th element; the head past the last one. *)
Lemma next_pos j :
  j < length nodes -> next h (nth j nodes head) = nth (S j) nodes head.
Proof.
  intros Hj.
  rewrite (queue_next h head nodes Q (firstn j nodes) (nth j nodes head)
             (skipn (S j) nodes) (split_at _ head nodes j Hj)).
  apply hd_skipn.
Qed.

Lemma pos_live j : live h (nth j nodes head) = true.
Proof.
  apply (queue_live h head nodes Q).
  destruct (Nat.lt_ge_cases j (length nodes)) as [Hj | Hj].
  - right. apply nth_In. exact Hj.
  - left. symmetry. apply nth_overflow. exact Hj.
Qed.

Lemma pos_not_head j : j < length nodes -> nth j nodes head <> head.
Proof.
  intros Hj. apply (queue_node_not_head h head nodes Q). apply nth_In. exact Hj.
Qed.

Lemma mid_loop_spec :
  forall fuel i,
  2 * i <= length nodes -> length nodes <= 2 * (fuel + i) + 1 ->
  mid_loop fuel head (nth i nodes head) (nth (2 * i) nodes head) h
  = Some (nth (length nodes / 2) nodes head, h).
Proof.
  induction fuel as [|fuel IH]; intros i Hlow Hfuel.
  - assert (Hcase : length nodes = 2 * i \/ length nodes = 2 * i + 1) by lia.
    assert (Hhalf : length nodes / 2 = i).
    { destruct Hcase as [-> | ->].
      - rewrite Nat.mul_comm. apply Nat.div_mul. discriminate.
      - rewrite Nat.mul_comm, Nat.div_add_l by discriminate. cbn. lia. }
    cbn [mid_loop]. destruct Hcase as [Hn | Hn].
    + rewrite (nth_overflow nodes head (n := 2 * i)) by lia.
      rewrite Nat.eqb_refl, Hhalf. reflexivity.
    + rewrite (eqb_false _ _ (pos_not_head (2 * i) ltac:(lia))).
      unfold and_then, get_next. rewrite pos_live, next_pos by lia.
      rewrite (nth_overflow nodes head (n := S (2 * i))) by lia.
      rewrite Nat.eqb_refl, Hhalf. reflexivity.
  - cbn [mid_loop].
    destruct (Nat.eq_dec (length nodes) (2 * i)) as [Hn | Hn].
    { rewrite (nth_overflow nodes head (n := 2 * i)) by lia.
      rewrite Nat.eqb_refl. rewrite Hn, Nat.mul_comm, Nat.div_mul by discriminate.
      reflexivity. }
    rewrite (eqb_false _ _ (pos_not_head (2 * i) ltac:(lia))).
    unfold and_then at 1. unfold get_next at 1.
    rewrite pos_live, next_pos by lia.
    destruct (Nat.eq_dec (length nodes) (2 * i + 1)) as [Hn1 | Hn1].
    { rewrite (nth_overflow nodes head (n := S (2 * i))) by lia.
      rewrite Nat.eqb_refl. rewrite Hn1, Nat.mul_comm, Nat.div_add_l by discriminate.
      cbn. rewrite Nat.add_0_r. reflexivity. }
    rewrite (eqb_false _ _ (pos_not_head (S (2 * i)) ltac:(lia))).
    unfold and_then, get_next.
    rewrite pos_live, next_pos by lia.
    rewrite pos_live, next_pos by lia.
    rewrite pos_live, next_pos by lia.
    replace (S (S (2 * i))) with (2 * S i) by lia.
    apply IH; lia.
Qed.

End Positions.

(** X22: [q_delete_mid]: on a queue of [n >= 1] elements the one at index
    [n / 2] (counting from 0) is unlinked and its two blocks are freed;
    on an empty queue nothing happens and the result is [false]. *)
Theorem q_delete_mid_spec h head nodes fuel :
  queue h head nodes -> length nodes <= fuel ->
  match nodes with
  | [] => q_delete_mid fuel head h = Some (false, h)
  | _ :: _ =>
      let m := length nodes / 2 in
      exists h',
        q_delete_mid fuel head h = Some (true, h')
        /\ queue h' head (firstn m nodes ++ skipn (S m) nodes)
        /\ contents h' (firstn m nodes ++ skipn (S m) nodes)
           = firstn m (contents h nodes) ++ skipn (S m) (contents h nodes)
        /\ dropped h h' [nth m nodes head; value h (nth m nodes head)]
  end.
Proof.
  intros Q Hfuel.
  assert (Hhead : live h head = true)
    by (apply (queue_live h head nodes Q); left; reflexivity).
  assert (Hhn : head <> NULL) by (apply (live_not_null h head nodes Q), Hhead).
  unfold q_delete_mid. rewrite (eqb_false _ _ Hhn).
  rewrite (and_then_run _ _ _ _ _ _ _ (list_empty_run h head nodes Q)).
  destruct nodes as [|x rest] eqn:Hnodes; [reflexivity|]. rewrite <- Hnodes in *.
  assert (Hlen : 0 < length nodes) by (rewrite Hnodes; cbn; lia).
  replace (match nodes with [] => true | _ :: _ => false end) with false
    by (rewrite Hnodes; reflexivity).
  cbv zeta. set (m := length nodes / 2).
  assert (Hm : m < length nodes) by (apply Nat.div_lt; lia).
  unfold and_then at 1. unfold get_next at 1. rewrite Hhead.
  rewrite (queue_next_head h head nodes Q).
  replace (hd head nodes) with (nth 0 nodes head) by (rewrite Hnodes; reflexivity).
  pose proof (mid_loop_spec h head nodes Q fuel 0 ltac:(lia) ltac:(lia)) as Hmid.
  change (2 * 0) with 0 in Hmid.
  unfold and_then at 1. rewrite Hmid. fold m.
  pose proof (split_at _ head nodes m Hm) as Hsplit.
  assert (Q0 : queue h head (firstn m nodes ++ nth m nodes head :: skipn (S m) nodes))
    by (rewrite <- Hsplit; exact Q).
  destruct (delete_ok h head _ _ _ Q0) as (h' & Hrun & Q' & Hdrop).
  exists h'. split.
  { unfold and_then in Hrun |- *. destruct (list_del (nth m nodes head) h)
      as [[[] h1]|]; [|discriminate].
    rewrite Hrun. reflexivity. }
  split; [exact Q'|]. split; [|exact Hdrop].
  rewrite (contents_dropped h h' _ _ Hdrop). unfold contents.
  rewrite map_app, firstn_map, skipn_map. reflexivity.
Qed.

End QueueDelete.

Module QueuePurge.

Import Queue QueueFacts QueueOps QueueInsert QueueInsertFacts QueueRemove QueueSpecs QueueWalk QueueRelease QueueMove QueueReverse QueueDelete.

Lemma contents_strings h nodes : contents h nodes = map (string_at h) nodes.
Proof. reflexivity. Qed.

(** [strcmp] on the strings of two elements of a queue. *)
Lemma strcmp_run h head nodes a b :
  queue h head nodes -> In a nodes -> In b nodes ->
  strcmp (value h a) (value h b) h
  = Some (compare_bytes (string_at h a) (string_at h b), h).
Proof.
  intros Q Ha Hb. unfold strcmp.
  rewrite (queue_live_value h head nodes Q a Ha).
  rewrite (queue_live_value h head nodes Q b Hb).
  pose proof (strings_end _ _ _ Q) as Hends. rewrite Forall_forall in Hends.
  rewrite (Hends a Ha), (Hends b Hb). reflexivity.
Qed.

Lemma last_snoc (A : Type) (l : list A) (x d : A) : last (l ++ [x]) d = x.
Proof. apply last_last. Qed.

Lemma purge_loop_spec (str : addr -> list Z) head descend :
  forall fuel todo p kept h safe cnt,
  queue h head (todo ++ p :: kept) ->
  (forall a, string_at h a = str a) ->
  (forall y todo', todo = todo' ++ [y] -> safe = last todo' head) ->
  cnt = Z.of_nat (length (p :: kept)) ->
  length todo <= fuel ->
  (cnt + Z.of_nat (length todo) <= INT_MAX)%Z ->
  exists h' gone,
    purge_loop fuel head descend (last todo head) safe p cnt h
    = Some (Z.of_nat (length (fold_right (purge_step str descend) (p :: kept) todo)),
            h')
    /\ queue h' head (fold_right (purge_step str descend) (p :: kept) todo)
    /\ Permutation (todo ++ p :: kept)
         (gone ++ fold_right (purge_step str descend) (p :: kept) todo)
    /\ dropped h h' (gone ++ map (value h) gone).
Proof.
  induction fuel as [|fuel IH]; intros todo;
    induction todo as [|x todo' _] using rev_ind;
    intros p kept h safe cnt Q Hstr Hsafe Hcnt Hfuel Hint.
  1, 3: exists h, []; cbn [last fold_right purge_loop app map];
      rewrite Nat.eqb_refl; subst cnt;
      (split; [reflexivity|]); (split; [exact Q|]);
      (split; [apply Permutation_refl | apply dropped_refl]).
  - rewrite length_app in Hfuel. cbn in Hfuel. lia.
  - rewrite last_snoc, fold_right_app. cbn [fold_right purge_step].
    rewrite length_app in Hfuel, Hint. cbn [length] in Hfuel, Hint.
    assert (Hx : In x ((todo' ++ [x]) ++ p :: kept))
      by (apply in_or_app; left; apply in_or_app; right; left; reflexivity).
    assert (Hp : In p ((todo' ++ [x]) ++ p :: kept)) by apply in_elt.
    cbn [purge_loop].
    rewrite (eqb_false x head (queue_node_not_head h head _ Q x Hx)).
    unfold and_then at 1. unfold get_value at 1.
    rewrite (queue_live h head _ Q p (or_intror Hp)).
    unfold and_then at 1. unfold get_value at 1.
    rewrite (queue_live h head _ Q x (or_intror Hx)).
    rewrite (and_then_run _ _ _ _ _ _ _ (strcmp_run h head _ p x Q Hp Hx)).
    rewrite !Hstr. fold (beaten descend (str p) (str x)).
    specialize (Hsafe x todo' eq_refl). subst safe.
    assert (Hsafe_in : forall l, In (last todo' head) (head :: todo' ++ l)).
    { intros l. destruct (exists_last (l := head :: todo') ltac:(discriminate))
        as (F & z & HF).
      assert (last todo' head = z) as ->.
      { destruct F as [|y F]; cbn in HF; injection HF as Hy HF'; subst;
          [reflexivity | apply last_last]. }
      change (head :: todo' ++ l) with ((head :: todo') ++ l). rewrite HF.
      apply in_or_app. left. apply in_elt. }
    destruct (beaten descend (str p) (str x)) eqn:Hbeat.
    + assert (Q0 : queue h head (todo' ++ x :: p :: kept))
        by (rewrite <- app_assoc in Q; exact Q).
      destruct (delete_ok h head todo' x (p :: kept) Q0)
        as (h1 & Hrun1 & Q1 & Hdrop1).
      assert (Hstr1 : forall a, string_at h1 a = str a).
      { intros a. rewrite <- Hstr. unfold string_at.
        destruct Hdrop1 as (-> & -> & _). reflexivity. }
      destruct (IH todo' p kept h1 (prev h1 (last todo' head)) cnt Q1 Hstr1)
        as (h' & gone & Hrun & Q' & Hperm & Hdrop); [|exact Hcnt|lia|lia|].
      { intros y todo'' ->. rewrite last_snoc.
        apply (queue_prev h1 head _ Q1 todo'' y (p :: kept)).
        rewrite <- app_assoc. reflexivity. }
      exists h', (x :: gone). split.
      { unfold and_then at 1.
        unfold and_then in Hrun1 |- *.
        destruct (list_del x h) as [[[] h0]|]; [|discriminate].
        rewrite Hrun1. unfold pure at 1. cbn [fst snd]. unfold get_prev.
        rewrite (queue_live h1 head _ Q1 _ (Hsafe_in (p :: kept))).
        exact Hrun. }
      split; [exact Q'|]. split.
      * rewrite <- app_assoc. cbn [app].
        eapply Permutation_trans; [apply Permutation_sym, Permutation_middle|].
        apply perm_skip. exact Hperm.
      * assert (Hv1 : value h1 = value h) by apply Hdrop1.
        rewrite Hv1 in Hdrop.
        apply (dropped_same h h' ([x; value h x] ++ gone ++ map (value h) gone)).
        { apply (dropped_trans h h1 h'); assumption. }
        intros a. cbn [app map In]. rewrite !in_app_iff. cbn [In]. tauto.
    + assert (Q0 : queue h head (todo' ++ x :: p :: kept))
        by (rewrite <- app_assoc in Q; exact Q).
      destruct (IH todo' x (p :: kept) h (prev h (last todo' head)) (cnt + 1)%Z
                  Q0 Hstr)
        as (h' & gone & Hrun & Q' & Hperm & Hdrop).
      { intros y todo'' ->. rewrite last_snoc.
        apply (queue_prev h head _ Q0 todo'' y (x :: p :: kept)).
        rewrite <- app_assoc. reflexivity. }
      { subst cnt. cbn [length]. lia. }
      { lia. }
      { lia. }
      exists h', gone. split.
      { unfold and_then at 1. unfold and_then at 1. unfold increment.
        destruct (Z.ltb_spec cnt INT_MAX) as [_ | Hover]; [|lia].
        unfold pure at 1. cbn [fst snd]. unfold and_then at 1. unfold get_prev.
        rewrite (queue_live h head _ Q0 _ (Hsafe_in (x :: p :: kept))).
        exact Hrun. }
      split; [exact Q'|]. split; [|exact Hdrop].
      rewrite <- app_assoc. exact Hperm.
Qed.

Lemma purged_map (A : Type) (str : A -> list Z) descend (l : list A) :
  map str (purged str descend l) = purged (fun s => s) descend (map str l).
Proof.
  unfold purged. induction l as [|x l IH]; [reflexivity|].
  cbn [map fold_right]. rewrite <- IH.
  destruct (fold_right (purge_step str descend) [] l) as [|p k]; [reflexivity|].
  cbn [map purge_step]. destruct (beaten descend (str p) (str x)); reflexivity.
Qed.

(** [q_purge] at the level of the queue. *)
Lemma purge_ok h head nodes fuel descend :
  queue h head nodes -> length nodes <= fuel ->
  (Z.of_nat (length nodes) <= INT_MAX)%Z ->
  exists h' gone,
    q_purge fuel head descend h
    = Some (Z.of_nat (length (purged (string_at h) descend nodes)), h')
    /\ queue h' head (purged (string_at h) descend nodes)
    /\ contents h' (purged (string_at h) descend nodes)
       = purged (fun s => s) descend (contents h nodes)
    /\ Permutation nodes (gone ++ purged (string_at h) descend nodes)
    /\ dropped h h' (gone ++ map (value h) gone).
Proof.
  intros Q Hfuel Hint.
  assert (Hhead : live h head = true)
    by (apply (queue_live h head nodes Q); left; reflexivity).
  assert (Hhn : head <> NULL) by (apply (live_not_null h head nodes Q), Hhead).
  assert (Hmain : exists h' gone,
    q_purge fuel head descend h
    = Some (Z.of_nat (length (purged (string_at h) descend nodes)), h')
    /\ queue h' head (purged (string_at h) descend nodes)
    /\ Permutation nodes (gone ++ purged (string_at h) descend nodes)
    /\ dropped h h' (gone ++ map (value h) gone)).
  { unfold q_purge. rewrite (eqb_false _ _ Hhn).
    rewrite (and_then_run _ _ _ _ _ _ _ (list_empty_run h head nodes Q)).
    destruct nodes as [|x0 rest0] eqn:Hnodes.
    { exists h, []. split; [reflexivity|]. split; [exact Q|].
      split; [apply Permutation_refl | apply dropped_refl]. }
    rewrite (and_then_run _ _ _ _ _ _ _ (list_is_singular_run h head _ Q)).
    destruct rest0 as [|x1 rest1].
    { exists h, []. split; [reflexivity|]. split; [exact Q|].
      split; [apply Permutation_refl | apply dropped_refl]. }
    rewrite <- Hnodes in *.
    destruct (exists_last (l := nodes) ltac:(rewrite Hnodes; discriminate))
      as (todo & p & Hsplit).
    assert (Htodo : todo <> []).
    { intros ->. rewrite Hnodes in Hsplit. discriminate Hsplit. }
    destruct (exists_last Htodo) as (todo' & x & Htodo').
    assert (Q0 : queue h head (todo ++ [p])) by (rewrite <- Hsplit; exact Q).
    unfold and_then at 1. unfold get_prev at 1. rewrite Hhead.
    unfold and_then at 1. unfold get_prev at 1. rewrite Hhead.
    rewrite (queue_prev_head h head nodes Q), Hsplit, last_snoc.
    assert (Hp : live h p = true).
    { apply (queue_live h head _ Q0). right. apply in_elt. }
    unfold and_then at 1. unfold get_prev at 1. rewrite Hp.
    rewrite (queue_prev h head _ Q0 todo p [] eq_refl).
    assert (Hnode : live h (last todo head) = true).
    { apply (queue_live h head _ Q0). rewrite Htodo', last_snoc. right.
      apply in_or_app. left. apply in_elt. }
    unfold and_then at 1. unfold get_prev at 1. rewrite Hnode.
    destruct (purge_loop_spec (string_at h) head descend fuel todo p [] h
                (prev h (last todo head)) 1%Z Q0 (fun a => eq_refl))
      as (h' & gone & Hrun & Q' & Hperm & Hdrop).
    { intros y l E. rewrite E, last_snoc.
      apply (queue_prev h head _ Q0 l y [p]). rewrite E, <- app_assoc.
      reflexivity. }
    { reflexivity. }
    { rewrite Hsplit, length_app in Hfuel. lia. }
    { rewrite Hsplit, length_app in Hint. cbn [length] in Hint. lia. }
    assert (E : purged (string_at h) descend (todo ++ [p])
                = fold_right (purge_step (string_at h) descend) [p] todo).
    { unfold purged. rewrite fold_right_app. reflexivity. }
    rewrite E. exists h', gone. split; [exact Hrun|]. split; [exact Q'|].
    split; [exact Hperm | exact Hdrop]. }
  destruct Hmain as (h' & gone & Hrun & Q' & Hperm & Hdrop).
  exists h', gone. split; [exact Hrun|]. split; [exact Q'|].
  split; [|split; [exact Hperm | exact Hdrop]].
  rewrite (contents_dropped h h' _ _ Hdrop), !contents_strings.
  apply purged_map.
Qed.

(** What is kept is ordered: no element is beaten by the one after it. *)
Lemma purged_ordered descend (l : list (list Z)) :
  Sorted (fun a b => beaten descend b a = false) (purged (fun s => s) descend l).
Proof.
  unfold purged. induction l as [|x l IH]; [constructor|].
  cbn [fold_right].
  destruct (fold_right (purge_step (fun s => s) descend) [] l) as [|p k] eqn:E.
  - repeat constructor.
  - cbn [purge_step]. destruct (beaten descend p x) eqn:Hb; [exact IH|].
    constructor; [exact IH|]. constructor. exact Hb.
Qed.

Lemma compare_bytes_flip a :
  forall b, compare_bytes a b = (- compare_bytes b a)%Z.
Proof.
  induction a as [|x a IH]; intros [|y b]; cbn [compare_bytes]; try lia.
  rewrite (Z.eqb_sym y x). destruct (Z.eqb_spec x y); [apply IH | lia].
Qed.

Lemma Sorted_weaken (A : Type) (R R' : A -> A -> Prop) (l : list A) :
  (forall a b, R a b -> R' a b) -> Sorted R l -> Sorted R' l.
Proof.
  intros Himp. induction 1 as [|a l Hs IH Hhd]; constructor; [exact IH|].
  destruct Hhd; constructor. apply Himp. assumption.
Qed.

(** X24: [q_ascend] and [q_descend], which are [q_purge] with [descend] false
    and true. Read from the back, the last element is kept, and so is each
    element before it whose string compares strictly below (above, when
    descending) that of the nearest element kept behind it; every other
    element is unlinked and freed, one with an equal string too. The
    strings left ascend (descend) strictly and their number is returned. *)
Theorem q_ascend_descend_spec h head nodes fuel (descend : bool) :
  queue h head nodes -> length nodes <= fuel ->
  (Z.of_nat (length nodes) <= INT_MAX)%Z ->
  let kept := purged (string_at h) descend nodes in
  exists h' gone,
    (if descend then q_descend fuel head else q_ascend fuel head) h
    = Some (Z.of_nat (length kept), h')
    /\ queue h' head kept
    /\ contents h' kept = purged (fun s => s) descend (contents h nodes)
    /\ Sorted (fun a b => if descend then (0 < compare_bytes a b)%Z
                          else (compare_bytes a b < 0)%Z)
         (contents h' kept)
    /\ Permutation nodes (gone ++ kept)
    /\ dropped h h' (gone ++ map (value h) gone).
Proof.
  intros Q Hfuel Hint kept.
  destruct (purge_ok h head nodes fuel descend Q Hfuel Hint)
    as (h' & gone & Hrun & Q' & Hcont & Hperm & Hdrop).
  exists h', gone. split.
  { destruct descend; exact Hrun. }
  split; [exact Q'|]. split; [exact Hcont|].
  split; [|split; [exact Hperm | exact Hdrop]].
  fold kept in Hcont. rewrite Hcont.
  refine (Sorted_weaken _ _ _ _ _ (purged_ordered descend _)).
  intros a b H. unfold beaten in H. rewrite (compare_bytes_flip a b).
  destruct descend; cbn [negb andb orb] in H.
  - apply Z.leb_gt in H. lia.
  - rewrite orb_false_r in H. apply Z.leb_gt in H. lia.
Qed.

End QueuePurge.

Module QueueDup.

Import Queue QueueFacts QueueOps QueueInsert QueueInsertFacts QueueRemove QueueSpecs QueueWalk QueueRelease QueueMove QueueReverse QueueDelete QueuePurge.

Lemma dup_loop_spec (str : addr -> list Z) head :
  forall todo fuel done before h safe dup_tail,
  queue h head (done ++ todo) ->
  (forall a, string_at h a = str a) ->
  (todo <> [] -> safe = hd head (tl todo)) ->
  (todo <> [] ->
   dup_tail = if like_before str before (hd head todo)
              then hd head todo else NULL) ->
  length todo <= fuel ->
  exists h' gone,
    dup_loop fuel head (hd head todo) safe dup_tail h = Some (tt, h')
    /\ queue h' head (done ++ singles str before todo)
    /\ Permutation (done ++ todo) (gone ++ done ++ singles str before todo)
    /\ dropped h h' (gone ++ map (value h) gone).
Proof.
  induction todo as [|x rest IH];
    intros fuel done before h safe dup_tail Q Hstr Hsafe Hdt Hfuel.
  - exists h, []. cbn [hd singles]. destruct fuel; cbn [dup_loop];
      rewrite Nat.eqb_refl; (split; [reflexivity|]); (split; [exact Q|]);
      (split; [apply Permutation_refl | apply dropped_refl]).
  - destruct fuel as [|fuel]; [cbn in Hfuel; lia|].
    cbn [length] in Hfuel. specialize (Hsafe ltac:(discriminate)).
    cbn [tl] in Hsafe. subst safe.
    specialize (Hdt ltac:(discriminate)). cbn [hd] in Hdt. subst dup_tail.
    cbn [hd singles dup_loop].
    fold (like_before str before x).
    assert (Hx : In x (done ++ x :: rest)) by apply in_elt.
    assert (Hxl : live h x = true) by (apply (queue_live h head _ Q); right; exact Hx).
    assert (Hxn : x <> NULL) by (apply (live_not_null h head _ Q), Hxl).
    rewrite (eqb_false x head (queue_node_not_head h head _ Q x Hx)).
    set (like_after := match rest with
                       | y :: _ => same_string (str x) (str y)
                       | [] => false
                       end).
    assert (Hsame : (if hd head rest =? head then pure false
                     else let* v1 := get_value x in
                          let* v2 := get_value (hd head rest) in
                          let* c := strcmp v1 v2 in
                          pure (c =? 0)%Z) h = Some (like_after, h)).
    { destruct rest as [|y rest']; cbn [hd].
      - rewrite Nat.eqb_refl. reflexivity.
      - assert (Hy : In y (done ++ x :: y :: rest'))
          by (apply in_or_app; right; right; left; reflexivity).
        rewrite (eqb_false y head (queue_node_not_head h head _ Q y Hy)).
        unfold and_then at 1. unfold get_value at 1. rewrite Hxl.
        unfold and_then at 1. unfold get_value at 1.
        rewrite (queue_live h head _ Q y (or_intror Hy)).
        rewrite (and_then_run _ _ _ _ _ _ _ (strcmp_run h head _ x y Q Hx Hy)).
        rewrite !Hstr. reflexivity. }
    rewrite (and_then_run _ _ _ _ _ _ _ Hsame).
    assert (Hdel : exists h1,
      (list_del x ;;; q_release_element x) h = Some (tt, h1)
      /\ queue h1 head (done ++ rest) /\ dropped h h1 [x; value h x])
      by (apply delete_ok; exact Q).
    assert (Hnext : forall hc l, queue hc head (l ++ rest) -> rest <> [] ->
              next hc (hd head rest) = hd head (tl rest)).
    { intros hc l Qc Hne. destruct rest as [|y rest']; [contradiction|].
      cbn [hd tl]. apply (queue_next hc head _ Qc l y rest' eq_refl). }
    assert (Hlive : forall hc l, queue hc head (l ++ rest) ->
              live hc (hd head rest) = true).
    { intros hc l Qc. apply (queue_live hc head _ Qc).
      apply (hd_in_queue hc head _ Qc l rest eq_refl). }
    assert (Hgone : forall h1 h' gone,
      dropped h h1 [x; value h x] ->
      dropped h1 h' (gone ++ map (value h1) gone) ->
      dropped h h' ((x :: gone) ++ map (value h) (x :: gone))).
    { intros h1 h' gone Hd1 Hd2.
      assert (Hv1 : value h1 = value h) by apply Hd1. rewrite Hv1 in Hd2.
      apply (dropped_same h h' ([x; value h x] ++ gone ++ map (value h) gone)).
      { apply (dropped_trans h h1 h'); assumption. }
      intros a. cbn [app map In]. rewrite !in_app_iff. cbn [In]. tauto. }
    assert (Hstr1 : forall h1, dropped h h1 [x; value h x] ->
              forall a, string_at h1 a = str a).
    { intros h1 Hd a. rewrite <- Hstr. unfold string_at.
      destruct Hd as (-> & -> & _). reflexivity. }
    assert (Hafter : forall y, like_before str (Some x) y
                               = same_string (str x) (str y)) by reflexivity.
    destruct like_after eqn:Hla.
    + (* the next element has the same string *)
      destruct rest as [|y rest']; [discriminate Hla|].
      destruct Hdel as (h1 & Hrun1 & Q1 & Hdrop1).
      destruct (IH fuel done (Some x) h1 (next h1 (hd head (y :: rest'))) y
                  Q1 (Hstr1 h1 Hdrop1))
        as (h' & gone & Hrun & Q' & Hperm & Hdrop);
        [intros Hne; apply (Hnext h1 done Q1 Hne)
        |intros _; cbn [hd]; rewrite Hafter; subst like_after; rewrite Hla;
         reflexivity
        | lia |].
      rewrite orb_true_r.
      exists h', (x :: gone). split.
      { unfold and_then at 1. unfold and_then at 1.
        unfold and_then in Hrun1.
        destruct (list_del x h) as [[[] h0]|]; [|discriminate].
        unfold and_then at 1. rewrite Hrun1. unfold pure at 1.
        unfold and_then at 1. unfold get_next at 1.
        rewrite (Hlive h1 done Q1).
        cbn [hd] in Hrun |- *. exact Hrun. }
      split; [exact Q'|]. split; [|apply (Hgone h1); assumption].
      cbn [app]. eapply Permutation_trans; [apply Permutation_sym, Permutation_middle|].
      apply perm_skip. exact Hperm.
    + rewrite orb_false_r. destruct (like_before str before x) eqn:Hlb.
      * (* the one before had the same string *)
        destruct Hdel as (h1 & Hrun1 & Q1 & Hdrop1).
        destruct (IH fuel done (Some x) h1 (next h1 (hd head rest)) NULL
                    Q1 (Hstr1 h1 Hdrop1))
          as (h' & gone & Hrun & Q' & Hperm & Hdrop);
          [intros Hne; apply (Hnext h1 done Q1 Hne)
          |intros Hne; destruct rest as [|y rest']; [contradiction|];
           cbn [hd]; rewrite Hafter; subst like_after; rewrite Hla;
           reflexivity
          | lia |].
        exists h', (x :: gone). split.
        { unfold and_then at 1. rewrite (eqb_false x NULL Hxn). cbn [negb].
          unfold and_then at 1. rewrite Hrun1. unfold pure at 1.
          unfold and_then at 1. unfold get_next at 1.
          rewrite (Hlive h1 done Q1). exact Hrun. }
        split; [exact Q'|]. split; [|apply (Hgone h1); assumption].
        cbn [app]. eapply Permutation_trans; [apply Permutation_sym, Permutation_middle|].
        apply perm_skip. exact Hperm.
      * (* a string of its own: the element stays *)
        assert (Q0 : queue h head ((done ++ [x]) ++ rest))
          by (rewrite <- app_assoc; exact Q).
        destruct (IH fuel (done ++ [x]) (Some x) h (next h (hd head rest)) NULL
                    Q0 Hstr)
          as (h' & gone & Hrun & Q' & Hperm & Hdrop);
          [intros Hne; apply (Hnext h (done ++ [x]) Q0 Hne)
          |intros Hne; destruct rest as [|y rest']; [contradiction|];
           cbn [hd]; rewrite Hafter; subst like_after; rewrite Hla;
           reflexivity
          | lia |].
        exists h', gone. split.
        { unfold and_then at 1. rewrite Nat.eqb_refl. cbn [negb].
          unfold and_then at 1. unfold pure at 1. unfold pure at 1.
          unfold and_then at 1. unfold get_next at 1.
          rewrite (Hlive h (done ++ [x]) Q0). exact Hrun. }
        replace ((done ++ [x]) ++ singles str (Some x) rest)
          with (done ++ x :: singles str (Some x) rest) in Q', Hperm
          by (rewrite <- app_assoc; reflexivity).
        replace ((done ++ [x]) ++ rest) with (done ++ x :: rest) in Hperm
          by (rewrite <- app_assoc; reflexivity).
        split; [exact Q'|]. split; [exact Hperm | exact Hdrop].
Qed.

Lemma singles_map (A : Type) (str : A -> list Z) (l : list A) :
  forall before,
  map str (singles str before l)
  = singles (fun s => s) (option_map str before) (map str l).
Proof.
  induction l as [|x l IH]; intros before; [reflexivity|].
  cbn [map singles].
  replace (match option_map str before with
           | Some b => same_string b (str x)
           | None => false
           end)
    with (match before with
          | Some b => same_string (str b) (str x)
          | None => false
          end) by (destruct before; reflexivity).
  replace (match map str l with
           | [] => false
           | y :: _ => same_string (str x) y
           end)
    with (match l with
          | [] => false
          | y :: _ => same_string (str x) (str y)
          end) by (destruct l; reflexivity).
  destruct (_ || _); cbn [map]; rewrite (IH (Some x)); reflexivity.
Qed.

(** X23: [q_delete_dup]: every element whose string is that of the element
    before or after it is unlinked and freed, the others stay in order;
    the result is [false] on a queue of fewer than two elements. *)
Theorem q_delete_dup_spec h head nodes fuel :
  queue h head nodes -> length nodes <= fuel ->
  exists h' gone,
    q_delete_dup fuel head h = Some (2 <=? length nodes, h')
    /\ queue h' head (singles (string_at h) None nodes)
    /\ contents h' (singles (string_at h) None nodes)
       = singles (fun s => s) None (contents h nodes)
    /\ Permutation nodes (gone ++ singles (string_at h) None nodes)
    /\ dropped h h' (gone ++ map (value h) gone).
Proof.
  intros Q Hfuel.
  assert (Hhead : live h head = true)
    by (apply (queue_live h head nodes Q); left; reflexivity).
  assert (Hhn : head <> NULL) by (apply (live_not_null h head nodes Q), Hhead).
  assert (Hmain : exists h' gone,
    q_delete_dup fuel head h = Some (2 <=? length nodes, h')
    /\ queue h' head (singles (string_at h) None nodes)
    /\ Permutation nodes (gone ++ singles (string_at h) None nodes)
    /\ dropped h h' (gone ++ map (value h) gone)).
  { unfold q_delete_dup. rewrite (eqb_false _ _ Hhn).
    rewrite (and_then_run _ _ _ _ _ _ _ (list_empty_run h head nodes Q)).
    destruct nodes as [|x0 rest0] eqn:Hnodes.
    { exists h, []. split; [reflexivity|]. split; [exact Q|].
      split; [apply Permutation_refl | apply dropped_refl]. }
    rewrite (and_then_run _ _ _ _ _ _ _ (list_is_singular_run h head _ Q)).
    destruct rest0 as [|x1 rest1].
    { exists h, []. split; [reflexivity|]. split; [exact Q|].
      split; [apply Permutation_refl | apply dropped_refl]. }
    rewrite <- Hnodes in *.
    unfold and_then at 1. unfold get_next at 1. rewrite Hhead.
    rewrite (queue_next_head h head nodes Q).
    assert (Hfirst : live h (hd head nodes) = true).
    { apply (queue_live h head nodes Q). rewrite Hnodes. right. left. reflexivity. }
    unfold and_then at 1. unfold get_next at 1. rewrite Hfirst.
    destruct (dup_loop_spec (string_at h) head nodes fuel [] None h
                (next h (hd head nodes)) NULL Q (fun a => eq_refl))
      as (h' & gone & Hrun & Q' & Hperm & Hdrop);
      [|intros _; reflexivity|exact Hfuel|].
    { intros _. rewrite Hnodes. cbn [hd tl].
      apply (queue_next h head nodes Q [] x0 (x1 :: rest1) Hnodes). }
    cbn [like_before app] in Hrun, Q', Hperm.
    exists h', gone. split.
    { unfold and_then. rewrite Hrun. rewrite Hnodes. reflexivity. }
    split; [exact Q'|]. split; [exact Hperm | exact Hdrop]. }
  destruct Hmain as (h' & gone & Hrun & Q' & Hperm & Hdrop).
  exists h', gone. split; [exact Hrun|]. split; [exact Q'|].
  split; [|split; [exact Hperm | exact Hdrop]].
  rewrite (contents_dropped h h' _ _ Hdrop), !contents_strings.
  apply (singles_map _ (string_at h) nodes None).
Qed.

End QueueDup.

Module QueueChains.

Import Queue QueueFacts QueueOps QueueInsert QueueInsertFacts QueueRemove QueueSpecs QueueWalk QueueRelease QueueMove QueueReverse QueueDelete QueuePurge.

Lemma same_blocks_refl h : same_blocks h h.
Proof. repeat split. Qed.

Lemma same_blocks_trans h1 h2 h3 :
  same_blocks h1 h2 -> same_blocks h2 h3 -> same_blocks h1 h3.
Proof.
  intros (Hl1 & Hv1 & Hc1 & Hb1 & Hu1) (Hl2 & Hv2 & Hc2 & Hb2 & Hu2).
  unfold same_blocks. rewrite Hv2, Hc2, Hb2, Hu2.
  repeat (split; [|try assumption]); try assumption.
  intros a. rewrite Hl2. apply Hl1.
Qed.

Lemma relinked_same_blocks h h' : relinked h h' -> same_blocks h h'.
Proof.
  intros (Hv & Hc & Hl & Hb & Hu). unfold same_blocks.
  rewrite Hl. repeat split; assumption.
Qed.

Lemma same_blocks_strings h h' : same_blocks h h' -> string_at h' = string_at h.
Proof. intros (_ & Hv & Hc & _). unfold string_at. rewrite Hv, Hc. reflexivity. Qed.

Lemma same_blocks_cell h h' a : same_blocks h h' -> cell h a -> cell h' a.
Proof.
  intros (Hl & Hv & Hc & _) (H1 & H2 & H3). unfold cell.
  rewrite Hv, Hc, !Hl. repeat split; assumption.
Qed.

Lemma same_blocks_cells h h' l :
  same_blocks h h' -> Forall (cell h) l -> Forall (cell h') l.
Proof.
  intros Hs. apply Forall_impl. intros a. apply same_blocks_cell, Hs.
Qed.

Lemma same_blocks_sound h h' : same_blocks h h' -> heap_sound h -> heap_sound h'.
Proof.
  intros (Hl & _ & _ & Hb & _) (H0 & H1 & H2). unfold heap_sound.
  rewrite Hb, Hl. split; [exact H0|]. split; [exact H1|].
  intros a Ha. rewrite Hl. apply H2, Ha.
Qed.

Lemma queue_sound h head nodes : queue h head nodes -> heap_sound h.
Proof. intros Q. apply (heap_ok _ _ _ Q). Qed.

Lemma queue_cells h head nodes : queue h head nodes -> Forall (cell h) nodes.
Proof.
  intros Q. rewrite Forall_forall. intros a Ha. unfold cell.
  split; [apply (queue_live h head nodes Q); right; exact Ha|].
  split; [apply (queue_live_value h head nodes Q), Ha|].
  pose proof (strings_end _ _ _ Q) as He. rewrite Forall_forall in He.
  apply He, Ha.
Qed.

Lemma cell_below h a : heap_sound h -> cell h a -> a < brk h /\ a <> NULL.
Proof.
  intros (H0 & _ & Hb) (Ha & _). split.
  - destruct (Nat.lt_ge_cases a (brk h)) as [|Hge]; [assumption|].
    rewrite (Hb a Hge) in Ha. discriminate.
  - intros ->. congruence.
Qed.

(** *** Chains *)

Lemma chain_frame h h' l :
  forall first,
  chain h first l -> (forall a, In a l -> next h' a = next h a) ->
  chain h' first l.
Proof.
  induction l as [|a l IH]; intros first Hc Hsame; [exact Hc|].
  destruct Hc as [-> Hc]. split; [reflexivity|].
  rewrite (Hsame a (or_introl eq_refl)). apply IH; [exact Hc|].
  intros b Hb. apply Hsame. right. exact Hb.
Qed.

Lemma chain_first h first l : chain h first l -> first = hd NULL l.
Proof. destruct l; cbn; [trivial | intros [-> _]; reflexivity]. Qed.

Lemma chain_next h l :
  forall first j,
  chain h first l -> j < length l ->
  next h (nth j l NULL) = nth (S j) l NULL.
Proof.
  induction l as [|a l IH]; intros first j Hc Hj; [cbn in Hj; lia|].
  destruct Hc as [-> Hc]. destruct j as [|j].
  - cbn [nth]. apply chain_first in Hc. rewrite Hc. destruct l; reflexivity.
  - cbn [nth length] in *. apply (IH (next h a)); [exact Hc | lia].
Qed.

Lemma chain_last h l :
  forall first, chain h first l -> l <> [] -> next h (last l NULL) = NULL.
Proof.
  induction l as [|a l IH]; intros first Hc Hne; [contradiction|].
  destruct Hc as [-> Hc]. destruct l as [|b l]; [exact Hc|].
  change (last (a :: b :: l) NULL) with (last (b :: l) NULL).
  apply (IH (next h a)); [exact Hc | discriminate].
Qed.

(** Cutting a chain after one of its elements. *)
Lemma chain_cut h h' l1 x l2 :
  forall first,
  chain h first (l1 ++ x :: l2) -> NoDup (l1 ++ x :: l2) ->
  next h' x = NULL -> (forall a, a <> x -> next h' a = next h a) ->
  chain h' first (l1 ++ [x]) /\ chain h' (next h x) l2.
Proof.
  intros first Hc Hnd Hx Hother.
  assert (Hx2 : ~ In x l2).
  { apply NoDup_remove_2 in Hnd. intros Hin. apply Hnd, in_or_app. right.
    exact Hin. }
  revert first Hc Hnd. induction l1 as [|y l1 IH]; intros first Hc Hnd.
  - destruct Hc as [-> Hc]. split; [split; [reflexivity | exact Hx]|].
    apply (chain_frame h h' l2 _ Hc). intros a Ha. apply Hother.
    intros ->. contradiction.
  - cbn [app] in *. destruct Hc as [-> Hc].
    apply NoDup_cons_iff in Hnd as [Hy Hnd].
    destruct (IH (next h y) Hc Hnd) as [H1 H2]. split; [|exact H2].
    split; [reflexivity|]. rewrite Hother; [exact H1|].
    intros ->. apply Hy, in_elt.
Qed.

(** *** Merging lists *)

Section Merging.

Context {A : Type} (str : A -> list Z).

Local Abbreviation le := (fun a b => at_most (str a) (str b)).

Lemma merge_lists_nil_r l : merge_lists str l [] = l.
Proof. destruct l; reflexivity. Qed.

Lemma merge_lists_cons a l1 b l2 :
  merge_lists str (a :: l1) (b :: l2)
  = if (compare_bytes (str a) (str b) <=? 0)%Z
    then a :: merge_lists str l1 (b :: l2)
    else b :: merge_lists str (a :: l1) l2.
Proof. reflexivity. Qed.

Lemma merge_lists_perm l1 :
  forall l2, Permutation (l1 ++ l2) (merge_lists str l1 l2).
Proof.
  induction l1 as [|a l1 IH1]; intros l2; [apply Permutation_refl|].
  induction l2 as [|b l2 IH2].
  - rewrite merge_lists_nil_r, app_nil_r. apply Permutation_refl.
  - rewrite merge_lists_cons.
    destruct (compare_bytes (str a) (str b) <=? 0)%Z.
    + cbn [app]. apply perm_skip. apply IH1.
    + eapply Permutation_trans; [apply Permutation_sym, Permutation_middle|].
      apply perm_skip. exact IH2.
Qed.

Lemma merge_lists_hd x l1 :
  forall l2,
  HdRel le x l1 -> HdRel le x l2 -> HdRel le x (merge_lists str l1 l2).
Proof.
  destruct l1 as [|a l1]; intros l2 H1 H2; [exact H2|].
  destruct l2 as [|b l2]; [exact H1|].
  rewrite merge_lists_cons.
  destruct (compare_bytes (str a) (str b) <=? 0)%Z; constructor;
    [inversion H1 | inversion H2]; assumption.
Qed.

Lemma merge_lists_sorted l1 :
  forall l2,
  Sorted le l1 -> Sorted le l2 -> Sorted le (merge_lists str l1 l2).
Proof.
  induction l1 as [|a l1 IH1]; intros l2 H1 H2; [exact H2|].
  induction l2 as [|b l2 IH2]; [rewrite merge_lists_nil_r; exact H1|].
  rewrite merge_lists_cons.
  destruct (Z.leb_spec (compare_bytes (str a) (str b)) 0) as [Hle | Hgt].
  - apply Sorted_inv in H1 as [H1 Hhd]. constructor.
    + apply IH1; assumption.
    + apply merge_lists_hd; [exact Hhd|]. constructor. exact Hle.
  - pose proof H2 as H2'. apply Sorted_inv in H2 as [H2 Hhd]. constructor.
    + apply IH2. exact H2.
    + apply merge_lists_hd; [|exact Hhd]. constructor. unfold at_most.
      rewrite compare_bytes_flip. lia.
Qed.

End Merging.

End QueueChains.

Module QueueMerge.

Import Queue QueueFacts QueueOps QueueInsert QueueInsertFacts QueueRemove QueueSpecs QueueWalk QueueRelease QueueMove QueueReverse QueueDelete QueuePurge QueueChains.

Lemma strcmp_cells h a b :
  cell h a -> cell h b ->
  strcmp (value h a) (value h b) h
  = Some (compare_bytes (string_at h a) (string_at h b), h).
Proof.
  intros (_ & Ha & Hta) (_ & Hb & Htb). unfold strcmp.
  rewrite Ha, Hb, Hta, Htb. reflexivity.
Qed.

Lemma set_next_run h a v :
  live h a = true ->
  exists h',
    set_next a v h = Some (tt, h')
    /\ next h' = store (next h) a v /\ prev h' = prev h /\ relinked h h'.
Proof.
  intros Ha. unfold set_next. rewrite Ha. eexists. split; [reflexivity|].
  cbn [next prev]. repeat split.
Qed.

Lemma set_prev_run h a v :
  live h a = true ->
  exists h',
    set_prev a v h = Some (tt, h')
    /\ prev h' = store (prev h) a v /\ next h' = next h /\ relinked h h'.
Proof.
  intros Ha. unfold set_prev. rewrite Ha. eexists. split; [reflexivity|].
  cbn [next prev]. repeat split.
Qed.

Lemma relinked_live h h' a : relinked h h' -> live h' a = live h a.
Proof. intros (_ & _ & -> & _). reflexivity. Qed.

Lemma merge_loop_spec :
  forall fuel L R h left right list,
  chain h left L -> chain h right R ->
  NoDup (list :: L ++ R) -> Forall (cell h) (L ++ R) ->
  live h list = true -> live h NULL = false ->
  length L + length R <= fuel ->
  exists h',
    merge_loop fuel left right list h = Some (tt, h')
    /\ chain h' (next h' list) (merge_lists (string_at h) L R)
    /\ relinked h h' /\ prev h' = prev h
    /\ (forall a, a <> list -> ~ In a (L ++ R) -> next h' a = next h a).
Proof.
  assert (Hend : forall (fuel : nat) l h first list,
            chain h first l -> ~ In list l -> live h list = true ->
            exists h',
              set_next list first h = Some (tt, h')
              /\ chain h' (next h' list) l
              /\ relinked h h' /\ prev h' = prev h
              /\ (forall a, a <> list -> next h' a = next h a)).
  { intros _ l h first list Hc Hout Hlive.
    destruct (set_next_run h list first Hlive) as (h' & Hrun & Hn & Hp & Hrel).
    exists h'. split; [exact Hrun|]. rewrite Hn, store_same.
    split; [|split; [exact Hrel|split; [exact Hp|]]].
    - apply (chain_frame h h' l _ Hc). intros a Ha. rewrite Hn.
      apply store_other. intros ->. contradiction.
    - intros a Ha. apply store_other. exact Ha. }
  induction fuel as [|fuel IH];
    intros L R h left right list HL HR Hnd Hcells Hlist H0 Hfuel.
  - destruct L; [|cbn in Hfuel; lia]. destruct R; [|cbn in Hfuel; lia].
    cbn in HL, HR. subst left right. cbn [merge_loop].
    rewrite Nat.eqb_refl. cbn [negb andb].
    destruct (Hend 0 [] h NULL list eq_refl (fun F => F) Hlist)
      as (h' & Hrun & Hc & Hrel & Hp & Hn).
    exists h'. repeat (split; [assumption|]). intros a Ha _. apply Hn, Ha.
  - assert (Hnn : forall a, In a (L ++ R) -> a <> NULL).
    { intros a Ha ->. rewrite Forall_forall in Hcells.
      destruct (Hcells NULL Ha) as [Hl _]. congruence. }
    destruct L as [|a L'].
    { cbn in HL. subst left. cbn [merge_loop].
      rewrite Nat.eqb_refl. cbn [negb andb].
      destruct (Hend 0 R h right list HR) as (h' & Hrun & Hc & Hrel & Hp & Hn);
        [apply NoDup_cons_iff in Hnd as [Hnd _]; exact Hnd | exact Hlist |].
      exists h'. repeat (split; [assumption|]). intros x Hx _. apply Hn, Hx. }
    destruct HL as [-> HL].
    assert (Han : a <> NULL) by (apply Hnn; left; reflexivity).
    destruct R as [|b R'].
    { cbn in HR. subst right. cbn [merge_loop].
      rewrite (eqb_false a NULL Han), Nat.eqb_refl. cbn [negb andb].
      destruct (Hend 0 (a :: L') h a list) as (h' & Hrun & Hc & Hrel & Hp & Hn);
        [split; [reflexivity | exact HL]
        |apply NoDup_cons_iff in Hnd as [Hnd _]; rewrite app_nil_r in Hnd;
         exact Hnd
        |exact Hlist|].
      exists h'. rewrite merge_lists_nil_r. repeat (split; [assumption|]).
      intros x Hx _. apply Hn, Hx. }
    destruct HR as [-> HR].
    assert (Hbn : b <> NULL).
    { apply Hnn. apply in_or_app. right. left. reflexivity. }
    cbn [merge_loop]. rewrite (eqb_false a NULL Han), (eqb_false b NULL Hbn).
    cbn [negb andb].
    pose proof Hcells as Hcells'. rewrite Forall_forall in Hcells'.
    assert (Hca : cell h a) by (apply Hcells'; left; reflexivity).
    assert (Hcb : cell h b)
      by (apply Hcells'; apply in_or_app; right; left; reflexivity).
    unfold and_then at 1. unfold get_value at 1.
    rewrite (proj1 Hca).
    unfold and_then at 1. unfold get_value at 1.
    rewrite (proj1 Hcb).
    rewrite (and_then_run _ _ _ _ _ _ _ (strcmp_cells h a b Hca Hcb)).
    rewrite merge_lists_cons.
    apply NoDup_cons_iff in Hnd as [Hlist_out Hnd].
    cbn [length] in Hfuel.
    destruct (compare_bytes (string_at h a) (string_at h b) <=? 0)%Z.
    + destruct (set_next_run h list a Hlist) as (h1 & Hrun1 & Hn1 & Hp1 & Hrel1).
      assert (Hal : a <> list).
      { intros ->. apply Hlist_out. left. reflexivity. }
      cbn [app] in Hnd. apply NoDup_cons_iff in Hnd as [Ha_out Hnd].
      destruct (IH L' (b :: R') h1 (next h a) b a) as (h' & Hrun & Hc & Hrel & Hp & Hn).
      { apply (chain_frame h h1 L' _ HL). intros x Hx. rewrite Hn1.
        apply store_other. intros ->. apply Hlist_out. right.
        apply in_or_app. left. exact Hx. }
      { apply (chain_frame h h1 (b :: R') b (conj eq_refl HR)).
        intros x Hx. rewrite Hn1. apply store_other. intros ->.
        apply Hlist_out. right. apply in_or_app. right. exact Hx. }
      { constructor; assumption. }
      { apply (same_blocks_cells h h1 _ (relinked_same_blocks _ _ Hrel1)).
        apply Forall_inv_tail in Hcells. exact Hcells. }
      { rewrite (relinked_live h h1 a Hrel1). apply Hca. }
      { rewrite (relinked_live h h1 NULL Hrel1). exact H0. }
      { cbn [length]. lia. }
      exists h'. split.
      { rewrite (and_then_run _ _ _ _ _ _ _ Hrun1).
        unfold and_then at 1. unfold get_next at 1.
        rewrite (relinked_live h h1 a Hrel1), (proj1 Hca).
        unfold and_then at 1. unfold get_next at 1.
        rewrite (relinked_live h h1 list Hrel1), Hlist.
        rewrite Hn1, store_same, store_other by exact Hal. exact Hrun. }
      assert (Hlist' : next h' list = a).
      { rewrite Hn, Hn1; [apply store_same | congruence |].
        intros Hin. apply Hlist_out. right. exact Hin. }
      split.
      { rewrite Hlist'. split; [reflexivity|].
        rewrite (same_blocks_strings h h1 (relinked_same_blocks _ _ Hrel1)) in Hc.
        exact Hc. }
      split; [apply (relinked_trans h h1 h'); assumption|].
      split; [rewrite Hp, Hp1; reflexivity|].
      intros x Hx Hout. rewrite Hn, Hn1; [apply store_other; exact Hx | |].
      * intros ->. apply Hout. left. reflexivity.
      * intros Hin. apply Hout. right. exact Hin.
    + destruct (set_next_run h list b Hlist) as (h1 & Hrun1 & Hn1 & Hp1 & Hrel1).
      assert (Hbl : b <> list).
      { intros ->. apply Hlist_out. apply in_or_app. right. left. reflexivity. }
      assert (Hnd' : NoDup (b :: (a :: L') ++ R')).
      { eapply Permutation_NoDup; [|exact Hnd].
        apply Permutation_sym, Permutation_middle. }
      apply NoDup_cons_iff in Hnd' as [Hb_out Hnd'].
      destruct (IH (a :: L') R' h1 a (next h b) b) as (h' & Hrun & Hc & Hrel & Hp & Hn).
      { apply (chain_frame h h1 (a :: L') a (conj eq_refl HL)).
        intros x Hx. rewrite Hn1. apply store_other. intros ->.
        apply Hlist_out. apply in_or_app. left. exact Hx. }
      { apply (chain_frame h h1 R' _ HR). intros x Hx. rewrite Hn1.
        apply store_other. intros ->. apply Hlist_out.
        apply in_or_app. right. right. exact Hx. }
      { constructor; assumption. }
      { apply (same_blocks_cells h h1 _ (relinked_same_blocks _ _ Hrel1)).
        rewrite Forall_forall. intros x Hx. apply Hcells'.
        apply in_app_or in Hx as [Hx | Hx]; apply in_or_app;
          [left | right; right]; exact Hx. }
      { rewrite (relinked_live h h1 b Hrel1). apply Hcb. }
      { rewrite (relinked_live h h1 NULL Hrel1). exact H0. }
      { cbn [length] in *. lia. }
      exists h'. split.
      { rewrite (and_then_run _ _ _ _ _ _ _ Hrun1).
        unfold and_then at 1. unfold get_next at 1.
        rewrite (relinked_live h h1 b Hrel1), (proj1 Hcb).
        unfold and_then at 1. unfold get_next at 1.
        rewrite (relinked_live h h1 list Hrel1), Hlist.
        rewrite Hn1, store_same, store_other by exact Hbl. exact Hrun. }
      assert (Hlist' : next h' list = b).
      { rewrite Hn, Hn1; [apply store_same | congruence |].
        intros Hin. apply Hlist_out.
        apply in_app_or in Hin as [Hin | Hin]; apply in_or_app;
          [left | right; right]; exact Hin. }
      split.
      { rewrite Hlist'. split; [reflexivity|].
        rewrite (same_blocks_strings h h1 (relinked_same_blocks _ _ Hrel1)) in Hc.
        exact Hc. }
      split; [apply (relinked_trans h h1 h'); assumption|].
      split; [rewrite Hp, Hp1; reflexivity|].
      intros x Hx Hout. rewrite Hn, Hn1; [apply store_other; exact Hx | |].
      * intros ->. apply Hout. apply in_or_app. right. left. reflexivity.
      * intros Hin. apply Hout.
        apply in_app_or in Hin as [Hin | Hin]; apply in_or_app;
          [left | right; right]; exact Hin.
Qed.

Lemma INIT_LIST_HEAD_run h a :
  live h a = true ->
  INIT_LIST_HEAD a h
  = Some (tt, {| next := store (next h) a a; prev := store (prev h) a a;
                 value := value h; chars := chars h; live := live h;
                 brk := brk h; budget := budget h |}).
Proof.
  intros Ha. unfold INIT_LIST_HEAD, and_then, set_next. rewrite Ha.
  unfold set_prev. cbn [live]. rewrite Ha.
  cbn [next prev value chars live brk budget]. reflexivity.
Qed.

(** [merge] on two sorted, disjoint chains. *)
Lemma merge_run h L R left right fuel :
  heap_sound h ->
  chain h left L -> chain h right R ->
  NoDup (L ++ R) -> Forall (cell h) (L ++ R) ->
  length L + length R <= fuel ->
  exists h',
    merge fuel left right h
    = Some (hd NULL (merge_lists (string_at h) L R), h')
    /\ chain h' (hd NULL (merge_lists (string_at h) L R))
         (merge_lists (string_at h) L R)
    /\ same_blocks h h'
    /\ (forall a, a < brk h -> prev h' a = prev h a)
    /\ (forall a, a < brk h -> ~ In a (L ++ R) -> next h' a = next h a).
Proof.
  intros (H0 & Hbrk & Hdead) HL HR Hnd Hcells Hfuel.
  set (d := brk h).
  set (h2 := {| next := store (next h) d d; prev := store (prev h) d d;
                value := value h; chars := chars h;
                live := store (live h) d true; brk := S d;
                budget := budget h |}).
  assert (Hd_out : ~ In d (L ++ R)).
  { intros Hin. rewrite Forall_forall in Hcells.
    destruct (Hcells d Hin) as [Hl _]. rewrite (Hdead d (Nat.le_refl _)) in Hl.
    discriminate. }
  assert (Hlive2 : forall a, a <> d -> live h2 a = live h a).
  { intros a Ha. cbn [h2 live]. apply store_other. exact Ha. }
  destruct (merge_loop_spec fuel L R h2 left right d)
    as (h3 & Hrun & Hc & Hrel & Hp & Hn).
  { apply (chain_frame h h2 L _ HL). intros a Ha. cbn [h2 next].
    apply store_other. intros ->. apply Hd_out, in_or_app. left. exact Ha. }
  { apply (chain_frame h h2 R _ HR). intros a Ha. cbn [h2 next].
    apply store_other. intros ->. apply Hd_out, in_or_app. right. exact Ha. }
  { constructor; assumption. }
  { rewrite Forall_forall in Hcells |- *. intros a Ha.
    destruct (Hcells a Ha) as (H1 & H2 & H3). unfold cell.
    cbn [h2 value chars]. rewrite !Hlive2; [repeat split; assumption | |].
    - intros E. rewrite E, (Hdead d (Nat.le_refl _)) in H2. discriminate.
    - intros ->. contradiction. }
  { cbn [h2 live]. apply store_same. }
  { rewrite Hlive2; [exact H0|]. unfold d, NULL. lia. }
  { exact Hfuel. }
  assert (Hstr : string_at h2 = string_at h) by reflexivity.
  rewrite Hstr in Hc.
  pose proof (chain_first _ _ _ Hc) as Hfirst.
  exists {| next := next h3; prev := prev h3; value := value h3;
            chars := chars h3; live := store (live h3) d false;
            brk := d; budget := budget h3 |}.
  split.
  { unfold merge. unfold and_then at 1. unfold enter_local.
    unfold and_then at 1. rewrite INIT_LIST_HEAD_run by apply store_same.
    cbn [next prev value chars live brk budget]. fold d. fold h2.
    unfold and_then. rewrite Hrun. unfold get_next.
    rewrite (relinked_live h2 h3 d Hrel). cbn [h2 live]. rewrite store_same.
    unfold leave_local, pure. rewrite Hfirst. reflexivity. }
  split.
  { rewrite <- Hfirst. apply (chain_frame h3 _ _ _ Hc). reflexivity. }
  destruct Hrel as (Hv & Hch & Hl & Hb & Hbu).
  split.
  { unfold same_blocks. cbn [live value chars brk budget].
    rewrite Hv, Hch, Hbu, Hl. cbn [h2 live value chars budget].
    repeat split. intros a. destruct (Nat.eq_dec a d) as [-> | Ha].
    - rewrite store_same. symmetry. apply Hdead. apply Nat.le_refl.
    - rewrite !store_other by exact Ha. reflexivity. }
  split.
  { intros a Ha. cbn [prev]. rewrite Hp. cbn [h2 prev]. apply store_other.
    unfold d. lia. }
  intros a Ha Hout. cbn [next]. rewrite Hn; [|unfold d; lia | exact Hout].
  cbn [h2 next]. apply store_other. unfold d. lia.
Qed.

End QueueMerge.

Module QueueMergeSort.

Import Queue QueueFacts QueueOps QueueInsert QueueInsertFacts QueueRemove QueueSpecs QueueWalk QueueRelease QueueMove QueueReverse QueueDelete QueuePurge QueueChains QueueMerge.

Lemma halve_loop_spec h L first :
  chain h first L -> Forall (cell h) L -> live h NULL = false ->
  forall fuel i,
  2 * i + 1 <= length L -> length L <= 2 * (fuel + i) + 2 ->
  exists k,
    halve_loop fuel (nth i L NULL) (nth (2 * i + 1) L NULL) h
    = Some (nth k L NULL, h)
    /\ 2 * k + 1 <= length L.
Proof.
  intros Hc Hcells H0.
  assert (Hlive : forall j, j < length L -> live h (nth j L NULL) = true).
  { intros j Hj. rewrite Forall_forall in Hcells.
    apply (Hcells (nth j L NULL)). apply nth_In. exact Hj. }
  assert (Hnn : forall j, j < length L -> nth j L NULL <> NULL).
  { intros j Hj E. specialize (Hlive j Hj). rewrite E in Hlive. congruence. }
  assert (Hnext : forall j, j < length L ->
            next h (nth j L NULL) = nth (S j) L NULL)
    by (intros j Hj; apply (chain_next h L first j Hc Hj)).
  assert (Hstop : forall fuel i,
            2 * i + 1 <= length L -> length L <= 2 * i + 2 ->
            halve_loop fuel (nth i L NULL) (nth (2 * i + 1) L NULL) h
            = Some (nth i L NULL, h)).
  { intros fuel i Hlow Hhigh.
    destruct (Nat.eq_dec (length L) (2 * i + 1)) as [Hn | Hn].
    - rewrite (nth_overflow L NULL (n := 2 * i + 1)) by lia.
      destruct fuel; cbn [halve_loop]; rewrite Nat.eqb_refl; reflexivity.
    - assert (Hgoal : (if nth (2 * i + 1) L NULL =? NULL then pure (nth i L NULL)
                       else let* ahead := get_next (nth (2 * i + 1) L NULL) in
                            if ahead =? NULL then pure (nth i L NULL)
                            else fault) h = Some (nth i L NULL, h)).
      { rewrite (eqb_false _ _ (Hnn (2 * i + 1) ltac:(lia))).
        unfold and_then, get_next. rewrite Hlive, Hnext by lia.
        rewrite (nth_overflow L NULL (n := S (2 * i + 1))) by lia.
        rewrite Nat.eqb_refl. reflexivity. }
      destruct fuel; cbn [halve_loop]; [exact Hgoal|].
      rewrite (eqb_false _ _ (Hnn (2 * i + 1) ltac:(lia))) in Hgoal |- *.
      unfold and_then, get_next in Hgoal |- *.
      rewrite Hlive, Hnext in Hgoal |- * by lia.
      rewrite (nth_overflow L NULL (n := S (2 * i + 1))) in Hgoal |- * by lia.
      rewrite Nat.eqb_refl in Hgoal |- *. reflexivity. }
  induction fuel as [|fuel IH]; intros i Hlow Hhigh.
  - exists i. split; [apply Hstop; lia | lia].
  - destruct (Nat.le_gt_cases (length L) (2 * i + 2)) as [Hle | Hgt].
    { exists i. split; [apply Hstop; lia | lia]. }
    destruct (IH (S i) ltac:(lia) ltac:(lia)) as (k & Hrun & Hk).
    exists k. split; [|exact Hk].
    cbn [halve_loop].
    rewrite (eqb_false _ _ (Hnn (2 * i + 1) ltac:(lia))).
    unfold and_then at 1. unfold get_next at 1. rewrite Hlive, Hnext by lia.
    rewrite (eqb_false _ _ (Hnn (S (2 * i + 1)) ltac:(lia))).
    unfold and_then at 1. unfold get_next at 1. rewrite Hlive, Hnext by lia.
    unfold and_then at 1. unfold get_next at 1. rewrite Hlive, Hnext by lia.
    unfold and_then at 1. unfold get_next at 1. rewrite Hlive, Hnext by lia.
    replace (S (S (2 * i + 1))) with (2 * S i + 1) by lia. exact Hrun.
Qed.

(** [mergeSort] on a chain: the chain of the same elements in ascending
    order of their strings. *)
Lemma mergeSort_run :
  forall fuel L h head,
  heap_sound h -> chain h head L -> NoDup L -> Forall (cell h) L ->
  length L <= fuel ->
  exists h' S,
    mergeSort fuel head h = Some (hd NULL S, h')
    /\ chain h' (hd NULL S) S
    /\ Permutation L S
    /\ Sorted (fun a b => at_most (string_at h a) (string_at h b)) S
    /\ same_blocks h h'
    /\ (forall a, a < brk h -> prev h' a = prev h a)
    /\ (forall a, a < brk h -> ~ In a L -> next h' a = next h a).
Proof.
  induction fuel as [|fuel IH]; intros L h head Hsound Hc Hnd Hcells Hfuel.
  { destruct L; [|cbn in Hfuel; lia]. cbn in Hc. subst head.
    exists h, []. cbn [mergeSort hd]. rewrite Nat.eqb_refl.
    split; [reflexivity|]. split; [reflexivity|].
    split; [apply Permutation_refl|]. split; [constructor|].
    split; [apply same_blocks_refl|]. split; reflexivity. }
  pose proof Hsound as (H0 & Hbrk & Hdead).
  pose proof Hcells as Hcells'. rewrite Forall_forall in Hcells'.
  assert (Hnn : forall a, In a L -> a <> NULL /\ live h a = true).
  { intros a Ha. destruct (Hcells' a Ha) as [Hl _]. split; [|exact Hl].
    intros ->. congruence. }
  destruct L as [|a [|b L'']].
  { cbn in Hc. subst head. exists h, []. cbn [mergeSort hd].
    rewrite Nat.eqb_refl.
    split; [reflexivity|]. split; [reflexivity|].
    split; [apply Permutation_refl|]. split; [constructor|].
    split; [apply same_blocks_refl|]. split; reflexivity. }
  { destruct Hc as [-> Hc]. cbn in Hc.
    destruct (Hnn a (or_introl eq_refl)) as [Han Hal].
    exists h, [a]. cbn [mergeSort hd]. rewrite (eqb_false _ _ Han).
    unfold and_then, get_next. rewrite Hal, Hc, Nat.eqb_refl.
    split; [reflexivity|]. split; [split; [reflexivity | exact Hc]|].
    split; [apply Permutation_refl|]. split; [repeat constructor|].
    split; [apply same_blocks_refl|]. split; reflexivity. }
  set (L := a :: b :: L'') in *.
  assert (Hhead : head = a) by apply Hc. subst head.
  destruct (Hnn a (or_introl eq_refl)) as [Han Hal].
  destruct (Hnn b (or_intror (or_introl eq_refl))) as [Hbn Hbl].
  assert (Hnext_a : next h a = b) by (destruct Hc as [_ [Hb _]]; exact Hb).
  assert (Hlen : 2 <= length L) by (cbn; lia).
  destruct (halve_loop_spec h L a Hc Hcells H0 fuel 0 ltac:(lia) ltac:(lia))
    as (k & Hhalve & Hk).
  change (nth 0 L NULL) with a in Hhalve.
  change (nth (2 * 0 + 1) L NULL) with b in Hhalve.
  assert (Hk2 : k + 2 <= length L) by lia.
  set (x := nth k L NULL) in *.
  pose proof (split_at _ NULL L k ltac:(lia)) as Hsplit. fold x in Hsplit.
  set (l1 := firstn k L) in *. set (l2 := skipn (S k) L) in *.
  assert (Hl1 : length l1 = k) by (apply firstn_length_le; lia).
  assert (Hl2 : length l2 = length L - S k) by apply length_skipn.
  assert (Hx : In x L) by (apply nth_In; lia).
  destruct (Hnn x Hx) as [Hxn Hxl].
  destruct (set_next_run h x NULL Hxl) as (h1 & Hrun1 & Hn1 & Hp1 & Hrel1).
  pose proof (relinked_same_blocks _ _ Hrel1) as Hsb1.
  rewrite Hsplit in Hc, Hnd.
  destruct (chain_cut h h1 l1 x l2 a Hc Hnd) as [Hleft Hright].
  { rewrite Hn1. apply store_same. }
  { intros y Hy. rewrite Hn1. apply store_other. exact Hy. }
  assert (Hnd_l : NoDup (l1 ++ [x]) /\ NoDup l2
                  /\ forall y, In y (l1 ++ [x]) -> ~ In y l2).
  { replace (l1 ++ x :: l2) with ((l1 ++ [x]) ++ l2) in Hnd
      by (rewrite <- app_assoc; reflexivity).
    split; [apply (NoDup_app_remove_r _ _ Hnd)|].
    split; [apply (NoDup_app_remove_l _ _ Hnd)|].
    intros y Hy1 Hy2. clear - Hnd Hy1 Hy2.
    induction (l1 ++ [x]) as [|z l IHl]; [contradiction|].
    cbn [app] in Hnd. apply NoDup_cons_iff in Hnd as [Hz Hnd].
    destruct Hy1 as [-> | Hy1]; [apply Hz, in_or_app; right; exact Hy2|].
    apply IHl; assumption. }
  destruct Hnd_l as (Hnd1 & Hnd2 & Hdisj).
  assert (Hin_l : forall y, In y (l1 ++ [x]) -> In y L).
  { intros y Hy. rewrite Hsplit. apply in_app_or in Hy as [Hy | [<- | []]];
      [apply in_or_app; left; exact Hy | apply in_elt]. }
  assert (Hin_r : forall y, In y l2 -> In y L).
  { intros y Hy. rewrite Hsplit. apply in_or_app. right. right. exact Hy. }
  assert (Hcells1 : Forall (cell h1) L)
    by (apply (same_blocks_cells h h1 _ Hsb1), Hcells).
  (* the left half *)
  destruct (IH (l1 ++ [x]) h1 a (same_blocks_sound _ _ Hsb1 Hsound) Hleft Hnd1)
    as (h2 & S1 & Hrun2 & Hc2 & Hperm2 & Hsort2 & Hsb2 & Hp2 & Hn2).
  { rewrite Forall_forall in Hcells1 |- *. intros y Hy.
    apply Hcells1, Hin_l, Hy. }
  { rewrite length_app. cbn [length]. lia. }
  assert (Hbrk1 : brk h1 = brk h) by apply Hsb1.
  assert (Hbrk2 : brk h2 = brk h) by (rewrite <- Hbrk1; apply Hsb2).
  assert (Hbelow : forall y, In y L -> y < brk h).
  { intros y Hy. apply (cell_below h y Hsound), Hcells', Hy. }
  assert (Hcells2 : Forall (cell h2) L)
    by (apply (same_blocks_cells h1 h2 _ Hsb2), Hcells1).
  (* the right half *)
  destruct (IH l2 h2 (next h x) (same_blocks_sound _ _ Hsb2
                                   (same_blocks_sound _ _ Hsb1 Hsound)))
    as (h3 & S2 & Hrun3 & Hc3 & Hperm3 & Hsort3 & Hsb3 & Hp3 & Hn3).
  { apply (chain_frame h1 h2 l2 _ Hright). intros y Hy. apply Hn2.
    - rewrite Hbrk1. apply Hbelow, Hin_r, Hy.
    - intros Hin. apply (Hdisj y Hin Hy). }
  { exact Hnd2. }
  { rewrite Forall_forall in Hcells2 |- *. intros y Hy.
    apply Hcells2, Hin_r, Hy. }
  { lia. }
  assert (Hbrk3 : brk h3 = brk h) by (rewrite <- Hbrk2; apply Hsb3).
  assert (Hcells3 : Forall (cell h3) L)
    by (apply (same_blocks_cells h2 h3 _ Hsb3), Hcells2).
  assert (Hsound3 : heap_sound h3).
  { apply (same_blocks_sound _ _ Hsb3), (same_blocks_sound _ _ Hsb2),
      (same_blocks_sound _ _ Hsb1), Hsound. }
  assert (Hperm : Permutation L (S1 ++ S2)).
  { rewrite Hsplit.
    replace (l1 ++ x :: l2) with ((l1 ++ [x]) ++ l2)
      by (rewrite <- app_assoc; reflexivity).
    apply Permutation_app; assumption. }
  assert (Hstr1 : string_at h1 = string_at h) by apply same_blocks_strings, Hsb1.
  assert (Hstr2 : string_at h2 = string_at h)
    by (rewrite <- Hstr1; apply same_blocks_strings, Hsb2).
  assert (Hstr3 : string_at h3 = string_at h)
    by (rewrite <- Hstr2; apply same_blocks_strings, Hsb3).
  (* the merge *)
  destruct (merge_run h3 S1 S2 (hd NULL S1) (hd NULL S2) (S fuel) Hsound3)
    as (h4 & Hrun4 & Hc4 & Hsb4 & Hp4 & Hn4).
  { apply (chain_frame h2 h3 S1 _ Hc2). intros y Hy. apply Hn3.
    - rewrite Hbrk2. apply Hbelow, Hin_l.
      apply (Permutation_in _ (Permutation_sym Hperm2) Hy).
    - intros Hin. apply (Hdisj y); [|exact Hin].
      apply (Permutation_in _ (Permutation_sym Hperm2) Hy). }
  { exact Hc3. }
  { apply (Permutation_NoDup Hperm). rewrite Hsplit. exact Hnd. }
  { apply (Permutation_Forall Hperm). exact Hcells3. }
  { rewrite <- length_app, <- (Permutation_length Hperm). exact Hfuel. }
  rewrite Hstr3 in Hrun4, Hc4.
  exists h4, (merge_lists (string_at h) S1 S2).
  split.
  { cbn [mergeSort]. rewrite (eqb_false _ _ Han).
    unfold and_then at 1. unfold get_next at 1. rewrite Hal, Hnext_a.
    rewrite (eqb_false _ _ Hbn).
    unfold and_then at 1. unfold get_next at 1. rewrite Hal, Hnext_a.
    rewrite (and_then_run _ _ _ _ _ _ _ Hhalve).
    unfold and_then at 1. unfold get_next at 1. rewrite Hxl.
    rewrite (and_then_run _ _ _ _ _ _ _ Hrun1).
    rewrite (and_then_run _ _ _ _ _ _ _ Hrun2).
    rewrite (and_then_run _ _ _ _ _ _ _ Hrun3).
    exact Hrun4. }
  split; [exact Hc4|].
  split.
  { eapply Permutation_trans; [exact Hperm | apply merge_lists_perm]. }
  split.
  { apply (merge_lists_sorted (string_at h)).
    - rewrite Hstr1 in Hsort2. exact Hsort2.
    - rewrite Hstr2 in Hsort3. exact Hsort3. }
  split.
  { apply (same_blocks_trans h h3 h4); [|exact Hsb4].
    apply (same_blocks_trans h h2 h3); [|exact Hsb3].
    apply (same_blocks_trans h h1 h2); assumption. }
  split.
  { intros y Hy. rewrite Hp4, Hp3, Hp2, Hp1 by lia. reflexivity. }
  intros y Hy Hout.
  rewrite Hn4, Hn3, Hn2, Hn1; try lia.
  - apply store_other. intros ->. apply Hout, Hx.
  - intros Hin. apply Hout, Hin_l, Hin.
  - intros Hin. apply Hout, Hin_r, Hin.
  - intros Hin. apply Hout. apply (Permutation_in _ (Permutation_sym Hperm) Hin).
Qed.

End QueueMergeSort.

Module QueueSort.

Import Queue QueueFacts QueueOps QueueInsert QueueInsertFacts QueueRemove QueueSpecs QueueWalk QueueRelease QueueMove QueueReverse QueueDelete QueuePurge QueueChains QueueMerge QueueMergeSort.

Lemma queue_same_blocks h h' head nodes nodes' :
  queue h head nodes -> same_blocks h h' ->
  Permutation nodes nodes' ->
  path h' (head :: nodes' ++ [head]) ->
  queue h' head nodes'.
Proof.
  intros Q (Hl & Hv & Hc & Hb & Hbu) Hperm Hpath.
  assert (Hblocks : Permutation (head :: nodes ++ map (value h) nodes)
                                (head :: nodes' ++ map (value h) nodes')).
  { apply perm_skip. apply Permutation_app; [exact Hperm|].
    apply Permutation_map. exact Hperm. }
  constructor.
  - destruct (heap_ok _ _ _ Q) as (H0 & H1 & H2). rewrite Hb, Hl.
    split; [exact H0|]. split; [exact H1|]. intros a Ha. rewrite Hl.
    apply H2, Ha.
  - rewrite Hv. apply (Permutation_NoDup Hblocks). apply (distinct _ _ _ Q).
  - exact Hpath.
  - rewrite Hv. apply (Permutation_Forall Hblocks).
    eapply Forall_impl; [|apply (allocated _ _ _ Q)].
    intros a Ha. rewrite Hl. exact Ha.
  - rewrite Hv, Hc. apply (Permutation_Forall Hperm).
    apply (strings_end _ _ _ Q).
Qed.

Lemma chain_of_links h l :
  forall first,
  l <> [] -> first = hd NULL l ->
  (forall j, S j < length l -> next h (nth j l NULL) = nth (S j) l NULL) ->
  next h (last l NULL) = NULL ->
  chain h first l.
Proof.
  induction l as [|a l IH]; intros first Hne Hfirst Hlinks Hlast;
    [contradiction|].
  cbn [hd] in Hfirst. subst first. split; [reflexivity|].
  destruct l as [|b l]; [exact Hlast|].
  apply IH; [discriminate | | |].
  - apply (Hlinks 0). cbn. lia.
  - intros j Hj. apply (Hlinks (S j)). cbn in *. lia.
  - exact Hlast.
Qed.

Lemma last_nth (A : Type) (l : list A) (d d' : A) :
  l <> [] -> last l d = nth (length l - 1) l d'.
Proof.
  induction l as [|a l IH]; intros Hne; [contradiction|].
  destruct l as [|b l]; [reflexivity|].
  change (last (a :: b :: l) d) with (last (b :: l) d).
  rewrite IH by discriminate.
  replace (length (a :: b :: l) - 1) with (S (length (b :: l) - 1))
    by (cbn [length]; lia).
  reflexivity.
Qed.

Lemma nth_removelast (A : Type) (l : list A) (d : A) :
  forall j, S j < length l -> nth j (removelast l) d = nth j l d.
Proof.
  induction l as [|a l IH]; intros j Hj; [cbn in Hj; lia|].
  destruct l as [|b l]; [cbn in Hj; lia|].
  change (removelast (a :: b :: l)) with (a :: removelast (b :: l)).
  destruct j as [|j]; [reflexivity|]. cbn [nth]. apply IH. cbn in *. lia.
Qed.

Lemma length_removelast (A : Type) (l : list A) :
  length (removelast l) = length l - 1.
Proof.
  induction l as [|a l IH]; [reflexivity|].
  destruct l as [|b l]; [reflexivity|].
  change (removelast (a :: b :: l)) with (a :: removelast (b :: l)).
  cbn [length] in *. lia.
Qed.

Lemma in_removelast (A : Type) (l : list A) (x : A) :
  In x (removelast l) -> In x l.
Proof.
  induction l as [|a l IH]; [trivial|].
  destruct l as [|b l]; [intros []|].
  change (removelast (a :: b :: l)) with (a :: removelast (b :: l)).
  intros [<- | H]; [left; reflexivity | right; apply IH, H].
Qed.

Lemma last_not_before (A : Type) (l : list A) (d : A) :
  NoDup l -> l <> [] -> ~ In (last l d) (removelast l).
Proof.
  intros Hnd Hne Hin.
  pose proof (app_removelast_last d Hne) as E. rewrite E in Hnd.
  apply NoDup_remove_2 in Hnd. apply Hnd. rewrite app_nil_r. exact Hin.
Qed.

(** The ring of a queue from its links, element by element. *)
Lemma path_chain h head sl :
  sl <> [] ->
  (forall j, S j < length sl ->
     next h (nth j sl NULL) = nth (S j) sl NULL
     /\ prev h (nth (S j) sl NULL) = nth j sl NULL) ->
  next h (last sl NULL) = head -> prev h head = last sl NULL ->
  path h (sl ++ [head]).
Proof.
  induction sl as [|a sl IH]; intros Hne Hlinks Hn Hp; [contradiction|].
  destruct sl as [|b sl].
  - cbn. split; [split; assumption | exact I].
  - change ((a :: b :: sl) ++ [head]) with (a :: b :: sl ++ [head]).
    split; [apply (Hlinks 0); cbn; lia|].
    apply IH; [discriminate | | exact Hn | exact Hp].
    intros j Hj. apply (Hlinks (S j)). cbn in *. lia.
Qed.

Lemma relink_loop_spec :
  forall todo fuel h node x,
  chain h x (x :: todo) -> NoDup (x :: todo) ->
  (forall a, In a (x :: todo) -> live h a = true) -> live h NULL = false ->
  length todo <= fuel ->
  exists h',
    relink_loop fuel node x h = Some (last (x :: todo) NULL, h')
    /\ next h' = next h /\ relinked h h'
    /\ (forall j, j < length todo ->
          prev h' (nth j (x :: todo) NULL) = nth j (node :: x :: todo) NULL)
    /\ (forall a, ~ In a (removelast (x :: todo)) -> prev h' a = prev h a).
Proof.
  induction todo as [|y todo IH]; intros fuel h node x Hc Hnd Hlive H0 Hfuel.
  - destruct Hc as [_ Hc]. cbn in Hc. exists h.
    assert (Hrun : relink_loop fuel node x h = Some (x, h)).
    { destruct fuel; cbn [relink_loop]; unfold and_then, get_next;
        rewrite (Hlive x (or_introl eq_refl)), Hc, Nat.eqb_refl; reflexivity. }
    split; [exact Hrun|]. split; [reflexivity|].
    split; [apply relinked_refl|]. split; [|reflexivity].
    intros j Hj. cbn in Hj. lia.
  - destruct fuel as [|fuel]; [cbn in Hfuel; lia|].
    destruct Hc as [_ Hc]. pose proof Hc as [Hy Hc'].
    assert (Hxl : live h x = true) by (apply Hlive; left; reflexivity).
    assert (Hyn : y <> NULL).
    { intros ->. rewrite (Hlive NULL (or_intror (or_introl eq_refl))) in H0.
      discriminate. }
    destruct (set_prev_run h x node Hxl) as (h1 & Hrun1 & Hp1 & Hn1 & Hrel1).
    apply NoDup_cons_iff in Hnd as [Hx_out Hnd].
    destruct (IH fuel h1 x y) as (h' & Hrun & Hn & Hrel & Hback & Hframe).
    { split; [reflexivity|]. rewrite Hn1.
      apply (chain_frame h h1 todo _ Hc').
      intros a _. rewrite Hn1. reflexivity. }
    { exact Hnd. }
    { intros a Ha. rewrite (relinked_live h h1 a Hrel1). apply Hlive. right.
      exact Ha. }
    { rewrite (relinked_live h h1 NULL Hrel1). exact H0. }
    { cbn [length] in Hfuel. lia. }
    exists h'. split.
    { cbn [relink_loop]. unfold and_then at 1. unfold get_next at 1.
      rewrite Hxl, Hy, (eqb_false _ _ Hyn).
      rewrite (and_then_run _ _ _ _ _ _ _ Hrun1).
      unfold and_then at 1. unfold get_next at 1.
      rewrite (relinked_live h h1 x Hrel1), Hxl, Hn1, Hy. exact Hrun. }
    split; [rewrite Hn, Hn1; reflexivity|].
    split; [apply (relinked_trans h h1 h'); assumption|].
    split.
    + intros [|j] Hj.
      * cbn [nth]. rewrite Hframe, Hp1; [apply store_same|].
        intros Hin. apply Hx_out, in_removelast, Hin.
      * cbn [nth length] in *. apply (Hback j). lia.
    + intros a Ha.
      change (removelast (x :: y :: todo)) with (x :: removelast (y :: todo)) in Ha.
      rewrite Hframe, Hp1; [apply store_other|].
      * intros ->. apply Ha. left. reflexivity.
      * intros Hin. apply Ha. right. exact Hin.
Qed.

(** [q_sort] before the final reversal, on a queue of at least two
    elements. *)
Lemma sort_run h head nodes fuel :
  queue h head nodes -> 2 <= length nodes -> length nodes <= fuel ->
  exists h' sl,
    (forall d, q_sort fuel head d h
               = (if d then q_reverse fuel head else pure tt) h')
    /\ Permutation nodes sl
    /\ Sorted (fun a b => at_most (string_at h a) (string_at h b)) sl
    /\ same_blocks h h'
    /\ queue (with_prev h' (last sl head) (last (removelast sl) head)) head sl
    /\ prev h' (last sl head) = prev h (last sl head).
Proof.
  intros Q Hlen Hfuel.
  assert (Hhead : live h head = true)
    by (apply (queue_live h head nodes Q); left; reflexivity).
  assert (Hhn : head <> NULL) by (apply (live_not_null h head nodes Q), Hhead).
  pose proof (queue_sound _ _ _ Q) as Hsound.
  pose proof (queue_cells _ _ _ Q) as Hcells.
  assert (Hnd : NoDup (head :: nodes)).
  { pose proof (distinct _ _ _ Q) as Hd.
    change (head :: nodes ++ map (value h) nodes)
      with ((head :: nodes) ++ map (value h) nodes) in Hd.
    apply (NoDup_app_remove_r _ _ Hd). }
  pose proof Hnd as Hnd0. apply NoDup_cons_iff in Hnd0 as [Hhead_out Hnd_nodes].
  assert (Hne : nodes <> []) by (intros ->; cbn in Hlen; lia).
  set (z0 := last nodes head).
  assert (Hz0_in : In z0 nodes).
  { unfold z0. rewrite (app_removelast_last head Hne) at 2. apply in_elt. }
  assert (Hz0 : live h z0 = true)
    by (apply (queue_live h head nodes Q); right; exact Hz0_in).
  destruct (set_next_run h z0 NULL Hz0) as (h1 & Hrun1 & Hn1 & Hp1 & Hrel1).
  pose proof (relinked_same_blocks _ _ Hrel1) as Hsb1.
  assert (Hbelow : forall a, In a (head :: nodes) -> a < brk h).
  { intros a Ha. apply (live_below_brk h head nodes Q).
    apply (queue_live h head nodes Q), Ha. }
  (* the chain *)
  assert (Hchain : chain h1 (hd head nodes) nodes).
  { apply chain_of_links; [exact Hne | destruct nodes; [contradiction|reflexivity] | |].
    - intros j Hj. rewrite Hn1, store_other.
      + rewrite (nth_indep nodes NULL head) by lia.
        rewrite (nth_indep nodes NULL head (n := S j)) by lia.
        apply (next_pos h head nodes Q). lia.
      + unfold z0. rewrite (last_nth _ nodes head NULL Hne). intros E.
        apply (NoDup_nth nodes NULL) in E; [lia | exact Hnd_nodes | lia | lia].
    - rewrite Hn1. replace (last nodes NULL) with z0; [apply store_same|].
      unfold z0. rewrite (last_nth _ nodes head NULL Hne).
      symmetry. apply last_nth. exact Hne. }
  destruct (mergeSort_run fuel nodes h1 (hd head nodes)
              (same_blocks_sound _ _ Hsb1 Hsound) Hchain Hnd_nodes
              (same_blocks_cells _ _ _ Hsb1 Hcells) Hfuel)
    as (h2 & sl & Hrun2 & Hc2 & Hperm & Hsorted & Hsb2 & Hp2 & Hn2).
  assert (Hbrk1 : brk h1 = brk h) by apply Hsb1.
  assert (HS_len : length sl = length nodes)
    by (symmetry; apply Permutation_length, Hperm).
  assert (HS_ne : sl <> []) by (intros ->; cbn in HS_len; lia).
  assert (HS_in : forall a, In a sl -> In a nodes).
  { intros a Ha. apply (Permutation_in _ (Permutation_sym Hperm) Ha). }
  assert (HS_nd : NoDup sl) by (apply (Permutation_NoDup Hperm), Hnd_nodes).
  assert (HS_head : ~ In head sl) by (intros Hin; apply Hhead_out, HS_in, Hin).
  assert (Hlive2 : forall a, live h2 a = live h a).
  { intros a. destruct Hsb2 as [-> _]. apply Hsb1. }
  assert (Hhead2 : live h2 head = true) by (rewrite Hlive2; exact Hhead).
  destruct (set_next_run h2 head (hd NULL sl) Hhead2)
    as (h3 & Hrun3 & Hn3 & Hp3 & Hrel3).
  destruct sl as [|s0 sl'] eqn:HS; [contradiction|]. rewrite <- HS in *.
  assert (Hhd : hd NULL sl = s0) by (rewrite HS; reflexivity).
  rewrite Hhd in *.
  assert (Hlive3 : forall a, live h3 a = live h a).
  { intros a. rewrite (relinked_live h2 h3 a Hrel3). apply Hlive2. }
  destruct (relink_loop_spec sl' fuel h3 head s0)
    as (h4 & Hrun4 & Hn4 & Hrel4 & Hback & Hframe).
  { rewrite <- HS. apply (chain_frame h2 h3 sl _ Hc2). intros a Ha.
    rewrite Hn3. apply store_other. intros ->. contradiction. }
  { rewrite <- HS. exact HS_nd. }
  { intros a Ha. rewrite Hlive3. apply (queue_live h head nodes Q). right.
    apply HS_in. rewrite HS. exact Ha. }
  { rewrite Hlive3. exact (proj1 Hsound). }
  { rewrite HS in HS_len. cbn [length] in HS_len. lia. }
  rewrite <- HS in Hrun4, Hframe.
  set (z := last sl NULL) in *.
  assert (Hz_last : last sl head = z).
  { unfold z. rewrite (last_nth _ sl head NULL HS_ne).
    symmetry. apply last_nth. exact HS_ne. }
  assert (Hz_in : In z sl).
  { unfold z. rewrite (app_removelast_last NULL HS_ne) at 2. apply in_elt. }
  assert (Hz_head : z <> head) by (intros E; apply HS_head; rewrite <- E; exact Hz_in).
  assert (Hlive4 : forall a, live h4 a = live h a).
  { intros a. rewrite (relinked_live h3 h4 a Hrel4). apply Hlive3. }
  assert (Hz4 : live h4 z = true).
  { rewrite Hlive4. apply (queue_live h head nodes Q). right. apply HS_in, Hz_in. }
  destruct (set_next_run h4 z head Hz4) as (h5 & Hrun5 & Hn5 & Hp5 & Hrel5).
  assert (Hhead5 : live h5 head = true).
  { rewrite (relinked_live h4 h5 head Hrel5), Hlive4. exact Hhead. }
  destruct (set_prev_run h5 head z Hhead5) as (h6 & Hrun6 & Hp6 & Hn6 & Hrel6).
  assert (Hsb : same_blocks h h6).
  { apply (same_blocks_trans h h2 h6).
    - apply (same_blocks_trans h h1 h2); assumption.
    - apply relinked_same_blocks.
      apply (relinked_trans h2 h3 h6); [exact Hrel3|].
      apply (relinked_trans h3 h4 h6); [exact Hrel4|].
      apply (relinked_trans h4 h5 h6); assumption. }
  assert (Hprefix : forall k : M unit,
            (let* data_head := get_next head in
             let* tail := get_prev head in
             set_next tail NULL ;;;
             let* sorted := mergeSort fuel data_head in
             set_next head sorted ;;;
             let* first := get_next head in
             let* safe := relink_loop fuel head first in
             set_next safe head ;;;
             set_prev head safe ;;;
             k) h = k h6).
  { intros k. unfold and_then at 1. unfold get_next at 1. rewrite Hhead.
    rewrite (queue_next_head h head nodes Q).
    unfold and_then at 1. unfold get_prev at 1. rewrite Hhead.
    rewrite (queue_prev_head h head nodes Q). fold z0.
    rewrite (and_then_run _ _ _ _ _ _ _ Hrun1).
    rewrite (and_then_run _ _ _ _ _ _ _ Hrun2).
    rewrite (and_then_run _ _ _ _ _ _ _ Hrun3).
    unfold and_then at 1. unfold get_next at 1.
    rewrite (relinked_live h2 h3 head Hrel3), Hhead2, Hn3, store_same.
    rewrite (and_then_run _ _ _ _ _ _ _ Hrun4).
    rewrite (and_then_run _ _ _ _ _ _ _ Hrun5).
    rewrite (and_then_run _ _ _ _ _ _ _ Hrun6). reflexivity. }
  assert (Hshape : forall d,
            q_sort fuel head d h
            = (if d then q_reverse fuel head else pure tt) h6).
  { intros d. unfold q_sort. rewrite (eqb_false _ _ Hhn).
    rewrite (and_then_run _ _ _ _ _ _ _ (list_empty_run h head nodes Q)).
    replace (match nodes with [] => true | _ :: _ => false end) with false
      by (destruct nodes; [contradiction | reflexivity]).
    rewrite (and_then_run _ _ _ _ _ _ _ (list_is_singular_run h head nodes Q)).
    replace (match nodes with [_] => true | _ => false end) with false
      by (destruct nodes as [|x0 [|x1 rest]];
          [contradiction | cbn in Hlen; lia | reflexivity]).
    apply Hprefix. }
  exists h6, sl. split; [exact Hshape|]. rewrite Hz_last.
  split; [exact Hperm|].
  split.
  { rewrite (same_blocks_strings h h1 Hsb1) in Hsorted. exact Hsorted. }
  split; [exact Hsb|].
  assert (Hstale : prev h6 z = prev h z).
  { rewrite Hp6, store_other by exact Hz_head.
    rewrite Hp5, Hframe, Hp3, Hp2, Hp1; [reflexivity | |].
    - rewrite Hbrk1. apply Hbelow. right. apply HS_in, Hz_in.
    - apply last_not_before; assumption. }
  split; [|exact Hstale].
  set (p := last (removelast sl) head).
  apply (queue_same_blocks h (with_prev h6 z p) head nodes sl Q);
    [exact Hsb | exact Hperm |].
  assert (Hnext6 : next h6 = store (store (next h2) head s0) z head).
  { rewrite Hn6, Hn5, Hn4, Hn3. reflexivity. }
  assert (Hnth_in : forall j, j < length sl -> In (nth j sl NULL) sl)
    by (intros j Hj; apply nth_In; exact Hj).
  assert (Hnth_z : forall j, S j < length sl -> nth j sl NULL <> z).
  { intros j Hj E. unfold z in E. rewrite (last_nth _ sl NULL NULL HS_ne) in E.
    apply (NoDup_nth sl NULL) in E; [lia | exact HS_nd | lia | lia]. }
  change (head :: sl ++ [head]) with ([head] ++ head :: nil ++ sl ++ [head]) || idtac.
  cbn [path]. replace (sl ++ [head]) with (s0 :: sl' ++ [head])
    by (rewrite HS; reflexivity).
  split.
  { split.
    - cbn [with_prev next]. rewrite Hnext6.
      rewrite store_other by (intros E; apply Hz_head; symmetry; exact E).
      apply store_same.
    - cbn [with_prev prev].
      assert (Hs0z : s0 <> z).
      { replace s0 with (nth 0 sl NULL) by (rewrite HS; reflexivity).
        apply Hnth_z. lia. }
      rewrite store_other by exact Hs0z.
      rewrite Hp6, store_other
        by (intros E; apply HS_head; rewrite <- E, HS; left; reflexivity).
      rewrite Hp5. apply (Hback 0). rewrite HS in HS_len. cbn [length] in HS_len.
      lia. }
  replace (s0 :: sl' ++ [head]) with (sl ++ [head]) by (rewrite HS; reflexivity).
  apply path_chain; [exact HS_ne | | |].
  - intros j Hj. split.
    + cbn [with_prev next]. rewrite Hnext6.
      rewrite store_other by (apply Hnth_z; exact Hj).
      rewrite store_other
        by (intros E; apply HS_head; rewrite <- E; apply Hnth_in; lia).
      apply (chain_next h2 sl s0 j Hc2). lia.
    + cbn [with_prev prev].
      destruct (Nat.eq_dec (S (S j)) (length sl)) as [Hlast | Hmid].
      * replace (nth (S j) sl NULL) with z.
        2:{ unfold z. rewrite (last_nth _ sl NULL NULL HS_ne). f_equal. lia. }
        rewrite store_same. unfold p.
        rewrite (last_nth _ (removelast sl) head NULL).
        2:{ intros E. pose proof (length_removelast _ sl) as Hlr.
            rewrite E in Hlr. cbn [length] in Hlr. lia. }
        rewrite length_removelast, nth_removelast by lia. f_equal. lia.
      * rewrite store_other by (apply Hnth_z; lia).
        rewrite Hp6, store_other
          by (intros E; apply HS_head; rewrite <- E; apply Hnth_in; lia).
        rewrite Hp5. rewrite HS. rewrite HS in Hj, Hmid.
        cbn [length] in Hj, Hmid.
        apply (Hback (S j)). lia.
  - cbn [with_prev next]. fold z. rewrite Hnext6. apply store_same.
  - cbn [with_prev prev]. fold z.
    rewrite store_other by (intros E; apply Hz_head; symmetry; exact E).
    rewrite Hp6. apply store_same.
Qed.

End QueueSort.

Module QueueSortFacts.

Import Queue QueueFacts QueueOps QueueInsert QueueInsertFacts QueueRemove QueueSpecs QueueWalk QueueRelease QueueMove QueueReverse QueueDelete QueuePurge QueueChains QueueMerge QueueMergeSort QueueSort.

Lemma trace_unique h head l :
  forall l' start, trace h head start l -> trace h head start l' -> l = l'.
Proof.
  induction l as [|a l IH]; intros [|b l'] start H1 H2; cbn in H1, H2.
  - reflexivity.
  - destruct H2 as (E & Hb & _). congruence.
  - destruct H1 as (E & Ha & _). congruence.
  - destruct H1 as (E1 & _ & H1). destruct H2 as (E2 & _ & H2).
    assert (Hab : a = b) by congruence. rewrite <- Hab in *.
    f_equal. apply (IH l' (next h a)); assumption.
Qed.

Lemma path_trace h head nodes :
  forall p,
  path h (p :: nodes ++ [head]) -> ~ In head nodes ->
  trace h head (next h p) nodes.
Proof.
  induction nodes as [|a rest IH]; intros p Hpath Hout.
  - cbn in Hpath |- *. apply Hpath.
  - cbn [app] in Hpath. destruct Hpath as [[Hn _] Hpath]. cbn [trace].
    split; [exact Hn|]. split.
    + intros ->. apply Hout. left. reflexivity.
    + apply IH; [exact Hpath|]. intros Hin. apply Hout. right. exact Hin.
Qed.

Lemma trace_next h h' head l :
  forall start, next h' = next h -> trace h head start l -> trace h' head start l.
Proof.
  induction l as [|a l IH]; intros start Hn Ht; [exact Ht|].
  destruct Ht as (E & Ha & Ht). cbn [trace]. rewrite Hn.
  repeat split; try assumption. apply IH; assumption.
Qed.

(** Two queues at the same head over the same [next] links hold the same
    elements in the same order. *)
Lemma queue_unique h h' head l l' :
  queue h head l -> queue h' head l' -> next h' = next h -> l = l'.
Proof.
  intros Q Q' Hn.
  apply (trace_unique h head l l' (next h head)).
  - apply path_trace; [apply (linked _ _ _ Q)|].
    apply (queue_head_not_node h head l Q).
  - rewrite <- Hn. apply (trace_next h' h head l' _ (eq_sym Hn)).
    apply path_trace; [apply (linked _ _ _ Q')|].
    apply (queue_head_not_node h' head l' Q').
Qed.

Lemma contents_same_blocks h h' l :
  same_blocks h h' -> contents h' l = contents h l.
Proof. intros (_ & Hv & Hc & _). unfold contents. rewrite Hv, Hc. reflexivity. Qed.

Lemma Sorted_map (A B : Type) (f : A -> B) (R : B -> B -> Prop) (l : list A) :
  Sorted (fun a b => R (f a) (f b)) l -> Sorted R (map f l).
Proof.
  induction 1 as [|a l Hs IH Hhd]; cbn [map]; constructor; [exact IH|].
  destruct Hhd; cbn [map]; constructor. assumption.
Qed.

(** X25: [q_sort] in ascending order on two elements or more: the [next] links
    lead through the elements in ascending order of their strings, and so
    do the [prev] links but for one. The element that is now last keeps the
    [prev] link it had before the call: the loop that rewrites these links
    stops in front of it. With that one link set, the memory is a queue. *)
Theorem q_sort_ascending_spec h head nodes fuel :
  queue h head nodes -> 2 <= length nodes -> length nodes <= fuel ->
  exists h' sorted,
    q_sort fuel head false h = Some (tt, h')
    /\ Permutation nodes sorted
    /\ Sorted at_most (contents h' sorted)
    /\ same_blocks h h'
    /\ queue (with_prev h' (last sorted head) (last (removelast sorted) head))
         head sorted
    /\ prev h' (last sorted head) = prev h (last sorted head).
Proof.
  intros Q Hlen Hfuel.
  destruct (sort_run h head nodes fuel Q Hlen Hfuel)
    as (h' & sl & Hrun & Hperm & Hsorted & Hsb & Qw & Hstale).
  exists h', sl. split; [apply (Hrun false)|]. split; [exact Hperm|].
  split; [|split; [exact Hsb | split; [exact Qw | exact Hstale]]].
  rewrite (contents_same_blocks h h' sl Hsb).
  apply (Sorted_map _ _ (string_at h) at_most). exact Hsorted.
Qed.

(** X26: A queue of two elements whose first string compares above the second:
    [q_sort] in ascending order exchanges them along the [next] links, but
    the [prev] link of the element now last still leads to the head, and
    the memory is no queue. *)
Theorem q_sort_pair_broken h head x y fuel :
  queue h head [x; y] ->
  (0 < compare_bytes (string_at h x) (string_at h y))%Z ->
  2 <= fuel ->
  exists h',
    q_sort fuel head false h = Some (tt, h')
    /\ next h' head = y /\ next h' y = x /\ next h' x = head
    /\ prev h' head = x /\ prev h' x = head
    /\ forall l, ~ queue h' head l.
Proof.
  intros Q Hcmp Hfuel.
  destruct (sort_run h head [x; y] fuel Q (Nat.le_refl 2) Hfuel)
    as (h' & sl & Hrun & Hperm & Hsorted & Hsb & Qw & Hstale).
  assert (Hsl : sl = [y; x]).
  { apply Permutation_length_2_inv in Hperm as [-> | ->]; [|reflexivity].
    apply Sorted_inv in Hsorted as [_ Hhd]. inversion Hhd as [|b l Hle]; subst.
    unfold at_most in Hle. lia. }
  subst sl. cbn [last removelast] in Qw, Hstale.
  assert (Hprev : prev h' x = head).
  { rewrite Hstale. apply (queue_prev h head _ Q [] x [y] eq_refl). }
  assert (Hyh : y <> head).
  { apply (queue_node_not_head h head _ Q). right. left. reflexivity. }
  exists h'. split; [apply (Hrun false)|].
  split; [apply (queue_next_head _ head _ Qw)|].
  split; [apply (queue_next _ head _ Qw [] y [x] eq_refl)|].
  split; [apply (queue_next _ head _ Qw [y] x [] eq_refl)|].
  split.
  { pose proof (queue_prev_head _ head _ Qw) as Hp. cbn [with_prev prev last] in Hp.
    rewrite store_other in Hp; [exact Hp|].
    intros E. symmetry in E. revert E.
    apply (queue_node_not_head h head _ Q). left. reflexivity. }
  split; [exact Hprev|].
  intros l Ql.
  assert (l = [y; x]) by (apply (queue_unique h' _ head l _ Ql Qw); reflexivity).
  subst l.
  pose proof (queue_prev h' head _ Ql [y] x [] eq_refl) as Hp.
  cbn [last] in Hp. congruence.
Qed.

End QueueSortFacts.

Module QueueSortDown.

Import Queue QueueFacts QueueOps QueueInsert QueueInsertFacts QueueRemove QueueSpecs QueueWalk QueueRelease QueueMove QueueReverse QueueDelete QueuePurge QueueChains QueueMerge QueueMergeSort QueueSort QueueSortFacts.

Lemma queue_alike hb hg head l : alike hb hg -> queue hg head l -> queue hb head l.
Proof.
  intros (Hn & Hp & Hv & Hc & Hl & Hb & Hu) Q. constructor.
  - rewrite Hl, Hb. apply (heap_ok _ _ _ Q).
  - rewrite Hv. apply (distinct _ _ _ Q).
  - apply (path_frame hg hb _ (linked _ _ _ Q)).
    + intros a _. rewrite Hn. reflexivity.
    + intros a _. apply Hp.
  - rewrite Hv, Hl. apply (allocated _ _ _ Q).
  - rewrite Hv, Hc. apply (strings_end _ _ _ Q).
Qed.

Lemma store_apply (A : Type) (f : addr -> A) a v b :
  store f a v b = if b =? a then v else f b.
Proof.
  destruct (Nat.eqb_spec b a) as [-> | Hne];
    [apply store_same | apply store_other; exact Hne].
Qed.

(** [list_move] does not read the [prev] link of an element it does not
    move, and it writes the one of the element behind the moved one. *)
Lemma list_move_sim z hb hg x p hg1 :
  stale z hb hg -> x <> z ->
  list_move x p hg = Some (tt, hg1) ->
  exists hb1,
    list_move x p hb = Some (tt, hb1)
    /\ stale z hb1 hg1
    /\ (next hg x = z -> alike hb1 hg1).
Proof.
  intros (Hn & Hp & Hv & Hc & Hl & Hb & Hu) Hxz.
  unfold list_move, list_del, list_add, and_then, get_next, get_prev,
    set_next, set_prev.
  repeat (rewrite ?Hl, ?Hn, ?(Hp x Hxz);
          cbn [next prev value chars live brk budget];
          match goal with
          | |- context [if live hg ?a then _ else _] =>
              destruct (live hg a) eqn:?;
              [|cbn [next prev value chars live brk budget];
                intros E; discriminate E]
          end).
  cbn [next prev value chars live brk budget].
  intros E. injection E as <-. eexists. split; [reflexivity|].
  unfold stale, alike. cbn [next prev value chars live brk budget].
  rewrite ?Hn, ?Hv, ?Hc, ?Hl, ?Hb, ?Hu.
  split.
  - repeat split. intros a Ha. rewrite !store_apply.
    rewrite (Hp a Ha). reflexivity.
  - intros Hz. repeat split. intros a. rewrite !store_apply.
    destruct (Nat.eqb_spec a z) as [-> | Ha].
    + rewrite Hz, Nat.eqb_refl. reflexivity.
    + rewrite (Hp a Ha). reflexivity.
Qed.

Lemma stale_relinked z hb hg hb1 hg1 :
  stale z hb hg -> stale z hb1 hg1 -> relinked hg hg1 -> relinked hb hb1.
Proof.
  intros (_ & _ & Hv & Hc & Hl & Hb & Hu) (_ & _ & Hv1 & Hc1 & Hl1 & Hb1 & Hu1)
         (Hv2 & Hc2 & Hl2 & Hb2 & Hu2).
  unfold relinked. repeat split; congruence.
Qed.

Lemma reverse_stale head z :
  forall todo done hg hb fuel,
  queue hg head (rev done ++ todo) -> stale z hb hg ->
  In z (tl todo) -> length todo <= fuel ->
  exists hb',
    reverse_loop fuel head (hd head todo) (hd head (tl todo)) hb
    = Some (tt, hb')
    /\ relinked hb hb'
    /\ queue hb' head (rev (done ++ todo)).
Proof.
  induction todo as [|x todo IH]; intros done hg hb fuel Q Hst Hz Hfuel;
    [contradiction|].
  cbn [tl] in Hz. destruct todo as [|y rest]; [contradiction|].
  destruct fuel as [|fuel]; [cbn in Hfuel; lia|].
  cbn [hd tl length] in *. cbn [reverse_loop].
  assert (Hx : In x (rev done ++ x :: y :: rest)) by apply in_elt.
  rewrite (eqb_false x head (queue_node_not_head hg head _ Q x Hx)).
  assert (Hnd : NoDup (rev done ++ x :: y :: rest)).
  { pose proof (distinct _ _ _ Q) as Hd. apply NoDup_cons_iff in Hd as [_ Hd].
    apply (NoDup_app_remove_r _ _ Hd). }
  assert (Hxz : x <> z).
  { intros ->. apply NoDup_remove_2 in Hnd. apply Hnd, in_or_app. right.
    exact Hz. }
  destruct (move_ok hg head (rev done) x (y :: rest) [] head
              (rev done ++ y :: rest) Q eq_refl)
    as (hg1 & Hrun_g & Hrel_g & Q1 & _).
  cbn [app tl] in Q1.
  destruct (list_move_sim z hb hg x head hg1 Hst Hxz Hrun_g)
    as (hb1 & Hrun_b & Hst1 & Halike).
  pose proof (stale_relinked z hb hg hb1 hg1 Hst Hst1 Hrel_g) as Hrel_b.
  assert (Q1' : queue hg1 head (rev (done ++ [x]) ++ y :: rest)).
  { rewrite rev_app_distr. cbn [rev app]. exact Q1. }
  assert (Hy1 : live hb1 y = true).
  { destruct Hst1 as (_ & _ & _ & _ & -> & _).
    apply (queue_live hg1 head _ Q1'). right. apply in_elt. }
  assert (Hnext_y : next hb1 y = hd head rest).
  { destruct Hst1 as (-> & _).
    apply (queue_next hg1 head _ Q1' (rev (done ++ [x])) y rest eq_refl). }
  rewrite (and_then_run _ _ _ _ _ _ _ Hrun_b).
  unfold and_then at 1. unfold get_next at 1. rewrite Hy1, Hnext_y.
  destruct (Nat.eq_dec y z) as [Hyz | Hyz].
  - assert (Qb : queue hb1 head (rev (done ++ [x]) ++ y :: rest)).
    { apply (queue_alike hb1 hg1); [|exact Q1']. apply Halike.
      rewrite (queue_next hg head _ Q (rev done) x (y :: rest) eq_refl).
      exact Hyz. }
    destruct (reverse_loop_spec head (y :: rest) (done ++ [x]) hb1 fuel
                (hd head rest) Qb eq_refl ltac:(cbn [length]; lia))
      as (hb' & Hrun & Hrel & Q').
    exists hb'. split; [exact Hrun|].
    split; [apply (relinked_trans hb hb1 hb'); assumption|].
    rewrite <- app_assoc in Q'. exact Q'.
  - assert (Hz' : In z (tl (y :: rest))).
    { destruct Hz as [E | Hz]; [contradiction | exact Hz]. }
    destruct (IH (done ++ [x]) hg1 hb1 fuel Q1' Hst1 Hz' ltac:(cbn [length]; lia))
      as (hb' & Hrun & Hrel & Q').
    exists hb'. split; [exact Hrun|].
    split; [apply (relinked_trans hb hb1 hb'); assumption|].
    rewrite <- app_assoc in Q'. exact Q'.
Qed.

Lemma Sorted_snoc (A : Type) (R : A -> A -> Prop) (l : list A) (x : A) :
  Sorted R l -> (forall d, l <> [] -> R (last l d) x) -> Sorted R (l ++ [x]).
Proof.
  induction 1 as [|a l Hs IH Hhd]; intros Hlast; [repeat constructor|].
  cbn [app]. constructor.
  - apply IH. intros d Hne. destruct l as [|b l]; [contradiction|].
    apply (Hlast d). discriminate.
  - destruct Hhd as [|b l Hab]; cbn [app]; constructor; [|exact Hab].
    apply (Hlast a). discriminate.
Qed.

Lemma Sorted_rev (A : Type) (R : A -> A -> Prop) (l : list A) :
  Sorted R l -> Sorted (fun a b => R b a) (rev l).
Proof.
  induction 1 as [|a l Hs IH Hhd]; [constructor|].
  cbn [rev]. apply Sorted_snoc; [exact IH|].
  intros d Hne. destruct l as [|b l]; [contradiction|].
  cbn [rev] in *. rewrite last_last. inversion Hhd; assumption.
Qed.

(** X27: [q_sort] in descending order: the elements are those of the queue, in
    descending order of their strings, in a queue that is well formed. The
    final reversal rewrites the one [prev] link that the ascending sort
    leaves behind before it reads it. *)
Theorem q_sort_descending_spec h head nodes fuel :
  queue h head nodes -> length nodes <= fuel ->
  exists h' sorted,
    q_sort fuel head true h = Some (tt, h')
    /\ queue h' head sorted
    /\ Permutation nodes sorted
    /\ Sorted (fun a b => at_most b a) (contents h' sorted)
    /\ same_blocks h h'.
Proof.
  intros Q Hfuel.
  assert (Hhead : live h head = true)
    by (apply (queue_live h head nodes Q); left; reflexivity).
  assert (Hhn : head <> NULL) by (apply (live_not_null h head nodes Q), Hhead).
  destruct (Nat.le_gt_cases 2 (length nodes)) as [Hlen | Hshort].
  - destruct (sort_run h head nodes fuel Q Hlen Hfuel)
      as (h1 & sl & Hrun & Hperm & Hsorted & Hsb & Qw & Hstale).
    set (z := last sl head) in *.
    set (hg := with_prev h1 z (last (removelast sl) head)) in *.
    assert (Hsl_len : length sl = length nodes)
      by (symmetry; apply Permutation_length, Hperm).
    destruct sl as [|s0 [|s1 rest]] eqn:Hsl; try (cbn in Hsl_len; lia).
    rewrite <- Hsl in *.
    assert (Hst : stale z h1 hg).
    { unfold stale, hg. cbn [with_prev next prev value chars live brk budget].
      repeat split. intros a Ha. symmetry. apply store_other. exact Ha. }
    assert (Hnd : NoDup (head :: sl)).
    { pose proof (distinct _ _ _ Qw) as Hd.
      change (head :: sl ++ map (value hg) sl)
        with ((head :: sl) ++ map (value hg) sl) in Hd.
      apply (NoDup_app_remove_r _ _ Hd). }
    assert (Hz_in : In z (tl sl)).
    { unfold z. rewrite Hsl. cbn [tl].
      change (last (s0 :: s1 :: rest) head) with (last (s1 :: rest) head).
      rewrite (app_removelast_last head (l := s1 :: rest)) at 2 by discriminate.
      apply in_elt. }
    assert (Hz_head : z <> head).
    { intros E. apply NoDup_cons_iff in Hnd as [Hout _]. apply Hout.
      rewrite <- E. rewrite Hsl. right. rewrite Hsl in Hz_in. exact Hz_in. }
    assert (Hz_s0 : z <> s0).
    { intros E. apply NoDup_cons_iff in Hnd as [_ Hnd]. rewrite Hsl in Hnd, Hz_in.
      apply NoDup_cons_iff in Hnd as [Hout _]. apply Hout. rewrite <- E.
      exact Hz_in. }
    assert (Hhead1 : live h1 head = true)
      by (apply (queue_live hg head sl Qw); left; reflexivity).
    assert (Hnext_head : next h1 head = s0).
    { pose proof (queue_next_head hg head sl Qw) as E. rewrite Hsl in E. exact E. }
    assert (Hprev_head : prev h1 head = z).
    { pose proof (queue_prev_head hg head sl Qw) as E.
      unfold hg in E. cbn [with_prev prev] in E.
      rewrite store_other in E by (intros E'; apply Hz_head; symmetry; exact E').
      rewrite E, Hsl. reflexivity. }
    assert (Hs0 : live h1 s0 = true).
    { apply (queue_live hg head sl Qw). rewrite Hsl. right. left. reflexivity. }
    assert (Hnext_s0 : next h1 s0 = s1).
    { apply (queue_next hg head sl Qw [] s0 (s1 :: rest)). exact Hsl. }
    destruct (reverse_stale head z sl [] hg h1 fuel Qw Hst Hz_in ltac:(lia))
      as (h' & Hrev & Hrel & Q').
    replace (hd head sl) with s0 in Hrev by (rewrite Hsl; reflexivity).
    replace (hd head (tl sl)) with s1 in Hrev by (rewrite Hsl; reflexivity).
    cbn [app] in Q'.
    exists h', (rev sl). split.
    { rewrite (Hrun true). unfold q_reverse. rewrite (eqb_false _ _ Hhn).
      unfold list_is_singular, list_empty.
      unfold and_then, get_next, get_prev, pure.
      assert (Hs0_head : s0 <> head).
      { intros E. apply NoDup_cons_iff in Hnd as [Hout _]. apply Hout.
        rewrite <- E, Hsl. left. reflexivity. }
      repeat (rewrite ?Hhead1, ?Hnext_head, ?Hprev_head, ?Hs0, ?Hnext_s0,
                ?(eqb_false _ _ Hs0_head), ?(eqb_false _ _ Hz_s0);
              cbn [next prev value chars live brk budget]).
      exact Hrev. }
    split; [exact Q'|].
    split; [eapply Permutation_trans; [exact Hperm | apply Permutation_rev]|].
    assert (Hsb' : same_blocks h h').
    { apply (same_blocks_trans h h1 h'); [exact Hsb|].
      apply relinked_same_blocks, Hrel. }
    split; [|exact Hsb'].
    rewrite (contents_same_blocks h h' _ Hsb'), contents_strings, map_rev.
    apply Sorted_rev. apply (Sorted_map _ _ (string_at h) at_most). exact Hsorted.
  - exists h, nodes.
    assert (Hrun : q_sort fuel head true h = Some (tt, h)).
    { unfold q_sort. rewrite (eqb_false _ _ Hhn).
      rewrite (and_then_run _ _ _ _ _ _ _ (list_empty_run h head nodes Q)).
      destruct nodes as [|x0 [|x1 rest]]; [reflexivity | | cbn in Hshort; lia].
      rewrite (and_then_run _ _ _ _ _ _ _ (list_is_singular_run h head _ Q)).
      reflexivity. }
    split; [exact Hrun|]. split; [exact Q|].
    split; [apply Permutation_refl|]. split; [|apply same_blocks_refl].
    destruct nodes as [|x0 [|x1 rest]]; [constructor | | cbn in Hshort; lia].
    repeat constructor.
Qed.

End QueueSortDown.

Module QueueReverseK.

Import Queue QueueFacts QueueOps QueueInsert QueueInsertFacts QueueRemove QueueSpecs QueueWalk QueueRelease QueueMove QueueReverse QueueDelete QueuePurge.

Lemma reverse_groups_short (A : Type) fuel k (l : list A) :
  length l < k -> reverse_groups fuel k l = l.
Proof.
  intros Hl. destruct fuel; [reflexivity|]. cbn [reverse_groups].
  apply Nat.ltb_lt in Hl. rewrite Hl. reflexivity.
Qed.

Lemma reverse_groups_fuel (A : Type) k :
  1 <= k ->
  forall f f' (l : list A),
  length l <= f -> length l <= f' ->
  reverse_groups f k l = reverse_groups f' k l.
Proof.
  intros Hk. induction f as [|f IH]; intros f' l Hf Hf'.
  - destruct l; [|cbn in Hf; lia]. symmetry. apply reverse_groups_short.
    cbn. lia.
  - destruct (Nat.lt_ge_cases (length l) k) as [Hlt | Hge].
    + rewrite !reverse_groups_short by exact Hlt. reflexivity.
    + destruct f' as [|f']; [lia|]. cbn [reverse_groups].
      apply Nat.ltb_ge in Hge. rewrite Hge. apply Nat.ltb_ge in Hge.
      f_equal. apply IH; rewrite length_skipn; lia.
Qed.

Lemma reverse_groups_one (A : Type) fuel (l : list A) :
  reverse_groups fuel 1 l = l.
Proof.
  revert l. induction fuel as [|fuel IH]; intros l; [reflexivity|].
  cbn [reverse_groups]. destruct l as [|a l]; [reflexivity|].
  cbn [length Nat.ltb Nat.leb firstn skipn rev app]. rewrite IH. reflexivity.
Qed.

Lemma reverse_groups_map (A B : Type) (f : A -> B) fuel k :
  forall l, map f (reverse_groups fuel k l) = reverse_groups fuel k (map f l).
Proof.
  induction fuel as [|fuel IH]; intros l; [reflexivity|].
  cbn [reverse_groups]. rewrite length_map.
  destruct (length l <? k); [reflexivity|].
  rewrite map_app, map_rev, firstn_map, IH, skipn_map. reflexivity.
Qed.

Lemma last_head_app (l : list addr) (head : addr) :
  exists F, F ++ [last l head] = head :: l.
Proof.
  destruct (exists_last (l := head :: l) ltac:(discriminate)) as (F & z & HF).
  exists F. rewrite HF. f_equal. f_equal.
  destruct F as [|y F]; cbn in HF; injection HF as Hy HF'; subst;
    [reflexivity | apply last_last].
Qed.

Lemma reverseK_loop_spec head (k : Z) (K : nat) :
  K = Z.to_nat k -> 2 <= K ->
  forall todo fuel done cur h len cnt safe,
  queue h head (done ++ cur ++ todo) ->
  cnt = Z.of_nat (length cur) -> length cur < K ->
  len = Z.of_nat (length cur + length todo) ->
  K <= length cur + length todo -> (len <= INT_MAX)%Z ->
  (todo <> [] -> safe = hd head (tl todo)) ->
  length todo <= fuel ->
  exists h',
    reverseK_loop fuel head k (hd head todo) safe (last done head) len cnt h
    = Some (tt, h')
    /\ relinked h h'
    /\ queue h' head (done ++ finish K cur todo).
Proof.
  intros HK Hk2.
  assert (Hk : k = Z.of_nat K) by lia.
  induction todo as [|x todo IH];
    intros fuel done cur h len cnt safe Q Hcnt Hcur Hlen Hfull Hint Hsafe Hfuel.
  { cbn [length] in Hfull. lia. }
  destruct fuel as [|fuel]; [cbn in Hfuel; lia|].
  cbn [length] in Hfuel, Hlen, Hfull. specialize (Hsafe ltac:(discriminate)).
  cbn [tl] in Hsafe. subst safe. cbn [hd reverseK_loop].
  assert (Hx : In x (done ++ cur ++ x :: todo)).
  { apply in_or_app. right. apply in_elt. }
  rewrite (eqb_false x head (queue_node_not_head h head _ Q x Hx)).
  destruct (last_head_app done head) as (F & HF).
  assert (Q0 : queue h head ((done ++ cur) ++ x :: todo))
    by (rewrite <- app_assoc; exact Q).
  destruct (move_ok h head (done ++ cur) x todo F (last done head) (cur ++ todo) Q0)
    as (h1 & Hrun1 & Hrel1 & Q1 & Hshape).
  { replace (F ++ last done head :: cur ++ todo)
      with ((F ++ [last done head]) ++ cur ++ todo)
      by (rewrite <- app_assoc; reflexivity).
    rewrite HF. cbn [app]. rewrite <- app_assoc. reflexivity. }
  assert (Hnodes1 : tl (F ++ last done head :: x :: cur ++ todo)
                    = done ++ x :: cur ++ todo).
  { assert (E : head :: tl (F ++ last done head :: x :: cur ++ todo)
                = head :: done ++ x :: cur ++ todo).
    { rewrite Hshape.
      replace (F ++ last done head :: x :: cur ++ todo)
        with ((F ++ [last done head]) ++ x :: cur ++ todo)
        by (rewrite <- app_assoc; reflexivity).
      rewrite HF. reflexivity. }
    injection E as E. exact E. }
  rewrite Hnodes1 in Q1.
  rewrite (and_then_run _ _ _ _ _ _ _ Hrun1).
  unfold and_then at 1. unfold increment.
  destruct (Z.ltb_spec cnt INT_MAX) as [_ | Hover]; [|lia].
  assert (Hsafe_in : forall hc l, queue hc head (l ++ todo) ->
            live hc (hd head todo) = true).
  { intros hc l Qc. apply (queue_live hc head _ Qc).
    apply (hd_in_queue hc head _ Qc l todo eq_refl). }
  assert (Hsafe_next : forall hc l, queue hc head (l ++ todo) -> todo <> [] ->
            next hc (hd head todo) = hd head (tl todo)).
  { intros hc l Qc Hne. destruct todo as [|y todo']; [contradiction|].
    cbn [hd tl]. apply (queue_next hc head _ Qc l y todo' eq_refl). }
  destruct (Z.eqb_spec (cnt + 1) k) as [Hgroup | Hmore].
  - (* the group is complete *)
    assert (Hone : K - length cur = 1) by lia.
    assert (Hfin : finish K cur (x :: todo)
                   = x :: cur ++ reverse_groups (length todo) K todo).
    { unfold finish. rewrite Hone. cbn [firstn skipn rev app length].
      f_equal. f_equal. apply reverse_groups_fuel; lia. }
    rewrite Hfin.
    destruct (Z.ltb_spec (len - k) k) as [Hstop | Hgo].
    + exists h1. split; [reflexivity|]. split; [exact Hrel1|].
      rewrite reverse_groups_short by lia. exact Q1.
    + assert (Q1' : queue h1 head ((done ++ x :: cur) ++ [] ++ todo)).
      { rewrite <- app_assoc. exact Q1. }
      assert (Hne : todo <> []) by (intros ->; cbn [length] in *; lia).
      assert (Q1'' : queue h1 head ((done ++ x :: cur) ++ todo)) by exact Q1'.
      destruct (IH fuel (done ++ x :: cur) [] h1 (len - k)%Z 0%Z
                  (next h1 (hd head todo)) Q1')
        as (h' & Hrun & Hrel & Q'); cbn [length]; try lia.
      { intros _. apply (Hsafe_next h1 _ Q1'' Hne). }
      exists h'. split.
      { unfold and_then at 1. unfold get_prev at 1.
        rewrite (Hsafe_in h1 _ Q1'').
        unfold and_then at 1. unfold get_next at 1.
        rewrite (Hsafe_in h1 _ Q1'').
        replace (prev h1 (hd head todo)) with (last (done ++ x :: cur) head);
          [exact Hrun|].
        destruct todo as [|y todo']; [contradiction|]. cbn [hd]. symmetry.
        apply (queue_prev h1 head _ Q1'' (done ++ x :: cur) y todo' eq_refl). }
      split; [apply (relinked_trans h h1 h'); assumption|].
      unfold finish in Q'. cbn [length app rev] in Q'.
      rewrite Nat.sub_0_r in Q'. rewrite <- app_assoc in Q'. cbn [app] in Q'.
      replace (reverse_groups (length todo) K todo)
        with (rev (firstn K todo)
              ++ reverse_groups (length todo) K (skipn K todo)); [exact Q'|].
      rewrite (reverse_groups_fuel _ K ltac:(lia) (length todo)
                 (S (length todo)) todo) by lia.
      cbn [reverse_groups].
      replace (length todo <? K) with false
        by (symmetry; apply Nat.ltb_ge; lia).
      reflexivity.
  - (* more elements go into the group *)
    assert (Hne : todo <> []) by (intros ->; cbn [length] in *; lia).
    assert (Q1' : queue h1 head (done ++ (x :: cur) ++ todo)) by exact Q1.
    assert (Q1'' : queue h1 head ((done ++ x :: cur) ++ todo))
      by (rewrite <- app_assoc; exact Q1).
    destruct (IH fuel done (x :: cur) h1 len (cnt + 1)%Z
                (next h1 (hd head todo)) Q1')
      as (h' & Hrun & Hrel & Q'); cbn [length]; try lia.
    { intros _. apply (Hsafe_next h1 _ Q1'' Hne). }
    exists h'. split.
    { unfold and_then at 1. unfold get_next at 1.
      rewrite (Hsafe_in h1 _ Q1''). exact Hrun. }
    split; [apply (relinked_trans h h1 h'); assumption|].
    replace (finish K cur (x :: todo)) with (finish K (x :: cur) todo);
      [exact Q'|].
    unfold finish. cbn [length].
    replace (K - length cur) with (S (K - S (length cur))) by lia.
    cbn [firstn skipn rev]. rewrite <- !app_assoc. cbn [app].
    f_equal. f_equal. f_equal.
    apply reverse_groups_fuel; rewrite ?length_skipn; lia.
Qed.

(** With [k <= 0] the count never meets [k]: every element goes to the
    front. *)
Lemma reverseK_loop_all head (k : Z) :
  (k <= 0)%Z ->
  forall todo done h fuel safe len cnt,
  queue h head (rev done ++ todo) ->
  match todo with [] => True | _ :: rest => safe = hd head rest end ->
  (0 <= cnt)%Z -> (cnt + Z.of_nat (length todo) <= INT_MAX)%Z ->
  length todo <= fuel ->
  exists h',
    reverseK_loop fuel head k (hd head todo) safe head len cnt h
    = Some (tt, h')
    /\ relinked h h'
    /\ queue h' head (rev (done ++ todo)).
Proof.
  intros Hk.
  induction todo as [|x todo IH];
    intros done h fuel safe len cnt Q Hsafe Hcnt Hint Hfuel.
  - exists h. rewrite !app_nil_r in *. cbn [hd].
    split; [|split; [apply relinked_refl | exact Q]].
    destruct fuel; cbn [reverseK_loop]; rewrite Nat.eqb_refl; reflexivity.
  - cbn [hd length] in *. subst safe. destruct fuel as [|fuel]; [lia|].
    cbn [reverseK_loop].
    assert (Hx : In x (rev done ++ x :: todo)) by apply in_elt.
    rewrite (eqb_false x head (queue_node_not_head h head _ Q x Hx)).
    destruct (move_ok h head (rev done) x todo [] head (rev done ++ todo) Q eq_refl)
      as (h1 & Hrun1 & Hrel1 & Q1 & _).
    cbn [app tl] in Q1.
    assert (Q1' : queue h1 head (rev (done ++ [x]) ++ todo)).
    { rewrite rev_app_distr. cbn [rev app]. exact Q1. }
    assert (Hsafe_live : live h1 (hd head todo) = true).
    { apply (queue_live h1 head _ Q1').
      apply (hd_in_queue h1 head _ Q1' (rev (done ++ [x])) todo eq_refl). }
    destruct (IH (done ++ [x]) h1 fuel (next h1 (hd head todo)) len
                (cnt + 1)%Z Q1')
      as (h' & Hrun & Hrel & Q'); try lia.
    { destruct todo as [|y todo']; [exact I|]. cbn [hd].
      apply (queue_next h1 head _ Q1' (rev (done ++ [x])) y todo' eq_refl). }
    exists h'. split.
    { rewrite (and_then_run _ _ _ _ _ _ _ Hrun1).
      unfold and_then at 1. unfold increment.
      destruct (Z.ltb_spec cnt INT_MAX) as [_ | Hover]; [|lia].
      destruct (Z.eqb_spec (cnt + 1) k) as [E | _]; [lia|].
      unfold and_then at 1. unfold get_next. rewrite Hsafe_live. exact Hrun. }
    split; [apply (relinked_trans h h1 h'); assumption|].
    rewrite <- app_assoc in Q'. exact Q'.
Qed.

(** X28: [q_reverseK]: with [k >= 1] each full group of [k] elements is
    reversed and fewer than [k] elements at the end stay; with [k <= 0]
    the whole queue is reversed. No block is allocated, freed or written
    but the links. *)
Theorem q_reverseK_spec h head nodes fuel k :
  queue h head nodes -> length nodes <= fuel ->
  (Z.of_nat (length nodes) <= INT_MAX)%Z ->
  exists h',
    q_reverseK fuel head k h = Some (tt, h')
    /\ queue h' head (reversedK k nodes)
    /\ contents h' (reversedK k nodes) = reversedK k (contents h nodes)
    /\ relinked h h'.
Proof.
  intros Q Hfuel Hint.
  assert (Hhead : live h head = true)
    by (apply (queue_live h head nodes Q); left; reflexivity).
  assert (Hhn : head <> NULL) by (apply (live_not_null h head nodes Q), Hhead).
  assert (Hsame : exists h',
            q_reverseK fuel head k h = Some (tt, h')
            /\ queue h' head (reversedK k nodes) /\ relinked h h').
  { unfold q_reverseK. rewrite (eqb_false _ _ Hhn).
    rewrite (and_then_run _ _ _ _ _ _ _ (list_empty_run h head nodes Q)).
    assert (Hshort : length nodes <= 1 -> reversedK k nodes = nodes).
    { intros Hl. unfold reversedK. destruct (k <=? 0)%Z.
      - destruct nodes as [|a [|b l]]; try reflexivity. cbn in Hl. lia.
      - destruct nodes as [|a [|b l]]; try reflexivity; [|cbn in Hl; lia].
        cbn [length reverse_groups]. destruct (1 <? Z.to_nat k) eqn:E;
          [reflexivity|].
        apply Nat.ltb_ge in E.
        destruct (Z.to_nat k) as [|[|n]]; [reflexivity | reflexivity | lia]. }
    destruct nodes as [|x rest] eqn:Hnodes.
    { exists h. split; [reflexivity|]. rewrite Hshort by (cbn; lia).
      split; [exact Q | apply relinked_refl]. }
    rewrite (and_then_run _ _ _ _ _ _ _ (list_is_singular_run h head _ Q)).
    destruct rest as [|y rest].
    { exists h. split; [reflexivity|]. rewrite Hshort by (cbn; lia).
      split; [exact Q | apply relinked_refl]. }
    rewrite <- Hnodes in *. clear Hshort.
    destruct (Z.eqb_spec k 1) as [-> | Hk1].
    { exists h. split; [reflexivity|]. unfold reversedK. cbn [Z.leb Z.compare].
      change (Z.to_nat 1) with 1. rewrite reverse_groups_one.
      split; [exact Q | apply relinked_refl]. }
    assert (Hsize : q_size fuel head h = Some (Z.of_nat (length nodes), h)).
    { unfold q_size. rewrite (eqb_false _ _ Hhn).
      unfold and_then, get_next. rewrite Hhead.
      rewrite (queue_next_head h head nodes Q).
      apply (size_loop_spec h head nodes Q nodes [] fuel 0%Z eq_refl Hfuel).
      exact Hint. }
    rewrite (and_then_run _ _ _ _ _ _ _ Hsize).
    destruct (Z.ltb_spec (Z.of_nat (length nodes)) k) as [Hlt | Hge].
    { exists h. split; [reflexivity|]. unfold reversedK.
      destruct (Z.leb_spec k 0) as [|Hpos]; [lia|].
      rewrite reverse_groups_short by lia.
      split; [exact Q | apply relinked_refl]. }
    unfold and_then at 1. unfold get_next at 1. rewrite Hhead.
    rewrite (queue_next_head h head _ Q).
    assert (Hfirst : live h (hd head nodes) = true).
    { apply (queue_live h head nodes Q). rewrite Hnodes. right. left. reflexivity. }
    unfold and_then at 1. unfold get_next at 1. rewrite Hfirst.
    assert (Hnext : next h (hd head nodes) = hd head (tl nodes)).
    { rewrite Hnodes. cbn [hd tl].
      apply (queue_next h head nodes Q [] x (y :: rest) Hnodes). }
    rewrite Hnext. unfold reversedK.
    destruct (Z.leb_spec k 0) as [Hneg | Hpos].
    - destruct (reverseK_loop_all head k Hneg nodes [] h fuel
                  (hd head (tl nodes)) (Z.of_nat (length nodes)) 0%Z Q)
        as (h' & Hrun & Hrel & Q'); try lia.
      { rewrite Hnodes. reflexivity. }
      exists h'. split; [exact Hrun|]. split; [exact Q' | exact Hrel].
    - destruct (reverseK_loop_spec head k (Z.to_nat k) eq_refl ltac:(lia)
                  nodes fuel [] [] h (Z.of_nat (length nodes)) 0%Z
                  (hd head (tl nodes)) Q)
        as (h' & Hrun & Hrel & Q'); cbn [length]; try lia; try reflexivity.
      exists h'. split; [exact Hrun|]. split; [|exact Hrel].
      unfold finish in Q'. cbn [length app rev] in Q'.
      rewrite Nat.sub_0_r in Q'.
      replace (reverse_groups (length nodes) (Z.to_nat k) nodes)
        with (rev (firstn (Z.to_nat k) nodes)
              ++ reverse_groups (length nodes) (Z.to_nat k)
                   (skipn (Z.to_nat k) nodes)); [exact Q'|].
      rewrite (reverse_groups_fuel _ (Z.to_nat k) ltac:(lia) (length nodes)
                 (S (length nodes)) nodes) by lia.
      cbn [reverse_groups].
      replace (length nodes <? Z.to_nat k) with false
        by (symmetry; apply Nat.ltb_ge; lia).
      reflexivity. }
  destruct Hsame as (h' & Hrun & Q' & Hrel).
  exists h'. split; [exact Hrun|]. split; [exact Q'|]. split; [|exact Hrel].
  rewrite (contents_relinked h h' _ Hrel). unfold contents, reversedK.
  destruct (k <=? 0)%Z; [apply map_rev|].
  rewrite length_map. apply reverse_groups_map.
Qed.

End QueueReverseK.

Module Measured.

Import Queue QueueFacts QueueOps QueueInsert QueueInsertFacts QueueRemove QueueSpecs QueueSpecs2 QueueWalk QueueRelease QueueMove QueueReverse QueueDelete QueuePurge.

(** [q_remove_head] and then [q_release_element] on a queue that is not
    empty. *)
Lemma remove_release h head x rest s size :
  queue h head (x :: rest) ->
  receives h head (x :: rest) s size ->
  exists h',
    compute_remove_head size head s h = Some (0%Z, h')
    /\ queue h' head rest
    /\ contents h' rest = contents h rest
    /\ live h' x = false /\ live h' (value h x) = false
    /\ (forall a, a <> x -> a <> value h x -> live h' a = live h a)
    /\ brk h' = brk h /\ budget h' = budget h
    /\ (negb (s =? NULL) && (0 <? size) = true ->
        c_str (chars h' s) = firstn (size - 1) (string_at h x)).
Proof.
  intros Q Hs.
  destruct (remove_after_ok h head (x :: rest) [] head x rest s size Q eq_refl Hs)
    as (h1 & nodes' & Hrun1 & Hnodes' & Q1 & Hvals & Hl1 & Hb1 & Hu1 & Hcopy).
  cbn [app] in Hnodes'. injection Hnodes' as ->.
  assert (Hx : In x (x :: rest)) by (left; reflexivity).
  destruct (Hvals x Hx) as [Hvx Hcx].
  pose proof (distinct _ _ _ Q) as Hd. cbn [map app] in Hd.
  assert (Hxl : live h x = true)
    by (apply (queue_live h head _ Q); right; exact Hx).
  assert (Hvl : live h (value h x) = true)
    by (apply (queue_live_value h head _ Q), Hx).
  assert (Hxv : x <> value h x).
  { intros E. clear - Hd E. apply NoDup_cons_iff in Hd as [_ Hd].
    apply NoDup_cons_iff in Hd as [Hd _]. apply Hd.
    apply in_or_app. right. left. symmetry. exact E. }
  destruct (q_release_element_run h1 x) as (h2 & Hrun2 & Hrel).
  { rewrite Hl1. exact Hxl. }
  { rewrite Hl1, Hvx. exact Hvl. }
  { rewrite Hvx. exact Hxv. }
  { apply (live_not_null h head _ Q), Hxl. }
  { rewrite Hvx. apply (live_not_null h head _ Q), Hvl. }
  destruct Hrel as (Hn2 & Hp2 & Hv2 & Hc2 & Hb2 & Hu2 & Hdead & Hkeep).
  rewrite Hvx in Hdead, Hkeep.
  assert (Hout : forall a, In a (head :: rest ++ map (value h) rest) ->
                           ~ In a [x; value h x]).
  { intros a Ha [E | [E | []]]; subst a; clear - Hd Ha; distinct. }
  assert (Hvals1 : forall a, In a rest -> value h1 a = value h a).
  { intros a Ha. apply Hvals. right. exact Ha. }
  assert (Hmap1 : map (value h1) rest = map (value h) rest)
    by (apply map_ext_in; exact Hvals1).
  destruct (queue_frame h1 h2 head rest Q1) as [Q2 Hc].
  { destruct (heap_ok _ _ _ Q1) as (H0 & Hbrk & Hfree).
    assert (Hmono : forall a, live h1 a = false -> live h2 a = false).
    { intros a Ha. destruct (in_dec Nat.eq_dec a [x; value h x]) as [Hin | Hni].
      - apply Hdead, Hin.
      - rewrite (Hkeep a Hni). exact Ha. }
    rewrite Hb2. split; [apply Hmono, H0|]. split; [exact Hbrk|].
    intros a Ha. apply Hmono, Hfree, Ha. }
  { intros a _. rewrite Hn2, Hp2. split; reflexivity. }
  { intros a _. rewrite Hv2, Hc2. split; reflexivity. }
  { intros a Ha. rewrite Hmap1 in Ha. rewrite (Hkeep a (Hout a Ha)), Hl1.
    pose proof (allocated _ _ _ Q) as Hall. rewrite Forall_forall in Hall.
    apply Hall. cbn [map app]. destruct Ha as [<- | Ha]; [left; reflexivity|].
    right. right. apply in_app_or in Ha as [Ha | Ha]; apply in_or_app;
      [left | right; right]; exact Ha. }
  exists h2. split.
  { unfold compute_remove_head.
    rewrite (and_then_run _ _ _ _ _ _ _ Hrun1).
    rewrite (and_then_run _ _ _ _ _ _ _ Hrun2). reflexivity. }
  split; [exact Q2|].
  split.
  { rewrite Hc. unfold contents. apply map_ext_in. intros a Ha.
    destruct (Hvals a (or_intror Ha)) as [-> ->]. reflexivity. }
  split; [apply Hdead; left; reflexivity|].
  split; [apply Hdead; right; left; reflexivity|].
  split.
  { intros a Hax Hav. rewrite Hkeep, Hl1; [reflexivity|].
    intros [E | [E | []]]; congruence. }
  split; [rewrite Hb2; exact Hb1|]. split; [rewrite Hu2; exact Hu1|].
  intros Hcond. rewrite Hc2. apply (Hcopy Hcond).
Qed.

(** X29: [compute_remove_head]: on a queue that is not empty the first element
    is unlinked, its string copied to [s] and its two blocks freed. On an
    empty queue [q_remove_head] returns [NULL] and [q_release_element]
    reads through it: a fault. *)
Theorem compute_remove_head_spec h head nodes s size :
  queue h head nodes ->
  receives h head nodes s size ->
  match nodes with
  | [] => compute_remove_head size head s h = None
  | x :: rest =>
      exists h',
        compute_remove_head size head s h = Some (0%Z, h')
        /\ queue h' head rest
        /\ contents h' rest = tl (contents h nodes)
        /\ live h' x = false /\ live h' (value h x) = false
        /\ (forall a, a <> x -> a <> value h x -> live h' a = live h a)
        /\ (negb (s =? NULL) && (0 <? size) = true ->
            c_str (chars h' s) = firstn (size - 1) (string_at h x))
  end.
Proof.
  intros Q Hs. destruct nodes as [|x rest].
  - unfold compute_remove_head.
    rewrite (and_then_run _ _ _ _ _ _ _ (remove_empty h head s size Q)).
    unfold q_release_element, and_then, get_value.
    destruct (heap_ok _ _ _ Q) as [-> _]. reflexivity.
  - destruct (remove_release h head x rest s size Q Hs)
      as (h' & Hrun & Q' & Hc & Hx & Hv & Hl & _ & _ & Hcopy).
    exists h'. repeat (split; [assumption|]). exact Hcopy.
Qed.

(** X30: [compute_insert_head] and then [compute_remove_head], as the
    measurements of the two operations do in turn: the queue is back with
    the same elements and strings, the two blocks of the new element are
    freed again, and [s] holds its own first [size - 1] characters. Two
    allocations of the budget are spent. *)
Theorem insert_then_remove h head nodes s size :
  queue h head nodes ->
  live h s = true -> terminated (chars h s) = true ->
  (Z.of_nat (strlen (chars h s)) < INT_MAX)%Z ->
  ~ In s (head :: nodes ++ map (value h) nodes) ->
  1 <= size -> size <= length (chars h s) ->
  2 <= budget h ->
  exists h',
    (compute_insert_head head s ;;; compute_remove_head size head s) h
    = Some (0%Z, h')
    /\ queue h' head nodes
    /\ contents h' nodes = contents h nodes
    /\ (forall a, live h' a = live h a)
    /\ c_str (chars h' s) = firstn (size - 1) (c_str (chars h s))
    /\ budget h' = budget h - 2.
Proof.
  intros Q Hs Hterm Hfit Hout Hsize1 Hsize Hbudget.
  destruct (budget h) as [|[|b]] eqn:Hb; try lia.
  destruct (heap_ok _ _ _ Q) as (H0 & Hbrk & Hfree).
  assert (Hhead : live h head = true)
    by (apply (queue_live h head nodes Q); left; reflexivity).
  destruct (insert_after_ok h head nodes [] head nodes s b Q eq_refl Hb Hs Hterm
              Hfit)
    as (h1 & nodes' & Hrun1 & Hnodes' & Q1 & Hnew & Hold & Hb1 & Hkept).
  cbn [app] in Hnodes'. injection Hnodes' as ->.
  destruct (insert_run h head s b H0 Hbrk Hfree Hb Hhead)
    as (h1' & Hrun1' & Hn1 & Hp1 & Hv1 & Hc1 & Hl1 & Hbrk1 & _);
    [|exact Hs | exact Hterm | exact Hfit|].
  { rewrite (queue_next_head h head nodes Q).
    apply (queue_live h head nodes Q).
    apply (hd_in_queue h head nodes Q [] nodes eq_refl). }
  rewrite Hrun1 in Hrun1'. injection Hrun1' as <-.
  set (e := brk h) in *.
  assert (Hse : s < e).
  { destruct (Nat.lt_ge_cases s e) as [|Hge]; [assumption|].
    rewrite (Hfree s Hge) in Hs. discriminate. }
  assert (Hve : value h1 e = S e) by (rewrite Hv1; apply store_same).
  assert (Hvals : forall a, In a nodes -> value h1 a = value h a).
  { intros a Ha. rewrite Hv1. apply store_other. intros ->.
    assert (Hl : live h e = true)
      by (apply (queue_live h head nodes Q); right; exact Ha).
    rewrite (Hfree e (Nat.le_refl _)) in Hl. discriminate. }
  assert (Hrecv : receives h1 head (e :: nodes) s size).
  { intros _. destruct (Hkept s Hs) as [Hs1 Hcs]. split; [exact Hs1|].
    split; [rewrite Hcs; exact Hsize|].
    cbn [map app]. rewrite Hve.
    replace (map (value h1) nodes) with (map (value h) nodes)
      by (symmetry; apply map_ext_in; exact Hvals).
    intros [E | [E | Hin]]; [apply Hout; left; exact E | lia |].
    apply in_app_or in Hin as [Hin | [E | Hin]].
    - apply Hout. right. apply in_or_app. left. exact Hin.
    - lia.
    - apply Hout. right. apply in_or_app. right. exact Hin. }
  destruct (remove_release h1 head e nodes s size Q1 Hrecv)
    as (h2 & Hrun2 & Q2 & Hc2 & He & Hv & Hl & _ & Hu2 & Hcopy).
  exists h2. split.
  { unfold compute_insert_head.
    unfold and_then at 1. unfold and_then at 1. rewrite Hrun1.
    unfold pure at 1. exact Hrun2. }
  split; [exact Q2|].
  split.
  { rewrite Hc2. unfold contents. apply map_ext_in. exact Hold. }
  split.
  { intros a. rewrite Hve in Hv, Hl.
    destruct (Nat.eq_dec a e) as [-> | Hae];
      [rewrite He; symmetry; apply Hfree; lia|].
    destruct (Nat.eq_dec a (S e)) as [-> | Hav];
      [rewrite Hv; symmetry; apply Hfree; unfold e; lia|].
    rewrite (Hl a Hae Hav), Hl1, !store_other by assumption. reflexivity. }
  split.
  { rewrite Hcopy.
    - unfold string_at. rewrite Hnew. reflexivity.
    - apply andb_true_iff. split.
      + apply negb_true_iff, Nat.eqb_neq. intros ->. congruence.
      + apply Nat.ltb_lt. lia. }
  rewrite Hu2, Hb1. lia.
Qed.

End Measured.

(** * The queue on concrete memories *)

Module QueueRuns.

Import Queue QueueFacts QueueOps QueueRemove QueueSpecs QueueSpecs2 QueueWalk QueueRelease QueueMove QueueReverse QueueSwap QueueDelete QueuePurge QueueDup QueueChains QueueSort QueueSortFacts QueueSortDown QueueReverseK Measured.

(** A memory that holds the queue "b", "a", "c" at the head 1, the string
    "d" at 8 and an array of four bytes at 9; [malloc] grants four more
    requests. *)
Definition three : heap := {|
  next := fun a => match a with 1 => 2 | 2 => 4 | 4 => 6 | 6 => 1 | _ => 0 end;
  prev := fun a => match a with 1 => 6 | 2 => 1 | 4 => 2 | 6 => 4 | _ => 0 end;
  value := fun a => match a with 2 => 3 | 4 => 5 | 6 => 7 | _ => 0 end;
  chars := fun a => match a with
                    | 3 => [98; 0]%Z
                    | 5 => [97; 0]%Z
                    | 7 => [99; 0]%Z
                    | 8 => [100; 0]%Z
                    | 9 => [0; 0; 0; 0]%Z
                    | _ => []
                    end;
  live := fun a => (1 <=? a) && (a <=? 9);
  brk := 10;
  budget := 4
|}.

(** A memory that holds the queue "b", "a" at the head 1. *)
Definition two : heap := {|
  next := fun a => match a with 1 => 2 | 2 => 4 | 4 => 1 | _ => 0 end;
  prev := fun a => match a with 1 => 4 | 2 => 1 | 4 => 2 | _ => 0 end;
  value := fun a => match a with 2 => 3 | 4 => 5 | _ => 0 end;
  chars := fun a => match a with
                    | 3 => [98; 0]%Z
                    | 5 => [97; 0]%Z
                    | _ => []
                    end;
  live := fun a => (1 <=? a) && (a <=? 5);
  brk := 6;
  budget := 0
|}.

Ltac concrete_queue :=
  constructor;
  [ split; [reflexivity|]; split; [cbn; lia|];
    intros a Ha; cbv [three two live brk] in Ha |- *;
    apply andb_false_iff; right; apply Nat.leb_gt; lia
  | repeat (constructor; [cbn; intuition discriminate|]); constructor
  | cbn; unfold wired; cbn; tauto
  | repeat (constructor; [reflexivity|]); constructor
  | repeat (constructor; [reflexivity|]); constructor ].

Lemma three_queue : queue three 1 [2; 4; 6].
Proof. concrete_queue. Qed.

Lemma two_queue : queue two 1 [2; 4].
Proof. concrete_queue. Qed.

Lemma three_receives : receives three 1 [2; 4; 6] 9 4.
Proof.
  intros _. split; [reflexivity|]. split; [cbn; lia|].
  cbn. intuition discriminate.
Qed.

Lemma three_apart : ~ In 8 (1 :: [2; 4; 6] ++ map (value three) [2; 4; 6]).
Proof. cbn. intuition discriminate. Qed.

(** X14, witness: "d" goes to the front of the queue "b", "a", "c". *)
Lemma q_insert_head_spec_witness :
  exists h' e,
    q_insert_head 1 8 three = Some (true, h')
    /\ queue h' 1 (e :: [2; 4; 6])
    /\ contents h' (e :: [2; 4; 6])
       = c_str (chars three 8) :: contents three [2; 4; 6].
Proof.
  exact (q_insert_head_spec three 1 [2; 4; 6] 8 three_queue
           eq_refl eq_refl eq_refl).
Defined.

(** X15, witness: "d" goes to the back of the queue "b", "a", "c". *)
Lemma q_insert_tail_spec_witness :
  exists h' e,
    q_insert_tail 1 8 three = Some (true, h')
    /\ queue h' 1 ([2; 4; 6] ++ [e])
    /\ contents h' ([2; 4; 6] ++ [e])
       = contents three [2; 4; 6] ++ [c_str (chars three 8)].
Proof.
  exact (q_insert_tail_spec three 1 [2; 4; 6] 8 three_queue
           eq_refl eq_refl eq_refl).
Defined.

(** X16, witness: "b" leaves the front, copied into the array at 9. *)
Lemma q_remove_head_spec_witness :
  exists h',
    q_remove_head 1 9 4 three = Some (2, h')
    /\ queue h' 1 [4; 6]
    /\ contents h' [4; 6] = tl (contents three [2; 4; 6])
    /\ handed_over three h' 2 (hd [] (contents three [2; 4; 6])) 9 4.
Proof.
  exact (q_remove_head_spec three 1 [2; 4; 6] 9 4 three_queue three_receives).
Defined.

(** X17, witness: "c" leaves the back, copied into the array at 9. *)
Lemma q_remove_tail_spec_witness :
  exists h',
    q_remove_tail 1 9 4 three = Some (6, h')
    /\ queue h' 1 (removelast [2; 4; 6])
    /\ contents h' (removelast [2; 4; 6])
       = removelast (contents three [2; 4; 6])
    /\ handed_over three h' 6 (last (contents three [2; 4; 6]) []) 9 4.
Proof.
  exact (q_remove_tail_spec three 1 [2; 4; 6] 9 4 three_queue three_receives).
Defined.

(** X18, witness: three elements. *)
Lemma q_size_spec_witness : q_size 3 1 three = Some (3%Z, three).
Proof.
  apply (q_size_spec three 1 [2; 4; 6] 3 three_queue); cbn; unfold INT_MAX; lia.
Defined.

(** X19, witness: the head, three elements and three strings are freed. *)
Lemma q_free_spec_witness :
  exists h',
    q_free 3 1 three = Some (tt, h')
    /\ released three h' (1 :: [2; 4; 6] ++ map (value three) [2; 4; 6]).
Proof.
  apply (q_free_spec three 1 [2; 4; 6] 3 three_queue); cbn; lia.
Defined.

(** X20, witness: "b", "a", "c" becomes "c", "a", "b". *)
Lemma q_reverse_spec_witness :
  exists h',
    q_reverse 3 1 three = Some (tt, h')
    /\ queue h' 1 (rev [2; 4; 6])
    /\ contents h' (rev [2; 4; 6]) = rev (contents three [2; 4; 6])
    /\ relinked three h'.
Proof.
  apply (q_reverse_spec three 1 [2; 4; 6] 3 three_queue); cbn; lia.
Defined.

(** X21, witness: "b", "a", "c" becomes "a", "b", "c". *)
Lemma q_swap_spec_witness :
  exists h',
    q_swap 3 1 three = Some (tt, h')
    /\ queue h' 1 (swap_pairs [2; 4; 6])
    /\ contents h' (swap_pairs [2; 4; 6])
       = swap_pairs (contents three [2; 4; 6])
    /\ relinked three h'.
Proof.
  apply (q_swap_spec three 1 [2; 4; 6] 3 three_queue); cbn; lia.
Defined.

(** X22, witness: of three elements the second, "a", is deleted. *)
Lemma q_delete_mid_spec_witness :
  exists h',
    q_delete_mid 3 1 three = Some (true, h')
    /\ queue h' 1 [2; 6]
    /\ contents h' [2; 6]
       = firstn 1 (contents three [2; 4; 6])
         ++ skipn 2 (contents three [2; 4; 6])
    /\ dropped three h' [4; 5].
Proof.
  apply (q_delete_mid_spec three 1 [2; 4; 6] 3 three_queue); cbn; lia.
Defined.

(** X23, witness: "b", "a", "c" has no two equal neighbours. *)
Lemma q_delete_dup_spec_witness :
  exists h' gone,
    q_delete_dup 3 1 three = Some (true, h')
    /\ queue h' 1 (singles (string_at three) None [2; 4; 6])
    /\ contents h' (singles (string_at three) None [2; 4; 6])
       = singles (fun s => s) None (contents three [2; 4; 6])
    /\ Permutation [2; 4; 6]
         (gone ++ singles (string_at three) None [2; 4; 6])
    /\ dropped three h' (gone ++ map (value three) gone).
Proof.
  apply (q_delete_dup_spec three 1 [2; 4; 6] 3 three_queue); cbn; lia.
Defined.

(** X24, witness: [q_ascend] on "b", "a", "c" keeps "a", "c". *)
Lemma q_ascend_descend_spec_witness :
  exists h' gone,
    q_ascend 3 1 three = Some (2%Z, h')
    /\ queue h' 1 [4; 6]
    /\ contents h' [4; 6]
       = purged (fun s => s) false (contents three [2; 4; 6])
    /\ Sorted (fun a b => (compare_bytes a b < 0)%Z) (contents h' [4; 6])
    /\ Permutation [2; 4; 6] (gone ++ [4; 6])
    /\ dropped three h' (gone ++ map (value three) gone).
Proof.
  apply (q_ascend_descend_spec three 1 [2; 4; 6] 3 false three_queue); cbn; unfold INT_MAX; lia.
Defined.

(** X25, witness: the ascending sort of "b", "a", "c". *)
Lemma q_sort_ascending_spec_witness :
  exists h' sorted,
    q_sort 3 1 false three = Some (tt, h')
    /\ Permutation [2; 4; 6] sorted
    /\ Sorted at_most (contents h' sorted)
    /\ same_blocks three h'
    /\ queue (with_prev h' (last sorted 1) (last (removelast sorted) 1))
         1 sorted
    /\ prev h' (last sorted 1) = prev three (last sorted 1).
Proof.
  apply (q_sort_ascending_spec three 1 [2; 4; 6] 3 three_queue); cbn; unfold INT_MAX; lia.
Defined.

(** X26, witness: the ascending sort of "b", "a". *)
Lemma q_sort_pair_broken_witness :
  exists h',
    q_sort 2 1 false two = Some (tt, h')
    /\ next h' 1 = 4 /\ next h' 4 = 2 /\ next h' 2 = 1
    /\ prev h' 1 = 2 /\ prev h' 2 = 1
    /\ forall l, ~ queue h' 1 l.
Proof.
  apply (q_sort_pair_broken two 1 2 4 2 two_queue); [reflexivity | lia].
Defined.

(** X27, witness: the descending sort of "b", "a", "c". *)
Lemma q_sort_descending_spec_witness :
  exists h' sorted,
    q_sort 3 1 true three = Some (tt, h')
    /\ queue h' 1 sorted
    /\ Permutation [2; 4; 6] sorted
    /\ Sorted (fun a b => at_most b a) (contents h' sorted)
    /\ same_blocks three h'.
Proof.
  apply (q_sort_descending_spec three 1 [2; 4; 6] 3 three_queue); cbn; lia.
Defined.

(** X28, witness: groups of two in "b", "a", "c". *)
Lemma q_reverseK_spec_witness :
  exists h',
    q_reverseK 3 1 2 three = Some (tt, h')
    /\ queue h' 1 [4; 2; 6]
    /\ contents h' [4; 2; 6] = reversedK 2 (contents three [2; 4; 6])
    /\ relinked three h'.
Proof.
  apply (q_reverseK_spec three 1 [2; 4; 6] 3 2 three_queue); cbn; unfold INT_MAX; lia.
Defined.

(** X29, witness: "b" is removed, copied into the array at 9 and freed. *)
Lemma compute_remove_head_spec_witness :
  exists h',
    compute_remove_head 4 1 9 three = Some (0%Z, h')
    /\ queue h' 1 [4; 6]
    /\ contents h' [4; 6] = tl (contents three [2; 4; 6])
    /\ live h' 2 = false /\ live h' 3 = false
    /\ (forall a, a <> 2 -> a <> 3 -> live h' a = live three a)
    /\ (negb (9 =? NULL) && (0 <? 4) = true ->
        c_str (chars h' 9) = firstn (4 - 1) (string_at three 2)).
Proof.
  exact (compute_remove_head_spec three 1 [2; 4; 6] 9 4 three_queue
           three_receives).
Defined.

(** X30, witness: "d" is inserted and removed again. *)
Lemma insert_then_remove_witness :
  exists h',
    (compute_insert_head 1 8 ;;; compute_remove_head 2 1 8) three
    = Some (0%Z, h')
    /\ queue h' 1 [2; 4; 6]
    /\ contents h' [2; 4; 6] = contents three [2; 4; 6]
    /\ (forall a, live h' a = live three a)
    /\ c_str (chars h' 8) = firstn (2 - 1) (c_str (chars three 8))
    /\ budget h' = budget three - 2.
Proof.
  apply (insert_then_remove three 1 [2; 4; 6] 8 2 three_queue);
    try reflexivity; try exact three_apart; cbn; unfold INT_MAX; lia.
Defined.

End QueueRuns.

